(** * Connex: a grid path puzzle

    A shallow embedding of the layout generator, the solvability verifier
    and the movement rules of the Connex game.

    Two sources are embedded: the full game (path templates, transforms,
    anchors, walls, verifier, orchestrator, movement) at top level, and the
    smaller public build ([src/public/connex.js]) in [Module Public] where
    its code differs.  Rendering, the timer and the DOM are left out; the
    text passed to [tell] is kept as the [status] of the game.

    Conventions.
    - A JS number holding a coordinate, an index or a count is a [Z].
    - A cell object [{x, y}] is the pair [(x, y)]; cells are only ever
      compared field by field.  The string key [keyOf(x, y)] is used for
      equality and set membership only, and the decimal rendering of two
      integers separated by a comma is injective, so the key is the pair.
    - A wall key ["x,y|right"] or ["x,y|down"] is the triple [(x, y, dir)].
    - [Math.random()] and [performance.now()] read from tapes: the [i]-th
      call returns the [i]-th entry, and the number of calls made so far is
      threaded through the code that draws from them.
    - An uncaught [TypeError] is a result of its own ([None], or a flag).
    - The orchestrator is followed on one thread of control: the handlers
      that could run while it awaits are not interleaved. *)

From Stdlib Require Import ZArith List Lia Bool QArith Qround Permutation.
From stdpp Require Import base gmap list sorting fin_sets.

Open Scope Z_scope.

(** ** Cells, directions, walls, anchors *)

Abbreviation Cell := (Z * Z)%type.

Inductive Dir := Up | Right | Down | Left.

#[global] Instance Dir_eq_dec : EqDecision Dir.
Proof. solve_decision. Defined.

Definition Dir_to_nat (d : Dir) : nat :=
  match d with Up => 0 | Right => 1 | Down => 2 | Left => 3 end%nat.

Definition Dir_of_nat (n : nat) : option Dir :=
  match n with
  | 0 => Some Up | 1 => Some Right | 2 => Some Down | 3 => Some Left
  | _ => None
  end%nat.

#[global] Program Instance Dir_countable : Countable Dir :=
  inj_countable Dir_to_nat Dir_of_nat _.
Next Obligation. by intros []. Qed.

Abbreviation Wall := (Z * Z * Dir)%type.

Record Anchor := mkAnchor { ax : Z; ay : Z; an : Z }.

Definition keyOf (x y : Z) : Cell := (x, y).

(** [Array.prototype.findIndex]: the first index whose element satisfies
    the predicate, [-1] when there is none. *)
Fixpoint findIndex {A} (P : A → bool) (l : list A) : Z :=
  match l with
  | [] => -1
  | a :: l' =>
      if P a then 0
      else let r := findIndex P l' in if r =? -1 then -1 else r + 1
  end.

(** [Array.prototype.every] with the index passed to the callback. *)
Fixpoint everyi {A} (P : A → nat → bool) (i : nat) (l : list A) : bool :=
  match l with
  | [] => true
  | a :: l' => P a i && everyi P (S i) l'
  end.

Definition cellEq (nx ny : Z) (p : Cell) : bool := (p.1 =? nx) && (p.2 =? ny).

(** ** The game state (the script's globals) *)

Inductive Msg :=
| MsgNone | MsgBlocked | MsgStepBack | MsgAlreadyWalked | MsgWin
| MsgSearching (attempt : nat) | MsgUncertain (attempt : nat)
| MsgNotSolvable (attempt : nat) | MsgExhausted | MsgNewLayout | MsgNew.

Record SavedLayout := mkSaved {
  sv_cols : Z; sv_rows : Z;
  sv_playerStart : Cell; sv_goalPos : Cell;
  sv_anchors : list Anchor; sv_walls : gset Wall
}.

Record Game := mkGame {
  COLS : Z; ROWS : Z;
  player : Cell; goal : Cell;
  trail : list Cell;
  visitedCells : gset Cell;
  anchors : list Anchor;
  anchorsMap : gmap Cell Z;
  walls : gset Wall;
  hasStarted : bool;
  gameOver : bool;
  savedLayout : option SavedLayout;
  status : Msg
}.

Definition tell (m : Msg) (g : Game) : Game :=
  mkGame (COLS g) (ROWS g) (player g) (goal g) (trail g) (visitedCells g)
         (anchors g) (anchorsMap g) (walls g) (hasStarted g) (gameOver g)
         (savedLayout g) m.

Definition set_player (p : Cell) (g : Game) : Game :=
  mkGame (COLS g) (ROWS g) p (goal g) (trail g) (visitedCells g)
         (anchors g) (anchorsMap g) (walls g) (hasStarted g) (gameOver g)
         (savedLayout g) (status g).

Definition set_trail (t : list Cell) (g : Game) : Game :=
  mkGame (COLS g) (ROWS g) (player g) (goal g) t (visitedCells g)
         (anchors g) (anchorsMap g) (walls g) (hasStarted g) (gameOver g)
         (savedLayout g) (status g).

Definition set_visitedCells (v : gset Cell) (g : Game) : Game :=
  mkGame (COLS g) (ROWS g) (player g) (goal g) (trail g) v
         (anchors g) (anchorsMap g) (walls g) (hasStarted g) (gameOver g)
         (savedLayout g) (status g).

Definition set_hasStarted (b : bool) (g : Game) : Game :=
  mkGame (COLS g) (ROWS g) (player g) (goal g) (trail g) (visitedCells g)
         (anchors g) (anchorsMap g) (walls g) b (gameOver g)
         (savedLayout g) (status g).

Definition set_gameOver (b : bool) (g : Game) : Game :=
  mkGame (COLS g) (ROWS g) (player g) (goal g) (trail g) (visitedCells g)
         (anchors g) (anchorsMap g) (walls g) (hasStarted g) b
         (savedLayout g) (status g).

Definition set_walls (w : gset Wall) (g : Game) : Game :=
  mkGame (COLS g) (ROWS g) (player g) (goal g) (trail g) (visitedCells g)
         (anchors g) (anchorsMap g) w (hasStarted g) (gameOver g)
         (savedLayout g) (status g).

Definition set_anchors (a : list Anchor) (am : gmap Cell Z) (g : Game) : Game :=
  mkGame (COLS g) (ROWS g) (player g) (goal g) (trail g) (visitedCells g)
         a am (walls g) (hasStarted g) (gameOver g)
         (savedLayout g) (status g).

(** [buildGrid]: the grid dimensions (the cell size and the [grid] array
    serve rendering only). *)
Definition buildGrid (cols rows : Z) (g : Game) : Game :=
  mkGame cols rows (player g) (goal g) (trail g) (visitedCells g)
         (anchors g) (anchorsMap g) (walls g) (hasStarted g) (gameOver g)
         (savedLayout g) (status g).

(** ** Utils *)

Definition getCellNumber (am : gmap Cell Z) (x y : Z) : option Z :=
  am !! keyOf x y.

Definition K (g : Game) : Z := Z.of_nat (length (anchors g)).

(** First-visit order of the numbers along a trail: the loop of
    [numbersFirstOrder], with its [seen] set and its [order] array. *)
Fixpoint numbersFirstOrder_loop (am : gmap Cell Z) (t : list Cell)
    (seen : gset Z) (order : list Z) : list Z :=
  match t with
  | [] => order
  | p :: t' =>
      match getCellNumber am p.1 p.2 with
      | Some n =>
          if decide (n ∈ seen) then numbersFirstOrder_loop am t' seen order
          else numbersFirstOrder_loop am t' ({[n]} ∪ seen) (order ++ [n])
      | None => numbersFirstOrder_loop am t' seen order
      end
  end.

Definition numbersFirstOrder (g : Game) : list Z :=
  numbersFirstOrder_loop (anchorsMap g) (trail g) ∅ [].

(** The map the code keeps beside [anchors]: one [anchorsMap.set] per
    anchor, in order. *)
Definition anchorsMapOf (l : list Anchor) : gmap Cell Z :=
  foldl (λ m a, <[keyOf (ax a) (ay a) := an a]> m) ∅ l.

(** ** The grid *)

Definition inGrid (cols rows : Z) (c : Cell) : Prop :=
  0 ≤ c.1 < cols ∧ 0 ≤ c.2 < rows.

(** Every cell of the grid, row by row. *)
Definition gridCells (cols rows : Z) : list Cell :=
  y ← seqZ 0 rows; x ← seqZ 0 cols; [(x, y)].

(** A path that holds every cell of the grid exactly once. *)
Definition Hamiltonian (cols rows : Z) (p : list Cell) : Prop :=
  NoDup p ∧ ∀ c, c ∈ p ↔ inGrid cols rows c.

(** ** Path templates *)

(** The values of [for (let b = 0; b < n; b += 2)]. *)
Definition evens (n : Z) : list Z := filter (λ b, b mod 2 = 0) (seqZ 0 n).

Definition buildSnakePathBase (cols rows : Z) : list Cell :=
  y ← seqZ 0 rows;
  if y mod 2 =? 0 then (λ x, (x, y)) <$> seqZ 0 cols
  else (λ x, (x, y)) <$> reverse (seqZ 0 cols).

(** The backstop shared by the templates that can miss cells:
    [if (path.length !== total)], every cell of the base snake that
    [path.some] does not find is pushed. *)
Definition fillMissing (cols rows : Z) (path : list Cell) : list Cell :=
  if Z.of_nat (length path) =? cols * rows then path
  else foldl (λ acc (p : Cell),
                if existsb (cellEq p.1 p.2) acc then acc else acc ++ [p])
             path (buildSnakePathBase cols rows).

Definition buildBlockSnakePath (cols rows : Z) : list Cell :=
  by_ ← evens rows;
  let top := by_ in
  let bottom := Z.min (by_ + 1) (rows - 1) in
  let leftToRight := (by_ / 2) mod 2 =? 0 in
  x ← (if leftToRight then seqZ 0 cols else reverse (seqZ 0 cols));
  (x, top) :: (if bottom =? top then [] else [(x, bottom)]).

Definition buildTileSnakePath (cols rows : Z) : list Cell :=
  fillMissing cols rows
    (ty ← evens rows;
     let tiles :=
       (λ tx,
          let xs0 := tx in
          let xs1 := Z.min (tx + 1) (cols - 1) in
          let ys0 := ty in
          let ys1 := Z.min (ty + 1) (rows - 1) in
          [(xs0, ys0)]
          ++ (if negb (xs1 =? xs0) || negb (ys0 =? ys0) then [(xs1, ys0)] else [])
          ++ (if negb (ys1 =? ys0) then [(xs1, ys1)] else [])
          ++ (if negb (xs1 =? xs0) then [(xs0, ys1)] else []))
       <$> evens cols in
     mjoin (if (ty / 2) mod 2 =? 1 then reverse tiles else tiles)).

Definition buildCheckerboardPath (cols rows : Z) : list Cell :=
  fillMissing cols rows
    (x ← evens cols;
     let left := x in
     let right := Z.min (x + 1) (cols - 1) in
     let stripe := x / 2 in
     y ← (if stripe mod 2 =? 0 then seqZ 0 rows else reverse (seqZ 0 rows));
     (left, y) :: (if right =? left then [] else [(right, y)])).

Definition buildCheckerboard2x2Path (cols rows : Z) : list Cell :=
  fillMissing cols rows
    (by_ ← evens rows;
     let blockRow := by_ / 2 in
     let blockCols :=
       if blockRow mod 2 =? 1 then reverse (evens cols) else evens cols in
     bx ← blockCols;
     let xs := [bx; Z.min (bx + 1) (cols - 1)] in
     let ys0 := by_ in
     let ys1 := Z.min (by_ + 1) (rows - 1) in
     y ← (if (bx / 2 + blockRow) mod 2 =? 0
          then seqZ ys0 (ys1 - ys0 + 1)
          else reverse (seqZ ys0 (ys1 - ys0 + 1)));
     x ← xs; [(x, y)]).

(** ** The random tape *)

Abbreviation Tape := (nat → Q).

(** [Math.random() < p], reading entry [i] of the tape. *)
Definition randomBelow (rnd : Tape) (i : nat) (p : Q) : bool :=
  negb (Qle_bool p (rnd i)).

(** [Math.floor(Math.random() * n)], reading entry [i] of the tape. *)
Definition randomInt (rnd : Tape) (i : nat) (n : Z) : Z :=
  Qfloor (rnd i * inject_Z n).

(** ** Transforms *)

(** [rot] is drawn as [Math.floor(Math.random() * 4)], a natural number. *)
Definition rotatePoint (p : Cell) (rot : nat) (cols rows : Z) : Cell :=
  let '(x, y) := p in
  match (rot mod 4)%nat with
  | 0%nat => (x, y)
  | 1%nat => (y, cols - 1 - x)
  | 2%nat => (cols - 1 - x, rows - 1 - y)
  | _ => (rows - 1 - y, x)
  end.

Definition rotatePath (rot : nat) (cols rows : Z) (snake : list Cell)
    : list Cell :=
  (λ pt, rotatePoint pt rot cols rows) <$> snake.

Definition mirrorH (cols : Z) (snake : list Cell) : list Cell :=
  (λ pt : Cell, (cols - 1 - pt.1, pt.2)) <$> snake.

Definition mirrorV (rows : Z) (snake : list Cell) : list Cell :=
  (λ pt : Cell, (pt.1, rows - 1 - pt.2)) <$> snake.

(** "Random rotation, flips, reversal": the four draws that follow the
    choice of a template in [buildRandomSnakePath]. *)
Definition transformSnake (rnd : Tape) (cols rows : Z) (snake : list Cell)
    (i : nat) : list Cell * nat :=
  let rot := Z.to_nat (randomInt rnd i 4) in
  let snake := rotatePath rot cols rows snake in
  let snake := if randomBelow rnd (i + 1) (1 # 2) then mirrorH cols snake else snake in
  let snake := if randomBelow rnd (i + 2) (1 # 2) then mirrorV rows snake else snake in
  let snake := if randomBelow rnd (i + 3) (1 # 2) then reverse snake else snake in
  (snake, (i + 4)%nat).

(** The templates embedded here, by the name the page passes. *)
Inductive Template := Serpentine | Block | Tile | Checkerboard | Checker2.

Definition templatePath (t : Template) (cols rows : Z) : list Cell :=
  match t with
  | Serpentine => buildSnakePathBase cols rows
  | Block => buildBlockSnakePath cols rows
  | Tile => buildTileSnakePath cols rows
  | Checkerboard => buildCheckerboardPath cols rows
  | Checker2 => buildCheckerboard2x2Path cols rows
  end.

(** A path generator as the orchestrator uses it: from the grid size and
    the numbers of tape and clock reads made so far to the path and the new
    numbers of reads; [None] when it throws. *)
Abbreviation SnakeGen := (Z → Z → nat → nat → option (list Cell * nat * nat)).

(** [buildRandomSnakePath(cols, rows, template)] for an explicit template
    among the five above.  The other templates and the weighted choice of
    ['auto'] are not embedded: the orchestrator below takes its generator
    as an argument. *)
Definition buildRandomSnakePath (rnd : Tape) (t : Template) : SnakeGen :=
  λ cols rows i c,
    let '(snake, i') := transformSnake rnd cols rows (templatePath t cols rows) i in
    Some (snake, i', c).

(** ** Walls *)

Definition blockedByWall (ws : gset Wall) (x0 y0 nx ny : Z) : bool :=
  let dx := nx - x0 in
  let dy := ny - y0 in
  if (dx =? 1) && (dy =? 0) then bool_decide ((x0, y0, Right) ∈ ws)
  else if (dx =? -1) && (dy =? 0) then bool_decide ((nx, ny, Right) ∈ ws)
  else if (dx =? 0) && (dy =? 1) then bool_decide ((x0, y0, Down) ∈ ws)
  else if (dx =? 0) && (dy =? -1) then bool_decide ((nx, ny, Down) ∈ ws)
  else false.

(** One edge of [buildShortcutWallsFromSnake]: the wall [w] between the
    cells [a] and [b].  The tape is read only when the edge is not
    consecutive on the snake ([&&] short-circuits). *)
Definition wallEdge (rnd : Tape) (snake : list Cell) (wallPct : Q)
    (a b : Cell) (w : Wall) (st : gset Wall * nat) : gset Wall * nat :=
  let i := findIndex (cellEq a.1 a.2) snake in
  let j := findIndex (cellEq b.1 b.2) snake in
  let consecutive := Z.abs (i - j) =? 1 in
  if consecutive then st
  else if randomBelow rnd st.2 wallPct then ({[w]} ∪ st.1, S st.2)
       else (st.1, S st.2).

(** The body of the two nested loops, for the cell [(x, y)]. *)
Definition wallCell (rnd : Tape) (cols rows : Z) (snake : list Cell)
    (wallPct : Q) (y : Z) (st : gset Wall * nat) (x : Z) : gset Wall * nat :=
  let st1 :=
    if x <? cols - 1
    then wallEdge rnd snake wallPct (x, y) (x + 1, y) (x, y, Right) st
    else st in
  if y <? rows - 1
  then wallEdge rnd snake wallPct (x, y) (x, y + 1) (x, y, Down) st1
  else st1.

Definition buildShortcutWallsFromSnake (rnd : Tape) (snake : list Cell)
    (wallPct : Q) (g : Game) (i : nat) : Game * nat :=
  let cleared : gset Wall := ∅ in
  let st :=
    foldl (λ st y, foldl (wallCell rnd (COLS g) (ROWS g) snake wallPct y)
                         st (seqZ 0 (COLS g)))
          (cleared, i) (seqZ 0 (ROWS g)) in
  (set_walls st.1 g, st.2).

(** ** Anchors *)

(** [[pool[i], pool[j]] = [pool[j], pool[i]]].  Both indices are in range
    when the tape is in [0, 1), as [Math.random()] is; otherwise the model
    leaves the array as it is. *)
Definition swap (i j : nat) (pool : list nat) : list nat :=
  match pool !! i, pool !! j with
  | Some a, Some b => <[j := a]> (<[i := b]> pool)
  | _, _ => pool
  end.

Definition shuffleStep (rnd : Tape) (st : list nat * nat) (i : nat)
    : list nat * nat :=
  let j := Z.to_nat (randomInt rnd st.2 (Z.of_nat i + 1)) in
  (swap i j st.1, S st.2).

(** The loop [for (let i = pool.length - 1; i > 0; i--)]. *)
Definition shufflePool (rnd : Tape) (pool : list nat) (k : nat)
    : list nat * nat :=
  foldl (shuffleStep rnd) (pool, k) (reverse (seq 1 (length pool - 1))).

(** The first loop over the pool; once [picks.length === K] nothing more
    is pushed, which is what [break] does. *)
Definition greedyPicks (Knum minGap : Z) (pool : list nat) : list nat :=
  foldl (λ picks idx,
           if Z.of_nat (length picks) =? Knum then picks
           else if forallb (λ p, Z.abs (Z.of_nat p - Z.of_nat idx) >=? minGap) picks
                then picks ++ [idx] else picks)
        [] pool.

(** The [while (picks.length < K && fill < pool.length)] loop. *)
Definition fillPicks (Knum : Z) (picks pool : list nat) : list nat :=
  foldl (λ picks idx,
           if Z.of_nat (length picks) <? Knum
           then if bool_decide (idx ∈ picks) then picks else picks ++ [idx]
           else picks)
        picks pool.

(** The numeric comparator [(a, b) => a - b] is a consistent ordering, so
    every engine returns the ascending arrangement. *)
Definition pickIndicesWithMinGap (rnd : Tape) (len : nat) (Knum minGap : Z)
    (k : nat) : list nat * nat :=
  let shuffled := shufflePool rnd (seq 0 len) k in
  let pool := shuffled.1 in
  let picks := fillPicks Knum (greedyPicks Knum minGap pool) pool in
  (merge_sort (≤)%nat picks, shuffled.2).

(** [((j - shift + Knum) % Knum) + 1] *)
Definition anchorNumber (j shift Knum : Z) : Z :=
  Z.rem (j - shift + Knum) Knum + 1.

(** The loop that places the anchors, over the values [js] of [j].  The
    flag is [false] when [const { x, y } = snake[idx]] throws a
    [TypeError] because [snake[idx]] is [undefined]; the anchors pushed
    before that stay. *)
Fixpoint placeAnchors (snake : list Cell) (idxs : list nat) (shift Knum : Z)
    (js : list Z) (acc : list Anchor * gmap Cell Z)
    : list Anchor * gmap Cell Z * bool :=
  match js with
  | [] => (acc, true)
  | j :: js' =>
      match idxs !! Z.to_nat j ≫= (snake !!.) with
      | Some (x, y) =>
          let num := anchorNumber j shift Knum in
          placeAnchors snake idxs shift Knum js'
            (acc.1 ++ [mkAnchor x y num], <[keyOf x y := num]> acc.2)
      | None => (acc, false)
      end
  end.

(** ** Movement *)

Definition isImmediateBack (t : list Cell) (nx ny : Z) : bool :=
  if (length t <? 2)%nat then false
  else match t !! (length t - 2)%nat with
       | Some prev => (prev.1 =? nx) && (prev.2 =? ny)
       | None => false
       end.

(** The array [1..K] built by [Array.from({ length: K() }, (_, i) => i + 1)]. *)
Definition mustOrder (k : nat) : list Z :=
  map (λ i, Z.of_nat i + 1) (seq 0 k).

Definition visitedInOrder (g : Game) : bool :=
  let order := numbersFirstOrder g in
  let must := mustOrder (length (anchors g)) in
  (Z.of_nat (length order) =? K g)
  && everyi (λ n i, bool_decide (must !! i = Some n)) 0 order.

(** The part of [move] shared by the two builds: everything up to the win
    test.  [None] is an uncaught [TypeError]. *)
Definition stepTarget (dir : Dir) (g : Game) : Cell :=
  let x0 := (player g).1 in
  let y0 := (player g).2 in
  (match dir with Right => x0 + 1 | Left => x0 - 1 | _ => x0 end,
   match dir with Up => y0 - 1 | Down => y0 + 1 | _ => y0 end).

Definition outOfBounds (g : Game) (nx ny : Z) : bool :=
  (nx <? 0) || (ny <? 0) || (nx >=? COLS g) || (ny >=? ROWS g).

Definition forwardStep (nx ny : Z) (g : Game) : Game :=
  let x0 := (player g).1 in
  let y0 := (player g).2 in
  let g1 :=
    if negb (hasStarted g) && (negb (nx =? x0) || negb (ny =? y0))
    then set_hasStarted true g else g in
  let g2 := set_player (nx, ny) g1 in
  let g3 := set_trail (trail g2 ++ [(nx, ny)]) g2 in
  set_visitedCells ({[keyOf nx ny]} ∪ visitedCells g3) g3.

Definition winTest (walkedAll : Game → bool) (g : Game) : option Game :=
  match find (λ a, an a =? K g) (anchors g) with
  | None => None
  | Some finalA =>
      let atGoal := ((player g).1 =? ax finalA) && ((player g).2 =? ay finalA) in
      if walkedAll g && visitedInOrder g && atGoal
      then Some (tell MsgWin (set_gameOver true g))
      else Some g
  end.

Definition moveWith (walkedAll : Game → bool) (dir : Dir) (g : Game)
    : option Game :=
  if gameOver g then Some g
  else
    let x0 := (player g).1 in
    let y0 := (player g).2 in
    let '(nx, ny) := stepTarget dir g in
    if outOfBounds g nx ny then Some g
    else if blockedByWall (walls g) x0 y0 nx ny then Some (tell MsgBlocked g)
    else
      let idx := findIndex (cellEq nx ny) (trail g) in
      if negb (idx =? -1) then
        if isImmediateBack (trail g) nx ny then
          Some (tell MsgStepBack
                  (set_player (nx, ny) (set_trail (removelast (trail g)) g)))
        else Some (tell MsgAlreadyWalked g)
      else winTest walkedAll (forwardStep nx ny g).

(** Full coverage in the full game: the current trail has every cell
    ("no lingering visited credit"). *)
Definition walkedAll (g : Game) : bool :=
  Z.of_nat (length (trail g)) =? COLS g * ROWS g.

Definition move (dir : Dir) (g : Game) : option Game :=
  moveWith walkedAll dir g.

Module Public.

(** Full coverage in the public build: the size of [visitedCells], which
    a step back does not shrink. *)
Definition walkedAll (g : Game) : bool :=
  Z.of_nat (size (visitedCells g)) =? COLS g * ROWS g.

Definition move (dir : Dir) (g : Game) : option Game :=
  moveWith walkedAll dir g.

End Public.

(** ** The solvability verifier *)

(** The values returned by successive calls of [performance.now()]. *)
Abbreviation Clock := (nat → Q).

(** [Array.prototype.sort] with a comparator: the verifier's comparator is
    not a consistent ordering, so the order of the result depends on the
    engine; the array is a rearrangement of its input in every engine. *)
Abbreviation Sorter := ((Cell → Cell → Z) → list Cell → list Cell).

Record Search := mkSearch {
  visitedSet : gset Cell;
  found : bool;
  clockReads : nat
}.

Definition dirs : list (Z * Z) := [(0, -1); (1, 0); (0, 1); (-1, 0)].

(** [performance.now() > deadline] *)
Definition pastDeadline (now : Clock) (deadline : Q) (s : Search)
    : bool * Search :=
  (negb (Qle_bool (now (clockReads s)) deadline),
   mkSearch (visitedSet s) (found s) (S (clockReads s))).

(** One iteration of the [while (q.length)] loop of [canReachAllFrom]:
    the four neighbours of the dequeued cell [p]. *)
Definition reachExpand (g : Game) (visited : gset Cell) (p : Cell)
    (st : list Cell * gset Cell * Z) : list Cell * gset Cell * Z :=
  foldl (λ (st : list Cell * gset Cell * Z) (d : Z * Z),
           let '(q, seen, count) := st in
           let nx := p.1 + d.1 in
           let ny := p.2 + d.2 in
           if outOfBounds g nx ny then st
           else if blockedByWall (walls g) p.1 p.2 nx ny then st
           else if bool_decide (keyOf nx ny ∈ visited)
                   || bool_decide (keyOf nx ny ∈ seen) then st
           else (q ++ [(nx, ny)], {[keyOf nx ny]} ∪ seen, count + 1))
        st dirs.

(** The queue loop; [None] when the fuel runs out before the queue is
    empty, which [reachLoop_total] shows does not happen. *)
Fixpoint reachLoop (fuel : nat) (g : Game) (visited : gset Cell)
    (q : list Cell) (seen : gset Cell) (count : Z) : option Z :=
  match q with
  | [] => Some count
  | p :: q' =>
      match fuel with
      | O => None
      | S fuel' =>
          let '(q'', seen', count') := reachExpand g visited p (q', seen, count) in
          reachLoop fuel' g visited q'' seen' count'
      end
  end.

Definition reachFuel (g : Game) : nat := S (S (length (gridCells (COLS g) (ROWS g)))).

(** The scan of [canReachAllFrom]; the fuel is enough for its queue loop
    ([canReachAllFrom_total]), so the last case does not arise. *)
Definition canReachAllFrom (g : Game) (sx sy : Z) (visited : gset Cell) : bool :=
  let total := COLS g * ROWS g in
  match reachLoop (reachFuel g) g visited [(sx, sy)] {[keyOf sx sy]} 0 with
  | Some count =>
      let remaining := total - Z.of_nat (size visited) in
      count + 1 >=? remaining
  | None => false
  end.

(** The unvisited, unblocked, in-bounds neighbours, in the order of [dirs]. *)
Definition neighbours (g : Game) (x y : Z) (visited : gset Cell) : list Cell :=
  omap (λ d : Z * Z,
          let nx := x + d.1 in
          let ny := y + d.2 in
          if outOfBounds g nx ny then None
          else if blockedByWall (walls g) x y nx ny then None
          else if bool_decide (keyOf nx ny ∈ visited) then None
          else Some (nx, ny))
       dirs.

(** The comparator passed to [neigh.sort]. *)
Definition neighCompare (g : Game) (nextRequired : option Z) (a b : Cell) : Z :=
  if decide (getCellNumber (anchorsMap g) a.1 a.2 = nextRequired) then -1
  else if decide (getCellNumber (anchorsMap g) b.1 b.2 = nextRequired) then 1
  else 0.

Definition set_found (s : Search) : Search :=
  mkSearch (visitedSet s) true (clockReads s).

Definition set_visitedSet (v : gset Cell) (s : Search) : Search :=
  mkSearch v (found s) (clockReads s).

(** The [for (const nb of neigh)] loop of [dfs]; [rec] is the recursive call. *)
Fixpoint dfsLoop (now : Clock) (deadline : Q) (g : Game)
    (rec : Z → Z → option Z → Search → option Search)
    (neigh : list Cell) (nextRequired : option Z) (s : Search)
    : option Search :=
  match neigh with
  | [] => Some s
  | nb :: rest =>
      if found s then Some s
      else
        let kk := keyOf nb.1 nb.2 in
        let num := getCellNumber (anchorsMap g) nb.1 nb.2 in
        if bool_decide (num ≠ None) && bool_decide (num ≠ nextRequired)
        then dfsLoop now deadline g rec rest nextRequired s
        else
          let s1 := set_visitedSet ({[kk]} ∪ visitedSet s) s in
          let newNext :=
            if bool_decide (num ≠ None) && bool_decide (num = nextRequired)
            then (if bool_decide (nextRequired = Some (K g)) then None
                  else (λ n, n + 1) <$> nextRequired)
            else nextRequired in
          match rec nb.1 nb.2 newNext s1 with
          | None => None
          | Some s2 =>
              if found s2 then Some s2
              else
                let s3 := set_visitedSet (visitedSet s2 ∖ {[kk]}) s2 in
                let '(late, s4) := pastDeadline now deadline s3 in
                if late then Some s4
                else dfsLoop now deadline g rec rest nextRequired s4
          end
  end.

(** The recursive search.  The fuel bounds the depth of the recursion;
    [None] when it runs out, which [dfs_total] shows does not happen. *)
Fixpoint dfs (fuel : nat) (now : Clock) (sortBy : Sorter) (deadline : Q)
    (g : Game) (goalX goalY : Z) (x y : Z) (nextRequired : option Z)
    (s : Search) : option Search :=
  match fuel with
  | O => None
  | S fuel' =>
      if found s then Some s
      else
        let '(late, s) := pastDeadline now deadline s in
        if late then Some s
        else if negb (canReachAllFrom g x y (visitedSet s)) then Some s
        else if Z.of_nat (size (visitedSet s)) =? COLS g * ROWS g then
          if (x =? goalX) && (y =? goalY) && bool_decide (nextRequired = None)
          then Some (set_found s) else Some s
        else
          let neigh :=
            sortBy (neighCompare g nextRequired)
                   (neighbours g x y (visitedSet s)) in
          dfsLoop now deadline g
                  (dfs fuel' now sortBy deadline g goalX goalY)
                  neigh nextRequired s
  end.

Definition searchFuel (g : Game) : nat := S (length (gridCells (COLS g) (ROWS g))).

(** [isLayoutSolvable]: the answer and the number of clock reads made.
    The last argument is the number of clock reads made before the call.
    The fuel is enough for the recursion ([dfs_total]), so the last case
    does not arise with a sorter that rearranges its input. *)
Definition isLayoutSolvable (now : Clock) (sortBy : Sorter) (g : Game)
    (startX startY goalX goalY : Z) (timeBudgetMs : Z) (reads : nat)
    : bool * nat :=
  let Knum := K g in
  let startNum := getCellNumber (anchorsMap g) startX startY in
  if bool_decide (startNum ≠ None) && bool_decide (startNum ≠ Some 1)
  then (false, reads)
  else
    let deadline := (now reads + inject_Z timeBudgetMs)%Q in
    let visited : gset Cell := {[keyOf startX startY]} in
    let initialNext :=
      if bool_decide (startNum = Some 1)
      then (if Knum =? 1 then None else Some 2)
      else Some 1 in
    match dfs (searchFuel g) now sortBy deadline g goalX goalY
              startX startY initialNext (mkSearch visited false (S reads)) with
    | Some s => (found s, clockReads s)
    | None => (false, S reads)
    end.

(** ** The generation orchestrator *)

(** A level definition: the fields of a [MODES] entry that generation reads. *)
Record LevelDef := mkDef {
  d_cols : Z; d_rows : Z; d_K : Z; d_minGap : Z; d_wallPct : Q
}.

(** The globals together with the number of reads made so far from the
    random tape and from the clock. *)
Record World := mkWorld { game : Game; rndReads : nat; nowReads : nat }.

(** The places where an attempt runs [await new Promise(r => setTimeout(r, 0))]:
    after the candidate is installed and announced, before the checks, and
    after the message of a failed check. *)
Inductive YieldPoint := BeforeCheck (attempt : nat) | AfterFail (attempt : nat).

(** What the event loop runs while a request is suspended at a yield
    point: the key, click and change handlers, and other requests in
    flight.  The script is single-threaded, so this is a change of the
    globals between the statement before the [await] and the one after. *)
Definition Yield := YieldPoint → World → World.

Definition MAX_ATTEMPTS : nat := 50.

(** The assignments that follow [player = ...] in an attempt: the goal on
    the last anchor, a trail and a coverage set holding the player's cell,
    and the round reset. *)
Definition placePlayer (finalA : Anchor) (g : Game) : Game :=
  mkGame (COLS g) (ROWS g) (player g) (ax finalA, ay finalA) [player g]
         {[keyOf (player g).1 (player g).2]}
         (anchors g) (anchorsMap g) (walls g) false false
         (savedLayout g) (status g).

(** [savedLayout = { cols, rows, playerStart, goalPos, anchors, walls }] *)
Definition set_savedLayout (g : Game) : Game :=
  mkGame (COLS g) (ROWS g) (player g) (goal g) (trail g) (visitedCells g)
         (anchors g) (anchorsMap g) (walls g) (hasStarted g) (gameOver g)
         (Some (mkSaved (COLS g) (ROWS g) (player g) (goal g) (anchors g) (walls g)))
         (status g).

(** The two verifier calls that end an attempt: the quick check, and the
    confirmation when it passes.  A failed check is followed by its
    message and a yield. *)
Definition checkCandidate (now : Clock) (sortBy : Sorter) (env : Yield)
    (attempt : nat) (g : Game) (i c : nat) : World * option bool :=
  let '(quick, c) :=
    isLayoutSolvable now sortBy g (player g).1 (player g).2
                     (goal g).1 (goal g).2 400 c in
  if quick then
    let '(confirmed, c) :=
      isLayoutSolvable now sortBy g (player g).1 (player g).2
                       (goal g).1 (goal g).2 2000 c in
    if confirmed then (mkWorld g i c, Some true)
    else (env (AfterFail attempt)
              (mkWorld (tell (MsgUncertain attempt) g) i c), Some false)
  else (env (AfterFail attempt)
            (mkWorld (tell (MsgNotSolvable attempt) g) i c), Some false).

(** The body of the [while] loop: one generation attempt.  The result is
    the globals it leaves and the final value of [solvable], or [None]
    when the attempt ends in an uncaught [TypeError].  [withWalls]
    distinguishes [generateLevel], which calls
    [buildShortcutWallsFromSnake], from [generateZip6x6], which does not.
    The attempt yields once the candidate is installed and announced, and
    the checks read the player and the goal from the globals it finds
    when it resumes. *)
Definition attemptOnce (rnd : Tape) (now : Clock) (sortBy : Sorter)
    (env : Yield) (gen : SnakeGen) (withWalls : bool) (def : LevelDef)
    (attempt : nat) (w : World) : World * option bool :=
  let g := buildGrid (d_cols def) (d_rows def) (game w) in
  match gen (d_cols def) (d_rows def) (rndReads w) (nowReads w) with
  | None => (mkWorld g (rndReads w) (nowReads w), None)
  | Some (snake, i, c) =>
      let g := set_walls ∅ (set_anchors [] ∅ g) in
      let Knum := d_K def in
      let picked :=
        pickIndicesWithMinGap rnd (length snake) Knum (d_minGap def) i in
      let shift := randomInt rnd picked.2 Knum in
      let i := S picked.2 in
      let '(placed, ok) :=
        placeAnchors snake picked.1 shift Knum (seqZ 0 Knum) ([], ∅) in
      let g := set_anchors placed.1 placed.2 g in
      if negb ok then (mkWorld g i c, None)
      else
        let '(g, i) :=
          if withWalls
          then buildShortcutWallsFromSnake rnd snake (d_wallPct def) g i
          else (g, i) in
        match find (λ a, an a =? 1) (anchors g) with
        | None => (mkWorld g i c, None)
        | Some startA =>
            let g := set_player (ax startA, ay startA) g in
            match find (λ a, an a =? Knum) (anchors g) with
            | None => (mkWorld g i c, None)
            | Some finalA =>
                let w1 :=
                  env (BeforeCheck attempt)
                      (mkWorld (tell (MsgSearching attempt)
                                     (placePlayer finalA g)) i c) in
                checkCandidate now sortBy env attempt
                               (game w1) (rndReads w1) (nowReads w1)
            end
        end
  end.

(** How a generation request ends. *)
Inductive Ending := Solved | Exhausted | Threw.

(** The result of a request: how it ended, the verdict of each attempt it
    made, in order ([Some true] passed both checks, [Some false] did not,
    [None] threw), and the globals it leaves. *)
Record Generated := mkGenerated {
  ending : Ending;
  verdicts : list (option bool);
  world : World
}.

Definition attemptsMade (r : Generated) : nat := length (verdicts r).

(** The [while (attempt < MAX_ATTEMPTS && !solvable)] loop and what
    follows it; [left_] is [MAX_ATTEMPTS - attempt]. *)
Fixpoint attemptLoop (rnd : Tape) (now : Clock) (sortBy : Sorter)
    (env : Yield) (gen : SnakeGen) (withWalls : bool) (def : LevelDef)
    (left_ : nat) (attempt : nat) (log : list (option bool)) (w : World)
    : Generated :=
  match left_ with
  | O =>
      mkGenerated Exhausted log
        (mkWorld (tell MsgExhausted (game w)) (rndReads w) (nowReads w))
  | S left' =>
      match attemptOnce rnd now sortBy env gen withWalls def (S attempt) w with
      | (w', None) => mkGenerated Threw (log ++ [None]) w'
      | (w', Some true) =>
          mkGenerated Solved (log ++ [Some true])
            (mkWorld (tell MsgNewLayout (set_savedLayout (game w')))
                     (rndReads w') (nowReads w'))
      | (w', Some false) =>
          attemptLoop rnd now sortBy env gen withWalls def
                      left' (S attempt) (log ++ [Some false]) w'
      end
  end.

Definition generateLevel (rnd : Tape) (now : Clock) (sortBy : Sorter)
    (env : Yield) (gen : SnakeGen) (def : LevelDef) (w : World) : Generated :=
  attemptLoop rnd now sortBy env gen true def MAX_ATTEMPTS 0 [] w.

(** The fixed configuration of [generateZip6x6]. *)
Definition zipDef : LevelDef := mkDef 6 6 12 2 0.

Definition generateZip6x6 (rnd : Tape) (now : Clock) (sortBy : Sorter)
    (env : Yield) (gen : SnakeGen) (w : World) : Generated :=
  attemptLoop rnd now sortBy env gen false zipDef MAX_ATTEMPTS 0 [] w.


(** * Specification *)

(** ** Paths *)

Definition isHamiltonianb (cols rows : Z) (p : list Cell) : bool :=
  bool_decide (NoDup p)
  && forallb (λ c : Cell,
                (0 <=? c.1) && (c.1 <? cols) && (0 <=? c.2) && (c.2 <? rows)) p
  && (Z.of_nat (length p) =? Z.max 0 cols * Z.max 0 rows).

(** A transform keeps the length of a Hamiltonian path and yields a
    Hamiltonian path of the same grid. *)
Definition transformClosed (cols rows : Z) (f : list Cell → list Cell) : Prop :=
  ∀ p, Hamiltonian cols rows p →
       length (f p) = length p ∧ Hamiltonian cols rows (f p).

(** ** Walls *)

(** Two cells are consecutive on a path. *)
Definition consecutiveOn (snake : list Cell) (a b : Cell) : Prop :=
  ∃ i : nat, (snake !! i = Some a ∧ snake !! S i = Some b)
           ∨ (snake !! i = Some b ∧ snake !! S i = Some a).

(** The wall that lies on the grid edge between two cells, if they are
    4-adjacent: it is stored with the left or upper cell. *)
Definition edgeWall (a b : Cell) : option Wall :=
  if decide (b = (a.1 + 1, a.2)) then Some (a.1, a.2, Right)
  else if decide (a = (b.1 + 1, b.2)) then Some (b.1, b.2, Right)
  else if decide (b = (a.1, a.2 + 1)) then Some (a.1, a.2, Down)
  else if decide (a = (b.1, b.2 + 1)) then Some (b.1, b.2, Down)
  else None.

(** What the code has checked of an edge it walls. *)
Definition wallAllowed (snake : list Cell) (w : Wall) : Prop :=
  match w with
  | (x, y, Right) =>
      Z.abs (findIndex (cellEq x y) snake - findIndex (cellEq (x + 1) y) snake) ≠ 1
  | (x, y, Down) =>
      Z.abs (findIndex (cellEq x y) snake - findIndex (cellEq x (y + 1)) snake) ≠ 1
  | _ => False
  end.

(** ** Anchors *)

(** [Math.random()] returns a number in [0, 1). *)
Definition tapeInRange (rnd : Tape) : Prop :=
  ∀ i, (0 <= rnd i)%Q ∧ (rnd i < 1)%Q.

(** The anchor the placement loop builds for [j]. *)
Definition anchorAt (snake : list Cell) (idxs : list nat) (shift Knum : Z)
    (j : Z) : option Anchor :=
  c ← idxs !! Z.to_nat j ≫= (snake !!.);
  Some (mkAnchor c.1 c.2 (anchorNumber j shift Knum)).

(** ** Routes *)

(** A legal step: onto a cell of the grid, 4-adjacent, with no wall between. *)
Definition stepOK (g : Game) (a b : Cell) : Prop :=
  inGrid (COLS g) (ROWS g) b
  ∧ Z.abs (b.1 - a.1) + Z.abs (b.2 - a.2) = 1
  ∧ blockedByWall (walls g) a.1 a.2 b.1 b.2 = false.

(** The checkpoint numbers met along a path, in order. *)
Definition numbersAlong (g : Game) (p : list Cell) : list Z :=
  omap (λ c : Cell, getCellNumber (anchorsMap g) c.1 c.2) p.

(** A winning route of a layout: from the start to the goal by legal
    steps, through every cell exactly once, meeting the numbers [1..K] in
    this order. *)
Definition Solution (g : Game) (start goal_ : Cell) (p : list Cell) : Prop :=
  head p = Some start
  ∧ last p = Some goal_
  ∧ (∀ (i : nat) a b, p !! i = Some a → p !! S i = Some b → stepOK g a b)
  ∧ Hamiltonian (COLS g) (ROWS g) p
  ∧ numbersAlong g p = mustOrder (length (anchors g)).

Definition gridSet (g : Game) : gset Cell :=
  list_to_set (gridCells (COLS g) (ROWS g)).

(** What bounds the queue loop of [canReachAllFrom]. *)
Definition reachMeasure (g : Game) (q : list Cell) (seen : gset Cell) : nat :=
  (size (gridSet g ∖ seen) + length q)%nat.

Fixpoint validSteps (g : Game) (c : Cell) (q : list Cell) : Prop :=
  match q with
  | [] => True
  | d :: q' => stepOK g c d ∧ validSteps g d q'
  end.

(** The numbers still to be met when [next] is the next required one. *)
Definition remainingNumbers (g : Game) (next : option Z) : list Z :=
  match next with
  | None => []
  | Some n => seqZ n (K g - n + 1)
  end.

Definition nextOK (g : Game) (next : option Z) : Prop :=
  match next with
  | None => True
  | Some n => n ≤ K g
  end.

(** [q] completes a route: it continues from [c] through every cell that is
    not yet in [V], meets the remaining numbers in order and ends on the
    goal. *)
Definition Completes (g : Game) (goal_ : Cell) (V : gset Cell) (c : Cell)
    (next : option Z) (q : list Cell) : Prop :=
  validSteps g c q
  ∧ NoDup q
  ∧ (∀ d, d ∈ q → d ∉ V)
  ∧ Z.of_nat (size V + length q) = COLS g * ROWS g
  ∧ last (c :: q) = Some goal_
  ∧ nextOK g next
  ∧ numbersAlong g q = remainingNumbers g next.

(** What a call of [dfs] leaves behind: a route when it sets [found], the
    visited set it was given when it does not. *)
Definition Outcome (g : Game) (goal_ : Cell) (V : gset Cell) (c : Cell)
    (next : option Z) (s' : Search) : Prop :=
  if found s' then ∃ q, Completes g goal_ V c next q else visitedSet s' = V.

(** ** The orchestrator *)

Definition invalidConfig (def : LevelDef) : Prop :=
  d_K def > d_cols def * d_rows def ∨ d_K def < 1
  ∨ d_cols def ≤ 0 ∨ d_rows def ≤ 0.

(** A request refused before any attempt. *)
Definition rejectedUpFront (r : Generated) : Prop :=
  attemptsMade r = 0%nat ∧ ending r ≠ Solved.

(** The quick verification pass and the larger-budget confirmation pass,
    on the globals [w]: both calls start from the player and aim at the
    goal that [w] holds, and the confirmation runs only when the quick
    pass succeeds. *)
Definition passesBoth (now : Clock) (sortBy : Sorter) (w : World) : bool :=
  let g := game w in
  let quick :=
    isLayoutSolvable now sortBy g (player g).1 (player g).2
                     (goal g).1 (goal g).2 400 (nowReads w) in
  quick.1
  && (isLayoutSolvable now sortBy g (player g).1 (player g).2
                       (goal g).1 (goal g).2 2000 quick.2).1.



(** The course of a request [r] started on [w], whose attempts are made by
    [step]: it makes at most [MAX_ATTEMPTS] attempts, attempt [k+1]
    starting on the globals that attempt [k] left; every attempt but the
    last fails its checks; and it ends after an attempt that passes, with
    the layout saved and announced, or after an attempt that throws, or
    after [MAX_ATTEMPTS] failed attempts, with the failure message. *)
Definition requestRuns (step : nat → World → World * option bool)
    (w : World) (r : Generated) : Prop :=
  (attemptsMade r ≤ MAX_ATTEMPTS)%nat
  ∧ ∃ ws : list World,
      length ws = S (attemptsMade r)
      ∧ head ws = Some w
      ∧ (∀ (k : nat) wk wk' v,
           ws !! k = Some wk → ws !! S k = Some wk' →
           verdicts r !! k = Some v →
           step (S k) wk = (wk', v))
      ∧ (∀ (k : nat) v,
           verdicts r !! k = Some v → (S k < attemptsMade r)%nat →
           v = Some false)
      ∧ ∃ wl : World,
          last ws = Some wl
          ∧ match ending r with
            | Solved =>
                last (verdicts r) = Some (Some true)
                ∧ world r =
                    mkWorld (tell MsgNewLayout (set_savedLayout (game wl)))
                            (rndReads wl) (nowReads wl)
            | Exhausted =>
                attemptsMade r = MAX_ATTEMPTS
                ∧ Forall (λ v, v = Some false) (verdicts r)
                ∧ world r =
                    mkWorld (tell MsgExhausted (game wl))
                            (rndReads wl) (nowReads wl)
            | Threw => last (verdicts r) = Some None ∧ world r = wl
            end.


(** ** Movement *)

(** The first-visit order of a sequence of numbers: each number at its
    first occurrence. *)
Fixpoint firstVisits (l : list Z) : list Z :=
  match l with
  | [] => []
  | n :: l' => n :: filter (λ m, m ≠ n) (firstVisits l')
  end.

(** What play maintains of the trail. *)
Record TrailInv (g : Game) : Prop := {
  inv_nodup : NoDup (trail g);
  inv_grid : ∀ c, c ∈ trail g → inGrid (COLS g) (ROWS g) c;
  inv_player : last (trail g) = Some (player g)
}.

(** The win condition: the trail has [cols*rows] cells, each cell of the
    grid once, the numbers are first visited in the order [1..K], and the
    trail ends on the cell of anchor [K]. *)
Definition winCondition (g : Game) : Prop :=
  Z.of_nat (length (trail g)) = COLS g * ROWS g
  ∧ Hamiltonian (COLS g) (ROWS g) (trail g)
  ∧ firstVisits (numbersAlong g (trail g)) = mustOrder (length (anchors g))
  ∧ ∃ a, find (λ a, an a =? K g) (anchors g) = Some a
         ∧ last (trail g) = Some (ax a, ay a).

(** A sequence of key presses. *)
Fixpoint play (mv : Dir → Game → option Game) (ds : list Dir) (g : Game)
    : option Game :=
  match ds with
  | [] => Some g
  | d :: ds' => match mv d g with Some g' => play mv ds' g' | None => None end
  end.

(** The frame condition of a move onto a cell of the trail. *)
Definition backdrawFrame (mv : Dir → Game → option Game) (dir : Dir) (g : Game)
    : Prop :=
  let t := stepTarget dir g in
  outOfBounds g t.1 t.2 = false →
  blockedByWall (walls g) (player g).1 (player g).2 t.1 t.2 = false →
  t ∈ trail g →
  ∃ g', mv dir g = Some g'
    ∧ visitedCells g' = visitedCells g
    ∧ gameOver g' = gameOver g
    ∧ ((∃ pre cur, trail g = pre ++ [t; cur]) →
       trail g' = removelast (trail g) ∧ player g' = t)
    ∧ ((¬ ∃ pre cur, trail g = pre ++ [t; cur]) →
       trail g' = trail g ∧ player g' = player g).

(** ** Instances used in the examples *)

(** A sorter: stable insertion from the left. *)
Fixpoint insertBy (cmp : Cell → Cell → Z) (a : Cell) (l : list Cell) : list Cell :=
  match l with
  | [] => [a]
  | b :: l' => if cmp a b <=? 0 then a :: b :: l' else b :: insertBy cmp a l'
  end.

Definition insertionSort : Sorter :=
  λ cmp l, foldr (insertBy cmp) [] l.

(** A clock that stands still and a tape of zeros. *)
Definition clock0 : Clock := λ _, 0%Q.

Definition tape0 : Tape := λ _, 0%Q.

(** No event arrives while a request is suspended. *)
Definition noEvents : Yield := λ _ w, w.

(** A layout with nothing played yet. *)
Definition mkLayout (cols rows : Z) (anchors : list Anchor) (ws : gset Wall)
    : Game :=
  mkGame cols rows (0, 0) (0, 0) [] ∅ anchors (anchorsMapOf anchors) ws
         false false None MsgNone.

Definition layout_2x2 : Game :=
  mkLayout 2 2 [mkAnchor 0 0 1; mkAnchor 0 1 2] ∅.

Definition layout_2x2_start_2 : Game :=
  mkLayout 2 2 [mkAnchor 0 0 2; mkAnchor 0 1 1] ∅.

(** A 2x1 game at its start and after the winning move to the right. *)
Definition game_2x1_start : Game :=
  let anchors := [mkAnchor 0 0 1; mkAnchor 1 0 2] in
  mkGame 2 1 (0, 0) (1, 0) [(0, 0)] {[ (0, 0) ]} anchors
         (anchorsMapOf anchors) ∅ false false None MsgNone.

Definition game_2x1_won : Game :=
  let anchors := [mkAnchor 0 0 1; mkAnchor 1 0 2] in
  mkGame 2 1 (1, 0) (1, 0) [(0, 0); (1, 0)] ({[ (1, 0) ]} ∪ {[ (0, 0) ]})
         anchors (anchorsMapOf anchors) ∅ true true None MsgWin.

(** A 2x2 game at its start: 1 in the top left corner, 2 below it. *)
Definition game_2x2_start : Game :=
  let anchors := [mkAnchor 0 0 1; mkAnchor 0 1 2] in
  mkGame 2 2 (0, 0) (0, 1) [(0, 0)] {[ (0, 0) ]} anchors
         (anchorsMapOf anchors) ∅ false false None MsgNone.

Definition world0 : World := mkWorld (mkLayout 6 6 [] ∅) 0 0.

(** A 6x6 request for no checkpoint at all. *)
Definition def_K0 : LevelDef := mkDef 6 6 0 2 0.

(** A 2x2 request for a single checkpoint. *)
Definition def_K1 : LevelDef := mkDef 2 2 1 1 0.


(** * Further definitions *)

(** ** Play *)

(** What a move never touches: the layout. *)
Definition sameLayout (g g' : Game) : Prop :=
  COLS g' = COLS g ∧ ROWS g' = ROWS g ∧ goal g' = goal g
  ∧ anchors g' = anchors g ∧ anchorsMap g' = anchorsMap g
  ∧ walls g' = walls g ∧ savedLayout g' = savedLayout g.

(** The trail is a walk: on top of [TrailInv], consecutive cells are legal
    steps and every cell of the trail has its coverage credit. *)
Record TrailWalk (g : Game) : Prop := {
  walk_inv : TrailInv g;
  walk_steps : ∀ (i : nat) a b,
      trail g !! i = Some a → trail g !! S i = Some b → stepOK g a b;
  walk_covered : ∀ c, c ∈ trail g → c ∈ visitedCells g
}.

(** A layout as generation and restart leave it: the player on its start
    cell, nothing walked yet. *)
Definition atStart (g : Game) : Prop :=
  trail g = [player g] ∧ visitedCells g = {[player g]}
  ∧ gameOver g = false ∧ inGrid (COLS g) (ROWS g) (player g).

(** The key that leads from a cell to a 4-adjacent one. *)
Definition dirBetween (a b : Cell) : Dir :=
  if b.1 =? a.1 + 1 then Right
  else if b.1 =? a.1 - 1 then Left
  else if b.2 =? a.2 + 1 then Down
  else Up.

(** The keys that walk a route [q] from the cell [c]. *)
Fixpoint keysAlong (c : Cell) (q : list Cell) : list Dir :=
  match q with
  | [] => []
  | d :: q' => dirBetween c d :: keysAlong d q'
  end.

Definition opposite (d : Dir) : Dir :=
  match d with Up => Down | Down => Up | Left => Right | Right => Left end.

(** A key press is accepted: the game is on, the target is on the grid,
    no wall lies between, and the target is fresh or is the previous cell
    of the trail. *)
Definition accepted (dir : Dir) (g : Game) : Prop :=
  let t := stepTarget dir g in
  gameOver g = false
  ∧ outOfBounds g t.1 t.2 = false
  ∧ blockedByWall (walls g) (player g).1 (player g).2 t.1 t.2 = false
  ∧ (t ∉ trail g ∨ ∃ pre cur, trail g = pre ++ [t; cur]).

(** ** Utils, continued *)

(** [nextRequiredNumber]: the first [n] of [1..K] that the trail has not
    met, [null] when all were. *)
Definition nextRequiredNumber (g : Game) : option Z :=
  let seen : gset Z := list_to_set (numbersFirstOrder g) in
  find (λ n, negb (bool_decide (n ∈ seen))) (seqZ 1 (K g)).

(** ** Numbers, walls *)

(** The number [n] lies on a cell of the trail. *)
Definition collected (g : Game) (n : Z) : Prop :=
  ∃ c : Cell, c ∈ trail g ∧ getCellNumber (anchorsMap g) c.1 c.2 = Some n.

(** A wall key that names an edge between two cells of the grid. *)
Definition interiorEdge (cols rows : Z) (w : Wall) : Prop :=
  match w with
  | (x, y, Right) => 0 ≤ x < cols - 1 ∧ 0 ≤ y < rows
  | (x, y, Down) => 0 ≤ x < cols ∧ 0 ≤ y < rows - 1
  | _ => False
  end.

(** A wall that the builder can add while it is at the cell [(x, y)]. *)
Definition addedAt (snake : list Cell) (cols rows : Z) (x y : Z) (w : Wall)
    : Prop :=
  (w = (x, y, Right) ∧ x < cols - 1 ∧ wallAllowed snake w)
  ∨ (w = (x, y, Down) ∧ y < rows - 1 ∧ wallAllowed snake w).

(** ** The verifier, continued *)

(** A cell that the reachability scan enters from [p]: one step away in
    one of the four directions, on the grid, not behind a wall and not
    visited. *)
Definition eligible (g : Game) (visited : gset Cell) (p n : Cell) : Prop :=
  (∃ d : Z * Z, d ∈ dirs ∧ n = (p.1 + d.1, p.2 + d.2))
  ∧ outOfBounds g n.1 n.2 = false
  ∧ blockedByWall (walls g) p.1 p.2 n.1 n.2 = false
  ∧ n ∉ visited.

(** What the queue loop of the scan maintains: the count is the number of
    cells seen besides the first, and a cell that was seen is still queued
    or has all its eligible neighbours seen. *)
Definition scanInv (g : Game) (visited : gset Cell) (q : list Cell)
    (seen : gset Cell) (count : Z) : Prop :=
  Z.of_nat (size seen) = count + 1
  ∧ ∀ c, c ∈ seen → c ∈ q ∨ ∀ n, eligible g visited c n → n ∈ seen.

(** The clock never passes the deadline. *)
Definition inTime (now : Clock) (deadline : Q) : Prop :=
  ∀ i, (now i <= deadline)%Q.

(** ** The page: restart *)

(** What the status line shows after the Restart button. *)
Inductive RestartMsg := MsgNoSavedLayout | MsgRestarted.

(** The click handler of the Restart button: the globals are rebuilt from
    [savedLayout], the map of numbers from the restored anchors.  The
    handler's message is returned beside the game; the [status] field keeps
    the last message of the game proper. *)
Definition restart (g : Game) : Game * RestartMsg :=
  match savedLayout g with
  | None => (g, MsgNoSavedLayout)
  | Some sv =>
      let player := sv_playerStart sv in
      (mkGame (sv_cols sv) (sv_rows sv) player (sv_goalPos sv)
              [player] {[keyOf player.1 player.2]}
              (sv_anchors sv) (anchorsMapOf (sv_anchors sv)) (sv_walls sv)
              false false (savedLayout g) (status g),
       MsgRestarted)
  end.

(** ** Generated layouts *)

(** The record that [savedLayout = { cols, rows, playerStart, ... }] stores. *)
Definition snapshot (g : Game) : SavedLayout :=
  mkSaved (COLS g) (ROWS g) (player g) (goal g) (anchors g) (walls g).

(** A layout as an attempt that ran to its verdict leaves it: [Knum]
    anchors on distinct cells of the path, numbered [1..Knum], mirrored in
    the map; the player on number 1 and the goal on number [Knum]; nothing
    walked yet. *)
Record FreshLayout (cols rows Knum : Z) (snake : list Cell) (g : Game)
    : Prop := {
  fresh_cols : COLS g = cols;
  fresh_rows : ROWS g = rows;
  fresh_map : anchorsMap g = anchorsMapOf (anchors g);
  fresh_numbers : an <$> anchors g ≡ₚ mustOrder (Z.to_nat Knum);
  fresh_cells : NoDup ((λ a, (ax a, ay a)) <$> anchors g);
  fresh_on_snake : ∀ a, a ∈ anchors g → (ax a, ay a) ∈ snake;
  fresh_start : ∃ a, find (λ a, an a =? 1) (anchors g) = Some a
                     ∧ player g = (ax a, ay a);
  fresh_goal : ∃ a, find (λ a, an a =? Knum) (anchors g) = Some a
                    ∧ goal g = (ax a, ay a);
  fresh_trail : trail g = [player g];
  fresh_visited : visitedCells g = {[player g]};
  fresh_over : gameOver g = false;
  fresh_started : hasStarted g = false
}.

(** A path generator that returns a Hamiltonian path of the grid whenever
    it is called. *)
Definition goodGen (gen : SnakeGen) (cols rows : Z) : Prop :=
  ∀ i c, ∃ snake i' c',
    gen cols rows i c = Some (snake, i', c') ∧ Hamiltonian cols rows snake.

(** A layout right after it was saved. *)
Definition freshlySaved (g : Game) : Prop :=
  savedLayout g = Some (snapshot g)
  ∧ trail g = [player g] ∧ visitedCells g = {[player g]}
  ∧ gameOver g = false ∧ hasStarted g = false
  ∧ anchorsMap g = anchorsMapOf (anchors g).

(** No handler changes the globals while a request waits at the yield
    point [p]. *)
Definition undisturbed (env : Yield) (p : YieldPoint) : Prop :=
  ∀ w, game (env p w) = game w.

(** A key press handled while attempt [n] waits before its checks: the
    [keydown] handler calls [move]. *)
Definition keyBeforeCheck (mv : Dir → Game → option Game) (n : nat) (d : Dir)
    : Yield :=
  λ p w,
    match p with
    | BeforeCheck m =>
        if (m =? n)%nat
        then match mv d (game w) with
             | Some g' => mkWorld g' (rndReads w) (nowReads w)
             | None => w
             end
        else w
    | AfterFail _ => w
    end.

(** ** Path templates, continued *)

Definition buildColumnSnakePath (cols rows : Z) : list Cell :=
  x ← seqZ 0 cols;
  if x mod 2 =? 0 then (λ y, (x, y)) <$> seqZ 0 rows
  else (λ y, (x, y)) <$> reverse (seqZ 0 rows).

(** The cells of the diagonal [x + y = s], by increasing [x]: the inner
    loop that [buildDiagonalSnakePath] and [buildDiagonalStripesPath]
    share. *)
Definition diagonal (cols rows s : Z) : list Cell :=
  let xStart := Z.max 0 (s - (rows - 1)) in
  let xEnd := Z.min (cols - 1) s in
  (λ x, (x, s - x)) <$> seqZ xStart (xEnd - xStart + 1).

Definition buildDiagonalSnakePath (cols rows : Z) : list Cell :=
  s ← seqZ 0 (cols + rows - 2 + 1);
  let diag := diagonal cols rows s in
  if s mod 2 =? 0 then reverse diag else diag.

Definition buildDiagonalStripesPath (cols rows : Z) : list Cell :=
  let maxS := cols + rows - 2 in
  fillMissing cols rows
    (s ← evens (maxS + 1);
     k ← (if s + 0 <=? maxS
          then 0 :: (if s + 1 <=? maxS then [1] else [])
          else []);
     let diag := diagonal cols rows (s + k) in
     if (s / 2) mod 2 =? 0 then reverse diag else diag).

(** [Math.ceil(d / 2)] *)
Definition ceilHalf (d : Z) : Z := - ((- d) / 2).

(** The order of the columns in [buildSpokesPath]: from the centre column
    outwards, alternating right and left, each column once. *)
Definition spokesColumns (cols : Z) : list Z :=
  let cx := (cols - 1) / 2 in
  foldl (λ colsOrder d,
           let pos :=
             if d =? 0 then cx
             else if d mod 2 =? 1 then cx + ceilHalf d
             else cx - ceilHalf d in
           let pos := if pos <? 0 then 0 else pos in
           let pos := if pos >=? cols then cols - 1 else pos in
           if bool_decide (pos ∈ colsOrder) then colsOrder
           else colsOrder ++ [pos])
        [] (seqZ 0 cols).

Definition buildSpokesPath (cols rows : Z) : list Cell :=
  fillMissing cols rows
    (mjoin (imap (λ (i : nat) (col : Z),
                    if Z.of_nat i mod 2 =? 0
                    then (λ y, (col, y)) <$> seqZ 0 rows
                    else (λ y, (col, y)) <$> reverse (seqZ 0 rows))
                 (spokesColumns cols))).

(** The four loops that walk the border of the rectangle
    [left..right] x [top..bottom] clockwise from its top left corner; the
    spiral, the rings and the perimeter templates have them word for
    word. *)
Definition ring (left top right bottom : Z) : list Cell :=
  ((λ x, (x, top)) <$> seqZ left (right - left + 1))
  ++ ((λ y, (right, y)) <$> seqZ (top + 1) (bottom - top))
  ++ (if top <? bottom
      then (λ x, (x, bottom)) <$> reverse (seqZ left (right - left)) else [])
  ++ (if left <? right
      then (λ y, (left, y)) <$> reverse (seqZ (top + 1) (bottom - top - 1))
      else []).

(** The [while (left <= right && top <= bottom)] loop of
    [buildSpiralSnakePath]; [None] when the fuel runs out before the loop
    ends, which [spiralLoop_spec] shows does not happen. *)
Fixpoint spiralLoop (fuel : nat) (left top right bottom : Z)
    (path : list Cell) : option (list Cell) :=
  if (left <=? right) && (top <=? bottom) then
    match fuel with
    | O => None
    | S fuel' =>
        spiralLoop fuel' (left + 1) (top + 1) (right - 1) (bottom - 1)
                   (path ++ ring left top right bottom)
    end
  else Some path.

Definition buildSpiralSnakePath (cols rows : Z) : option (list Cell) :=
  spiralLoop (Z.to_nat cols) 0 0 (cols - 1) (rows - 1) [].

(** [Math.abs(p.x - last.x) + Math.abs(p.y - last.y) === 1] *)
Definition adjacentTo (last_ p : Cell) : bool :=
  Z.abs (p.1 - last_.1) + Z.abs (p.2 - last_.2) =? 1.

(** How the rings and the perimeter templates append a ring to the path:
    rotated to start next to the last cell of the path, reversed first if
    need be ([ring.reverse()] reverses in place). *)
Definition stitchRing (path ring_ : list Cell) : list Cell :=
  match ring_ with
  | [] => path
  | _ :: _ =>
      match last path with
      | None => path ++ ring_
      | Some last_ =>
          let idx := findIndex (adjacentTo last_) ring_ in
          let ring_ := if idx =? -1 then reverse ring_ else ring_ in
          let idx := if idx =? -1 then findIndex (adjacentTo last_) ring_ else idx in
          if negb (idx =? -1)
          then path ++ (drop (Z.to_nat idx) ring_ ++ take (Z.to_nat idx) ring_)
          else path ++ ring_
      end
  end.

Definition buildRingsPath (cols rows : Z) : list Cell :=
  let layers := ceilHalf (Z.min cols rows) in
  fillMissing cols rows
    (foldl (λ path layer,
              let left := layer in
              let top := layer in
              let right := cols - 1 - layer in
              let bottom := rows - 1 - layer in
              let ring_ :=
                if (top <=? bottom) && (left <=? right)
                then ring left top right bottom else [] in
              stitchRing path ring_)
           [] (seqZ 0 layers)).

Definition buildPerimeterFirstPath (cols rows : Z) : list Cell :=
  let layers := ceilHalf (Z.min cols rows) in
  fillMissing cols rows
    (foldl (λ path layer,
              stitchRing path
                (ring layer layer (cols - 1 - layer) (rows - 1 - layer)))
           [] (seqZ 0 layers)).

(** The end of [rec] in [buildHilbertLikePath]: the second half follows
    the first, reversed unless it starts next to where the first ends.
    [None] is the [TypeError] on an empty half. *)
Definition joinHalves (a b : list Cell) : option (list Cell) :=
  match last a, head b with
  | Some lastA, Some firstB =>
      if Z.abs (lastA.1 - firstB.1) + Z.abs (lastA.2 - firstB.2) =? 1
      then Some (a ++ b) else Some (a ++ reverse b)
  | _, _ => None
  end.

(** [rec(x0, y0, w, h)].  [None] when the call throws: a [TypeError] on an
    empty half, or the exhaustion of the stack; the fuel bounds the depth
    of the recursion, and on a rectangle with positive sides it is enough
    ([hilbertRec_rect]). *)
Fixpoint hilbertRec (fuel : nat) (x0 y0 w h : Z) : option (list Cell) :=
  match fuel with
  | O => None
  | S fuel' =>
      if w =? 1 then Some ((λ y, (x0, y)) <$> seqZ y0 h)
      else if h =? 1 then Some ((λ x, (x, y0)) <$> seqZ x0 w)
      else if w >=? h then
        let w1 := w / 2 in
        let w2 := w - w1 in
        left ← hilbertRec fuel' x0 y0 w1 h;
        right ← hilbertRec fuel' (x0 + w1) y0 w2 h;
        joinHalves left right
      else
        let h1 := h / 2 in
        let h2 := h - h1 in
        top ← hilbertRec fuel' x0 y0 w h1;
        bottom ← hilbertRec fuel' x0 (y0 + h1) w h2;
        joinHalves top bottom
  end.

Definition buildHilbertLikePath (cols rows : Z) : option (list Cell) :=
  path ← hilbertRec (S (Z.to_nat (cols + rows))) 0 0 cols rows;
  Some (fillMissing cols rows path).

(** ** Paths, continued *)

(** Consecutive cells of the path are 4-adjacent. *)
Definition contiguous (p : list Cell) : Prop :=
  ∀ (i : nat) a b, p !! i = Some a → p !! S i = Some b →
    Z.abs (b.1 - a.1) + Z.abs (b.2 - a.2) = 1.

(** [(x, y)] to [(y, x)] *)
Definition transpose (c : Cell) : Cell := (c.2, c.1).

(** A cell of the rectangle with corner [(x0, y0)], width [w] and
    height [h]. *)
Definition inRect (x0 y0 w h : Z) (c : Cell) : Prop :=
  x0 ≤ c.1 < x0 + w ∧ y0 ≤ c.2 < y0 + h.

(** The cells that [buildTileSnakePath] pushes for the tile at
    [(tx, ty)], in its order. *)
Definition tileCells (cols rows tx ty : Z) : list Cell :=
  let xs0 := tx in
  let xs1 := Z.min (tx + 1) (cols - 1) in
  let ys0 := ty in
  let ys1 := Z.min (ty + 1) (rows - 1) in
  [(xs0, ys0)]
  ++ (if negb (xs1 =? xs0) || negb (ys0 =? ys0) then [(xs1, ys0)] else [])
  ++ (if negb (ys1 =? ys0) then [(xs1, ys1)] else [])
  ++ (if negb (xs1 =? xs0) then [(xs0, ys1)] else []).

(** The cells that [buildCheckerboard2x2Path] pushes for the block at
    [(bx, by)], in its order. *)
Definition blockCells (cols rows bx by_ : Z) : list Cell :=
  let blockRow := by_ / 2 in
  let xs := [bx; Z.min (bx + 1) (cols - 1)] in
  let ys0 := by_ in
  let ys1 := Z.min (by_ + 1) (rows - 1) in
  y ← (if (bx / 2 + blockRow) mod 2 =? 0
       then seqZ ys0 (ys1 - ys0 + 1)
       else reverse (seqZ ys0 (ys1 - ys0 + 1)));
  x ← xs; [(x, y)].

(** ** The public build: generation *)

Module PublicBuild.

(** The loop [for (let n = 1; n <= K; n++)] that places the anchors, over
    the values [ns] of [n]: anchor [n] on the cell [snake[idxs[n - 1]]].
    The flag is [false] when [const { x, y } = snake[idxs[n - 1]]] throws
    a [TypeError]. *)
Fixpoint placeAnchors (snake : list Cell) (idxs : list nat) (ns : list Z)
    (acc : list Anchor * gmap Cell Z) : list Anchor * gmap Cell Z * bool :=
  match ns with
  | [] => (acc, true)
  | n :: ns' =>
      match idxs !! Z.to_nat (n - 1) ≫= (snake !!.) with
      | Some (x, y) =>
          placeAnchors snake idxs ns'
            (acc.1 ++ [mkAnchor x y n], <[keyOf x y := n]> acc.2)
      | None => (acc, false)
      end
  end.

(** [generateLevel(def)] and [generateZip6x6()] of the public build: one
    pass over the serpentine, no solvability check.  [withWalls]
    distinguishes [generateLevel], which calls
    [buildShortcutWallsFromSnake], from [generateZip6x6], which does not.
    The flag is [false] when the call ends in an uncaught [TypeError]. *)
Definition generate (rnd : Tape) (withWalls : bool) (def : LevelDef)
    (w : World) : World * bool :=
  let g := buildGrid (d_cols def) (d_rows def) (game w) in
  let snake := buildSnakePathBase (d_cols def) (d_rows def) in
  let g := set_walls ∅ (set_anchors [] ∅ g) in
  let picked :=
    pickIndicesWithMinGap rnd (length snake) (d_K def) (d_minGap def)
                          (rndReads w) in
  let '(placed, ok) :=
    placeAnchors snake picked.1 (seqZ 1 (d_K def)) ([], ∅) in
  let g := set_anchors placed.1 placed.2 g in
  if negb ok then (mkWorld g picked.2 (nowReads w), false)
  else
    let '(g, i) :=
      if withWalls
      then buildShortcutWallsFromSnake rnd snake (d_wallPct def) g picked.2
      else (g, picked.2) in
    match find (λ a, an a =? 1) (anchors g) with
    | None => (mkWorld g i (nowReads w), false)
    | Some startA =>
        let g := set_player (ax startA, ay startA) g in
        match find (λ a, an a =? d_K def) (anchors g) with
        | None => (mkWorld g i (nowReads w), false)
        | Some finalA => (mkWorld (placePlayer finalA g) i (nowReads w), true)
        end
    end.

Definition generateLevel (rnd : Tape) (def : LevelDef) (w : World)
    : World * bool :=
  generate rnd true def w.

Definition generateZip6x6 (rnd : Tape) (w : World) : World * bool :=
  generate rnd false zipDef w.

End PublicBuild.

(** The keys that walk a route [q] from the cell [c] back to [c], from
    its far end. *)
Fixpoint keysBack (c : Cell) (q : list Cell) : list Dir :=
  match q with
  | [] => []
  | d :: q' => keysBack d q' ++ [dirBetween d c]
  end.

(** The anchors that the public build lays on the cells [cells], numbered
    from [n] on. *)
Fixpoint anchorsOn (cells : list Cell) (n : Z) : list Anchor :=
  match cells with
  | [] => []
  | c :: cells' => mkAnchor c.1 c.2 n :: anchorsOn cells' (n + 1)
  end.

(** What generation of the public build leaves when it returns: a layout
    with [Knum] anchors, nothing walked, that can be won. *)
Definition publicWinnable (r : World * bool) (Knum : Z) : Prop :=
  r.2 = true ∧ atStart (game r.1) ∧ K (game r.1) = Knum
  ∧ anchorsMap (game r.1) = anchorsMapOf (anchors (game r.1))
  ∧ ∃ keys g', play Public.move keys (game r.1) = Some g' ∧ gameOver g' = true.

(** * Proofs *)

(** ** The grid *)

Lemma elem_of_gridCells cols rows c :
  c ∈ gridCells cols rows ↔ inGrid cols rows c.
Proof.
  unfold gridCells, inGrid. rewrite list_elem_of_bind. split.
  - intros (y & Hc & Hy). apply list_elem_of_bind in Hc as (x & Hc & Hx).
    apply list_elem_of_singleton in Hc as ->. simpl.
    apply elem_of_seqZ in Hx, Hy. lia.
  - intros [Hx Hy]. exists c.2. split; [|apply elem_of_seqZ; lia].
    apply list_elem_of_bind. exists c.1. split; [|apply elem_of_seqZ; lia].
    destruct c. by apply list_elem_of_singleton.
Qed.

Lemma NoDup_gridCells cols rows : NoDup (gridCells cols rows).
Proof.
  unfold gridCells. apply NoDup_bind.
  - intros y1 y2 c _ _ H1 H2.
    apply list_elem_of_bind in H1 as (x1 & H1 & _), H2 as (x2 & H2 & _).
    apply list_elem_of_singleton in H1, H2. congruence.
  - intros y _. apply NoDup_bind.
    + intros x1 x2 c _ _ H1 H2. apply list_elem_of_singleton in H1, H2. congruence.
    + intros x _. apply NoDup_singleton.
    + apply NoDup_seqZ.
  - apply NoDup_seqZ.
Qed.

Lemma length_gridCells cols rows :
  length (gridCells cols rows) = (Z.to_nat cols * Z.to_nat rows)%nat.
Proof.
  unfold gridCells.
  assert (Hrow : ∀ y : Z, length (x ← seqZ 0 cols; [(x, y)]) = Z.to_nat cols).
  { intros y. rewrite <- (length_seqZ 0 cols).
    induction (seqZ 0 cols) as [|x l IH]; csimpl; [done|]. by rewrite IH. }
  rewrite <- (length_seqZ 0 rows).
  induction (seqZ 0 rows) as [|y l IH]; csimpl; [lia|].
  rewrite length_app, Hrow, IH. lia.
Qed.

Lemma Hamiltonian_gridCells cols rows : Hamiltonian cols rows (gridCells cols rows).
Proof. split; [apply NoDup_gridCells | apply elem_of_gridCells]. Qed.

Lemma Hamiltonian_Permutation cols rows p :
  Hamiltonian cols rows p ↔ p ≡ₚ gridCells cols rows.
Proof.
  split.
  - intros [Hnd Hin]. apply NoDup_Permutation; [done | apply NoDup_gridCells |].
    intros c. by rewrite Hin, elem_of_gridCells.
  - intros Hp. split.
    + rewrite Hp. apply NoDup_gridCells.
    + intros c. by rewrite Hp, elem_of_gridCells.
Qed.

Lemma Hamiltonian_length cols rows p :
  Hamiltonian cols rows p → length p = (Z.to_nat cols * Z.to_nat rows)%nat.
Proof.
  intros H. apply Hamiltonian_Permutation in H. by rewrite H, length_gridCells.
Qed.

(** Pigeonhole: a duplicate-free list of grid cells that is as long as the
    grid has every cell. *)
Lemma Hamiltonian_of_length cols rows p :
  NoDup p → (∀ c, c ∈ p → inGrid cols rows c) →
  (Z.to_nat cols * Z.to_nat rows ≤ length p)%nat →
  Hamiltonian cols rows p.
Proof.
  intros Hnd Hin Hlen. apply Hamiltonian_Permutation.
  apply submseteq_length_Permutation.
  - apply NoDup_submseteq; [done|]. intros c Hc. by apply elem_of_gridCells, Hin.
  - by rewrite length_gridCells.
Qed.

(** ** Movement: stepping back *)

Lemma findIndex_none {A} (P : A → bool) l :
  findIndex P l = -1 ↔ ∀ a, a ∈ l → P a = false.
Proof.
  induction l as [|a l IH]; simpl.
  - split; [intros _ a Ha; inversion Ha | done].
  - destruct (P a) eqn:HP.
    + split; [lia|]. intros H. specialize (H a (list_elem_of_here _ _)). congruence.
    + assert (Hge : -1 ≤ findIndex P l).
      { clear. induction l as [|b l IH]; simpl; [lia|].
        destruct (P b); [lia|]. destruct (findIndex P l =? -1) eqn:E; lia. }
      destruct (findIndex P l =? -1) eqn:E.
      * apply Z.eqb_eq in E. split; [|done]. intros _ b Hb.
        apply elem_of_cons in Hb as [->|Hb]; [done|]. by apply IH.
      * apply Z.eqb_neq in E. split; [lia|]. intros H. exfalso. apply E, IH.
        intros b Hb. apply H. by right.
Qed.

Lemma findIndex_found (nx ny : Z) (t : list Cell) :
  (nx, ny) ∈ t → (findIndex (cellEq nx ny) t =? -1) = false.
Proof.
  intros Hin. apply Z.eqb_neq. intros E.
  apply findIndex_none with (a := (nx, ny)) in E; [|done].
  unfold cellEq in E; simpl in E. rewrite !Z.eqb_refl in E. done.
Qed.

Lemma isImmediateBack_spec (t : list Cell) (nx ny : Z) :
  isImmediateBack t nx ny = true ↔ ∃ pre cur, t = pre ++ [(nx, ny); cur].
Proof.
  unfold isImmediateBack. split.
  - destruct (length t <? 2)%nat eqn:Hlen; [done|].
    apply Nat.ltb_ge in Hlen.
    destruct (t !! (length t - 2)%nat) as [prev|] eqn:Hprev; [|done].
    intros Heq. apply andb_true_iff in Heq as [Hx Hy].
    apply Z.eqb_eq in Hx, Hy. destruct prev as [px py]; simpl in *; subst.
    pose proof (take_drop_middle _ _ _ Hprev) as Hsplit.
    exists (take (length t - 2) t).
    destruct (drop (S (length t - 2)) t) as [|cur rest] eqn:Hd.
    + apply (f_equal length) in Hd. rewrite length_drop in Hd. simpl in Hd. lia.
    + destruct rest as [|r rest].
      * exists cur. by symmetry.
      * apply (f_equal length) in Hd. rewrite length_drop in Hd. simpl in Hd. lia.
  - intros (pre & cur & ->). rewrite length_app. simpl.
    replace (length pre + 2 <? 2)%nat with false by (symmetry; apply Nat.ltb_ge; lia).
    replace (length pre + 2 - 2)%nat with (length pre + 0)%nat by lia.
    rewrite lookup_app_r by lia.
    replace (length pre + 0 - length pre)%nat with 0%nat by lia. simpl.
    by rewrite !Z.eqb_refl.
Qed.

Lemma moveWith_backdraw (wa : Game → bool) dir g :
  gameOver g = false → backdrawFrame (moveWith wa) dir g.
Proof.
  intros Hover. unfold backdrawFrame. 
  destruct (stepTarget dir g) as [nx ny] eqn:Ht. simpl.
  intros Hb Hw Hin. unfold moveWith. rewrite Hover, Ht, Hb, Hw.
  rewrite (findIndex_found _ _ _ Hin). simpl.
  destruct (isImmediateBack (trail g) nx ny) eqn:Hback.
  - eexists; split; [reflexivity|]. simpl.
    split; [done|]. split; [done|]. split; [done|].
    intros Hno. exfalso. apply Hno. by apply isImmediateBack_spec.
  - eexists; split; [reflexivity|]. simpl.
    split; [done|]. split; [done|]. split; [|done].
    intros Hyes. apply isImmediateBack_spec in Hyes. congruence.
Qed.

(** C10, amended: in a game that is not over, a move onto a cell of the
    trail, in bounds and not blocked by a wall, pops the last trail cell
    and puts the player on the target when the target is the cell before
    the last, and changes neither trail nor player otherwise; in both cases
    [visitedCells] and [gameOver] stay as they are.  This holds for the
    [move] of both builds. *)
Theorem move_backdraw_frame dir g :
  gameOver g = false →
  backdrawFrame move dir g ∧ backdrawFrame Public.move dir g.
Proof. intros H. split; by apply moveWith_backdraw. Qed.

(** The 2x1 game is won by the move to the right. *)
Lemma game_2x1_won_reached : move Right game_2x1_start = Some game_2x1_won.
Proof. reflexivity. Qed.

(** C10 as stated fails once the game is over: [move] returns at its first
    line, so the step back from the winning cell pops nothing. *)
Lemma move_backdraw_game_over_cex :
  ¬ backdrawFrame move Left game_2x1_won.
Proof.
  unfold backdrawFrame. intros H.
  destruct H as (g' & Hmv & _ & _ & Hback & _); [reflexivity | reflexivity | |].
  { vm_compute. left. }
  destruct Hback as [Ht _].
  { by exists [], (1, 0). }
  vm_compute in Hmv. injection Hmv as <-. discriminate Ht.
Qed.

Lemma move_backdraw_frame_witness :
  ∃ g, play move [Right] game_2x2_start = Some g
       ∧ (1, 0) ∈ trail g ∧ stepTarget Left g = (0, 0)
       ∧ backdrawFrame move Left g ∧ backdrawFrame Public.move Left g.
Proof.
  eexists. split; [reflexivity|].
  split; [right; left|]. split; [reflexivity|].
  apply move_backdraw_frame. reflexivity.
Defined.

(** ** Movement: the win test *)

Lemma everyi_spec (must : list Z) (l : list Z) (i : nat) :
  everyi (λ n j, bool_decide (must !! j = Some n)) i l = true
  ↔ ∀ j n, l !! j = Some n → must !! (i + j)%nat = Some n.
Proof.
  revert i. induction l as [|a l IH]; intros i; simpl.
  - split; [intros _ j n Hj; by rewrite lookup_nil in Hj | done].
  - rewrite andb_true_iff, bool_decide_eq_true, IH. split.
    + intros [Ha Hl] [|j] n Hj; simpl in Hj.
      * injection Hj as <-. by rewrite Nat.add_0_r.
      * replace (i + S j)%nat with (S i + j)%nat by lia. by apply Hl.
    + intros H. split.
      * specialize (H 0%nat a eq_refl). by rewrite Nat.add_0_r in H.
      * intros j n Hj. replace (S i + j)%nat with (i + S j)%nat by lia. by apply H.
Qed.

Lemma length_mustOrder k : length (mustOrder k) = k.
Proof. unfold mustOrder. by rewrite length_map, length_seq. Qed.

Lemma filter_filter_seen (seen : gset Z) (n : Z) (l : list Z) :
  filter (λ m, m ∉ seen) (filter (λ m, m ≠ n) l)
  = filter (λ m, m ∉ {[n]} ∪ seen) l.
Proof.
  induction l as [|a l IH]; [done|].
  rewrite (filter_cons (λ m, m ≠ n)).
  rewrite (filter_cons (λ m, m ∉ {[n]} ∪ seen)).
  destruct (decide (a ≠ n)) as [Hne|Heq].
  - rewrite filter_cons. destruct (decide (a ∉ seen)) as [Hs|Hs].
    + rewrite decide_True; [by rewrite IH|].
      rewrite elem_of_union, elem_of_singleton. tauto.
    + rewrite decide_False; [done|].
      rewrite elem_of_union, elem_of_singleton. tauto.
  - rewrite decide_False; [done|]. intros Hn. apply Heq. intros ->.
    apply Hn, elem_of_union. left. by apply elem_of_singleton.
Qed.

Lemma filter_seen_absorb (seen : gset Z) (n : Z) (l : list Z) :
  n ∈ seen →
  filter (λ m, m ∉ seen) (filter (λ m, m ≠ n) l) = filter (λ m, m ∉ seen) l.
Proof.
  intros Hn. rewrite filter_filter_seen. apply list_filter_iff. intros m.
  rewrite elem_of_union, elem_of_singleton. split; [tauto|].
  intros Hm [->|?]; tauto.
Qed.

Lemma numbersFirstOrder_loop_spec (am : gmap Cell Z) (t : list Cell)
    (seen : gset Z) (order : list Z) :
  numbersFirstOrder_loop am t seen order
  = order ++ filter (λ m, m ∉ seen)
               (firstVisits (omap (λ c : Cell, getCellNumber am c.1 c.2) t)).
Proof.
  revert seen order. induction t as [|p t IH]; intros seen order; simpl.
  - by rewrite app_nil_r.
  - destruct (getCellNumber am p.1 p.2) as [n|]; [|apply IH].
    simpl. rewrite filter_cons. destruct (decide (n ∈ seen)) as [Hin|Hout].
    + rewrite decide_False by tauto. rewrite IH. f_equal.
      by rewrite filter_seen_absorb.
    + rewrite decide_True by done. rewrite IH, <- app_assoc. simpl.
      by rewrite filter_filter_seen.
Qed.

(** [numbersFirstOrder] computes the first-visit order of the numbers met
    along the trail. *)
Lemma numbersFirstOrder_spec (g : Game) :
  numbersFirstOrder g = firstVisits (numbersAlong g (trail g)).
Proof.
  unfold numbersFirstOrder. rewrite numbersFirstOrder_loop_spec. simpl.
  unfold numbersAlong. generalize (firstVisits (omap (λ c : Cell, getCellNumber (anchorsMap g) c.1 c.2) (trail g))).
  intros l. induction l as [|a l IH]; [done|].
  rewrite filter_cons, decide_True by apply not_elem_of_empty. by rewrite IH.
Qed.

Lemma visitedInOrder_spec g :
  visitedInOrder g = true
  ↔ firstVisits (numbersAlong g (trail g)) = mustOrder (length (anchors g)).
Proof.
  rewrite <- numbersFirstOrder_spec.
  unfold visitedInOrder, K. rewrite andb_true_iff, Z.eqb_eq, everyi_spec. split.
  - intros [Hlen Hall]. apply Nat2Z.inj in Hlen.
    apply list_eq_same_length with (n := length (anchors g));
      [by rewrite length_mustOrder | done |].
    intros j n m Hj Hn Hm. apply Hall in Hn. simpl in Hn. congruence.
  - intros ->. rewrite length_mustOrder. split; [done|]. by intros j n Hj.
Qed.

(** The win test of the full game: after a forward move from a state that
    satisfies the trail invariant, the game is over exactly when the win
    condition holds of the new trail.  (The move throws when no anchor
    bears the number [K].) *)
Theorem move_win_iff dir g :
  TrailInv g → gameOver g = false →
  let t := stepTarget dir g in
  outOfBounds g t.1 t.2 = false →
  blockedByWall (walls g) (player g).1 (player g).2 t.1 t.2 = false →
  t ∉ trail g →
  (is_Some (find (λ a, an a =? K g) (anchors g)) → is_Some (move dir g))
  ∧ ∀ g', move dir g = Some g' →
      trail g' = trail g ++ [t] ∧ (gameOver g' = true ↔ winCondition g').
Proof.
  intros [Hnd Hgrid Hpl] Hover t. destruct t as [nx ny] eqn:Ht. simpl.
  intros Hb Hw Hnotin.
  assert (Hidx : (findIndex (cellEq nx ny) (trail g) =? -1) = true).
  { apply Z.eqb_eq, findIndex_none. intros [cx cy] Hc. unfold cellEq; simpl.
    apply andb_false_iff.
    destruct (Z.eqb_spec cx nx) as [->|]; [|by left].
    destruct (Z.eqb_spec cy ny) as [->|]; [|by right]. done. }
  unfold move, moveWith. subst t. rewrite Hover, Ht, Hb, Hw, Hidx. simpl.
  set (g2 := forwardStep nx ny g).
  assert (Htrail : trail g2 = trail g ++ [(nx, ny)]).
  { unfold g2, forwardStep. by destruct (_ && _). }
  assert (Hplayer : player g2 = (nx, ny)).
  { unfold g2, forwardStep. by destruct (_ && _). }
  assert (Hanch : anchors g2 = anchors g).
  { unfold g2, forwardStep. by destruct (_ && _). }
  assert (Hcols : COLS g2 = COLS g ∧ ROWS g2 = ROWS g).
  { unfold g2, forwardStep. by destruct (_ && _). }
  assert (Hover2 : gameOver g2 = false).
  { unfold g2, forwardStep. by destruct (_ && _). }
  destruct Hcols as [Hcols Hrows].
  assert (Hnd2 : NoDup (trail g2)).
  { rewrite Htrail. apply NoDup_app. split_and!; [done | | apply NoDup_singleton].
    intros c Hc Hc'. apply list_elem_of_singleton in Hc' as ->. done. }
  assert (Hgrid2 : ∀ c, c ∈ trail g2 → inGrid (COLS g2) (ROWS g2) c).
  { intros c. rewrite Htrail, Hcols, Hrows, elem_of_app, list_elem_of_singleton.
    intros [Hc| ->]; [by apply Hgrid|].
    unfold outOfBounds in Hb. unfold inGrid; simpl. lia. }
  unfold winTest. unfold K. rewrite Hanch. fold (K g).
  split.
  { intros [a Ha]. rewrite Ha. destruct (_ && _); eauto. }
  intros g'. destruct (find _ (anchors g)) as [finalA|] eqn:Hfind; [|done].
  rewrite Hplayer. simpl.
  assert (Hwin : walkedAll g2 && visitedInOrder g2
                 && ((nx =? ax finalA) && (ny =? ay finalA)) = true
                 ↔ winCondition g2).
  { assert (Hlast : last (trail g2) = Some (nx, ny)).
    { rewrite Htrail. apply last_snoc. }
    unfold winCondition. rewrite !andb_true_iff, visitedInOrder_spec.
    unfold walkedAll. rewrite !Z.eqb_eq, Hlast.
    unfold K. rewrite Hanch. fold (K g). rewrite Hfind. split.
    - intros [[Hlen Hord] [-> ->]]. split_and!; [done | | done | by exists finalA].
      apply Hamiltonian_of_length; [done | done |].
      destruct (decide (0 ≤ COLS g2)); destruct (decide (0 ≤ ROWS g2)); nia.
    - intros (Hlen & _ & Hord & a & [= <-] & [= -> ->]). done. }
  destruct (walkedAll g2 && visitedInOrder g2 && _).
  - intros [= <-]. split; [done|]. simpl. split; [intros _|done].
    by apply Hwin.
  - intros [= <-]. split; [done|]. rewrite Hover2. split; [done|].
    intros Hc. by apply Hwin in Hc.
Qed.

(** C1 in the public build: after right, down, back up, back left, down on
    the 2x2 game the win is declared on a trail of two cells, because the
    test counts [visitedCells], which the two steps back did not shrink. *)
Theorem public_move_win_short_trail :
  ∃ g', play Public.move [Right; Down; Up; Left; Down] game_2x2_start = Some g'
    ∧ gameOver g' = true
    ∧ trail g' = [(0, 0); (0, 1)]
    ∧ COLS g' * ROWS g' = 4
    ∧ ¬ winCondition g'.
Proof.
  eexists. split; [vm_compute; reflexivity|].
  split; [reflexivity|]. split; [reflexivity|]. split; [reflexivity|].
  intros [Hlen _]. vm_compute in Hlen. discriminate.
Qed.

(** The same keys in the full game: no win. *)
Lemma move_same_play_no_win :
  ∃ g', play move [Right; Down; Up; Left; Down] game_2x2_start = Some g'
    ∧ gameOver g' = false ∧ trail g' = [(0, 0); (0, 1)].
Proof. eexists. split; [vm_compute; reflexivity|]. done. Qed.

Lemma move_win_iff_witness :
  ∃ g', move Right game_2x1_start = Some g' ∧ (gameOver g' = true ↔ winCondition g').
Proof.
  assert (Hinv : TrailInv game_2x1_start).
  { split; simpl.
    - apply NoDup_singleton.
    - intros c Hc. apply list_elem_of_singleton in Hc as ->. by vm_compute.
    - reflexivity. }
  destruct (move_win_iff Right game_2x1_start Hinv eq_refl eq_refl eq_refl)
    as [Hsome Hiff].
  { vm_compute. intros Hc. apply list_elem_of_singleton in Hc. discriminate. }
  exists game_2x1_won. split; [reflexivity|]. by apply Hiff.
Defined.

Lemma removelast_snoc2 {A} (pre : list A) (t cur : A) :
  removelast (pre ++ [t; cur]) = pre ++ [t].
Proof. by rewrite removelast_app. Qed.

Lemma forwardStep_TrailInv (g : Game) (nx ny : Z) :
  TrailInv g → outOfBounds g nx ny = false → (nx, ny) ∉ trail g →
  TrailInv (forwardStep nx ny g).
Proof.
  intros [Hnd Hgrid Hpl] Hb Hnotin.
  set (g2 := forwardStep nx ny g).
  assert (Htrail : trail g2 = trail g ++ [(nx, ny)]).
  { unfold g2, forwardStep. by destruct (_ && _). }
  assert (Hplayer : player g2 = (nx, ny)).
  { unfold g2, forwardStep. by destruct (_ && _). }
  assert (Hcols : COLS g2 = COLS g ∧ ROWS g2 = ROWS g).
  { unfold g2, forwardStep. by destruct (_ && _). }
  destruct Hcols as [Hcols Hrows]. split.
  - rewrite Htrail. apply NoDup_app. split_and!; [done | | apply NoDup_singleton].
    intros c Hc Hc'. apply list_elem_of_singleton in Hc' as ->. done.
  - intros c. rewrite Htrail, Hcols, Hrows, elem_of_app, list_elem_of_singleton.
    intros [Hc| ->]; [by apply Hgrid|].
    unfold outOfBounds in Hb. unfold inGrid; simpl. lia.
  - rewrite Htrail, Hplayer. apply last_snoc.
Qed.

(** Play keeps the trail invariant, in both builds. *)
Lemma moveWith_TrailInv (wa : Game → bool) (dir : Dir) (g g' : Game) :
  TrailInv g → moveWith wa dir g = Some g' → TrailInv g'.
Proof.
  intros Hinv. unfold moveWith.
  destruct (gameOver g); [by intros [= <-]|].
  destruct (stepTarget dir g) as [nx ny].
  destruct (outOfBounds g nx ny) eqn:Hb; [by intros [= <-]|].
  destruct (blockedByWall _ _ _ _ _).
  { intros [= <-]. by destruct Hinv. }
  destruct (Z.eqb_spec (findIndex (cellEq nx ny) (trail g)) (-1)) as [Hidx|Hidx]; simpl.
  - assert (Hnotin : (nx, ny) ∉ trail g).
    { intros Hin. apply findIndex_found in Hin. apply Z.eqb_neq in Hin. done. }
    pose proof (forwardStep_TrailInv g nx ny Hinv Hb Hnotin) as Hinv2.
    unfold winTest. destruct (find _ _); [|done].
    destruct (_ && _); intros [= <-]; by destruct Hinv2.
  - destruct (isImmediateBack (trail g) nx ny) eqn:Hback.
    + intros [= <-]. apply isImmediateBack_spec in Hback as (pre & cur & Ht).
      destruct Hinv as [Hnd Hgrid Hpl]. split; simpl.
      * rewrite Ht, removelast_snoc2. rewrite Ht in Hnd.
        replace (pre ++ [(nx, ny); cur]) with ((pre ++ [(nx, ny)]) ++ [cur]) in Hnd
          by (by rewrite <- app_assoc).
        by apply NoDup_app in Hnd as [Hnd _].
      * intros c. rewrite Ht, removelast_snoc2. intros Hc. apply Hgrid.
        rewrite Ht. apply elem_of_app in Hc as [Hc|Hc]; apply elem_of_app;
          [by left | right].
        apply list_elem_of_singleton in Hc as ->. by left.
      * rewrite Ht, removelast_snoc2. apply last_snoc.
    + intros [= <-]. by destruct Hinv.
Qed.

(** ** Transforms *)

Lemma Hamiltonian_fmap cols rows cols' rows' (f g : Cell → Cell) p :
  (∀ c, g (f c) = c) →
  (∀ c, inGrid cols rows c → inGrid cols' rows' (f c)) →
  (∀ c, inGrid cols' rows' c → inGrid cols rows (g c) ∧ f (g c) = c) →
  Hamiltonian cols rows p → Hamiltonian cols' rows' (f <$> p).
Proof.
  intros Hgf Hfwd Hbwd [Hnd Hin]. split.
  - apply NoDup_fmap_2_strong; [|done]. intros a b _ _ Hab.
    by rewrite <- (Hgf a), <- (Hgf b), Hab.
  - intros c. rewrite list_elem_of_fmap. split.
    + intros (c' & -> & Hc'). apply Hfwd. by apply Hin.
    + intros Hc. destruct (Hbwd c Hc) as [Hg Hfg].
      exists (g c). split; [done | by apply Hin].
Qed.

Lemma Hamiltonian_reverse cols rows p :
  Hamiltonian cols rows p → Hamiltonian cols rows (reverse p).
Proof.
  intros Hp. apply Hamiltonian_Permutation.
  rewrite reverse_Permutation. by apply Hamiltonian_Permutation.
Qed.

Ltac grid_arith :=
  unfold inGrid in *; simpl in *;
  repeat match goal with c : (Z * Z)%type |- _ => destruct c end;
  simpl in *; try split; try f_equal; lia.

Lemma rotatePoint_cases p rot cols rows :
  let '(x, y) := p in
  ((rot mod 4 = 0)%nat ∧ rotatePoint p rot cols rows = (x, y))
  ∨ ((rot mod 4 = 1)%nat ∧ rotatePoint p rot cols rows = (y, cols - 1 - x))
  ∨ ((rot mod 4 = 2)%nat ∧ rotatePoint p rot cols rows = (cols - 1 - x, rows - 1 - y))
  ∨ ((rot mod 4 = 3)%nat ∧ rotatePoint p rot cols rows = (rows - 1 - y, x)).
Proof.
  destruct p as [x y]. unfold rotatePoint.
  pose proof (Nat.mod_upper_bound rot 4 ltac:(lia)) as Hb.
  destruct (rot mod 4)%nat as [|[|[|[|n]]]]; [tauto | tauto | tauto | tauto | lia].
Qed.

Lemma rotatePath_transposed rot cols rows p :
  (rot mod 4 = 1 ∨ rot mod 4 = 3)%nat →
  Hamiltonian cols rows p → Hamiltonian rows cols (rotatePath rot cols rows p).
Proof.
  intros Hrot. unfold rotatePath, rotatePoint.
  destruct Hrot as [-> | ->].
  - apply Hamiltonian_fmap with (g := λ c : Cell, (cols - 1 - c.2, c.1));
      intros; grid_arith.
  - apply Hamiltonian_fmap with (g := λ c : Cell, (c.2, rows - 1 - c.1));
      intros; grid_arith.
Qed.

Lemma rotatePath_even rot cols rows p :
  (rot mod 4 = 0 ∨ rot mod 4 = 2)%nat →
  Hamiltonian cols rows p → Hamiltonian cols rows (rotatePath rot cols rows p).
Proof.
  intros Hrot. unfold rotatePath, rotatePoint.
  destruct Hrot as [-> | ->].
  - apply Hamiltonian_fmap with (g := λ c : Cell, c); intros; grid_arith.
  - apply Hamiltonian_fmap with (g := λ c : Cell, (cols - 1 - c.1, rows - 1 - c.2));
      intros; grid_arith.
Qed.

Lemma rotatePath_Hamiltonian rot cols rows p :
  (rot mod 4 = 0 ∨ rot mod 4 = 2)%nat ∨ cols = rows →
  Hamiltonian cols rows p → Hamiltonian cols rows (rotatePath rot cols rows p).
Proof.
  intros [Hrot | ->] Hp; [by apply rotatePath_even|].
  pose proof (Nat.mod_upper_bound rot 4 ltac:(lia)) as Hb.
  destruct (decide (rot mod 4 = 0 ∨ rot mod 4 = 2)%nat) as [Hev | Hodd].
  - by apply rotatePath_even.
  - apply rotatePath_transposed; [lia | done].
Qed.

Lemma mirrorH_Hamiltonian cols rows p :
  Hamiltonian cols rows p → Hamiltonian cols rows (mirrorH cols p).
Proof.
  unfold mirrorH.
  apply Hamiltonian_fmap with (g := λ c : Cell, (cols - 1 - c.1, c.2));
    intros; grid_arith.
Qed.

Lemma mirrorV_Hamiltonian cols rows p :
  Hamiltonian cols rows p → Hamiltonian cols rows (mirrorV rows p).
Proof.
  unfold mirrorV.
  apply Hamiltonian_fmap with (g := λ c : Cell, (c.1, rows - 1 - c.2));
    intros; grid_arith.
Qed.

(** C8, amended: the two mirrors, the reversal and the rotations by 0 and
    180 degrees map a Hamiltonian path of the [cols] x [rows] grid to one
    of the same length; the rotations by 90 and 270 degrees do so when the
    grid is square. *)
Theorem transform_closure cols rows :
  (∀ rot, (rot mod 4 = 0 ∨ rot mod 4 = 2)%nat ∨ cols = rows →
          transformClosed cols rows (rotatePath rot cols rows))
  ∧ transformClosed cols rows (mirrorH cols)
  ∧ transformClosed cols rows (mirrorV rows)
  ∧ transformClosed cols rows reverse.
Proof.
  split_and!.
  - intros rot Hrot p Hp. split; [apply length_fmap|].
    by apply rotatePath_Hamiltonian.
  - intros p Hp. split; [apply length_fmap | by apply mirrorH_Hamiltonian].
  - intros p Hp. split; [apply length_fmap | by apply mirrorV_Hamiltonian].
  - intros p Hp. split; [apply length_reverse | by apply Hamiltonian_reverse].
Qed.

(** C8 as stated fails on a grid that is not square: the quarter turn
    sends the 2x1 grid onto cells of the 1x2 grid. *)
Lemma transform_closure_rot90_cex :
  ¬ transformClosed 2 1 (rotatePath 1 2 1).
Proof.
  intros H. destruct (H (gridCells 2 1) (Hamiltonian_gridCells 2 1)) as [_ [_ Hin]].
  assert (Hc : (0, 1) ∈ rotatePath 1 2 1 (gridCells 2 1)) by (vm_compute; left).
  apply Hin in Hc. unfold inGrid in Hc. simpl in Hc. lia.
Qed.

Lemma transform_closure_witness :
  Hamiltonian 2 2 (rotatePath 1 2 2 (gridCells 2 2)).
Proof.
  destruct (transform_closure 2 2) as [Hrot _].
  apply (Hrot 1%nat (or_intror eq_refl) (gridCells 2 2)).
  apply Hamiltonian_gridCells.
Defined.

(** The four draws of [buildRandomSnakePath] keep a Hamiltonian path of a
    square grid Hamiltonian, whatever the tape. *)
Lemma transformSnake_square rnd n snake i :
  Hamiltonian n n snake → Hamiltonian n n (transformSnake rnd n n snake i).1.
Proof.
  intros Hp. unfold transformSnake. simpl.
  assert (H1 : Hamiltonian n n (rotatePath (Z.to_nat (randomInt rnd i 4)) n n snake)).
  { apply rotatePath_Hamiltonian; [by right | done]. }
  destruct (randomBelow rnd (i + 1) (1 # 2));
    [apply mirrorH_Hamiltonian in H1|];
    (destruct (randomBelow rnd (i + 2) (1 # 2));
       [apply mirrorV_Hamiltonian in H1|]);
    (destruct (randomBelow rnd (i + 3) (1 # 2));
       [by apply Hamiltonian_reverse | done]).
Qed.

(** ** Path templates *)

Lemma elem_of_evens n b : b ∈ evens n ↔ 0 ≤ b < n ∧ b mod 2 = 0.
Proof. unfold evens. rewrite list_elem_of_filter, elem_of_seqZ. lia. Qed.

Lemma NoDup_evens n : NoDup (evens n).
Proof. apply NoDup_filter, NoDup_seqZ. Qed.

Lemma elem_of_span (b : bool) n x :
  x ∈ (if b then seqZ 0 n else reverse (seqZ 0 n)) ↔ 0 ≤ x < n.
Proof. destruct b; rewrite ?elem_of_reverse, elem_of_seqZ; lia. Qed.

Lemma NoDup_span (b : bool) n :
  NoDup (if b then seqZ 0 n else reverse (seqZ 0 n)).
Proof.
  destruct b; [apply NoDup_seqZ|].
  rewrite reverse_Permutation. apply NoDup_seqZ.
Qed.

Lemma buildSnakePathBase_row cols y :
  (if y mod 2 =? 0 then (λ x, (x, y)) <$> seqZ 0 cols
   else (λ x, (x, y)) <$> reverse (seqZ 0 cols))
  = (λ x, (x, y)) <$> (if y mod 2 =? 0 then seqZ 0 cols else reverse (seqZ 0 cols)).
Proof. by destruct (y mod 2 =? 0). Qed.

(** The base serpentine holds every cell once, whatever the size. *)
Theorem buildSnakePathBase_Hamiltonian cols rows :
  Hamiltonian cols rows (buildSnakePathBase cols rows).
Proof.
  unfold buildSnakePathBase. split.
  - apply NoDup_bind; [| |apply NoDup_seqZ].
    + intros y1 y2 c _ _. rewrite !buildSnakePathBase_row, !list_elem_of_fmap.
      intros (x1 & -> & _) (x2 & [= _ ->] & _). done.
    + intros y _. rewrite buildSnakePathBase_row.
      apply NoDup_fmap_2; [|apply NoDup_span]. by intros x1 x2 [= ->].
  - intros [x y]. rewrite list_elem_of_bind. unfold inGrid; simpl. split.
    + intros (y' & Hc & Hy). rewrite buildSnakePathBase_row, list_elem_of_fmap in Hc.
      destruct Hc as (x' & [= -> ->] & Hx).
      apply elem_of_span in Hx. apply elem_of_seqZ in Hy. lia.
    + intros [Hx Hy]. exists y. split; [|apply elem_of_seqZ; lia].
      rewrite buildSnakePathBase_row, list_elem_of_fmap.
      exists x. split; [done | by apply elem_of_span].
Qed.

Lemma fill_loop_spec (base acc : list Cell) :
  NoDup acc →
  let r := foldl (λ acc (p : Cell),
                    if existsb (cellEq p.1 p.2) acc then acc else acc ++ [p])
                 acc base in
  NoDup r ∧ ∀ c, c ∈ r ↔ c ∈ acc ∨ c ∈ base.
Proof.
  revert acc. induction base as [|p base IH]; intros acc Hnd; simpl.
  - split; [done|]. intros c. rewrite elem_of_nil. tauto.
  - assert (Hex : existsb (cellEq p.1 p.2) acc = true ↔ p ∈ acc).
    { rewrite existsb_exists. setoid_rewrite <- list_elem_of_In. split.
      - intros ([a b] & Hin & Heq). unfold cellEq in Heq; simpl in Heq.
        apply andb_true_iff in Heq as [Ha Hb]. apply Z.eqb_eq in Ha, Hb.
        destruct p; simpl in *; by subst.
      - intros Hin. exists p. split; [done|]. unfold cellEq.
        by rewrite !Z.eqb_refl. }
    destruct (existsb (cellEq p.1 p.2) acc) eqn:E.
    + destruct (IH acc Hnd) as [Hnd' Hin']. split; [done|].
      intros c. rewrite Hin', elem_of_cons.
      assert (p ∈ acc) by by apply Hex. split; [tauto|]. intros [?|[->|?]]; tauto.
    + assert (Hp : p ∉ acc) by (intros Hc; apply Hex in Hc; congruence).
      destruct (IH (acc ++ [p])) as [Hnd' Hin'].
      { apply NoDup_app. split_and!; [done | | apply NoDup_singleton].
        intros c Hc Hc'. apply list_elem_of_singleton in Hc' as ->. done. }
      split; [done|]. intros c.
      rewrite Hin', elem_of_app, list_elem_of_singleton, elem_of_cons. tauto.
Qed.

(** The backstop completes a duplicate-free partial path: it appends the
    missing cells and adds no duplicate. *)
Theorem fillMissing_Hamiltonian cols rows path :
  NoDup path → (∀ c, c ∈ path → inGrid cols rows c) →
  Hamiltonian cols rows (fillMissing cols rows path).
Proof.
  intros Hnd Hin. unfold fillMissing.
  destruct (Z.eqb_spec (Z.of_nat (length path)) (cols * rows)) as [Hlen|Hlen].
  - destruct path as [|c path].
    + simpl in Hlen. split; [done|]. intros c. rewrite elem_of_nil.
      unfold inGrid. split; [done|]. nia.
    + apply Hamiltonian_of_length; [done | done |].
      specialize (Hin c (list_elem_of_here _ _)). unfold inGrid in Hin. nia.
  - destruct (fill_loop_spec (buildSnakePathBase cols rows) path Hnd) as [Hnd' Hin'].
    split; [done|]. intros c. rewrite Hin'.
    destruct (buildSnakePathBase_Hamiltonian cols rows) as [_ Hbase].
    rewrite Hbase. split; [|tauto]. intros [Hc|Hc]; [by apply Hin | done].
Qed.

(** The backstop never removes anything: a duplicate in its input stays. *)
Lemma fillMissing_keeps_prefix cols rows path :
  ∃ rest, fillMissing cols rows path = path ++ rest.
Proof.
  unfold fillMissing. destruct (_ =? _); [exists []; by rewrite app_nil_r|].
  generalize (buildSnakePathBase cols rows). intros base. revert path.
  induction base as [|p base IH]; intros path; simpl.
  - exists []. by rewrite app_nil_r.
  - destruct (existsb _ path); [apply IH|].
    destruct (IH (path ++ [p])) as [rest ->]. exists (p :: rest).
    by rewrite <- app_assoc.
Qed.

(** So does the block serpentine, odd sizes included. *)
Theorem buildBlockSnakePath_Hamiltonian cols rows :
  Hamiltonian cols rows (buildBlockSnakePath cols rows).
Proof.
  unfold buildBlockSnakePath.
  assert (Hpair : ∀ (b x : Z) (c : Cell), b ∈ evens rows →
    c ∈ (x, b) :: (if Z.min (b + 1) (rows - 1) =? b then [] else [(x, Z.min (b + 1) (rows - 1))])
    ↔ c.1 = x ∧ (c.2 = b ∨ (c.2 = b + 1 ∧ b + 1 < rows))).
  { intros b x [cx cy] Hb%elem_of_evens. simpl. rewrite elem_of_cons.
    destruct (Z.eqb_spec (Z.min (b + 1) (rows - 1)) b) as [E|E].
    - rewrite elem_of_nil. split; [intros [[= -> ->]|[]]; lia|].
      intros [-> [->|[-> ?]]]; [by left | lia].
    - rewrite list_elem_of_singleton. split.
      + intros [[= -> ->]|[= -> ->]]; lia.
      + intros [-> [->|[-> ?]]]; [by left|]. right. f_equal. lia. }
  split.
  - apply NoDup_bind; [| |apply NoDup_evens].
    + intros b1 b2 c Hb1 Hb2. rewrite !list_elem_of_bind.
      intros (x1 & Hc1 & _) (x2 & Hc2 & _).
      apply Hpair in Hc1, Hc2; [|done..]. apply elem_of_evens in Hb1, Hb2.
      destruct Hb1 as [_ Hm1], Hb2 as [_ Hm2].
      apply Z.mod_divide in Hm1 as [k1 ->], Hm2 as [k2 ->]; lia.
    + intros b Hb. apply NoDup_bind; [| |apply NoDup_span].
      * intros x1 x2 c _ _ Hc1 Hc2. apply Hpair in Hc1, Hc2; [|done..]. lia.
      * intros x _. destruct (Z.eqb_spec (Z.min (b + 1) (rows - 1)) b) as [E|E];
          [apply NoDup_singleton|].
        apply NoDup_cons. split; [|apply NoDup_singleton].
        rewrite list_elem_of_singleton. intros [= ?]. lia.
  - intros [cx cy]. rewrite list_elem_of_bind. unfold inGrid; simpl. split.
    + intros (b & Hc & Hb). apply list_elem_of_bind in Hc as (x & Hc & Hx).
      apply Hpair in Hc; [|done]. apply elem_of_span in Hx.
      apply elem_of_evens in Hb. simpl in Hc. lia.
    + intros [Hx Hy].
      assert (Hev : 2 * (cy / 2) ∈ evens rows).
      { apply elem_of_evens. split.
        - pose proof (Z.div_mod cy 2 ltac:(lia)).
          pose proof (Z.mod_pos_bound cy 2 ltac:(lia)). lia.
        - rewrite Z.mul_comm. apply Z.mod_mul. lia. }
      exists (2 * (cy / 2)). split; [|done].
      apply list_elem_of_bind. exists cx. split; [|by apply elem_of_span].
      apply Hpair; [done|]. simpl. split; [done|].
      pose proof (Z.div_mod cy 2 ltac:(lia)).
      pose proof (Z.mod_pos_bound cy 2 ltac:(lia)). lia.
Qed.

(** C3 at [buildCheckerboard2x2Path(3, 2)]: the last block column has
    [xs = [2, 2]], each of its cells is pushed twice, and the backstop,
    which only appends, leaves eight cells for a grid of six. *)
Theorem buildCheckerboard2x2Path_duplicates :
  buildCheckerboard2x2Path 3 2
    = [(0, 0); (1, 0); (0, 1); (1, 1); (2, 1); (2, 1); (2, 0); (2, 0)]
  ∧ length (buildCheckerboard2x2Path 3 2) ≠ 6%nat
  ∧ ¬ NoDup (buildCheckerboard2x2Path 3 2)
  ∧ ¬ Hamiltonian 3 2 (buildCheckerboard2x2Path 3 2).
Proof.
  assert (He : buildCheckerboard2x2Path 3 2
    = [(0, 0); (1, 0); (0, 1); (1, 1); (2, 1); (2, 1); (2, 0); (2, 0)])
    by (vm_compute; reflexivity).
  assert (Hnd : ¬ NoDup (buildCheckerboard2x2Path 3 2)).
  { rewrite He. intros H. apply (bool_decide_pack _) in H. vm_compute in H. done. }
  split; [done|]. split; [by rewrite He|]. split; [done|]. by intros [H _].
Qed.

(** The same defect in [buildTileSnakePath], on an odd number of rows:
    the fourth push of a tile repeats its first cell. *)
Lemma buildTileSnakePath_duplicates :
  buildTileSnakePath 2 1 = [(0, 0); (1, 0); (0, 0)]
  ∧ ¬ Hamiltonian 2 1 (buildTileSnakePath 2 1).
Proof.
  assert (He : buildTileSnakePath 2 1 = [(0, 0); (1, 0); (0, 0)])
    by (vm_compute; reflexivity).
  split; [done|]. rewrite He. intros [H _].
  apply (bool_decide_pack _) in H. vm_compute in H. done.
Qed.

(** On the 6x6 grid of the game all five templates are Hamiltonian. *)
Lemma templates_6x6 :
  Forall (λ f : Z → Z → list Cell, isHamiltonianb 6 6 (f 6 6) = true)
    [buildSnakePathBase; buildBlockSnakePath; buildTileSnakePath;
     buildCheckerboardPath; buildCheckerboard2x2Path].
Proof. repeat constructor. Qed.

(** ** Walls *)

Lemma wallEdge_inv rnd snake wallPct a b w st :
  wallAllowed snake w ∨ Z.abs (findIndex (cellEq a.1 a.2) snake
                               - findIndex (cellEq b.1 b.2) snake) = 1 →
  (∀ w', w' ∈ st.1 → wallAllowed snake w') →
  ∀ w', w' ∈ (wallEdge rnd snake wallPct a b w st).1 → wallAllowed snake w'.
Proof.
  intros Hw Hst w'. unfold wallEdge.
  destruct (Z.eqb_spec (Z.abs (findIndex (cellEq a.1 a.2) snake
                               - findIndex (cellEq b.1 b.2) snake)) 1) as [E|E];
    [apply Hst|].
  destruct (randomBelow _ _ _); simpl; [|apply Hst].
  rewrite elem_of_union, elem_of_singleton. intros [->|?]; [|by apply Hst].
  destruct Hw; [done | congruence].
Qed.

Lemma wallCell_inv rnd cols rows snake wallPct y st x :
  (∀ w', w' ∈ st.1 → wallAllowed snake w') →
  ∀ w', w' ∈ (wallCell rnd cols rows snake wallPct y st x).1 → wallAllowed snake w'.
Proof.
  intros Hst. unfold wallCell.
  assert (H1 : ∀ w', w' ∈ (if x <? cols - 1
      then wallEdge rnd snake wallPct (x, y) (x + 1, y) (x, y, Right) st
      else st).1 → wallAllowed snake w').
  { destruct (x <? cols - 1); [|done]. apply wallEdge_inv; [|done].
    simpl. destruct (decide (Z.abs (findIndex (cellEq x y) snake
      - findIndex (cellEq (x + 1) y) snake) = 1)); [by right | by left]. }
  destruct (y <? rows - 1); [|done]. apply wallEdge_inv; [|done].
  simpl. destruct (decide (Z.abs (findIndex (cellEq x y) snake
      - findIndex (cellEq x (y + 1)) snake) = 1)); [by right | by left].
Qed.

Lemma buildShortcutWalls_allowed rnd snake wallPct g i w :
  w ∈ walls (buildShortcutWallsFromSnake rnd snake wallPct g i).1 →
  wallAllowed snake w.
Proof.
  unfold buildShortcutWallsFromSnake. simpl.
  generalize (seqZ 0 (ROWS g)). intros ys.
  assert (Hgen : ∀ st : gset Wall * nat,
    (∀ w', w' ∈ st.1 → wallAllowed snake w') →
    ∀ w', w' ∈ (foldl (λ st y, foldl (wallCell rnd (COLS g) (ROWS g) snake wallPct y)
                         st (seqZ 0 (COLS g))) st ys).1 → wallAllowed snake w').
  { induction ys as [|y ys IH]; intros st Hst; simpl; [done|].
    apply IH. generalize (seqZ 0 (COLS g)). intros xs. revert st Hst.
    induction xs as [|x xs IHx]; intros st Hst; simpl; [done|].
    apply IHx. by apply wallCell_inv. }
  apply Hgen. simpl. intros w'. by rewrite elem_of_empty.
Qed.

Lemma findIndex_lookup (snake : list Cell) (i : nat) (a : Cell) :
  NoDup snake → snake !! i = Some a →
  findIndex (cellEq a.1 a.2) snake = Z.of_nat i.
Proof.
  revert i. induction snake as [|c snake IH]; intros i Hnd Hi; [done|].
  apply NoDup_cons in Hnd as [Hc Hnd]. simpl.
  destruct i as [|i]; simpl in Hi.
  - injection Hi as ->. unfold cellEq. by rewrite !Z.eqb_refl.
  - assert (Hne : cellEq a.1 a.2 c = false).
    { unfold cellEq. apply andb_false_iff.
      destruct (Z.eqb_spec c.1 a.1) as [E1|]; [|by left].
      destruct (Z.eqb_spec c.2 a.2) as [E2|]; [|by right].
      exfalso. apply Hc. replace c with a by (destruct a, c; simpl in *; congruence).
      by eapply list_elem_of_lookup_2. }
    rewrite Hne, (IH i Hnd Hi).
    destruct (Z.eqb_spec (Z.of_nat i) (-1)); lia.
Qed.

Lemma blockedByWall_edge (ws : gset Wall) (a b : Cell) :
  blockedByWall ws a.1 a.2 b.1 b.2 = true →
  ∃ w, edgeWall a b = Some w ∧ w ∈ ws.
Proof.
  destruct a as [ax ay], b as [bx by_]. unfold blockedByWall, edgeWall. simpl.
  destruct ((bx - ax =? 1) && (by_ - ay =? 0)) eqn:E1.
  { apply andb_true_iff in E1 as [?%Z.eqb_eq ?%Z.eqb_eq].
    intros Hw%bool_decide_eq_true. eexists. split; [|done].
    rewrite decide_True; [done | f_equal; lia]. }
  rewrite decide_False
    by (intros [= ? ?]; apply andb_false_iff in E1 as [?%Z.eqb_neq|?%Z.eqb_neq]; lia).
  destruct ((bx - ax =? -1) && (by_ - ay =? 0)) eqn:E2.
  { apply andb_true_iff in E2 as [?%Z.eqb_eq ?%Z.eqb_eq].
    intros Hw%bool_decide_eq_true. eexists. split; [|done].
    rewrite decide_True; [done | f_equal; lia]. }
  rewrite decide_False
    by (intros [= ? ?]; apply andb_false_iff in E2 as [?%Z.eqb_neq|?%Z.eqb_neq]; lia).
  destruct ((bx - ax =? 0) && (by_ - ay =? 1)) eqn:E3.
  { apply andb_true_iff in E3 as [?%Z.eqb_eq ?%Z.eqb_eq].
    intros Hw%bool_decide_eq_true. eexists. split; [|done].
    rewrite decide_True; [done | f_equal; lia]. }
  rewrite decide_False
    by (intros [= ? ?]; apply andb_false_iff in E3 as [?%Z.eqb_neq|?%Z.eqb_neq]; lia).
  destruct ((bx - ax =? 0) && (by_ - ay =? -1)) eqn:E4; [|done].
  apply andb_true_iff in E4 as [?%Z.eqb_eq ?%Z.eqb_eq].
  intros Hw%bool_decide_eq_true. eexists. split; [|done].
  rewrite decide_True; [done | f_equal; lia].
Qed.

(** C4: after [buildShortcutWallsFromSnake] on a Hamiltonian snake, no
    wall lies on the edge between two cells that are consecutive on the
    snake, so that no step of the snake is blocked, whatever the tape and
    the wall probability; and the walls do not depend on the walls there
    were before the call. *)
Theorem buildShortcutWalls_safe rnd snake wallPct g i :
  Hamiltonian (COLS g) (ROWS g) snake →
  let g' := (buildShortcutWallsFromSnake rnd snake wallPct g i).1 in
  (∀ a b w, consecutiveOn snake a b → edgeWall a b = Some w → w ∉ walls g')
  ∧ (∀ a b, consecutiveOn snake a b →
        blockedByWall (walls g') a.1 a.2 b.1 b.2 = false)
  ∧ (∀ old, (buildShortcutWallsFromSnake rnd snake wallPct (set_walls old g) i).1
            = g').
Proof.
  intros [Hnd _] g'.
  assert (Hcons : ∀ a b, consecutiveOn snake a b →
    Z.abs (findIndex (cellEq a.1 a.2) snake - findIndex (cellEq b.1 b.2) snake) = 1).
  { intros a b [k [[Ha Hb]|[Hb Ha]]];
      rewrite (findIndex_lookup snake _ a Hnd Ha), (findIndex_lookup snake _ b Hnd Hb);
      lia. }
  assert (Hsafe : ∀ a b w, consecutiveOn snake a b → edgeWall a b = Some w →
                           w ∉ walls g').
  { intros a b w Hab He Hw.
    apply buildShortcutWalls_allowed in Hw.
    pose proof (Hcons a b Hab) as Hd.
    destruct a as [ax ay], b as [bx by_]. unfold edgeWall in He. simpl in *.
    repeat case_decide; simplify_eq; simpl in *; lia. }
  split; [done|]. split; [|done].
  intros a b Hab.
  destruct (blockedByWall (walls g') a.1 a.2 b.1 b.2) eqn:Hblocked; [|done].
  apply blockedByWall_edge in Hblocked as (w & He & Hw).
  by destruct (Hsafe a b w Hab He).
Qed.

Lemma buildShortcutWalls_safe_witness :
  consecutiveOn (buildSnakePathBase 2 2) (0, 0) (1, 0)
  ∧ blockedByWall
      (walls (buildShortcutWallsFromSnake tape0 (buildSnakePathBase 2 2) (1 # 2)
                (mkLayout 2 2 [] ∅) 0).1) 0 0 1 0 = false.
Proof.
  assert (Hc : consecutiveOn (buildSnakePathBase 2 2) (0, 0) (1, 0)).
  { exists 0%nat. left. split; reflexivity. }
  split; [exact Hc|].
  destruct (buildShortcutWalls_safe tape0 (buildSnakePathBase 2 2) (1 # 2)
              (mkLayout 2 2 [] ∅) 0 (buildSnakePathBase_Hamiltonian 2 2))
    as (_ & Hfree & _).
  exact (Hfree (0, 0) (1, 0) Hc).
Defined.

(** ** Anchors: picking the indices *)

Lemma randomInt_range rnd i n :
  tapeInRange rnd → 0 < n → 0 ≤ randomInt rnd i n < n.
Proof.
  intros Hr Hn. destruct (Hr i) as [H0 H1]. unfold randomInt. split.
  - rewrite <- (Qfloor_Z 0). apply Qfloor_resp_le.
    apply Qmult_le_0_compat; [done|]. replace 0%Q with (inject_Z 0) by done.
    rewrite <- Zle_Qle. lia.
  - rewrite Zlt_Qlt. eapply Qle_lt_trans; [apply Qfloor_le|].
    rewrite <- (Qmult_1_l (inject_Z n)) at 2.
    apply Qmult_lt_compat_r; [|done].
    replace 0%Q with (inject_Z 0) by done. by rewrite <- Zlt_Qlt.
Qed.

Lemma swap_Permutation i j l : swap i j l ≡ₚ l.
Proof.
  unfold swap. destruct (l !! i) as [a|] eqn:Hi; [|done].
  destruct (l !! j) as [b|] eqn:Hj; [|done].
  pose proof (lookup_lt_Some _ _ _ Hi) as Hil.
  pose proof (lookup_lt_Some _ _ _ Hj) as Hjl.
  apply Permutation_inj. split; [by rewrite !length_insert|].
  exists (λ k, if decide (k = j) then i else if decide (k = i) then j else k).
  split.
  - intros k1 k2. repeat case_decide; lia.
  - intros k. rewrite !list_lookup_insert, length_insert.
    repeat case_decide; try lia; subst; try done; try congruence.
Qed.

Lemma shufflePool_Permutation rnd pool k : (shufflePool rnd pool k).1 ≡ₚ pool.
Proof.
  unfold shufflePool. generalize (reverse (seq 1 (length pool - 1))) as is_.
  intros is_. generalize k. 
  assert (Hgen : ∀ (p : list nat) k0, (foldl (shuffleStep rnd) (p, k0) is_).1 ≡ₚ p).
  { induction is_ as [|i is_ IH]; intros p k0; simpl; [done|].
    unfold shuffleStep at 2. simpl. rewrite IH. apply swap_Permutation. }
  intros k0. apply Hgen.
Qed.

Section picks.
Variables (Knum minGap : Z).
Hypothesis HK : 0 ≤ Knum.

Lemma greedyPicks_loop_spec pool acc :
  NoDup acc → NoDup pool → (∀ x, x ∈ acc → x ∉ pool) →
  Z.of_nat (length acc) ≤ Knum →
  let r := foldl (λ picks idx,
           if Z.of_nat (length picks) =? Knum then picks
           else if forallb (λ p, Z.abs (Z.of_nat p - Z.of_nat idx) >=? minGap) picks
                then picks ++ [idx] else picks) acc pool in
  NoDup r ∧ (∀ x, x ∈ r → x ∈ acc ∨ x ∈ pool) ∧ Z.of_nat (length r) ≤ Knum.
Proof.
  revert acc. induction pool as [|idx pool IH]; intros acc Hacc Hpool Hdisj Hlen; simpl.
  - split_and!; [done | tauto | done].
  - apply NoDup_cons in Hpool as [Hidx Hpool].
    destruct (Z.eqb_spec (Z.of_nat (length acc)) Knum) as [E|E].
    + destruct (IH acc) as (H1 & H2 & H3); [done | done | | done |].
      { intros x Hx Hx'. apply (Hdisj x Hx). by right. }
      split_and!; [done | | done]. intros x Hx. rewrite elem_of_cons.
      destruct (H2 x Hx); tauto.
    + destruct (forallb _ acc).
      * destruct (IH (acc ++ [idx])) as (H1 & H2 & H3).
        { apply NoDup_app. split_and!; [done | | apply NoDup_singleton].
          intros x Hx Hx'. apply list_elem_of_singleton in Hx' as ->.
          apply (Hdisj idx Hx). by left. }
        { done. }
        { intros x Hx Hx'. apply elem_of_app in Hx as [Hx|Hx].
          - apply (Hdisj x Hx). by right.
          - apply list_elem_of_singleton in Hx as ->. done. }
        { rewrite length_app. simpl. lia. }
        split_and!; [done | | done]. intros x Hx. rewrite elem_of_cons.
        destruct (H2 x Hx) as [Hx'|Hx']; [|tauto].
        apply elem_of_app in Hx' as [?|Hx']; [tauto|].
        apply list_elem_of_singleton in Hx'. tauto.
      * destruct (IH acc) as (H1 & H2 & H3); [done | done | | done |].
        { intros x Hx Hx'. apply (Hdisj x Hx). by right. }
        split_and!; [done | | done]. intros x Hx. rewrite elem_of_cons.
        destruct (H2 x Hx); tauto.
Qed.

Lemma fillPicks_loop_spec pool acc :
  NoDup acc → Z.of_nat (length acc) ≤ Knum →
  let r := fillPicks Knum acc pool in
  NoDup r ∧ (∀ x, x ∈ r → x ∈ acc ∨ x ∈ pool) ∧ Z.of_nat (length r) ≤ Knum
  ∧ (∃ rest, r = acc ++ rest)
  ∧ (Knum ≤ Z.of_nat (length r) ∨ ∀ x, x ∈ pool → x ∈ r).
Proof.
  unfold fillPicks.
  revert acc. induction pool as [|idx pool IH]; intros acc Hacc Hlen; simpl.
  - split_and!; [done | tauto | done | exists []; by rewrite app_nil_r |].
    right. intros x Hx. by apply elem_of_nil in Hx.
  - destruct (Z.ltb_spec (Z.of_nat (length acc)) Knum) as [E|E].
    + destruct (bool_decide_reflect (idx ∈ acc)) as [Hin|Hin].
      * destruct (IH acc Hacc Hlen) as (H1 & H2 & H3 & [rest H4] & H5).
        split_and!; [done | | done | by exists rest |].
        { intros x Hx. rewrite elem_of_cons. destruct (H2 x Hx); tauto. }
        destruct H5 as [H5|H5]; [by left|]. right. intros x Hx.
        apply elem_of_cons in Hx as [->|Hx]; [|by apply H5].
        rewrite H4. apply elem_of_app. by left.
      * destruct (IH (acc ++ [idx])) as (H1 & H2 & H3 & [rest H4] & H5).
        { apply NoDup_app. split_and!; [done | | apply NoDup_singleton].
          intros x Hx Hx'. apply list_elem_of_singleton in Hx' as ->. done. }
        { rewrite length_app. simpl. lia. }
        split_and!; [done | | done | exists (idx :: rest); by rewrite H4, <- app_assoc |].
        { intros x Hx. rewrite elem_of_cons. destruct (H2 x Hx) as [Hx'|Hx']; [|tauto].
          apply elem_of_app in Hx' as [?|Hx']; [tauto|].
          apply list_elem_of_singleton in Hx'. tauto. }
        destruct H5 as [H5|H5]; [by left|]. right. intros x Hx.
        apply elem_of_cons in Hx as [->|Hx]; [|by apply H5].
        rewrite H4, <- app_assoc. apply elem_of_app. right. by left.
    + destruct (IH acc Hacc Hlen) as (H1 & H2 & H3 & [rest H4] & H5).
      split_and!; [done | | done | by exists rest |].
      { intros x Hx. rewrite elem_of_cons. destruct (H2 x Hx); tauto. }
      left. rewrite H4, length_app. lia.
Qed.

Lemma picks_spec pool :
  NoDup pool → Knum ≤ Z.of_nat (length pool) →
  let r := fillPicks Knum (greedyPicks Knum minGap pool) pool in
  NoDup r ∧ (∀ x, x ∈ r → x ∈ pool) ∧ Z.of_nat (length r) = Knum.
Proof.
  intros Hpool Hlen.
  destruct (greedyPicks_loop_spec pool [] (NoDup_nil_2) Hpool) as (G1 & G2 & G3).
  { intros x Hx. by apply elem_of_nil in Hx. }
  { simpl. lia. }
  fold (greedyPicks Knum minGap pool) in G1, G2, G3.
  destruct (fillPicks_loop_spec pool _ G1 G3) as (F1 & F2 & F3 & _ & F5).
  simpl. assert (Hsub : ∀ x, x ∈ fillPicks Knum (greedyPicks Knum minGap pool) pool → x ∈ pool).
  { intros x Hx. destruct (F2 x Hx) as [Hx'|]; [|done].
    destruct (G2 x Hx') as [Hx''|]; [|done]. by apply elem_of_nil in Hx''. }
  split_and!; [done | done |].
  destruct F5 as [F5|F5]; [lia|].
  assert (Hp : fillPicks Knum (greedyPicks Knum minGap pool) pool ≡ₚ pool).
  { apply NoDup_Permutation; [done | done |]. intros x. split; [apply Hsub | apply F5]. }
  rewrite Hp in F3 |- *. lia.
Qed.

End picks.

#[local] Instance nat_le_total : Total (≤)%nat.
Proof. intros x y. lia. Qed.

Lemma pickIndicesWithMinGap_spec rnd len Knum minGap k :
  0 ≤ Knum ≤ Z.of_nat len →
  let idxs := (pickIndicesWithMinGap rnd len Knum minGap k).1 in
  Z.of_nat (length idxs) = Knum ∧ NoDup idxs ∧ Sorted (≤)%nat idxs
  ∧ ∀ i, i ∈ idxs → (i < len)%nat.
Proof.
  intros [HK Hlen]. unfold pickIndicesWithMinGap. simpl.
  set (pool := (shufflePool rnd (seq 0 len) k).1).
  assert (Hperm : pool ≡ₚ seq 0 len) by apply shufflePool_Permutation.
  assert (Hnd : NoDup pool) by (rewrite Hperm; apply NoDup_seq).
  assert (Hpl : length pool = len) by (by rewrite Hperm, length_seq).
  destruct (picks_spec Knum minGap HK pool Hnd) as (P1 & P2 & P3); [lia|].
  split_and!.
  - by rewrite merge_sort_Permutation.
  - by rewrite merge_sort_Permutation.
  - apply Sorted_merge_sort. apply _.
  - intros i. rewrite merge_sort_Permutation. intros Hi%P2.
    rewrite Hperm in Hi. apply elem_of_seq in Hi. lia.
Qed.

(** ** Anchors: numbering and placement *)

Lemma anchorNumber_cases j shift Knum :
  0 ≤ shift < Knum → 0 ≤ j < Knum →
  anchorNumber j shift Knum
  = (if shift <=? j then j - shift else j - shift + Knum) + 1
  ∧ anchorNumber j shift Knum = (j - shift + Knum) mod Knum + 1.
Proof.
  intros Hs Hj. unfold anchorNumber.
  rewrite Z.rem_mod_nonneg by lia. split; [|done]. f_equal.
  destruct (Z.leb_spec shift j).
  - replace (j - shift + Knum) with (j - shift + 1 * Knum) by lia.
    rewrite Z.mod_add by lia. apply Z.mod_small. lia.
  - apply Z.mod_small. lia.
Qed.

Lemma mustOrder_seqZ n : mustOrder n = (λ z, z + 1) <$> seqZ 0 (Z.of_nat n).
Proof.
  unfold mustOrder, seqZ. rewrite Nat2Z.id, <- list_fmap_compose.
  apply list_fmap_ext. intros i x _. simpl. lia.
Qed.

Lemma anchorNumbers_Permutation shift (n : nat) :
  0 ≤ shift < Z.of_nat n →
  (λ j, anchorNumber j shift (Z.of_nat n)) <$> seqZ 0 (Z.of_nat n)
  ≡ₚ mustOrder n.
Proof.
  intros Hs. rewrite mustOrder_seqZ.
  apply NoDup_Permutation.
  - apply NoDup_fmap_2_strong; [|apply NoDup_seqZ].
    intros j1 j2 H1%elem_of_seqZ H2%elem_of_seqZ.
    destruct (anchorNumber_cases j1 shift (Z.of_nat n)) as [-> _]; [lia..|].
    destruct (anchorNumber_cases j2 shift (Z.of_nat n)) as [-> _]; [lia..|].
    destruct (Z.leb_spec shift j1), (Z.leb_spec shift j2); lia.
  - apply NoDup_fmap_2_strong; [|apply NoDup_seqZ]. intros; lia.
  - intros v. rewrite !list_elem_of_fmap. split.
    + intros (j & -> & Hj%elem_of_seqZ).
      destruct (anchorNumber_cases j shift (Z.of_nat n)) as [-> _]; [lia..|].
      destruct (Z.leb_spec shift j).
      * exists (j - shift). split; [lia | apply elem_of_seqZ; lia].
      * exists (j - shift + Z.of_nat n). split; [lia | apply elem_of_seqZ; lia].
    + intros (z & -> & Hz%elem_of_seqZ).
      destruct (decide (z + shift < Z.of_nat n)).
      * exists (z + shift). split; [|apply elem_of_seqZ; lia].
        destruct (anchorNumber_cases (z + shift) shift (Z.of_nat n)) as [-> _]; [lia..|].
        destruct (Z.leb_spec shift (z + shift)); lia.
      * exists (z + shift - Z.of_nat n). split; [|apply elem_of_seqZ; lia].
        destruct (anchorNumber_cases (z + shift - Z.of_nat n) shift (Z.of_nat n)) as [-> _]; [lia..|].
        destruct (Z.leb_spec shift (z + shift - Z.of_nat n)); lia.
Qed.

Lemma placeAnchors_ok snake idxs shift Knum js acc l :
  mapM (anchorAt snake idxs shift Knum) js = Some l →
  placeAnchors snake idxs shift Knum js acc
  = (acc.1 ++ l, foldl (λ m a, <[keyOf (ax a) (ay a) := an a]> m) acc.2 l, true).
Proof.
  revert acc l. induction js as [|j js IH]; intros [anchors am] l; simpl.
  - intros [= <-]. by rewrite app_nil_r.
  - destruct (idxs !! Z.to_nat j ≫= (snake !!.)) as [[x y]|] eqn:E.
    + assert (Ha : anchorAt snake idxs shift Knum j
                   = Some (mkAnchor x y (anchorNumber j shift Knum))).
      { unfold anchorAt. by rewrite E. }
      rewrite Ha. simpl.
      destruct (mapM (anchorAt snake idxs shift Knum) js) as [l'|] eqn:Hl';
        simpl; [|done].
      intros [= <-]. rewrite (IH _ l' eq_refl). simpl. by rewrite <- app_assoc.
    + assert (Ha : anchorAt snake idxs shift Knum j = None).
      { unfold anchorAt. by rewrite E. }
      by rewrite Ha.
Qed.

Lemma placeAnchors_throws snake idxs shift Knum js acc j :
  j ∈ js → idxs !! Z.to_nat j = None →
  (placeAnchors snake idxs shift Knum js acc).2 = false.
Proof.
  revert acc. induction js as [|j' js IH]; intros acc Hj Hnone; simpl.
  - by apply elem_of_nil in Hj.
  - destruct (idxs !! Z.to_nat j' ≫= (snake !!.)) as [[x y]|] eqn:E; [|done].
    apply elem_of_cons in Hj as [->|Hj]; [by rewrite Hnone in E|].
    by apply IH.
Qed.

(** C5: on a Hamiltonian path of length at least [K], with a tape in
    [0, 1): the picked indices are [K] distinct indices of the path in
    ascending order, the shift is in [0, K), the [j]-th anchor lies on the
    cell at the [j]-th index and bears the number
    [((j - shift + K) mod K) + 1], the numbers are [1..K] each once, and
    the [K] anchor cells are distinct. *)
Theorem anchor_placement rnd cols rows snake (n : nat) minGap k :
  tapeInRange rnd →
  Hamiltonian cols rows snake →
  (n ≤ length snake)%nat →
  let Knum := Z.of_nat n in
  let picked := pickIndicesWithMinGap rnd (length snake) Knum minGap k in
  let idxs := picked.1 in
  let shift := randomInt rnd picked.2 Knum in
  length idxs = n ∧ NoDup idxs ∧ Sorted (≤)%nat idxs
  ∧ (∀ i, i ∈ idxs → (i < length snake)%nat)
  ∧ (n ≠ 0%nat → 0 ≤ shift < Knum)
  ∧ ∃ anchors,
      placeAnchors snake idxs shift Knum (seqZ 0 Knum) ([], ∅)
        = (anchors, anchorsMapOf anchors, true)
      ∧ length anchors = n
      ∧ (∀ (j : nat) a, anchors !! j = Some a →
           ∃ idx, idxs !! j = Some idx
                  ∧ snake !! idx = Some (ax a, ay a)
                  ∧ an a = (Z.of_nat j - shift + Knum) mod Knum + 1)
      ∧ an <$> anchors ≡ₚ mustOrder n
      ∧ NoDup ((λ a, (ax a, ay a)) <$> anchors).
Proof.
  intros Hrnd [Hnd _] Hn Knum picked idxs shift.
  destruct (pickIndicesWithMinGap_spec rnd (length snake) Knum minGap k)
    as (Hlen & Hndi & Hsorted & Hrange); [unfold Knum; lia|].
  fold picked in Hlen, Hndi, Hsorted, Hrange. fold idxs in Hlen, Hndi, Hsorted, Hrange.
  assert (Hlen' : length idxs = n) by (unfold Knum in Hlen; lia).
  assert (Hshift : n ≠ 0%nat → 0 ≤ shift < Knum).
  { intros Hn0. apply randomInt_range; [done | unfold Knum; lia]. }
  split_and!; [done..|].
  (* every position of the loop finds its cell *)
  assert (Hat : ∀ j : nat, (j < n)%nat →
    ∃ idx c, idxs !! j = Some idx ∧ snake !! idx = Some c
      ∧ anchorAt snake idxs shift Knum (Z.of_nat j)
        = Some (mkAnchor c.1 c.2 (anchorNumber (Z.of_nat j) shift Knum))).
  { intros j Hj. destruct (lookup_lt_is_Some_2 idxs j) as [idx Hidx]; [lia|].
    destruct (lookup_lt_is_Some_2 snake idx) as [c Hc].
    { apply Hrange. by eapply list_elem_of_lookup_2. }
    exists idx, c. split_and!; [done..|].
    unfold anchorAt. rewrite Nat2Z.id, Hidx. simpl. by rewrite Hc. }
  assert (Hmap : ∃ l, mapM (anchorAt snake idxs shift Knum) (seqZ 0 Knum) = Some l).
  { apply mapM_is_Some, Forall_forall. intros j Hj%elem_of_seqZ.
    destruct (Hat (Z.to_nat j)) as (idx & c & _ & _ & Ha); [unfold Knum in Hj; lia|].
    rewrite Z2Nat.id in Ha by lia. simpl. by rewrite Ha. }
  destruct Hmap as [l Hl]. exists l.
  rewrite (placeAnchors_ok _ _ _ _ _ _ l Hl). simpl.
  pose proof (length_mapM _ _ _ Hl) as Hll. rewrite length_seqZ in Hll.
  assert (Hlk : ∀ (j : nat) a, l !! j = Some a →
    ∃ idx, idxs !! j = Some idx ∧ snake !! idx = Some (ax a, ay a)
           ∧ an a = anchorNumber (Z.of_nat j) shift Knum).
  { intros j a Hja. pose proof (lookup_lt_Some _ _ _ Hja) as Hjl.
    apply mapM_Some_1 in Hl.
    destruct (Forall2_lookup_r _ _ _ _ _ Hl Hja) as (z & Hz & Haz).
    apply lookup_seqZ in Hz as [-> _]. rewrite Z.add_0_l in Haz.
    destruct (Hat j) as (idx & c & Hidx & Hc & Ha); [unfold Knum in *; lia|].
    rewrite Ha in Haz. injection Haz as <-. exists idx. simpl.
    split_and!; [done | by destruct c | done]. }
  split_and!; [done | unfold Knum in Hll; lia | | |].
  - intros j a Hja. destruct (Hlk j a Hja) as (idx & ? & ? & Han).
    exists idx. split_and!; [done..|]. rewrite Han.
    pose proof (lookup_lt_Some _ _ _ Hja).
    apply anchorNumber_cases; [apply Hshift; lia | unfold Knum in *; lia].
  - destruct n as [|n'].
    { destruct l; [done | simpl in Hll; unfold Knum in Hll; simpl in Hll; lia]. }
    rewrite <- (anchorNumbers_Permutation shift (S n')) by (apply Hshift; lia).
    fold Knum. apply mapM_Some_1 in Hl.
    assert (Heq : an <$> l = (λ j, anchorNumber j shift Knum) <$> seqZ 0 Knum).
    { clear -Hl. induction Hl as [|j a js l Hja _ IH]; [done|]. csimpl.
      rewrite IH. f_equal. unfold anchorAt in Hja.
      destruct (idxs !! Z.to_nat j ≫= (snake !!.)); simplify_eq/=. done. }
    by rewrite Heq.
  - apply NoDup_alt. intros j1 j2 c. rewrite !list_lookup_fmap.
    destruct (l !! j1) as [a1|] eqn:H1; [|done].
    destruct (l !! j2) as [a2|] eqn:H2; [|done]. simpl. intros [= <-] [= Hx Hy].
    destruct (Hlk j1 a1 H1) as (i1 & Hi1 & Hs1 & _).
    destruct (Hlk j2 a2 H2) as (i2 & Hi2 & Hs2 & _).
    rewrite Hx, Hy in Hs2.
    assert (i1 = i2) as -> by (by eapply (NoDup_lookup snake)).
    by eapply (NoDup_lookup idxs).
Qed.

Lemma tape0_inRange : tapeInRange tape0.
Proof. intros i. split; [apply Qle_refl | reflexivity]. Qed.

Lemma anchor_placement_witness :
  let picked := pickIndicesWithMinGap tape0 4 2 1 0 in
  length picked.1 = 2%nat ∧ NoDup picked.1 ∧ Sorted (≤)%nat picked.1.
Proof.
  destruct (anchor_placement tape0 2 2 (buildSnakePathBase 2 2) 2 1 0)
    as (H1 & H2 & H3 & _).
  - apply tape0_inRange.
  - apply buildSnakePathBase_Hamiltonian.
  - vm_compute. lia.
  - split; [exact H1|]. split; [exact H2 | exact H3].
Defined.

(** ** Anchors: when there are too few indices *)

Lemma pickIndicesWithMinGap_bound rnd len Knum minGap k :
  0 ≤ Knum →
  let idxs := (pickIndicesWithMinGap rnd len Knum minGap k).1 in
  (length idxs ≤ len)%nat.
Proof.
  intros HK. unfold pickIndicesWithMinGap. simpl.
  set (pool := (shufflePool rnd (seq 0 len) k).1).
  assert (Hperm : pool ≡ₚ seq 0 len) by apply shufflePool_Permutation.
  assert (Hnd : NoDup pool) by (rewrite Hperm; apply NoDup_seq).
  destruct (greedyPicks_loop_spec Knum minGap pool [] (NoDup_nil_2) Hnd)
    as (G1 & G2 & G3).
  { intros x Hx. by apply elem_of_nil in Hx. }
  { simpl. lia. }
  fold (greedyPicks Knum minGap pool) in G1, G2, G3.
  destruct (fillPicks_loop_spec Knum pool _ G1 G3) as (F1 & F2 & _).
  rewrite merge_sort_Permutation.
  assert (Hl : length pool = len) by (by rewrite Hperm, length_seq).
  etrans; [|apply Nat.eq_le_incl, Hl].
  apply submseteq_length, NoDup_submseteq; [done|].
  intros x Hx. destruct (F2 x Hx) as [Hx'|]; [|done].
  destruct (G2 x Hx') as [Hx''|]; [|done]. by apply elem_of_nil in Hx''.
Qed.

(** ** The verifier *)

Lemma elem_of_gridSet g c : c ∈ gridSet g ↔ inGrid (COLS g) (ROWS g) c.
Proof. unfold gridSet. by rewrite elem_of_list_to_set, elem_of_gridCells. Qed.

Lemma size_gridSet g : size (gridSet g) = length (gridCells (COLS g) (ROWS g)).
Proof. apply size_list_to_set, NoDup_gridCells. Qed.

Lemma outOfBounds_false g nx ny :
  outOfBounds g nx ny = false ↔ inGrid (COLS g) (ROWS g) (nx, ny).
Proof.
  unfold outOfBounds, inGrid. simpl.
  rewrite !orb_false_iff, !Z.ltb_ge, !Z.geb_leb, !Z.leb_gt. lia.
Qed.

Lemma size_grid_remove (g : Game) (seen : gset Cell) (k : Cell) :
  k ∈ gridSet g → k ∉ seen →
  (size (gridSet g ∖ ({[k]} ∪ seen)) < size (gridSet g ∖ seen))%nat.
Proof.
  intros Hk Hs. apply subset_size. split.
  - intros x. rewrite !elem_of_difference, elem_of_union.
    intros [Hx Hn]. split; [done|]. intros Hx'. apply Hn. by right.
  - intros Hsub. specialize (Hsub k).
    rewrite !elem_of_difference, elem_of_union, elem_of_singleton in Hsub.
    destruct Hsub as [_ Hn]; [done|]. apply Hn. by left.
Qed.

Lemma size_grid_difference (g : Game) (V : gset Cell) :
  (size (gridSet g ∖ V) ≤ size (gridSet g))%nat.
Proof.
  apply subseteq_size. intros x Hx. apply elem_of_difference in Hx. tauto.
Qed.

(** [visitedSet.add(kk)] then [visitedSet.delete(kk)] restores the set when
    [kk] was not in it. *)
Lemma add_then_delete (V : gset Cell) (k : Cell) :
  k ∉ V → ({[k]} ∪ V) ∖ {[k]} = V.
Proof.
  intros Hk. apply set_eq. intros x.
  rewrite elem_of_difference, elem_of_union, elem_of_singleton. split.
  - intros [[->|Hx] Hne]; [by destruct Hne | done].
  - intros Hx. split; [by right|]. intros ->. done.
Qed.

Lemma reachExpand_measure g visited p q seen count :
  let '(q', seen', _) := reachExpand g visited p (q, seen, count) in
  (reachMeasure g q' seen' ≤ reachMeasure g q seen)%nat.
Proof.
  unfold reachExpand. generalize dirs. intros ds.
  revert q seen count. induction ds as [|d ds IH]; intros q seen count; simpl; [done|].
  destruct (outOfBounds g (p.1 + d.1) (p.2 + d.2)) eqn:Hb; [apply IH|].
  destruct (blockedByWall _ _ _ _ _); [apply IH|].
  destruct (bool_decide_reflect (keyOf (p.1 + d.1) (p.2 + d.2) ∈ visited)); simpl; [apply IH|].
  destruct (bool_decide_reflect (keyOf (p.1 + d.1) (p.2 + d.2) ∈ seen)); simpl; [apply IH|].
  specialize (IH (q ++ [(p.1 + d.1, p.2 + d.2)])
                 ({[keyOf (p.1 + d.1) (p.2 + d.2)]} ∪ seen) (count + 1)).
  destruct (foldl _ _ ds) as [[q' seen'] count'].
  etrans; [apply IH|]. unfold reachMeasure. rewrite length_app. simpl.
  assert (size (gridSet g ∖ ({[keyOf (p.1 + d.1) (p.2 + d.2)]} ∪ seen))
          < size (gridSet g ∖ seen))%nat; [|lia].
  apply size_grid_remove; [|done]. by apply elem_of_gridSet, outOfBounds_false.
Qed.

Lemma reachLoop_total fuel g visited q seen count :
  (reachMeasure g q seen ≤ fuel)%nat →
  is_Some (reachLoop fuel g visited q seen count).
Proof.
  revert q seen count. induction fuel as [|fuel IH]; intros q seen count Hm.
  - destruct q; [by eexists|]. unfold reachMeasure in Hm. simpl in Hm. lia.
  - destruct q as [|p q]; [by eexists|]. simpl.
    pose proof (reachExpand_measure g visited p q seen count) as He.
    destruct (reachExpand g visited p (q, seen, count)) as [[q' seen'] count'].
    apply IH. unfold reachMeasure in *. simpl in Hm. lia.
Qed.

Lemma canReachAllFrom_total g sx sy visited :
  is_Some (reachLoop (reachFuel g) g visited [(sx, sy)] {[keyOf sx sy]} 0).
Proof.
  apply reachLoop_total. unfold reachMeasure, reachFuel. simpl.
  rewrite <- size_gridSet.
  pose proof (size_grid_difference g {[keyOf sx sy]}). lia.
Qed.

Lemma neighbours_spec (g : Game) (x y : Z) (V : gset Cell) (nb : Cell) :
  nb ∈ neighbours g x y V → stepOK g (x, y) nb ∧ nb ∉ V.
Proof.
  unfold neighbours. rewrite list_elem_of_omap. intros (d & Hd & Hnb).
  destruct (outOfBounds g (x + d.1) (y + d.2)) eqn:Hb; [done|].
  destruct (blockedByWall (walls g) x y (x + d.1) (y + d.2)) eqn:Hw; [done|].
  destruct (bool_decide_reflect (keyOf (x + d.1) (y + d.2) ∈ V)) as [|HV]; [done|].
  injection Hnb as <-. split; [|done]. split_and!.
  - by apply outOfBounds_false.
  - simpl. unfold dirs in Hd.
    repeat (apply elem_of_cons in Hd as [->|Hd]; [simpl; lia|]).
    by apply elem_of_nil in Hd.
  - done.
Qed.

Lemma Completes_step (g : Game) (goal_ : Cell) (V : gset Cell) (c nb : Cell)
    (next newNext : option Z) (q : list Cell) :
  stepOK g c nb → nb ∉ V →
  Completes g goal_ ({[nb]} ∪ V) nb newNext q →
  (getCellNumber (anchorsMap g) nb.1 nb.2 = None ∧ newNext = next
   ∨ ∃ n, getCellNumber (anchorsMap g) nb.1 nb.2 = Some n ∧ next = Some n
          ∧ newNext = if bool_decide (next = Some (K g)) then None else Some (n + 1)) →
  Completes g goal_ V c next (nb :: q).
Proof.
  intros Hstep HnbV (Hsteps & Hnd & Hfresh & Hsize & Hlast & Hok & Hnums) Hnum.
  split_and!.
  - by split.
  - apply NoDup_cons. split; [|done]. intros Hin. apply (Hfresh nb Hin).
    apply elem_of_union. left. by apply elem_of_singleton.
  - intros d [->|Hd]%elem_of_cons; [done|]. intros HdV.
    apply (Hfresh d Hd), elem_of_union. by right.
  - rewrite size_union in Hsize by (by apply disjoint_singleton_l).
    rewrite size_singleton in Hsize.
    simpl. lia.
  - done.
  - destruct Hnum as [[_ ->]|(n & _ & -> & ->)]; [done|]. simpl.
    case_bool_decide as HK; [injection HK as ->; lia | simpl in Hok; lia].
  - change (numbersAlong g (nb :: q))
      with (match getCellNumber (anchorsMap g) nb.1 nb.2 with
            | Some n => n :: numbersAlong g q
            | None => numbersAlong g q
            end).
    destruct Hnum as [[-> ->]|(n & -> & -> & ->)]; [done|].
    rewrite Hnums. simpl. case_bool_decide as HK.
    + injection HK as ->. simpl. replace (K g - K g + 1) with 1 by lia. done.
    + simpl in *. rewrite (seqZ_cons n) by lia. f_equal. f_equal; lia.
Qed.

Section search.
Variables (now : Clock) (sortBy : Sorter) (deadline : Q).
Variables (g : Game) (goalX goalY : Z).
Hypothesis sortBy_perm : ∀ cmp l, sortBy cmp l ≡ₚ l.

Lemma dfsLoop_spec (rec : Z → Z → option Z → Search → option Search)
    (c : Cell) (V : gset Cell) (neigh : list Cell) (next : option Z) :
  (∀ nb, nb ∈ neigh → stepOK g c nb ∧ nb ∉ V) →
  (∀ nb nx s1, nb ∈ neigh → found s1 = false → visitedSet s1 = {[nb]} ∪ V →
      ∃ s', rec nb.1 nb.2 nx s1 = Some s'
            ∧ Outcome g (goalX, goalY) ({[nb]} ∪ V) nb nx s') →
  ∀ s, found s = false → visitedSet s = V →
  ∃ s', dfsLoop now deadline g rec neigh next s = Some s'
        ∧ Outcome g (goalX, goalY) V c next s'.
Proof.
  induction neigh as [|nb rest IH]; intros Hneigh Hrec s Hfound HV; simpl.
  - exists s. split; [done|]. unfold Outcome. by rewrite Hfound.
  - rewrite Hfound.
    assert (IH' : ∀ s, found s = false → visitedSet s = V →
      ∃ s', dfsLoop now deadline g rec rest next s = Some s'
            ∧ Outcome g (goalX, goalY) V c next s').
    { apply IH.
      - intros nb' Hnb'. apply Hneigh. by right.
      - intros nb' nx s1 Hnb'. apply Hrec. by right. }
    destruct (Hneigh nb (list_elem_of_here _ _)) as [Hstep HnbV].
    set (num := getCellNumber (anchorsMap g) nb.1 nb.2).
    destruct (bool_decide (num ≠ None) && bool_decide (num ≠ next)) eqn:Hskip;
      [by apply IH'|].
    set (newNext := if bool_decide (num ≠ None) && bool_decide (num = next)
                    then if bool_decide (next = Some (K g)) then None
                         else (λ n, n + 1) <$> next
                    else next).
    assert (Hnum : num = None ∧ newNext = next
        ∨ ∃ n, num = Some n ∧ next = Some n
           ∧ newNext = if bool_decide (next = Some (K g)) then None else Some (n + 1)).
    { unfold newNext. apply andb_false_iff in Hskip.
      destruct num as [n|] eqn:En.
      - right. exists n. destruct Hskip as [Hs|Hs].
        { apply bool_decide_eq_false in Hs. exfalso. by apply Hs. }
        apply bool_decide_eq_false in Hs.
        assert (Some n = next) as <-.
        { destruct (decide (Some n = next)); [done | exfalso; by apply Hs]. }
        rewrite !bool_decide_eq_true_2 by done. simpl. done.
      - left. split; [done|]. by rewrite bool_decide_eq_false_2 by (by intros ?). }
    destruct (Hrec nb newNext (set_visitedSet ({[keyOf nb.1 nb.2]} ∪ visitedSet s) s))
      as (s2 & Hs2 & Hout); [by left | done | |].
    { simpl. rewrite HV. unfold keyOf. by destruct nb. }
    rewrite Hs2. unfold Outcome in Hout.
    destruct (found s2) eqn:Hf2.
    + exists s2. split; [done|]. unfold Outcome. rewrite Hf2.
      destruct Hout as [q Hq]. exists (nb :: q).
      by eapply Completes_step.
    + simpl. destruct (negb _) eqn:Hlate.
      * eexists. split; [done|]. unfold Outcome. simpl. rewrite Hout.
        unfold keyOf. destruct nb. by apply add_then_delete.
      * apply IH'; simpl; [done|]. rewrite Hout. unfold keyOf. destruct nb.
        by apply add_then_delete.
Qed.

Lemma dfs_spec (fuel : nat) (x y : Z) (next : option Z) (s : Search) :
  found s = false → (size (gridSet g ∖ visitedSet s) < fuel)%nat →
  ∃ s', dfs fuel now sortBy deadline g goalX goalY x y next s = Some s'
        ∧ Outcome g (goalX, goalY) (visitedSet s) (x, y) next s'.
Proof.
  revert x y next s. induction fuel as [|fuel IH]; intros x y next s Hfound Hfuel;
    [lia|].
  simpl. rewrite Hfound.
  destruct (negb (Qle_bool (now (clockReads s)) deadline)).
  { eexists. split; [done|]. unfold Outcome. simpl. by rewrite ?Hfound. }
  destruct (negb (canReachAllFrom g x y (visitedSet s))).
  { eexists. split; [done|]. unfold Outcome. simpl. by rewrite ?Hfound. }
  destruct (Z.eqb_spec (Z.of_nat (size (visitedSet s))) (COLS g * ROWS g)) as [Hfull|Hfull].
  { destruct ((x =? goalX) && (y =? goalY) && bool_decide (next = None)) eqn:Hgoal.
    - eexists. split; [done|]. unfold Outcome. simpl. exists [].
      apply andb_true_iff in Hgoal as [[Hx%Z.eqb_eq Hy%Z.eqb_eq]%andb_true_iff Hn].
      apply bool_decide_eq_true in Hn. subst.
      split_and!; simpl; try done; [apply NoDup_nil_2 | intros d Hd; by apply elem_of_nil in Hd | lia].
    - eexists. split; [done|]. unfold Outcome. simpl. by rewrite ?Hfound. }
  apply (dfsLoop_spec _ (x, y) (visitedSet s)); [| |done|done].
  - intros nb Hnb. rewrite sortBy_perm in Hnb. by apply neighbours_spec.
  - intros nb nx s1 Hnb Hf1 Hv1. rewrite sortBy_perm in Hnb.
    apply neighbours_spec in Hnb as [[Hgrid _] HnbV].
    destruct (IH nb.1 nb.2 nx s1 Hf1) as (s' & Hs' & Hout).
    { rewrite Hv1.
      assert (size (gridSet g ∖ ({[nb]} ∪ visitedSet s))
              < size (gridSet g ∖ visitedSet s))%nat; [|lia].
      apply size_grid_remove; [by apply elem_of_gridSet | done]. }
    exists s'. split; [done|]. rewrite Hv1 in Hout. by destruct nb.
Qed.

End search.

Lemma validSteps_lookup (g : Game) (c : Cell) (q : list Cell) :
  validSteps g c q →
  ∀ (i : nat) a b, (c :: q) !! i = Some a → (c :: q) !! S i = Some b → stepOK g a b.
Proof.
  revert c. induction q as [|d q IH]; intros c Hsteps i a b Ha Hb.
  - by destruct i.
  - destruct Hsteps as [Hstep Hsteps]. destruct i as [|i]; simpl in Ha, Hb.
    + by simplify_eq.
    + by eapply (IH d Hsteps i).
Qed.

Lemma validSteps_inGrid (g : Game) (c : Cell) (q : list Cell) :
  validSteps g c q → ∀ d, d ∈ q → inGrid (COLS g) (ROWS g) d.
Proof.
  revert c. induction q as [|e q IH]; intros c Hsteps d Hd.
  - by apply elem_of_nil in Hd.
  - destruct Hsteps as [[Hgrid _] Hsteps].
    apply elem_of_cons in Hd as [->|Hd]; [done | by eapply IH].
Qed.

Lemma mustOrder_eq (n : nat) : mustOrder n = seqZ 1 (Z.of_nat n).
Proof.
  rewrite mustOrder_seqZ. rewrite <- (fmap_add_seqZ 1 0).
  apply list_fmap_ext. intros; lia.
Qed.

(** Enough fuel: with a sorter that rearranges, the search always returns. *)
Lemma dfs_total (now : Clock) (sortBy : Sorter) (deadline : Q) (g : Game)
    (goalX goalY x y : Z) (next : option Z) (V : gset Cell) (reads : nat) :
  (∀ cmp l, sortBy cmp l ≡ₚ l) →
  is_Some (dfs (searchFuel g) now sortBy deadline g goalX goalY x y next
               (mkSearch V false reads)).
Proof.
  intros Hperm.
  destruct (dfs_spec now sortBy deadline g goalX goalY Hperm (searchFuel g)
              x y next (mkSearch V false reads)) as (s' & Hs' & _); [done| |by eexists].
  simpl. unfold searchFuel. rewrite <- size_gridSet.
  pose proof (size_grid_difference g V). lia.
Qed.

(** C2: when [isLayoutSolvable] returns true for a start cell of the grid,
    there is a route from the start to the goal that moves between
    4-adjacent cells of the grid with no wall between them, visits every
    cell exactly once and meets the checkpoint numbers in the order
    [1..K]; this for every clock, budget, layout and goal, and for every
    sorter that rearranges its input. *)
Theorem isLayoutSolvable_sound (now : Clock) (sortBy : Sorter) (g : Game)
    (startX startY goalX goalY timeBudgetMs : Z) (reads : nat) :
  (∀ cmp l, sortBy cmp l ≡ₚ l) →
  inGrid (COLS g) (ROWS g) (startX, startY) →
  (isLayoutSolvable now sortBy g startX startY goalX goalY timeBudgetMs reads).1 = true →
  ∃ p, Solution g (startX, startY) (goalX, goalY) p.
Proof.
  intros Hperm Hstart. unfold isLayoutSolvable.
  set (startNum := getCellNumber (anchorsMap g) startX startY).
  destruct (bool_decide (startNum ≠ None) && bool_decide (startNum ≠ Some 1)) eqn:Hguard;
    [done|].
  set (deadline := (now reads + inject_Z timeBudgetMs)%Q).
  set (initialNext := if bool_decide (startNum = Some 1)
                      then if K g =? 1 then None else Some 2 else Some 1).
  destruct (dfs_spec now sortBy deadline g goalX goalY Hperm (searchFuel g)
              startX startY initialNext
              (mkSearch {[keyOf startX startY]} false (S reads)))
    as (s' & Hs' & Hout); [done | |].
  { simpl. unfold searchFuel. rewrite <- size_gridSet.
    pose proof (size_grid_difference g {[keyOf startX startY]}). lia. }
  rewrite Hs'. simpl. intros Hfound. unfold Outcome in Hout. rewrite Hfound in Hout.
  destruct Hout as (q & Hsteps & Hnd & Hfresh & Hsize & Hlast & Hok & Hnums).
  cbn [visitedSet] in Hfresh, Hsize. rewrite size_singleton in Hsize.
  exists ((startX, startY) :: q). split_and!.
  - done.
  - done.
  - by apply validSteps_lookup.
  - apply Hamiltonian_of_length.
    + apply NoDup_cons. split; [|done]. intros Hin. apply (Hfresh _ Hin).
      unfold keyOf. by apply elem_of_singleton.
    + intros d [->|Hd]%elem_of_cons; [done | by eapply validSteps_inGrid].
    + simpl. unfold inGrid in Hstart. simpl in Hstart. nia.
  - rewrite mustOrder_eq. fold (K g).
    change (numbersAlong g ((startX, startY) :: q))
      with (match startNum with
            | Some n => n :: numbersAlong g q
            | None => numbersAlong g q
            end).
    rewrite Hnums. unfold initialNext in *. apply andb_false_iff in Hguard.
    destruct startNum as [n|].
    + assert (n = 1) as ->.
      { destruct Hguard as [Hg|Hg]; apply bool_decide_eq_false in Hg.
        - exfalso. by apply Hg.
        - destruct (decide (n = 1)); [done|]. exfalso. apply Hg. congruence. }
      rewrite bool_decide_eq_true_2 in * by done.
      destruct (Z.eqb_spec (K g) 1) as [->|HK]; simpl in *; [done|].
      rewrite (seqZ_cons 1) by lia. f_equal. f_equal; lia.
    + rewrite bool_decide_eq_false_2 in * by done. simpl. f_equal. lia.
Qed.

(** C9: when the start cell bears a number other than 1,
    [isLayoutSolvable] returns false without reading the clock: neither
    the deadline is computed nor [dfs] entered. *)
Theorem isLayoutSolvable_start_not_one (now : Clock) (sortBy : Sorter) (g : Game)
    (startX startY goalX goalY timeBudgetMs : Z) (reads : nat) (n : Z) :
  getCellNumber (anchorsMap g) startX startY = Some n → n ≠ 1 →
  isLayoutSolvable now sortBy g startX startY goalX goalY timeBudgetMs reads
  = (false, reads).
Proof.
  intros Hn Hne. unfold isLayoutSolvable. rewrite Hn.
  rewrite bool_decide_eq_true_2 by done.
  rewrite bool_decide_eq_true_2 by congruence. done.
Qed.

Lemma insertBy_Permutation cmp a l : insertBy cmp a l ≡ₚ a :: l.
Proof.
  induction l as [|b l IH]; simpl; [done|].
  destruct (cmp a b <=? 0); [done|]. rewrite IH. apply Permutation_swap.
Qed.

Lemma insertionSort_Permutation cmp l : insertionSort cmp l ≡ₚ l.
Proof.
  unfold insertionSort. induction l as [|a l IH]; simpl; [done|].
  by rewrite insertBy_Permutation, IH.
Qed.

Lemma isLayoutSolvable_sound_witness :
  ∃ p, Solution layout_2x2 (0, 0) (0, 1) p.
Proof.
  apply (isLayoutSolvable_sound clock0 insertionSort layout_2x2 0 0 0 1 400 0).
  - apply insertionSort_Permutation.
  - by vm_compute.
  - by vm_compute.
Defined.

(** The start has to be a cell of the grid: from a start outside it the
    visited set reaches [cols*rows] cells with a cell of the grid left
    out. *)
Lemma isLayoutSolvable_start_outside :
  (isLayoutSolvable clock0 insertionSort (mkLayout 1 1 [mkAnchor (-1) 0 1] ∅)
     (-1) 0 (-1) 0 400 0).1 = true.
Proof. reflexivity. Qed.

Lemma isLayoutSolvable_start_not_one_witness :
  isLayoutSolvable clock0 insertionSort layout_2x2_start_2 0 0 0 1 400 0
  = (false, 0%nat).
Proof.
  apply (isLayoutSolvable_start_not_one _ _ _ _ _ _ _ _ _ 2); [reflexivity | lia].
Defined.

(** ** The orchestrator *)

(** An attempt that reaches the checks comes back with a verdict. *)
Lemma checkCandidate_Some now sortBy env attempt g i c :
  ∃ v, (checkCandidate now sortBy env attempt g i c).2 = Some v.
Proof.
  unfold checkCandidate.
  destruct (isLayoutSolvable now sortBy g _ _ _ _ 400 c) as [[] c1]; [|by eexists].
  destruct (isLayoutSolvable now sortBy g _ _ _ _ 2000 c1) as [[] c2]; by eexists.
Qed.

(** The verdict of an attempt is [Some true] exactly when the quick check
    and the confirmation both return true. *)
Lemma checkCandidate_verdict now sortBy env attempt g i c :
  let quick :=
    isLayoutSolvable now sortBy g (player g).1 (player g).2
                     (goal g).1 (goal g).2 400 c in
  let confirmed :=
    isLayoutSolvable now sortBy g (player g).1 (player g).2
                     (goal g).1 (goal g).2 2000 quick.2 in
  (checkCandidate now sortBy env attempt g i c).2 = Some true
  ↔ quick.1 = true ∧ confirmed.1 = true.
Proof.
  unfold checkCandidate.
  destruct (isLayoutSolvable now sortBy g _ _ _ _ 400 c) as [[] c1]; simpl.
  - destruct (isLayoutSolvable now sortBy g _ _ _ _ 2000 c1) as [[] c2]; simpl.
    + done.
    + split; [done | by intros [_ ?]].
  - split; [done | by intros [? _]].
Qed.

(** What the checks leave: the globals as they were checked when both
    pass, and otherwise those globals under a failure message, handed to
    the event loop. *)
Lemma checkCandidate_checked now sortBy env attempt (w1 w' : World) v :
  checkCandidate now sortBy env attempt (game w1) (rndReads w1) (nowReads w1)
  = (w', Some v) →
  v = passesBoth now sortBy w1
  ∧ if v
    then game w' = game w1 ∧ rndReads w' = rndReads w1
    else ∃ told : World,
           (game told = tell (MsgNotSolvable attempt) (game w1)
            ∨ game told = tell (MsgUncertain attempt) (game w1))
           ∧ rndReads told = rndReads w1
           ∧ w' = env (AfterFail attempt) told.
Proof.
  unfold checkCandidate, passesBoth. cbv zeta.
  destruct (isLayoutSolvable now sortBy (game w1) _ _ _ _ 400 (nowReads w1))
    as [[] c1]; cbn [fst snd andb].
  - destruct (isLayoutSolvable now sortBy (game w1) _ _ _ _ 2000 c1)
      as [[] c2]; cbn [fst snd].
    + intros [= <- <-]. done.
    + intros [= <- <-]. split; [done|]. eexists (mkWorld _ _ _).
      split; [by right|]. done.
  - intros [= <- <-]. split; [done|]. eexists (mkWorld _ _ _).
    split; [by left|]. done.
Qed.

Lemma buildShortcutWalls_frame rnd snake wallPct g i :
  let g' := (buildShortcutWallsFromSnake rnd snake wallPct g i).1 in
  anchors g' = anchors g ∧ savedLayout g' = savedLayout g.
Proof. done. Qed.

(** An attempt that throws does so before its first yield: it leaves the
    saved layout alone, and nothing the event loop could do at a yield
    point shows in what it leaves. *)
Lemma attemptOnce_throws_early rnd now sortBy env gen withWalls def attempt w w' :
  attemptOnce rnd now sortBy env gen withWalls def attempt w = (w', None) →
  savedLayout (game w') = savedLayout (game w)
  ∧ ∀ env', attemptOnce rnd now sortBy env' gen withWalls def attempt w = (w', None).
Proof.
  unfold attemptOnce.
  destruct (gen _ _ _ _) as [[[snake i] c]|]; [|by intros [= <-]].
  destruct (placeAnchors _ _ _ _ _ _) as [[placed am] ok].
  destruct ok; cbn [negb fst snd]; [|by intros [= <-]].
  destruct (if withWalls then _ else _) as [g1 i1] eqn:Hw.
  assert (Hs : savedLayout g1 = savedLayout (game w)).
  { destruct withWalls.
    - unfold buildShortcutWallsFromSnake in Hw. by injection Hw as <- _.
    - by injection Hw as <- _. }
  destruct (find _ (anchors g1)) as [a|]; [|by intros [= <-]].
  destruct (find _ (anchors (set_player _ g1))) as [a0|]; [|by intros [= <-]].
  intros Hc. exfalso.
  destruct (checkCandidate_Some now sortBy env attempt
              (game (env (BeforeCheck attempt)
                         (mkWorld (tell (MsgSearching attempt) (placePlayer a0 (set_player (ax a, ay a) g1))) i1 c)))
              (rndReads (env (BeforeCheck attempt)
                         (mkWorld (tell (MsgSearching attempt) (placePlayer a0 (set_player (ax a, ay a) g1))) i1 c)))
              (nowReads (env (BeforeCheck attempt)
                         (mkWorld (tell (MsgSearching attempt) (placePlayer a0 (set_player (ax a, ay a) g1))) i1 c))))
    as [v Hv].
  cbv zeta in Hc. rewrite Hc in Hv. done.
Qed.


Section orchestrator.
Variables (rnd : Tape) (now : Clock) (sortBy : Sorter) (env : Yield).
Variables (gen : SnakeGen) (withWalls : bool) (def : LevelDef).

(** The loop, from any point of its run: [more] are the verdicts it adds
    to the log and [ws] the globals before and after each of its
    attempts. *)
Lemma attemptLoop_runs (left_ attempt : nat) (log : list (option bool)) (w : World) :
  let r := attemptLoop rnd now sortBy env gen withWalls def left_ attempt log w in
  ∃ (more : list (option bool)) (ws : list World),
    verdicts r = log ++ more
    ∧ (length more ≤ left_)%nat
    ∧ length ws = S (length more)
    ∧ head ws = Some w
    ∧ (∀ (k : nat) wk wk' v,
         ws !! k = Some wk → ws !! S k = Some wk' → more !! k = Some v →
         attemptOnce rnd now sortBy env gen withWalls def (S (attempt + k)) wk
         = (wk', v))
    ∧ (∀ (k : nat) v,
         more !! k = Some v → (S k < length more)%nat → v = Some false)
    ∧ ∃ wl : World,
        last ws = Some wl
        ∧ match ending r with
          | Solved =>
              last more = Some (Some true)
              ∧ world r =
                  mkWorld (tell MsgNewLayout (set_savedLayout (game wl)))
                          (rndReads wl) (nowReads wl)
          | Exhausted =>
              length more = left_
              ∧ Forall (λ v, v = Some false) more
              ∧ world r =
                  mkWorld (tell MsgExhausted (game wl))
                          (rndReads wl) (nowReads wl)
          | Threw => last more = Some None ∧ world r = wl
          end.
Proof.
  revert attempt log w. induction left_ as [|left' IH]; intros attempt log w; simpl.
  - exists [], [w]. rewrite app_nil_r. repeat split; try done.
    exists w. by repeat split.
  - destruct (attemptOnce rnd now sortBy env gen withWalls def (S attempt) w)
      as [w' [[]|]] eqn:Hstep.
    + exists [Some true], [w; w']. simpl.
      split; [done|]. split; [lia|]. split; [done|]. split; [done|]. split.
      { intros [|k] wk wk' v; simpl; [|by intros _ _ ?].
        intros [= <-] [= <-] [= <-]. by rewrite Nat.add_0_r. }
      split. { intros k v _ Hk. lia. }
      exists w'. by repeat split.
    + specialize (IH (S attempt) (log ++ [Some false]) w'). simpl in IH.
      destruct IH as (more & ws & Hv & Hlen & Hws & Hhd & Hsteps & Hfails & wl & Hl & Hend).
      exists (Some false :: more), (w :: ws). rewrite Hv, <- app_assoc.
      split; [done|]. split; [simpl; lia|]. split; [simpl; lia|].
      split; [done|]. split.
      { intros [|k] wk wk' v; simpl.
        - intros [= <-] Hk [= <-]. rewrite Nat.add_0_r.
          destruct ws as [|w0 ws0]; [done|]. simpl in Hhd, Hk. congruence.
        - intros Hk Hk' Hm.
          replace (attempt + S k)%nat with (S attempt + k)%nat by lia.
          by apply Hsteps. }
      split.
      { intros [|k] v; simpl; [by intros [= <-]|].
        intros Hm Hk. apply (Hfails k); [done | lia]. }
      exists wl. split.
      { destruct ws as [|w0 ws0]; [done|]. by rewrite last_cons, Hl. }
      destruct (ending _).
      * destruct Hend as [Hlast ->]. split; [|done].
        destruct more as [|v0 more0]; [done|]. by rewrite last_cons, Hlast.
      * destruct Hend as (Hlm & Hall & ->).
        split; [simpl; lia|]. split; [by constructor | done].
      * destruct Hend as [Hlast ->]. split; [|done].
        destruct more as [|v0 more0]; [done|]. by rewrite last_cons, Hlast.
    + exists [None], [w; w']. simpl.
      split; [done|]. split; [lia|]. split; [done|]. split; [done|]. split.
      { intros [|k] wk wk' v; simpl; [|by intros _ _ ?].
        intros [= <-] [= <-] [= <-]. by rewrite Nat.add_0_r. }
      split. { intros k v _ Hk. lia. }
      exists w'. by repeat split.
Qed.

Lemma attemptLoop_requestRuns (w : World) :
  requestRuns (attemptOnce rnd now sortBy env gen withWalls def) w
    (attemptLoop rnd now sortBy env gen withWalls def MAX_ATTEMPTS 0 [] w).
Proof.
  unfold requestRuns, attemptsMade.
  destruct (attemptLoop_runs MAX_ATTEMPTS 0 [] w)
    as (more & ws & Hv & Hlen & Hws & Hhd & Hsteps & Hfails & wl & Hl & Hend).
  rewrite app_nil_l in Hv. rewrite Hv.
  split; [done|]. exists ws. split; [done|]. split; [done|]. split.
  { intros k wk wk' v Hk Hk' Hm. by apply (Hsteps k). }
  split; [done|]. exists wl. split; [done|]. done.
Qed.

End orchestrator.

(** A request all of whose attempts failed their checks ends after the
    last of [MAX_ATTEMPTS] with the failure message; a request none of
    whose attempts passed does not end as solved. *)
Lemma requestRuns_failing step w r :
  requestRuns step w r →
  ((∀ v, v ∈ verdicts r → v ≠ Some true) → ending r ≠ Solved)
  ∧ ((∀ v, v ∈ verdicts r → v = Some false) →
     ending r = Exhausted ∧ attemptsMade r = MAX_ATTEMPTS
     ∧ status (game (world r)) = MsgExhausted).
Proof.
  intros (_ & ws & _ & _ & _ & _ & wl & _ & Hend). split.
  - intros Hnone Hs. rewrite Hs in Hend. destruct Hend as [Hlast _].
    apply last_Some_elem_of in Hlast. by apply (Hnone _ Hlast).
  - intros Hall. destruct (ending r).
    + destruct Hend as [Hlast _]. apply last_Some_elem_of in Hlast.
      by apply Hall in Hlast.
    + destruct Hend as (Hn & _ & ->). done.
    + destruct Hend as [Hlast _]. apply last_Some_elem_of in Hlast.
      by apply Hall in Hlast.
Qed.



Lemma attemptOnce_throws rnd now sortBy env gen withWalls def attempt w snake i c :
  gen (d_cols def) (d_rows def) (rndReads w) (nowReads w) = Some (snake, i, c) →
  d_K def < 1 ∨ Z.of_nat (length snake) < d_K def →
  (attemptOnce rnd now sortBy env gen withWalls def attempt w).2 = None.
Proof.
  intros Hgen Hbad. unfold attemptOnce. rewrite Hgen.
  destruct (placeAnchors snake _ _ _ _ _) as [[placed am] ok] eqn:Hplace.
  destruct ok; simpl; [|done].
  destruct (decide (d_K def < 1)) as [Hlow|Hhigh].
  - rewrite seqZ_nil in Hplace by lia. simpl in Hplace. injection Hplace as <- <-.
    by destruct withWalls.
  - exfalso. assert (Hlen : Z.of_nat (length snake) < d_K def) by (destruct Hbad; [lia | done]).
    set (idxs := (pickIndicesWithMinGap rnd (length snake) (d_K def) (d_minGap def) i).1) in *.
    pose proof (pickIndicesWithMinGap_bound rnd (length snake) (d_K def)
                  (d_minGap def) i ltac:(lia)) as Hb. cbv zeta in Hb. fold idxs in Hb.
    pose proof (placeAnchors_throws snake idxs
      (randomInt rnd (pickIndicesWithMinGap rnd (length snake) (d_K def) (d_minGap def) i).2 (d_K def))
      (d_K def) (seqZ 0 (d_K def)) ([], ∅) (Z.of_nat (length idxs))) as Hthrow.
    rewrite Hplace in Hthrow. simpl in Hthrow.
    assert (true = false); [|done]. apply Hthrow.
    + apply elem_of_seqZ. lia.
    + rewrite Nat2Z.id. apply lookup_ge_None. lia.
Qed.

Lemma attemptOnce_generator_throws rnd now sortBy env gen withWalls def attempt w :
  gen (d_cols def) (d_rows def) (rndReads w) (nowReads w) = None →
  (attemptOnce rnd now sortBy env gen withWalls def attempt w).2 = None.
Proof. intros Hgen. unfold attemptOnce. by rewrite Hgen. Qed.

(** An invalid configuration leaves too few cells for [K] anchors, or no
    anchor to start from. *)
Lemma invalidConfig_short def snake :
  invalidConfig def → Hamiltonian (d_cols def) (d_rows def) snake →
  d_K def < 1 ∨ Z.of_nat (length snake) < d_K def.
Proof.
  intros Hbad Hham. apply Hamiltonian_length in Hham.
  destruct (decide (d_K def < 1)) as [|HK]; [by left | right].
  rewrite Hham. unfold invalidConfig in Hbad.
  destruct (decide (d_cols def ≤ 0)) as [Hc|Hc].
  { replace (Z.to_nat (d_cols def)) with 0%nat by lia. simpl. lia. }
  destruct (decide (d_rows def ≤ 0)) as [Hr|Hr].
  { replace (Z.to_nat (d_rows def)) with 0%nat by lia. rewrite Nat.mul_0_r. lia. }
  rewrite Nat2Z.inj_mul, !Z2Nat.id by lia. lia.
Qed.

(** C6, amended: the generator has no check of its configuration.  When
    [K > cols*rows], or [K < 1], or a dimension is not positive, and the
    path generator returns a Hamiltonian path of the grid or throws, the
    request starts its first attempt and that attempt ends in an uncaught
    [TypeError]; it is the only attempt, and no layout is saved. *)
Theorem generateLevel_invalid_config rnd now sortBy env gen def w :
  invalidConfig def →
  (∀ snake i c,
     gen (d_cols def) (d_rows def) (rndReads w) (nowReads w) = Some (snake, i, c) →
     Hamiltonian (d_cols def) (d_rows def) snake) →
  let r := generateLevel rnd now sortBy env gen def w in
  ending r = Threw ∧ verdicts r = [None] ∧ attemptsMade r = 1%nat
  ∧ savedLayout (game (world r)) = savedLayout (game w).
Proof.
  intros Hbad Hgen.
  assert (Hthrow : (attemptOnce rnd now sortBy env gen true def 1 w).2 = None).
  { destruct (gen (d_cols def) (d_rows def) (rndReads w) (nowReads w))
      as [[[snake i] c]|] eqn:Hg.
    - eapply attemptOnce_throws; [done|].
      apply invalidConfig_short; [done | by eapply Hgen].
    - by apply attemptOnce_generator_throws. }
  unfold generateLevel, MAX_ATTEMPTS, attemptsMade. simpl.
  destruct (attemptOnce rnd now sortBy env gen true def 1 w) as [w' v] eqn:Hstep.
  simpl in Hthrow. subst v. simpl.
  by destruct (attemptOnce_throws_early _ _ _ _ _ _ _ _ _ _ Hstep) as [-> _].
Qed.

(** C6 as stated fails: a request for zero checkpoints is invalid, yet the
    generator starts an attempt. *)
Lemma generateLevel_invalid_config_cex :
  invalidConfig def_K0
  ∧ ¬ rejectedUpFront
        (generateLevel tape0 clock0 insertionSort noEvents
           (buildRandomSnakePath tape0 Serpentine) def_K0 world0).
Proof.
  split; [right; left; simpl; lia|].
  intros [Hzero _]. vm_compute in Hzero. discriminate.
Qed.

Lemma buildRandomSnakePath_square rnd t n i c snake i' c' :
  Hamiltonian n n (templatePath t n n) →
  buildRandomSnakePath rnd t n n i c = Some (snake, i', c') →
  Hamiltonian n n snake.
Proof.
  intros Hp. unfold buildRandomSnakePath.
  pose proof (transformSnake_square rnd n (templatePath t n n) i Hp) as Ht.
  destruct (transformSnake rnd n n (templatePath t n n) i) as [snake0 i0].
  intros [= <- _ _]. done.
Qed.

Lemma generateLevel_invalid_config_witness :
  let r := generateLevel tape0 clock0 insertionSort noEvents
             (buildRandomSnakePath tape0 Serpentine) def_K0 world0 in
  ending r = Threw ∧ verdicts r = [None] ∧ attemptsMade r = 1%nat
  ∧ savedLayout (game (world r)) = savedLayout (game world0).
Proof.
  apply (generateLevel_invalid_config tape0 clock0 insertionSort noEvents
           (buildRandomSnakePath tape0 Serpentine) def_K0 world0).
  - right. left. simpl. lia.
  - intros snake i c. apply buildRandomSnakePath_square.
    apply buildSnakePathBase_Hamiltonian.
Defined.

(** * Further properties *)

(** ** Play *)

Lemma forwardStep_fields (g : Game) (nx ny : Z) :
  let g2 := forwardStep nx ny g in
  trail g2 = trail g ++ [(nx, ny)] ∧ player g2 = (nx, ny)
  ∧ visitedCells g2 = {[(nx, ny)]} ∪ visitedCells g
  ∧ gameOver g2 = gameOver g ∧ sameLayout g g2.
Proof. unfold forwardStep, sameLayout. by destruct (_ && _). Qed.

Lemma notin_findIndex (nx ny : Z) (t : list Cell) :
  (nx, ny) ∉ t → findIndex (cellEq nx ny) t = -1.
Proof.
  intros Hnotin. apply findIndex_none. intros [cx cy] Hc. unfold cellEq; simpl.
  apply andb_false_iff.
  destruct (Z.eqb_spec cx nx) as [->|]; [|by left].
  destruct (Z.eqb_spec cy ny) as [->|]; [|by right]. done.
Qed.

(** The three ways a move can end. *)
Lemma moveWith_cases (wa : Game → bool) (dir : Dir) (g g' : Game) :
  moveWith wa dir g = Some g' →
  let t := stepTarget dir g in
  (∃ m, g' = tell m g)
  ∨ (gameOver g = false ∧ outOfBounds g t.1 t.2 = false
     ∧ blockedByWall (walls g) (player g).1 (player g).2 t.1 t.2 = false
     ∧ ∃ pre cur, trail g = pre ++ [t; cur]
         ∧ g' = tell MsgStepBack (set_player t (set_trail (pre ++ [t]) g)))
  ∨ (gameOver g = false ∧ outOfBounds g t.1 t.2 = false
     ∧ blockedByWall (walls g) (player g).1 (player g).2 t.1 t.2 = false
     ∧ (t ∉ trail g)
     ∧ ∃ finalA, find (λ a, an a =? K g) (anchors g) = Some finalA
         ∧ let g2 := forwardStep t.1 t.2 g in
           g' = (if wa g2 && visitedInOrder g2
                    && ((t.1 =? ax finalA) && (t.2 =? ay finalA))
                 then tell MsgWin (set_gameOver true g2) else g2)).
Proof.
  unfold moveWith. destruct (gameOver g) eqn:Hover.
  { intros [= <-]. left. exists (status g). by destruct g. }
  destruct (stepTarget dir g) as [nx ny] eqn:Ht. simpl.
  destruct (outOfBounds g nx ny) eqn:Hb.
  { intros [= <-]. left. exists (status g). by destruct g. }
  destruct (blockedByWall _ _ _ _ _) eqn:Hw.
  { intros [= <-]. left. by eexists. }
  destruct (Z.eqb_spec (findIndex (cellEq nx ny) (trail g)) (-1)) as [Hidx|Hidx]; simpl.
  - intros Hwin. right. right. split_and!; try done.
    { intros Hin. apply findIndex_found in Hin. apply Z.eqb_neq in Hin. done. }
    unfold winTest in Hwin.
    destruct (forwardStep_fields g nx ny) as (_ & Hpl & _ & _ & Hlay).
    destruct Hlay as (_ & _ & _ & Hanch & _).
    unfold K in *. rewrite Hanch in Hwin.
    destruct (find _ (anchors g)) as [finalA|]; [|done].
    exists finalA. split; [done|]. rewrite Hpl in Hwin. simpl in Hwin.
    destruct (_ && _); by injection Hwin as <-.
  - destruct (isImmediateBack (trail g) nx ny) eqn:Hback.
    + intros [= <-]. right. left. split_and!; try done.
      apply isImmediateBack_spec in Hback as (pre & cur & Hpre).
      exists pre, cur. split; [done|]. by rewrite Hpre, removelast_snoc2.
    + intros [= <-]. left. by eexists.
Qed.

Lemma stepOK_layout (g g' : Game) (a b : Cell) :
  sameLayout g g' → stepOK g a b → stepOK g' a b.
Proof.
  intros (Hc & Hr & _ & _ & _ & Hw & _). unfold stepOK. by rewrite Hc, Hr, Hw.
Qed.

Lemma sameLayout_refl g : sameLayout g g.
Proof. done. Qed.

Lemma sameLayout_trans g1 g2 g3 :
  sameLayout g1 g2 → sameLayout g2 g3 → sameLayout g1 g3.
Proof.
  unfold sameLayout. intros (?&?&?&?&?&?&?) (?&?&?&?&?&?&?).
  split_and!; congruence.
Qed.

Lemma stepTarget_adjacent (dir : Dir) (g : Game) :
  let t := stepTarget dir g in
  Z.abs (t.1 - (player g).1) + Z.abs (t.2 - (player g).2) = 1.
Proof. unfold stepTarget. destruct dir; simpl; lia. Qed.

(** One move keeps the walk, the layout and the first cell of the trail. *)
Lemma moveWith_walk (wa : Game → bool) (dir : Dir) (g g' : Game) :
  TrailWalk g → moveWith wa dir g = Some g' →
  TrailWalk g' ∧ sameLayout g g' ∧ head (trail g') = head (trail g)
  ∧ visitedCells g ⊆ visitedCells g'.
Proof.
  intros Hwalk Hmove.
  pose proof (moveWith_TrailInv wa dir g g' (walk_inv g Hwalk) Hmove) as Hinv'.
  destruct Hwalk as [Hinv Hsteps Hcov].
  apply moveWith_cases in Hmove as [[m ->]|[Hback|Hfwd]].
  - split_and!; [|done..]. by split.
  - destruct Hback as (Hover & Hb & Hw & pre & cur & Hpre & ->).
    split_and!; [|done| |done].
    + split; [done| |]; simpl.
      * intros i a b Ha Hb'. apply (Hsteps i a b); rewrite Hpre.
        -- replace (pre ++ [stepTarget dir g; cur])
             with ((pre ++ [stepTarget dir g]) ++ [cur]) by (by rewrite <- app_assoc).
           by apply lookup_app_l_Some.
        -- replace (pre ++ [stepTarget dir g; cur])
             with ((pre ++ [stepTarget dir g]) ++ [cur]) by (by rewrite <- app_assoc).
           by apply lookup_app_l_Some.
      * intros c Hc. apply Hcov. rewrite Hpre.
        apply elem_of_app in Hc as [Hc|Hc]; apply elem_of_app; [by left|right].
        apply list_elem_of_singleton in Hc as ->. by left.
    + simpl. rewrite Hpre. by destruct pre.
  - destruct Hfwd as (Hover & Hb & Hw & Hnotin & finalA & Hfind & Hg').
    destruct (stepTarget dir g) as [nx ny] eqn:Ht. simpl in *.
    destruct (forwardStep_fields g nx ny) as (Htr & Hpl & Hvis & Hov & Hlay).
    set (g2 := forwardStep nx ny g) in *.
    assert (Hw2 : TrailWalk g2 ∧ sameLayout g g2 ∧ head (trail g2) = head (trail g)
                  ∧ visitedCells g ⊆ visitedCells g2).
    { split_and!; [|done| |].
      - split.
        + destruct (_ && _) in Hg'; subst g'; by destruct Hinv'.
        + intros i a b. rewrite Htr. intros Ha Hb'.
          apply (stepOK_layout g g2); [done|].
          destruct (decide (S i < length (trail g))%nat) as [Hlt|Hge].
          * apply (Hsteps i a b).
            -- rewrite lookup_app_l in Ha by lia. done.
            -- rewrite lookup_app_l in Hb' by lia. done.
          * assert (Hlen : S i = length (trail g)).
            { apply lookup_lt_Some in Hb'. rewrite length_app in Hb'. simpl in Hb'. lia. }
            rewrite lookup_app_r in Hb' by lia.
            replace (S i - length (trail g))%nat with 0%nat in Hb' by lia.
            injection Hb' as <-.
            rewrite lookup_app_l in Ha by lia.
            assert (Hlast : last (trail g) = Some a).
            { rewrite last_lookup. rewrite <- Hlen. simpl. done. }
            rewrite (inv_player g Hinv) in Hlast. injection Hlast as <-.
            split_and!.
            -- by apply outOfBounds_false.
            -- pose proof (stepTarget_adjacent dir g) as Hadj. rewrite Ht in Hadj. done.
            -- done.
        + intros c. rewrite Htr, Hvis. intros Hc.
          apply elem_of_app in Hc as [Hc|Hc].
          * apply elem_of_union_r. by apply Hcov.
          * apply list_elem_of_singleton in Hc as ->. apply elem_of_union_l.
            by apply elem_of_singleton.
      - rewrite Htr. destruct (trail g) eqn:E; [|done].
        destruct Hinv as [_ _ Hlast]. by rewrite E in Hlast.
      - rewrite Hvis. apply union_subseteq_r. }
    destruct (_ && _) in Hg'; subst g'; [|done].
    destruct Hw2 as ([Hinv2 Hsteps2 Hcov2] & Hlay2 & Hhead2 & Hsub2).
    split_and!; [|done..]. split; [|done..]. by destruct Hinv2.
Qed.

Lemma play_walk (wa : Game → bool) (ds : list Dir) (g g' : Game) :
  TrailWalk g → play (moveWith wa) ds g = Some g' →
  TrailWalk g' ∧ sameLayout g g' ∧ head (trail g') = head (trail g)
  ∧ visitedCells g ⊆ visitedCells g'.
Proof.
  revert g. induction ds as [|d ds IH]; intros g Hwalk; simpl.
  { intros [= <-]. done. }
  destruct (moveWith wa d g) as [g1|] eqn:Hm; [|done]. intros Hplay.
  destruct (moveWith_walk wa d g g1 Hwalk Hm) as (Hw1 & Hl1 & Hh1 & Hv1).
  destruct (IH g1 Hw1 Hplay) as (Hw' & Hl' & Hh' & Hv').
  split_and!; [done | by eapply sameLayout_trans | congruence | by etrans].
Qed.

Lemma atStart_walk (g : Game) : atStart g → TrailWalk g.
Proof.
  intros (Htr & Hvis & _ & Hin). split; [split|..]; rewrite Htr.
  - apply NoDup_singleton.
  - intros c Hc. by apply list_elem_of_singleton in Hc as ->.
  - done.
  - intros i a b Ha Hb. destruct i; simpl in *; discriminate.
  - intros c Hc. apply list_elem_of_singleton in Hc as ->. rewrite Hvis.
    by apply elem_of_singleton.
Qed.

(** Whatever keys are pressed, in either build, the trail stays a
    self-avoiding walk on the grid by legal steps that starts where it
    started and ends on the player, every cell of it has its coverage
    credit, coverage never shrinks, and the layout is not touched. *)
Theorem play_keeps_walk (ds : list Dir) (g g' : Game) :
  TrailWalk g →
  play move ds g = Some g' ∨ play Public.move ds g = Some g' →
  TrailWalk g' ∧ sameLayout g g' ∧ head (trail g') = head (trail g)
  ∧ visitedCells g ⊆ visitedCells g'.
Proof. intros Hwalk [Hplay|Hplay]; by eapply play_walk. Qed.

Lemma game_2x2_atStart : atStart game_2x2_start.
Proof. split_and!; [done..|]. by vm_compute. Qed.

Lemma play_keeps_walk_witness :
  ∃ g', play move [Right; Down; Up] game_2x2_start = Some g'
        ∧ TrailWalk g' ∧ head (trail g') = Some (0, 0).
Proof.
  eexists. split; [vm_compute; reflexivity|].
  destruct (play_keeps_walk [Right; Down; Up] game_2x2_start _
              (atStart_walk _ game_2x2_atStart) (or_introl eq_refl))
    as (Hw & _ & Hh & _).
  split; [exact Hw | exact Hh].
Defined.

(** A key press moves the player exactly when it is accepted; when it is
    not, nothing but the status line changes.  Both builds. *)
Theorem move_accepted_iff (dir : Dir) (g g' : Game) :
  move dir g = Some g' ∨ Public.move dir g = Some g' →
  (accepted dir g → player g' = stepTarget dir g ∧ player g' ≠ player g)
  ∧ (¬ accepted dir g → ∃ m, g' = tell m g).
Proof.
  assert (Hne : stepTarget dir g ≠ player g).
  { pose proof (stepTarget_adjacent dir g) as Hadj. cbv zeta in Hadj.
    intros Heq. rewrite Heq in Hadj. lia. }
  assert (Hgen : ∀ wa, moveWith wa dir g = Some g' →
    (accepted dir g → player g' = stepTarget dir g ∧ player g' ≠ player g)
    ∧ (¬ accepted dir g → ∃ m, g' = tell m g)); [|intros [H|H]; by eapply Hgen].
  intros wa. unfold moveWith, accepted.
  destruct (gameOver g) eqn:Hover.
  { intros [= <-]. split; [by intros [? _]|]. intros _. exists (status g). by destruct g. }
  destruct (stepTarget dir g) as [nx ny] eqn:Ht. simpl.
  destruct (outOfBounds g nx ny) eqn:Hb.
  { intros [= <-]. split; [by intros (_ & ? & _)|]. intros _. exists (status g). by destruct g. }
  destruct (blockedByWall _ _ _ _ _) eqn:Hw.
  { intros [= <-]. split; [by intros (_ & _ & ? & _)|]. by eauto. }
  destruct (Z.eqb_spec (findIndex (cellEq nx ny) (trail g)) (-1)) as [Hidx|Hidx]; simpl.
  - assert (Hnotin : (nx, ny) ∉ trail g).
    { intros Hin. apply findIndex_found in Hin. apply Z.eqb_neq in Hin. done. }
    intros Hwin. split; [intros _|intros Hna; exfalso; apply Hna; by split_and!; [..|left]].
    unfold winTest in Hwin. destruct (find _ _); [|done].
    destruct (forwardStep_fields g nx ny) as (_ & Hpl & _).
    destruct (_ && _); injection Hwin as <-;
      change (player (forwardStep nx ny g) = (nx, ny)
              ∧ player (forwardStep nx ny g) ≠ player g); by rewrite Hpl.
  - assert (Hin : (nx, ny) ∈ trail g).
    { destruct (decide ((nx, ny) ∈ trail g)) as [|Hn]; [done|].
      by apply notin_findIndex in Hn. }
    destruct (isImmediateBack (trail g) nx ny) eqn:Hback.
    + intros [= <-]. simpl. split; [done|].
      intros Hna. exfalso. apply Hna. split_and!; [done..|right].
      by apply isImmediateBack_spec.
    + intros [= <-]. split; [|by eauto].
      intros (_ & _ & _ & [Hfresh|Himm]); [done|].
      apply isImmediateBack_spec in Himm. congruence.
Qed.

Lemma move_accepted_iff_witness :
  ∃ g', move Right game_2x2_start = Some g' ∧ player g' = (1, 0).
Proof.
  eexists. split; [reflexivity|].
  apply (move_accepted_iff Right game_2x2_start _ (or_introl eq_refl)).
  split_and!; [reflexivity..|left].
  intros Hc. apply list_elem_of_singleton in Hc. discriminate.
Defined.

(** ** Walls are two-sided *)

Lemma blockedByWall_sym (ws : gset Wall) (x0 y0 nx ny : Z) :
  blockedByWall ws x0 y0 nx ny = blockedByWall ws nx ny x0 y0.
Proof.
  unfold blockedByWall.
  destruct (Z.eqb_spec (nx - x0) 1), (Z.eqb_spec (nx - x0) (-1)),
    (Z.eqb_spec (nx - x0) 0), (Z.eqb_spec (ny - y0) 1),
    (Z.eqb_spec (ny - y0) (-1)), (Z.eqb_spec (ny - y0) 0); try lia; simpl;
  destruct (Z.eqb_spec (x0 - nx) 1), (Z.eqb_spec (x0 - nx) (-1)),
    (Z.eqb_spec (x0 - nx) 0), (Z.eqb_spec (y0 - ny) 1),
    (Z.eqb_spec (y0 - ny) (-1)), (Z.eqb_spec (y0 - ny) 0); try lia; simpl;
  reflexivity.
Qed.

Lemma stepTarget_opposite (dir : Dir) (g g1 : Game) :
  player g1 = stepTarget dir g → stepTarget (opposite dir) g1 = player g.
Proof.
  unfold stepTarget. intros ->. destruct (player g) as [x y].
  destruct dir; simpl; f_equal; lia.
Qed.

Lemma last_snoc_inv {A} (l : list A) (a : A) :
  last l = Some a → ∃ pre, l = pre ++ [a].
Proof.
  destruct l as [|b l] using rev_ind; [done|].
  rewrite last_snoc. intros [= ->]. by eexists.
Qed.

Lemma moveWith_fresh (wa : Game → bool) (dir : Dir) (g : Game) :
  let t := stepTarget dir g in
  gameOver g = false → outOfBounds g t.1 t.2 = false →
  blockedByWall (walls g) (player g).1 (player g).2 t.1 t.2 = false →
  t ∉ trail g →
  moveWith wa dir g = winTest wa (forwardStep t.1 t.2 g).
Proof.
  intros t. subst t. unfold moveWith.
  destruct (stepTarget dir g) as [nx ny]. simpl.
  intros -> -> -> Hfresh. by rewrite (notin_findIndex _ _ _ Hfresh).
Qed.

Lemma moveWith_forward_back (wa : Game → bool) (dir : Dir) (g g1 : Game) :
  TrailInv g → accepted dir g → stepTarget dir g ∉ trail g →
  moveWith wa dir g = Some g1 → gameOver g1 = false →
  ∃ g2, moveWith wa (opposite dir) g1 = Some g2
    ∧ trail g2 = trail g ∧ player g2 = player g
    ∧ visitedCells g2 = {[stepTarget dir g]} ∪ visitedCells g
    ∧ gameOver g2 = false ∧ sameLayout g g2.
Proof.
  intros Hinv (Hover & Hb & Hw & _) Hfresh Hm Hover1.
  rewrite moveWith_fresh in Hm by done.
  - destruct (stepTarget dir g) as [nx ny] eqn:Ht. simpl in *.
    destruct (forwardStep_fields g nx ny) as (Htr & Hpl & Hvis & Hov & Hlay).
    unfold winTest in Hm. destruct (find _ _) as [finalA|]; [|done].
    destruct (_ && _) in Hm; injection Hm as <-; [done|].
    remember (forwardStep nx ny g) as g1 eqn:Hg1. clear Hg1.
    destruct Hlay as (Hc & Hr & Hgo & Han & Ham & Hwa & Hsv).
    assert (Hst : stepTarget (opposite dir) g1 = player g).
    { apply stepTarget_opposite. by rewrite Hpl, Ht. }
    destruct (last_snoc_inv _ _ (inv_player g Hinv)) as [pre Hpre].
    assert (Hin : inGrid (COLS g) (ROWS g) (player g)).
    { apply (inv_grid g Hinv). rewrite Hpre. apply elem_of_app. right. by left. }
    unfold moveWith. rewrite Hover1, Hst.
    destruct (player g) as [px py] eqn:Hp. simpl.
    assert (Hb1 : outOfBounds g1 px py = false).
    { apply outOfBounds_false. by rewrite Hc, Hr. }
    rewrite Hb1, Hpl, Hwa. simpl in *. rewrite blockedByWall_sym, Hw.
    assert (Hin1 : (px, py) ∈ trail g1).
    { rewrite Htr, Hpre. apply elem_of_app. left. apply elem_of_app. right. by left. }
    rewrite (findIndex_found _ _ _ Hin1). simpl.
    assert (Hib : isImmediateBack (trail g1) px py = true).
    { apply isImmediateBack_spec. exists pre, (nx, ny).
      by rewrite Htr, Hpre, <- app_assoc. }
    rewrite Hib. eexists. split; [done|]. simpl.
    split_and!; try done.
    by rewrite Htr, removelast_last.
Qed.

(** A step onto a fresh cell that does not win is undone by the opposite
    key: the trail and the player are back, the cell keeps its coverage
    credit.  Both builds. *)
Theorem move_forward_back (mv : Dir → Game → option Game) (dir : Dir)
    (g g1 : Game) :
  mv = move ∨ mv = Public.move →
  TrailInv g → accepted dir g → stepTarget dir g ∉ trail g →
  mv dir g = Some g1 → gameOver g1 = false →
  ∃ g2, mv (opposite dir) g1 = Some g2
    ∧ trail g2 = trail g ∧ player g2 = player g
    ∧ visitedCells g2 = {[stepTarget dir g]} ∪ visitedCells g
    ∧ gameOver g2 = false ∧ sameLayout g g2.
Proof. intros [-> | ->]; apply moveWith_forward_back. Qed.

Lemma move_forward_back_witness :
  ∃ g1 g2, move Right game_2x2_start = Some g1
    ∧ move Left g1 = Some g2
    ∧ trail g2 = [(0, 0)] ∧ player g2 = (0, 0).
Proof.
  destruct (move_forward_back move Right game_2x2_start
              (forwardStep 1 0 game_2x2_start) (or_introl eq_refl))
    as (g2 & Hm & Htr & Hpl & _).
  - apply walk_inv, atStart_walk, game_2x2_atStart.
  - split_and!; [reflexivity..|left].
    intros Hc. apply list_elem_of_singleton in Hc. discriminate.
  - intros Hc. apply list_elem_of_singleton in Hc. discriminate.
  - reflexivity.
  - reflexivity.
  - exists (forwardStep 1 0 game_2x2_start), g2. split; [reflexivity|].
    split; [exact Hm|]. split; [exact Htr | exact Hpl].
Defined.

(** ** A win is a solution, and a solution wins *)

Lemma filter_full {A} (P : A → Prop) `{∀ x, Decision (P x)} (l : list A) :
  (length l ≤ length (filter P l))%nat → filter P l = l.
Proof.
  induction l as [|a l IH]; [done|]. rewrite filter_cons.
  pose proof (length_filter P l) as Hle.
  destruct (decide (P a)); simpl; intros Hlen.
  - f_equal. apply IH. lia.
  - lia.
Qed.

Lemma length_firstVisits (l : list Z) : (length (firstVisits l) ≤ length l)%nat.
Proof.
  induction l as [|n l IH]; [done|]. simpl.
  pose proof (length_filter (λ m, m ≠ n) (firstVisits l)). lia.
Qed.

Lemma firstVisits_full (l : list Z) :
  (length l ≤ length (firstVisits l))%nat → firstVisits l = l.
Proof.
  induction l as [|n l IH]; [done|]. simpl. intros Hlen.
  pose proof (length_filter (λ m, m ≠ n) (firstVisits l)) as H1.
  pose proof (length_firstVisits l) as H2.
  rewrite filter_full by lia. f_equal. apply IH. lia.
Qed.

Lemma firstVisits_NoDup (l : list Z) : NoDup l → firstVisits l = l.
Proof.
  induction 1 as [|n l Hn Hnd IH]; [done|]. simpl. rewrite IH. f_equal.
  apply filter_full. clear IH Hnd. induction l as [|m l IH]; [done|].
  rewrite filter_cons. apply not_elem_of_cons in Hn as [Hne Hn].
  destruct (decide (m ≠ n)) as [|Hmn]; [|exfalso; apply Hmn; by intros ->].
  simpl. specialize (IH Hn). lia.
Qed.

Lemma size_anchorsMapOf (l : list Anchor) :
  (size (anchorsMapOf l) ≤ length l)%nat.
Proof.
  unfold anchorsMapOf.
  assert (Hgen : ∀ m : gmap Cell Z,
    (size (foldl (λ m a, <[keyOf (ax a) (ay a) := an a]> m) m l)
     ≤ size m + length l)%nat).
  { induction l as [|a l IH]; intros m; simpl; [lia|].
    etrans; [apply IH|]. rewrite map_size_insert.
    destruct (m !! _); unfold id; lia. }
  specialize (Hgen ∅). by rewrite map_size_empty in Hgen.
Qed.

Lemma length_omap_filter {A B} (f : A → option B) (l : list A) :
  length (omap f l) = length (filter (λ c, is_Some (f c)) l).
Proof.
  induction l as [|c l IH]; [done|]. rewrite filter_cons. csimpl.
  destruct (f c) eqn:E.
  - destruct (decide _) as [|Hn]; [simpl; by rewrite IH|]. exfalso. by apply Hn.
  - destruct (decide _) as [[? Hs]|]; [done|]. done.
Qed.

Lemma length_numbersAlong (g : Game) (p : list Cell) :
  NoDup p → (length (numbersAlong g p) ≤ size (anchorsMap g))%nat.
Proof.
  intros Hnd. unfold numbersAlong.
  rewrite length_omap_filter, <- length_map_to_list.
  rewrite <- (length_fmap fst (map_to_list (anchorsMap g))).
  apply submseteq_length, NoDup_submseteq.
  - by apply NoDup_filter.
  - intros [x y] Hc. apply list_elem_of_filter in Hc as [[n Hn] _].
    apply list_elem_of_fmap. exists ((x, y), n). split; [done|].
    by apply elem_of_map_to_list.
Qed.

Lemma validSteps_of_lookup (g : Game) (c : Cell) (q : list Cell) :
  (∀ (i : nat) a b, (c :: q) !! i = Some a → (c :: q) !! S i = Some b → stepOK g a b) →
  validSteps g c q.
Proof.
  revert c. induction q as [|d q IH]; intros c Hst; [done|]. split.
  - by apply (Hst 0%nat).
  - apply IH. intros i a b Ha Hb. by apply (Hst (S i)).
Qed.

Lemma validSteps_layout (g g' : Game) (c : Cell) (q : list Cell) :
  sameLayout g g' → validSteps g c q → validSteps g' c q.
Proof.
  intros Hlay. revert c. induction q as [|d q IH]; intros c; [done|].
  intros [H1 H2]. split; [by eapply stepOK_layout | by apply IH].
Qed.

(** The invariant of play in the full game: a walk, and a finished game
    only on a winning trail. *)
Lemma play_win_inv (ds : list Dir) (g g' : Game) :
  TrailWalk g → (gameOver g = true → winCondition g) →
  play move ds g = Some g' →
  gameOver g' = true → winCondition g'.
Proof.
  revert g. induction ds as [|d ds IH]; intros g Hwalk Hwin; simpl.
  { by intros [= <-]. }
  destruct (move d g) as [g1|] eqn:Hm; [|done]. intros Hplay.
  destruct (moveWith_walk walkedAll d g g1 Hwalk Hm) as (Hw1 & _).
  apply (IH g1 Hw1); [|done].
  pose proof Hm as Hm'. apply moveWith_cases in Hm' as [[m ->]|[Hback|Hfwd]].
  - done.
  - destruct Hback as (Hover & _ & _ & pre & cur & _ & ->). simpl. congruence.
  - destruct Hfwd as (Hover & Hb & Hw & Hfresh & _).
    destruct (move_win_iff d g (walk_inv g Hwalk) Hover Hb Hw Hfresh) as [_ Hiff].
    destruct (Hiff g1 Hm) as [_ Hiff1]. by apply Hiff1.
Qed.

(** In the full game a win certifies a solution: whatever keys lead from a
    start position to a finished game, the trail is then a route from the
    start to the cell of the last number, by legal steps, through every
    cell once, meeting the numbers [1..K] in order. *)
Theorem win_is_solution (ds : list Dir) (g g' : Game) :
  atStart g → anchorsMap g = anchorsMapOf (anchors g) →
  play move ds g = Some g' → gameOver g' = true →
  ∃ a, find (λ a, an a =? K g) (anchors g) = Some a
       ∧ Solution g (player g) (ax a, ay a) (trail g').
Proof.
  intros Hstart Hmap Hplay Hover'.
  pose proof (atStart_walk g Hstart) as Hwalk.
  destruct Hstart as (Htr & Hvis & Hover & Hin).
  assert (Hwin : winCondition g').
  { apply (play_win_inv ds g g'); [done| |done..]. congruence. }
  destruct (play_walk walkedAll ds g g' Hwalk Hplay)
    as ([Hinv' Hsteps' _] & Hlay & Hhead & _).
  pose proof Hlay as (Hc & Hr & _ & Han & Ham & Hwa & _).
  destruct Hwin as (Hlen & Hham & Hord & a & Hfind & Hlast).
  unfold K in *. rewrite Han in Hfind, Hord. rewrite Hc, Hr in Hham.
  exists a. split; [done|]. unfold Solution. split_and!.
  - by rewrite Hhead, Htr.
  - done.
  - intros i x y Hx Hy. unfold stepOK. rewrite <- Hc, <- Hr, <- Hwa.
    by apply (Hsteps' i).
  - done.
  - assert (Hsame : numbersAlong g (trail g') = numbersAlong g' (trail g')).
    { unfold numbersAlong. by rewrite Ham. }
    rewrite Hsame, <- Hord. symmetry. apply firstVisits_full.
    rewrite Hord, length_mustOrder, <- Hsame.
    etrans; [apply length_numbersAlong, Hham|].
    rewrite Hmap. apply size_anchorsMapOf.
Qed.

Lemma win_is_solution_witness :
  ∃ a, find (λ a, an a =? K game_2x1_start) (anchors game_2x1_start) = Some a
       ∧ Solution game_2x1_start (0, 0) (ax a, ay a) [(0, 0); (1, 0)].
Proof.
  apply (win_is_solution [Right] game_2x1_start game_2x1_won).
  - split_and!; [done..|]. by vm_compute.
  - reflexivity.
  - reflexivity.
  - reflexivity.
Defined.

Lemma stepTarget_dirBetween (g : Game) (c d : Cell) :
  player g = c → Z.abs (d.1 - c.1) + Z.abs (d.2 - c.2) = 1 →
  stepTarget (dirBetween c d) g = d.
Proof.
  intros Hp Hadj. unfold stepTarget, dirBetween. rewrite Hp.
  destruct c as [x y], d as [x' y']. simpl in *.
  destruct (Z.eqb_spec x' (x + 1)); [simpl; f_equal; lia|].
  destruct (Z.eqb_spec x' (x - 1)); [simpl; f_equal; lia|].
  destruct (Z.eqb_spec y' (y + 1)); simpl; f_equal; lia.
Qed.

Section route.
Variable wa : Game → bool.
Hypothesis wa_walked :
  ∀ g, NoDup (trail g) → visitedCells g = list_to_set (trail g) →
       wa g = walkedAll g.

Lemma play_route (q : list Cell) : ∀ (g : Game) (p : list Cell) (c : Cell) (a : Anchor),
  trail g = p ++ [c] → player g = c →
  visitedCells g = list_to_set (p ++ [c]) → gameOver g = false →
  find (λ a, an a =? K g) (anchors g) = Some a →
  validSteps g c q → NoDup (p ++ c :: q) →
  Z.of_nat (length (p ++ c :: q)) = COLS g * ROWS g →
  firstVisits (numbersAlong g (p ++ c :: q)) = mustOrder (length (anchors g)) →
  last (c :: q) = Some (ax a, ay a) → q ≠ [] →
  ∃ g', play (moveWith wa) (keysAlong c q) g = Some g'
        ∧ gameOver g' = true ∧ trail g' = p ++ c :: q.
Proof.
  induction q as [|d q IH]; intros g p c a Htr Hpl Hvis Hover Hfind Hsteps Hnd
    Hlen Hord Hlast Hne; [done|]. clear Hne.
  destruct Hsteps as [(Hin & Hadj & Hw) Hsteps]. simpl.
  pose proof (stepTarget_dirBetween g c d Hpl Hadj) as Ht.
  assert (Hfresh : d ∉ trail g).
  { rewrite Htr. intros Hd.
    replace (p ++ c :: d :: q) with ((p ++ [c]) ++ d :: q) in Hnd
      by (by rewrite <- app_assoc).
    apply NoDup_app in Hnd as (_ & Hnd & _). apply (Hnd d Hd). by left. }
  rewrite moveWith_fresh; rewrite ?Ht, ?Hpl; [|done|by apply outOfBounds_false|done..].
  destruct d as [nx ny]. simpl.
  destruct (forwardStep_fields g nx ny) as (Htr2 & Hpl2 & Hvis2 & Hov2 & Hlay).
  remember (forwardStep nx ny g) as g2 eqn:Hg2. clear Hg2.
  pose proof Hlay as (Hc & Hr & _ & Han & Ham & Hwa & _).
  assert (Htr2' : trail g2 = (p ++ [c]) ++ [(nx, ny)]) by (by rewrite Htr2, Htr).
  assert (Hfull : p ++ c :: (nx, ny) :: q = ((p ++ [c]) ++ [(nx, ny)]) ++ q).
  { by rewrite <- !app_assoc. }
  assert (Hfull' : p ++ c :: (nx, ny) :: q = (p ++ [c]) ++ (nx, ny) :: q).
  { by rewrite <- !app_assoc. }
  assert (Hnd2 : NoDup (trail g2)).
  { rewrite Htr2'. rewrite Hfull in Hnd. by apply NoDup_app in Hnd as [Hnd _]. }
  assert (Hvis2' : visitedCells g2 = list_to_set (trail g2)).
  { rewrite Hvis2, Hvis, Htr2', (list_to_set_snoc_L (p ++ [c])).
    apply union_comm_L. }
  unfold winTest, K. rewrite Han. fold (K g). rewrite Hfind, Hpl2. simpl.
  rewrite (wa_walked g2 Hnd2 Hvis2'). unfold walkedAll. rewrite Hc, Hr.
  destruct q as [|e q].
  - (* the last step: the win *)
    assert (Hl : Z.of_nat (length (trail g2)) = COLS g * ROWS g).
    { rewrite Htr2', <- Hlen, Hfull. by rewrite app_nil_r. }
    assert (Hv : visitedInOrder g2 = true).
    { apply visitedInOrder_spec. rewrite Han, <- Hord. unfold numbersAlong.
      rewrite Ham, Htr2', Hfull. by rewrite app_nil_r. }
    rewrite Hl, Z.eqb_refl, Hv. simpl in Hlast. injection Hlast as <- <-.
    rewrite !Z.eqb_refl. simpl. eexists. split; [done|]. simpl.
    split; [done|]. by rewrite Htr2', Hfull, app_nil_r.
  - (* a step on the way *)
    assert (Hl : (Z.of_nat (length (trail g2)) =? COLS g * ROWS g) = false).
    { apply Z.eqb_neq. rewrite Htr2', <- Hlen, Hfull, (length_app _ (e :: q)).
      simpl. lia. }
    rewrite Hl. simpl.
    destruct (IH g2 (p ++ [c]) (nx, ny) a) as (g' & Hplay & Hov' & Htr');
      try done.
    + by rewrite Hvis2', Htr2'.
    + congruence.
    + unfold K. by rewrite Han.
    + by eapply validSteps_layout.
    + by rewrite <- Hfull'.
    + by rewrite Hc, Hr, <- Hfull'.
    + unfold numbersAlong. by rewrite Ham, Han, <- Hfull'.
    + exists g'. simpl in Hplay. by rewrite Hplay, Htr', <- Hfull'.
Qed.

End route.

Lemma solution_playable (mv : Dir → Game → option Game) (g : Game)
    (q : list Cell) (a : Anchor) :
  mv = move ∨ mv = Public.move →
  atStart g →
  find (λ a, an a =? K g) (anchors g) = Some a →
  Solution g (player g) (ax a, ay a) (player g :: q) → q ≠ [] →
  ∃ g', play mv (keysAlong (player g) q) g = Some g'
        ∧ gameOver g' = true ∧ trail g' = player g :: q.
Proof.
  intros Hmv (Htr & Hvis & Hover & Hin) Hfind (_ & Hlast & Hsteps & Hham & Hnum) Hne.
  assert (Hgen : ∀ wa,
    (∀ g, NoDup (trail g) → visitedCells g = list_to_set (trail g) →
          wa g = walkedAll g) →
    ∃ g', play (moveWith wa) (keysAlong (player g) q) g = Some g'
          ∧ gameOver g' = true ∧ trail g' = player g :: q).
  { intros wa Hwa.
    apply (play_route wa Hwa q g [] (player g) a); try done.
    - rewrite Hvis. change ([] ++ [player g]) with [player g].
      by rewrite list_to_set_singleton_L.
    - by apply validSteps_of_lookup.
    - by destruct Hham.
    - change ([] ++ player g :: q) with (player g :: q).
      rewrite (Hamiltonian_length _ _ _ Hham). unfold inGrid in Hin.
      rewrite Nat2Z.inj_mul, !Z2Nat.id by lia. done.
    - change ([] ++ player g :: q) with (player g :: q). rewrite Hnum. apply firstVisits_NoDup.
      rewrite mustOrder_eq. apply NoDup_seqZ. }
  destruct Hmv as [-> | ->]; apply Hgen.
  - done.
  - intros g0 Hnd Hv. unfold Public.walkedAll, walkedAll.
    by rewrite Hv, size_list_to_set.
Qed.

(** Every solution can be keyed in, and wins, in either build: from a
    start position, the keys along a route that is a [Solution] ending on
    the cell of the last number lead, step by step, to a finished game
    whose trail is the route. *)
Theorem solution_wins (mv : Dir → Game → option Game) (g : Game)
    (q : list Cell) (a : Anchor) :
  mv = move ∨ mv = Public.move →
  atStart g →
  find (λ a, an a =? K g) (anchors g) = Some a →
  Solution g (player g) (ax a, ay a) (player g :: q) → q ≠ [] →
  ∃ g', play mv (keysAlong (player g) q) g = Some g'
        ∧ gameOver g' = true ∧ trail g' = player g :: q.
Proof. apply solution_playable. Qed.

Lemma solution_wins_witness :
  ∃ g', play move [Right] game_2x1_start = Some g' ∧ gameOver g' = true.
Proof.
  destruct (solution_wins move game_2x1_start [(1, 0)] (mkAnchor 1 0 2)
              (or_introl eq_refl)) as (g' & Hplay & Hover & _).
  - split_and!; [done..|]. by vm_compute.
  - reflexivity.
  - split_and!.
    + reflexivity.
    + reflexivity.
    + intros [|[|i]] x y Hx Hy; simpl in *; try discriminate.
      injection Hx as <-. injection Hy as <-. split_and!; by vm_compute.
    + apply Hamiltonian_of_length; [by apply (bool_decide_unpack _) | |simpl; lia].
      intros c Hc. apply elem_of_cons in Hc as [->|Hc]; [by vm_compute|].
      apply list_elem_of_singleton in Hc as ->. by vm_compute.
    + reflexivity.
  - done.
  - exists g'. split; [exact Hplay | exact Hover].
Defined.

(** ** The next number *)

Lemma elem_of_firstVisits (l : list Z) (n : Z) : n ∈ firstVisits l ↔ n ∈ l.
Proof.
  induction l as [|a l IH]; [done|]. simpl.
  rewrite !elem_of_cons, list_elem_of_filter, IH.
  destruct (decide (n = a)) as [->|]; [by split; left|].
  split; [intros [?|[_ ?]]; by auto | intros [?|?]; by auto].
Qed.

Lemma elem_of_numbersFirstOrder (g : Game) (n : Z) :
  n ∈ numbersFirstOrder g ↔ collected g n.
Proof.
  rewrite numbersFirstOrder_spec, elem_of_firstVisits. unfold numbersAlong.
  by rewrite list_elem_of_omap.
Qed.

Lemma find_seqZ (P : Z → bool) (k : nat) : ∀ a : Z,
  match find P (seqZ a (Z.of_nat k)) with
  | Some n => a ≤ n < a + Z.of_nat k ∧ P n = true ∧ ∀ m, a ≤ m < n → P m = false
  | None => ∀ m, a ≤ m < a + Z.of_nat k → P m = false
  end.
Proof.
  induction k as [|k IH]; intros a.
  { simpl. intros m Hm. exfalso. lia. }
  rewrite Nat2Z.inj_succ, seqZ_cons by lia. simpl.
  replace (Z.pred (Z.succ (Z.of_nat k))) with (Z.of_nat k) by lia.
  destruct (P a) eqn:Ha.
  { split_and!; [lia | lia | done | intros m Hm; exfalso; lia]. }
  specialize (IH (Z.succ a)). destruct (find _ _) as [n|].
  - destruct IH as (Hr & Hn & Hlt). split_and!; [lia | lia | done |].
    intros m Hm. destruct (decide (m = a)) as [->|]; [done|]. apply Hlt. lia.
  - intros m Hm. destruct (decide (m = a)) as [->|]; [done|]. apply IH. lia.
Qed.

(** [nextRequiredNumber] is the least number of [1..K] that no cell of the
    trail carries; it is [null] exactly when the trail has met all of them. *)
Theorem nextRequiredNumber_least (g : Game) :
  match nextRequiredNumber g with
  | Some n => 1 ≤ n ≤ K g ∧ ¬ collected g n ∧ ∀ m, 1 ≤ m < n → collected g m
  | None => ∀ m, 1 ≤ m ≤ K g → collected g m
  end.
Proof.
  unfold nextRequiredNumber.
  set (P := λ n : Z, negb (bool_decide
              (n ∈ (list_to_set (numbersFirstOrder g) : gset Z)))).
  assert (HP : ∀ n, P n = false ↔ collected g n).
  { intros n. unfold P. rewrite negb_false_iff, bool_decide_eq_true.
    by rewrite elem_of_list_to_set, elem_of_numbersFirstOrder. }
  pose proof (find_seqZ P (length (anchors g)) 1) as Hf. fold (K g) in Hf.
  destruct (find P (seqZ 1 (K g))) as [n|].
  - destruct Hf as (Hr & Hn & Hlt). split_and!; [lia|lia| |].
    + intros Hc. apply HP in Hc. congruence.
    + intros m Hm. apply HP, Hlt. lia.
  - intros m Hm. apply HP, Hf. lia.
Qed.

(** ** Walls, continued *)

(** A wall blocks the edge it lies on from both sides, and nothing else:
    [blockedByWall] does not depend on the direction of travel and is
    [false] between cells that are not 4-adjacent. *)
Theorem blockedByWall_two_sided (ws : gset Wall) (x0 y0 nx ny : Z) :
  blockedByWall ws x0 y0 nx ny = blockedByWall ws nx ny x0 y0
  ∧ blockedByWall ws x0 y0 nx ny
    = blockedByWall ws x0 y0 nx ny
      && (Z.abs (nx - x0) + Z.abs (ny - y0) =? 1).
Proof.
  split; [apply blockedByWall_sym|].
  unfold blockedByWall.
  destruct (Z.eqb_spec (nx - x0) 1), (Z.eqb_spec (nx - x0) (-1)),
    (Z.eqb_spec (nx - x0) 0), (Z.eqb_spec (ny - y0) 1),
    (Z.eqb_spec (ny - y0) (-1)), (Z.eqb_spec (ny - y0) 0); try lia; simpl;
    try reflexivity;
    (replace (Z.abs (nx - x0) + Z.abs (ny - y0)) with 1 by lia);
    by rewrite andb_true_r.
Qed.

Section wall_builder.
Variables (rnd : Tape) (snake : list Cell) (wallPct : Q) (cols rows : Z).

Lemma wallEdge_elem a b w st w' :
  w' ∈ (wallEdge rnd snake wallPct a b w st).1 →
  w' ∈ st.1
  ∨ (w' = w ∧ Z.abs (findIndex (cellEq a.1 a.2) snake
                     - findIndex (cellEq b.1 b.2) snake) ≠ 1).
Proof.
  unfold wallEdge.
  destruct (Z.eqb_spec (Z.abs (findIndex (cellEq a.1 a.2) snake
                               - findIndex (cellEq b.1 b.2) snake)) 1) as [E|E];
    [by left|].
  destruct (randomBelow _ _ _); simpl; [|by left].
  rewrite elem_of_union, elem_of_singleton. intros [->|?]; [by right | by left].
Qed.

Lemma wallEdge_reads a b w st :
  (st.2 ≤ (wallEdge rnd snake wallPct a b w st).2)%nat.
Proof.
  unfold wallEdge. destruct (_ =? 1); [done|].
  destruct (randomBelow _ _ _); simpl; lia.
Qed.

Lemma wallCell_elem y st x w' :
  w' ∈ (wallCell rnd cols rows snake wallPct y st x).1 →
  w' ∈ st.1 ∨ addedAt snake cols rows x y w'.
Proof.
  unfold wallCell, addedAt. intros Hw.
  destruct (Z.ltb_spec y (rows - 1)).
  - apply wallEdge_elem in Hw as [Hw|[-> Hw]]; [|right; by right].
    destruct (Z.ltb_spec x (cols - 1)); [|by left].
    apply wallEdge_elem in Hw as [Hw|[-> Hw]]; [by left|right; by left].
  - destruct (Z.ltb_spec x (cols - 1)); [|by left].
    apply wallEdge_elem in Hw as [Hw|[-> Hw]]; [by left|right; by left].
Qed.

Lemma wallCell_reads y st x :
  (st.2 ≤ (wallCell rnd cols rows snake wallPct y st x).2)%nat.
Proof.
  unfold wallCell.
  destruct (y <? rows - 1), (x <? cols - 1); try done;
    repeat (etrans; [|apply wallEdge_reads]); done.
Qed.

Lemma wallRows_elem (xs ys : list Z) (st : gset Wall * nat) (w' : Wall) :
  let r := foldl (λ st y, foldl (wallCell rnd cols rows snake wallPct y) st xs)
                 st ys in
  (w' ∈ r.1 → w' ∈ st.1 ∨ ∃ x y, x ∈ xs ∧ y ∈ ys ∧ addedAt snake cols rows x y w')
  ∧ (st.2 ≤ r.2)%nat.
Proof.
  revert st. induction ys as [|y ys IH]; intros st; simpl; [split; by auto|].
  assert (Hrow : ∀ st0 : gset Wall * nat,
    let r0 := foldl (wallCell rnd cols rows snake wallPct y) st0 xs in
    (w' ∈ r0.1 → w' ∈ st0.1 ∨ ∃ x, x ∈ xs ∧ addedAt snake cols rows x y w')
    ∧ (st0.2 ≤ r0.2)%nat).
  { clear IH. induction xs as [|x xs IHx]; intros st0; simpl; [split; by auto|].
    destruct (IHx (wallCell rnd cols rows snake wallPct y st0 x)) as [H1 H2].
    split.
    - intros Hw. apply H1 in Hw as [Hw|(x' & Hx' & Hw)].
      + apply wallCell_elem in Hw as [Hw|Hw]; [by left|].
        right. exists x. split; [by left|done].
      + right. exists x'. split; [by right|done].
    - etrans; [apply wallCell_reads|done]. }
  destruct (IH (foldl (wallCell rnd cols rows snake wallPct y) st xs)) as [H1 H2].
  destruct (Hrow st) as [H3 H4]. split.
  - intros Hw. apply H1 in Hw as [Hw|(x & y' & Hx & Hy & Hw)].
    + apply H3 in Hw as [Hw|(x & Hx & Hw)]; [by left|].
      right. exists x, y. split_and!; [done|by left|done].
    + right. exists x, y'. split_and!; [done|by right|done].
  - by etrans.
Qed.

End wall_builder.

(** Walls lie on edges between two cells of the grid only, never on the
    border, and they are stored under the left or the upper cell of the
    edge; the builder touches nothing but the wall set and only advances
    the tape. *)
Theorem buildShortcutWalls_interior (rnd : Tape) (snake : list Cell)
    (wallPct : Q) (g : Game) (i : nat) :
  let r := buildShortcutWallsFromSnake rnd snake wallPct g i in
  (∀ w, w ∈ walls r.1 → interiorEdge (COLS g) (ROWS g) w)
  ∧ r.1 = set_walls (walls r.1) g
  ∧ (i ≤ r.2)%nat.
Proof.
  unfold buildShortcutWallsFromSnake. simpl.
  split_and!; [|done|];
    [|by destruct (wallRows_elem rnd snake wallPct (COLS g) (ROWS g)
              (seqZ 0 (COLS g)) (seqZ 0 (ROWS g)) (∅, i) (0, 0, Up))].
  intros w Hw.
  destruct (wallRows_elem rnd snake wallPct (COLS g) (ROWS g)
              (seqZ 0 (COLS g)) (seqZ 0 (ROWS g)) (∅, i) w) as [Hel _].
  apply Hel in Hw as [Hw|(x & y & Hx & Hy & Hadd)]; [by apply elem_of_empty in Hw|].
  apply elem_of_seqZ in Hx, Hy.
  destruct Hadd as [(-> & Hlt & _)|(-> & Hlt & _)]; simpl; lia.
Qed.

Section wall_extremes.
Variables (rnd : Tape) (snake : list Cell) (wallPct : Q) (cols rows : Z).
Variable b : bool.
Hypothesis Hb : ∀ i, randomBelow rnd i wallPct = b.

Lemma wallEdge_const a c w st :
  (wallEdge rnd snake wallPct a c w st).1
  = if Z.abs (findIndex (cellEq a.1 a.2) snake
              - findIndex (cellEq c.1 c.2) snake) =? 1 then st.1
    else if b then {[w]} ∪ st.1 else st.1.
Proof. unfold wallEdge. destruct (_ =? 1); [done|]. rewrite Hb. by destruct b. Qed.

Lemma wallCell_const y st x w' :
  w' ∈ (wallCell rnd cols rows snake wallPct y st x).1
  ↔ w' ∈ st.1 ∨ (b = true ∧ addedAt snake cols rows x y w').
Proof.
  unfold wallCell, addedAt.
  assert (Hedge : ∀ a c w (st0 : gset Wall * nat) (side : Prop),
    (wallAllowed snake w ↔ Z.abs (findIndex (cellEq a.1 a.2) snake
                                  - findIndex (cellEq c.1 c.2) snake) ≠ 1) →
    w' ∈ (wallEdge rnd snake wallPct a c w st0).1
    ↔ w' ∈ st0.1 ∨ (b = true ∧ w' = w ∧ wallAllowed snake w)).
  { intros a c w st0 _ Hall. rewrite wallEdge_const.
    destruct (Z.eqb_spec (Z.abs (findIndex (cellEq a.1 a.2) snake
                                 - findIndex (cellEq c.1 c.2) snake)) 1) as [E|E].
    - split; [by left|]. intros [?|(_ & _ & Hw)]; [done|]. by apply Hall in Hw.
    - destruct b.
      + rewrite elem_of_union, elem_of_singleton. split.
        * intros [->|?]; [right|by left]. split_and!; [done..|]. by apply Hall.
        * intros [?|(_ & -> & _)]; [by right | by left].
      + split; [by left|]. by intros [?|[? _]]. }
  assert (HR : wallAllowed snake (x, y, Right)
               ↔ Z.abs (findIndex (cellEq (x, y).1 (x, y).2) snake
                        - findIndex (cellEq (x + 1, y).1 (x + 1, y).2) snake) ≠ 1)
    by done.
  assert (HD : wallAllowed snake (x, y, Down)
               ↔ Z.abs (findIndex (cellEq (x, y).1 (x, y).2) snake
                        - findIndex (cellEq (x, y + 1).1 (x, y + 1).2) snake) ≠ 1)
    by done.
  destruct (Z.ltb_spec y (rows - 1)), (Z.ltb_spec x (cols - 1));
    rewrite ?(Hedge _ _ _ _ True HD), ?(Hedge _ _ _ _ True HR).
  - split.
    + intros [[?|(Hbt & -> & Hw)]|(Hbt & -> & Hw)]; [by left|right..];
        (split; [done|]); [left|right]; by split_and!.
    + intros [?|(Hbt & [(-> & _ & Hw)|(-> & _ & Hw)])];
        [by left; left | left; right | right]; done.
  - split.
    + intros [?|(Hbt & -> & Hw)]; [by left|right]. split; [done|].
      right. by split_and!.
    + intros [?|(Hbt & [(-> & ? & Hw)|(-> & ? & Hw)])]; [by left|lia|by right].
  - split.
    + intros [?|(Hbt & -> & Hw)]; [by left|right]. split; [done|].
      left. by split_and!.
    + intros [?|(Hbt & [(-> & ? & Hw)|(-> & ? & Hw)])]; [by left|by right|lia].
  - split; [by left|].
    intros [?|(Hbt & [(-> & ? & Hw)|(-> & ? & Hw)])]; [done|lia|lia].
Qed.

Lemma wallRows_const (xs ys : list Z) (st : gset Wall * nat) (w' : Wall) :
  w' ∈ (foldl (λ st y, foldl (wallCell rnd cols rows snake wallPct y) st xs)
              st ys).1
  ↔ w' ∈ st.1
    ∨ (b = true ∧ ∃ x y, x ∈ xs ∧ y ∈ ys ∧ addedAt snake cols rows x y w').
Proof.
  revert st. induction ys as [|y ys IH]; intros st; simpl.
  { split; [by left|]. intros [?|(_ & x & y & _ & Hy & _)]; [done|].
    by apply elem_of_nil in Hy. }
  assert (Hrow : ∀ st0 : gset Wall * nat,
    w' ∈ (foldl (wallCell rnd cols rows snake wallPct y) st0 xs).1
    ↔ w' ∈ st0.1 ∨ (b = true ∧ ∃ x, x ∈ xs ∧ addedAt snake cols rows x y w')).
  { clear IH. induction xs as [|x xs IHx]; intros st0; simpl.
    { split; [by left|]. intros [?|(_ & x & Hx & _)]; [done|].
      by apply elem_of_nil in Hx. }
    rewrite IHx, wallCell_const. split.
    - intros [[?|[Hbt Hw]]|(Hbt & x' & Hx' & Hw)]; [by left|right..];
        (split; [done|]); [exists x|exists x']; (split; [|done]);
        [by left|by right].
    - intros [?|(Hbt & x' & Hx' & Hw)]; [by left; left|].
      apply elem_of_cons in Hx' as [->|Hx']; [left; right; done|].
      right. split; [done|]. by exists x'. }
  rewrite IH, Hrow. split.
  - intros [[?|(Hbt & x & Hx & Hw)]|(Hbt & x & y' & Hx & Hy & Hw)];
      [by left|right..]; (split; [done|]); [exists x, y|exists x, y'];
      (split_and!; [done| |done]); [by left|by right].
  - intros [?|(Hbt & x & y' & Hx & Hy & Hw)]; [by left; left|].
    apply elem_of_cons in Hy as [->|Hy].
    + left. right. split; [done|]. by exists x.
    + right. split; [done|]. by exists x, y'.
Qed.

End wall_extremes.

(** The two ends of the wall probability: at [wallPct <= 0] (the Beginner
    preset) no wall is built; at [wallPct >= 1] every edge between two cells
    of the grid that are not next to each other on the snake gets its
    wall. *)
Theorem buildShortcutWalls_extremes (rnd : Tape) (snake : list Cell)
    (wallPct : Q) (g : Game) (i : nat) :
  tapeInRange rnd →
  let r := buildShortcutWallsFromSnake rnd snake wallPct g i in
  ((wallPct <= 0)%Q → walls r.1 = ∅)
  ∧ ((1 <= wallPct)%Q →
     ∀ w, w ∈ walls r.1
          ↔ interiorEdge (COLS g) (ROWS g) w ∧ wallAllowed snake w).
Proof.
  intros Hrnd r. subst r. unfold buildShortcutWallsFromSnake. simpl. split.
  - intros Hpct. apply set_eq. intros w.
    rewrite (wallRows_const rnd snake wallPct (COLS g) (ROWS g) false).
    + simpl. split; [by intros [?|[? _]] | by left].
    + intros j. unfold randomBelow. apply negb_false_iff, Qle_bool_iff.
      destruct (Hrnd j) as [H0 _]. by apply (Qle_trans _ 0).
  - intros Hpct w.
    rewrite (wallRows_const rnd snake wallPct (COLS g) (ROWS g) true).
    + simpl. split.
      * intros [Hw|(_ & x & y & Hx & Hy & Hadd)]; [by apply elem_of_empty in Hw|].
        apply elem_of_seqZ in Hx, Hy.
        destruct Hadd as [(-> & Hlt & Hw)|(-> & Hlt & Hw)]; (split; [simpl; lia|done]).
      * intros [Hint Hw]. right. split; [done|].
        destruct w as [[x y] []]; simpl in Hint; try done;
          exists x, y; rewrite !elem_of_seqZ; (split_and!; [lia..|]);
          [left|right]; (split_and!; [done|lia|done]).
    + intros j. unfold randomBelow. apply negb_true_iff.
      destruct (Qle_bool wallPct (rnd j)) eqn:E; [|done].
      apply Qle_bool_iff in E. destruct (Hrnd j) as [_ H1].
      exfalso. apply (Qlt_irrefl 1). eapply Qle_lt_trans; [|exact H1].
      by apply (Qle_trans _ wallPct).
Qed.

Lemma buildShortcutWalls_extremes_witness :
  walls (buildShortcutWallsFromSnake tape0 (buildSnakePathBase 2 2) 0
           (mkLayout 2 2 [] ∅) 0).1 = ∅.
Proof.
  apply (buildShortcutWalls_extremes tape0 (buildSnakePathBase 2 2) 0
           (mkLayout 2 2 [] ∅) 0 tape0_inRange).
  apply Qle_refl.
Defined.

(** ** Anchors: spacing *)

Lemma forallb_false {A} (f : A → bool) (l : list A) :
  forallb f l = false → ∃ x, x ∈ l ∧ f x = false.
Proof.
  induction l as [|a l IH]; [done|]. simpl. intros H.
  apply andb_false_iff in H as [H|H].
  - exists a. split; [by left | done].
  - destruct (IH H) as (x & Hx & Hf). exists x. split; [by right | done].
Qed.

Section spacing.
Variables (Knum minGap : Z).

#[local] Abbreviation greedyStep :=
  (λ (picks : list nat) (idx : nat),
     if Z.of_nat (length picks) =? Knum then picks
     else if forallb (λ p, Z.abs (Z.of_nat p - Z.of_nat idx) >=? minGap) picks
          then picks ++ [idx] else picks).

Lemma greedy_full pool acc :
  Z.of_nat (length acc) = Knum → foldl greedyStep acc pool = acc.
Proof.
  intros Hlen. induction pool as [|idx pool IH]; simpl; [done|].
  apply Z.eqb_eq in Hlen as Hlen'. by rewrite Hlen'.
Qed.

(** The picks of the first loop are pairwise at least [minGap] apart. *)
Lemma greedy_apart pool : ∀ acc,
  (∀ a b, a ∈ acc → b ∈ acc → a ≠ b →
          minGap ≤ Z.abs (Z.of_nat a - Z.of_nat b)) →
  ∀ a b, a ∈ foldl greedyStep acc pool → b ∈ foldl greedyStep acc pool → a ≠ b →
         minGap ≤ Z.abs (Z.of_nat a - Z.of_nat b).
Proof.
  induction pool as [|idx pool IH]; intros acc Hacc; simpl; [done|].
  apply IH. destruct (_ =? Knum); [done|].
  destruct (forallb _ acc) eqn:Hall; [|done].
  rewrite forallb_forall in Hall.
  assert (Hidx : ∀ p, p ∈ acc → minGap ≤ Z.abs (Z.of_nat p - Z.of_nat idx)).
  { intros p Hp. apply list_elem_of_In in Hp. apply Hall in Hp. lia. }
  intros a b Ha Hb Hab.
  apply elem_of_app in Ha as [Ha|Ha]; apply elem_of_app in Hb as [Hb|Hb];
    rewrite ?list_elem_of_singleton in *; subst.
  - by apply Hacc.
  - by apply Hidx.
  - specialize (Hidx b Hb). lia.
  - done.
Qed.

(** When the first loop ends with fewer than [K] picks, every index of the
    pool is less than [minGap] away from a pick. *)
Lemma greedy_cover pool : ∀ acc,
  1 ≤ minGap →
  let r := foldl greedyStep acc pool in
  (∀ x, x ∈ acc → x ∈ r)
  ∧ (Z.of_nat (length r) ≠ Knum →
     ∀ idx, idx ∈ pool → ∃ p, p ∈ r ∧ Z.abs (Z.of_nat p - Z.of_nat idx) < minGap).
Proof.
  induction pool as [|idx pool IH]; intros acc Hgap; simpl.
  { split; [done|]. intros _ idx Hidx. by apply elem_of_nil in Hidx. }
  destruct (Z.eqb_spec (Z.of_nat (length acc)) Knum) as [E|E].
  { rewrite greedy_full by done. split; [done|]. by intros Hne. }
  destruct (forallb _ acc) eqn:Hall.
  - destruct (IH (acc ++ [idx]) Hgap) as [Hsub Hcov]. split.
    + intros x Hx. apply Hsub, elem_of_app. by left.
    + intros Hne i Hi. apply elem_of_cons in Hi as [->|Hi]; [|by apply Hcov].
      exists idx. split; [|lia]. apply Hsub, elem_of_app. right. by left.
  - destruct (IH acc Hgap) as [Hsub Hcov]. split; [done|].
    intros Hne i Hi. apply elem_of_cons in Hi as [->|Hi]; [|by apply Hcov].
    apply forallb_false in Hall as (p & Hp & Hlt).
    exists p. split; [by apply Hsub | lia].
Qed.

Lemma fillPicks_full pool acc :
  Knum ≤ Z.of_nat (length acc) → fillPicks Knum acc pool = acc.
Proof.
  intros Hlen. unfold fillPicks. induction pool as [|idx pool IH]; simpl; [done|].
  destruct (Z.ltb_spec (Z.of_nat (length acc)) Knum); [lia | done].
Qed.

(** Picks that leave no index further than [minGap - 1] away cover at most
    [2 * minGap - 1] indices each. *)
Lemma cover_length (len : nat) (G : list nat) :
  1 ≤ minGap →
  (∀ i, (i < len)%nat → ∃ p, p ∈ G ∧ Z.abs (Z.of_nat p - Z.of_nat i) < minGap) →
  Z.of_nat len ≤ Z.of_nat (length G) * (2 * minGap - 1).
Proof.
  intros Hgap Hcov.
  set (cover := p ← G; seqZ (Z.of_nat p - minGap + 1) (2 * minGap - 1)).
  assert (Hlen : length cover = (length G * Z.to_nat (2 * minGap - 1))%nat).
  { unfold cover. clear Hcov. induction G as [|p G IH]; [done|]. csimpl.
    rewrite length_app, length_seqZ, IH. done. }
  assert (Hsub : (Z.of_nat <$> seq 0 len) ⊆+ cover).
  { apply NoDup_submseteq.
    - apply NoDup_fmap_2; [apply _ | apply NoDup_seq].
    - intros z Hz. apply list_elem_of_fmap in Hz as (i & -> & Hi).
      apply elem_of_seq in Hi. destruct (Hcov i) as (p & Hp & Hlt); [lia|].
      unfold cover. apply list_elem_of_bind. exists p. split; [|done].
      apply elem_of_seqZ. lia. }
  apply submseteq_length in Hsub. rewrite length_fmap, length_seq, Hlen in Hsub.
  apply Nat2Z.inj_le in Hsub. rewrite Nat2Z.inj_mul, Z2Nat.id in Hsub by lia. done.
Qed.

End spacing.

(** When [(K - 1) * (2 * minGap - 1) < len], as for the Zip (12, 2) and
    Beginner (10, 2) presets on 36 cells, the spacing never falls back:
    whatever the tape, [K] indices are picked and any two of them are at
    least [minGap] apart. *)
Theorem pickIndicesWithMinGap_spaced (rnd : Tape) (len : nat)
    (Knum minGap : Z) (k : nat) :
  1 ≤ minGap → 0 ≤ Knum → (Knum - 1) * (2 * minGap - 1) < Z.of_nat len →
  let idxs := (pickIndicesWithMinGap rnd len Knum minGap k).1 in
  Z.of_nat (length idxs) = Knum
  ∧ ∀ a b, a ∈ idxs → b ∈ idxs → a ≠ b →
           minGap ≤ Z.abs (Z.of_nat a - Z.of_nat b).
Proof.
  intros Hgap HK Hlen. unfold pickIndicesWithMinGap. simpl.
  set (pool := (shufflePool rnd (seq 0 len) k).1).
  assert (Hperm : pool ≡ₚ seq 0 len) by apply shufflePool_Permutation.
  assert (Hnd : NoDup pool) by (rewrite Hperm; apply NoDup_seq).
  destruct (greedyPicks_loop_spec Knum minGap pool [] (NoDup_nil_2) Hnd)
    as (_ & _ & G3).
  { intros x Hx. by apply elem_of_nil in Hx. }
  { simpl. lia. }
  destruct (greedy_cover Knum minGap pool [] Hgap) as [_ Hcov].
  pose proof (greedy_apart Knum minGap pool []) as Hapart.
  fold (greedyPicks Knum minGap pool) in G3, Hcov, Hapart.
  assert (HG : Z.of_nat (length (greedyPicks Knum minGap pool)) = Knum).
  { destruct (decide (Z.of_nat (length (greedyPicks Knum minGap pool)) = Knum))
      as [|Hne]; [done|]. exfalso.
    assert (Hc : Z.of_nat len
                 ≤ Z.of_nat (length (greedyPicks Knum minGap pool)) * (2 * minGap - 1)).
    { apply cover_length; [done|]. intros i Hi. apply (Hcov Hne).
      rewrite Hperm. apply elem_of_seq. lia. }
    nia. }
  rewrite fillPicks_full by lia. split.
  - by rewrite merge_sort_Permutation.
  - intros a b. rewrite !merge_sort_Permutation. apply Hapart.
    intros a' b' Ha'. by apply elem_of_nil in Ha'.
Qed.

Lemma pickIndicesWithMinGap_spaced_witness :
  let idxs := (pickIndicesWithMinGap tape0 36 12 2 0).1 in
  Z.of_nat (length idxs) = 12
  ∧ ∀ a b, a ∈ idxs → b ∈ idxs → a ≠ b → 2 ≤ Z.abs (Z.of_nat a - Z.of_nat b).
Proof. apply (pickIndicesWithMinGap_spaced tape0 36 12 2 0); lia. Defined.

Lemma Sorted_seq (a n : nat) : Sorted (≤)%nat (seq a n).
Proof.
  revert a. induction n as [|n IH]; intros a; simpl; [constructor|].
  constructor; [apply IH|]. destruct n; simpl; constructor. lia.
Qed.

(** When [K] is at least the length of the path, the picks are all the
    indices [0 .. len - 1], in order, whatever the tape and the gap: there
    are [len] of them, not [K]. *)
Theorem pickIndicesWithMinGap_all (rnd : Tape) (len : nat)
    (Knum minGap : Z) (k : nat) :
  Z.of_nat len ≤ Knum →
  (pickIndicesWithMinGap rnd len Knum minGap k).1 = seq 0 len.
Proof.
  intros Hlen. unfold pickIndicesWithMinGap. simpl.
  set (pool := (shufflePool rnd (seq 0 len) k).1).
  assert (Hperm : pool ≡ₚ seq 0 len) by apply shufflePool_Permutation.
  assert (Hnd : NoDup pool) by (rewrite Hperm; apply NoDup_seq).
  assert (Hpl : length pool = len) by (by rewrite Hperm, length_seq).
  assert (HK : 0 ≤ Knum) by lia.
  destruct (greedyPicks_loop_spec Knum minGap pool [] (NoDup_nil_2) Hnd)
    as (G1 & G2 & G3).
  { intros x Hx. by apply elem_of_nil in Hx. }
  { simpl. lia. }
  fold (greedyPicks Knum minGap pool) in G1, G2, G3.
  destruct (fillPicks_loop_spec Knum pool _ G1 G3) as (F1 & F2 & F3 & _ & F5).
  set (r := fillPicks Knum (greedyPicks Knum minGap pool) pool) in *.
  assert (Hsub : ∀ x, x ∈ r → x ∈ pool).
  { intros x Hx. destruct (F2 x Hx) as [Hx'|]; [|done].
    destruct (G2 x Hx') as [Hx''|]; [|done]. by apply elem_of_nil in Hx''. }
  assert (Hp : r ≡ₚ pool).
  { destruct F5 as [F5|F5].
    - apply submseteq_length_Permutation; [by apply NoDup_submseteq | lia].
    - apply NoDup_Permutation; [done | done |]. intros x. split; [apply Hsub | apply F5]. }
  apply (Sorted_unique (≤)%nat).
  - apply Sorted_merge_sort. apply _.
  - apply Sorted_seq.
  - by rewrite merge_sort_Permutation, Hp.
Qed.

Lemma pickIndicesWithMinGap_all_witness :
  (pickIndicesWithMinGap tape0 3 5 2 0).1 = [0; 1; 2]%nat.
Proof. apply (pickIndicesWithMinGap_all tape0 3 5 2 0). lia. Defined.

(** ** The verifier is complete when the clock does not run out *)

Lemma reachExpand_spec (g : Game) (visited : gset Cell) (p : Cell)
    (ds : list (Z * Z)) : ∀ (q : list Cell) (seen : gset Cell) (count : Z),
  let '(q', seen', count') :=
    foldl (λ (st : list Cell * gset Cell * Z) (d : Z * Z),
             let '(q, seen, count) := st in
             let nx := p.1 + d.1 in
             let ny := p.2 + d.2 in
             if outOfBounds g nx ny then st
             else if blockedByWall (walls g) p.1 p.2 nx ny then st
             else if bool_decide (keyOf nx ny ∈ visited)
                     || bool_decide (keyOf nx ny ∈ seen) then st
             else (q ++ [(nx, ny)], {[keyOf nx ny]} ∪ seen, count + 1))
          (q, seen, count) ds in
  ∃ new, q' = q ++ new
    ∧ seen' = list_to_set new ∪ seen
    ∧ count' = count + Z.of_nat (length new)
    ∧ NoDup new ∧ (∀ n, n ∈ new → n ∉ seen)
    ∧ ∀ d, d ∈ ds →
        outOfBounds g (p.1 + d.1) (p.2 + d.2) = false →
        blockedByWall (walls g) p.1 p.2 (p.1 + d.1) (p.2 + d.2) = false →
        (p.1 + d.1, p.2 + d.2) ∉ visited →
        (p.1 + d.1, p.2 + d.2) ∈ seen'.
Proof.
  match goal with |- context [foldl ?f] => set (F := f) end.
  induction ds as [|d ds IH]; intros q seen count.
  { simpl. exists []. split_and!.
    - by rewrite app_nil_r.
    - by rewrite list_to_set_nil, (left_id_L ∅ (∪)).
    - simpl. lia.
    - apply NoDup_nil_2.
    - intros n Hn. by apply elem_of_nil in Hn.
    - intros d Hd. by apply elem_of_nil in Hd. }
  change (foldl F (q, seen, count) (d :: ds))
    with (foldl F (F (q, seen, count) d) ds).
  set (n := (p.1 + d.1, p.2 + d.2)).
  assert (Hcase :
    (F (q, seen, count) d = (q, seen, count)
     ∧ (outOfBounds g n.1 n.2 = true
        ∨ blockedByWall (walls g) p.1 p.2 n.1 n.2 = true
        ∨ n ∈ visited ∨ n ∈ seen))
    ∨ (F (q, seen, count) d = (q ++ [n], {[n]} ∪ seen, count + 1)
       ∧ n ∉ seen)).
  { unfold F. simpl.
    destruct (outOfBounds g (p.1 + d.1) (p.2 + d.2)) eqn:Hb; [left; by auto|].
    destruct (blockedByWall (walls g) p.1 p.2 (p.1 + d.1) (p.2 + d.2)) eqn:Hw;
      [left; by auto|].
    destruct (bool_decide_reflect (keyOf (p.1 + d.1) (p.2 + d.2) ∈ visited));
      [left; by auto|].
    destruct (bool_decide_reflect (keyOf (p.1 + d.1) (p.2 + d.2) ∈ seen));
      [left; by auto|].
    right. done. }
  destruct Hcase as [[-> Hwhy]|[-> Hs]].
  - specialize (IH q seen count).
    destruct (foldl F (q, seen, count) ds) as [[q' seen'] count'].
    destruct IH as (new & -> & -> & -> & Hnd & Hfresh & Hall).
    exists new. split_and!; try done.
    intros d' Hd' Hb Hw Hv. apply elem_of_cons in Hd' as [->|Hd']; [|by apply Hall].
    fold n in Hb, Hw, Hv |- *. simpl in Hwhy.
    destruct Hwhy as [?|[?|[?|Hs]]]; [congruence..|done|].
    apply elem_of_union. by right.
  - specialize (IH (q ++ [n]) ({[n]} ∪ seen) (count + 1)).
    destruct (foldl F _ ds) as [[q' seen'] count'].
    destruct IH as (new & -> & -> & -> & Hnd & Hfresh & Hall).
    exists (n :: new). split_and!.
    + by rewrite <- app_assoc.
    + rewrite list_to_set_cons. apply set_eq. intros x.
      rewrite !elem_of_union, elem_of_singleton. tauto.
    + simpl length. lia.
    + apply NoDup_cons. split; [|done]. intros Hn. apply (Hfresh n Hn).
      apply elem_of_union. left. by apply elem_of_singleton.
    + intros x Hx. apply elem_of_cons in Hx as [->|Hx]; [done|].
      intros Hxs. apply (Hfresh x Hx). apply elem_of_union. by right.
    + intros d' Hd' Hb' Hw' Hv'.
      apply elem_of_cons in Hd' as [->|Hd']; [|by apply Hall].
      fold n. apply elem_of_union. right. apply elem_of_union. left.
      by apply elem_of_singleton.
Qed.

Lemma scanInv_step (g : Game) (visited : gset Cell) (p : Cell)
    (q : list Cell) (seen : gset Cell) (count : Z) :
  scanInv g visited (p :: q) seen count →
  let '(q', seen', count') := reachExpand g visited p (q, seen, count) in
  scanInv g visited q' seen' count' ∧ seen ⊆ seen'.
Proof.
  intros [Hcount Hclosed]. unfold reachExpand.
  pose proof (reachExpand_spec g visited p dirs q seen count) as Hexp.
  destruct (foldl _ (q, seen, count) dirs) as [[q' seen'] count'].
  destruct Hexp as (new & -> & -> & -> & Hnd & Hfresh & Hall).
  split; [split|].
  - rewrite size_union, size_list_to_set by
      (try done; intros x Hx; rewrite elem_of_list_to_set in Hx; by apply Hfresh).
    lia.
  - intros c Hc. apply elem_of_union in Hc as [Hc|Hc].
    { left. apply elem_of_app. right. by apply elem_of_list_to_set in Hc. }
    destruct (Hclosed c Hc) as [Hq|Hcl].
    + apply elem_of_cons in Hq as [->|Hq]; [|left; apply elem_of_app; by left].
      right. intros n ((d & Hd & ->) & Hb & Hw & Hv). by apply Hall.
    + right. intros n Hn. apply elem_of_union. right. by apply Hcl.
  - apply union_subseteq_r.
Qed.

Lemma reachLoop_closed (g : Game) (visited : gset Cell) (fuel : nat) :
  ∀ (q : list Cell) (seen : gset Cell) (count cnt : Z),
  scanInv g visited q seen count →
  reachLoop fuel g visited q seen count = Some cnt →
  ∃ seenF, seen ⊆ seenF ∧ Z.of_nat (size seenF) = cnt + 1
    ∧ ∀ c, c ∈ seenF → ∀ n, eligible g visited c n → n ∈ seenF.
Proof.
  induction fuel as [|fuel IH]; intros q seen count cnt Hinv.
  - destruct q as [|p q]; [|done]. intros [= <-]. exists seen.
    destruct Hinv as [Hc Hcl]. split_and!; [done..|].
    intros c Hc'. destruct (Hcl c Hc') as [Hq|]; [by apply elem_of_nil in Hq|done].
  - destruct q as [|p q].
    { intros [= <-]. exists seen.
      destruct Hinv as [Hc Hcl]. split_and!; [done..|].
      intros c Hc'. destruct (Hcl c Hc') as [Hq|]; [by apply elem_of_nil in Hq|done]. }
    simpl. pose proof (scanInv_step g visited p q seen count Hinv) as Hstep.
    destruct (reachExpand g visited p (q, seen, count)) as [[q' seen'] count'].
    destruct Hstep as [Hinv' Hsub]. intros Hloop.
    destruct (IH q' seen' count' cnt Hinv' Hloop) as (seenF & Hsub' & Hsz & Hcl).
    exists seenF. split_and!; [by etrans|done..].
Qed.

Lemma stepOK_eligible (g : Game) (V : gset Cell) (c d : Cell) :
  stepOK g c d → d ∉ V → eligible g V c d.
Proof.
  intros (Hin & Hadj & Hw) HV. split_and!; [|by apply outOfBounds_false; destruct d|done..].
  destruct c as [x y], d as [x' y']. simpl in *. unfold dirs.
  destruct (decide (x' = x)) as [->|].
  - destruct (decide (y' = y - 1)) as [->|].
    + exists (0, -1). split; [by left|]. simpl. f_equal; lia.
    + exists (0, 1). split; [right; right; by left|]. simpl. f_equal; lia.
  - destruct (decide (x' = x + 1)) as [->|].
    + exists (1, 0). split; [right; by left|]. simpl. f_equal; lia.
    + exists (-1, 0). split; [right; right; right; by left|]. simpl. f_equal; lia.
Qed.

(** The scan does not cut a position from which the route can be
    completed. *)
Lemma canReachAllFrom_complete (g : Game) (goal_ : Cell) (V : gset Cell)
    (x y : Z) (next : option Z) (q : list Cell) :
  (x, y) ∈ V → Completes g goal_ V (x, y) next q →
  canReachAllFrom g x y V = true.
Proof.
  intros HcV (Hsteps & Hnd & Hfresh & Hsize & _).
  unfold canReachAllFrom.
  destruct (canReachAllFrom_total g x y V) as [cnt Hcnt]. rewrite Hcnt.
  destruct (reachLoop_closed g V (reachFuel g) [(x, y)] {[keyOf x y]} 0 cnt)
    as (seenF & Hsub & Hsz & Hcl); [|done|].
  { split; [by rewrite size_singleton|].
    intros c Hc. apply elem_of_singleton in Hc as ->. left. by left. }
  assert (Hwalk : ∀ (q0 : list Cell) (c : Cell),
    c ∈ seenF → validSteps g c q0 → (∀ d, d ∈ q0 → d ∉ V) →
    ∀ d, d ∈ q0 → d ∈ seenF).
  { induction q0 as [|e q0 IH]; intros c Hc Hst Hfr d Hd;
      [by apply elem_of_nil in Hd|].
    destruct Hst as [Hstep Hst].
    assert (He : e ∈ seenF).
    { apply (Hcl c Hc). apply stepOK_eligible; [done|]. apply Hfr. by left. }
    apply elem_of_cons in Hd as [->|Hd]; [done|].
    apply (IH e He Hst); [|done]. intros d' Hd'. apply Hfr. by right. }
  assert (Hq : (length q ≤ size seenF)%nat).
  { rewrite <- (size_list_to_set (C := gset Cell) q) by done.
    apply subseteq_size. intros d Hd. apply elem_of_list_to_set in Hd.
    apply (Hwalk q (x, y)); [|done..]. apply Hsub. by apply elem_of_singleton. }
  apply Z.geb_le. lia.
Qed.

Lemma neighbours_complete (g : Game) (x y : Z) (V : gset Cell) (d : Cell) :
  stepOK g (x, y) d → d ∉ V → d ∈ neighbours g x y V.
Proof.
  intros Hstep HV.
  destruct (stepOK_eligible g V (x, y) d Hstep HV) as ((dd & Hdd & ->) & Hb & Hw & _).
  unfold neighbours. apply list_elem_of_omap. exists dd. split; [done|].
  simpl in *. rewrite Hb, Hw. unfold keyOf.
  by rewrite bool_decide_eq_false_2.
Qed.

(** The first cell of a route that completes the search is not skipped,
    and the rest of the route completes the search from it. *)
Lemma Completes_uncons (g : Game) (goal_ : Cell) (V : gset Cell) (c d : Cell)
    (next : option Z) (q : list Cell) :
  Completes g goal_ V c next (d :: q) →
  let num := getCellNumber (anchorsMap g) d.1 d.2 in
  let newNext :=
    if bool_decide (num ≠ None) && bool_decide (num = next)
    then (if bool_decide (next = Some (K g)) then None
          else (λ n, n + 1) <$> next)
    else next in
  bool_decide (num ≠ None) && bool_decide (num ≠ next) = false
  ∧ stepOK g c d ∧ (d ∉ V)
  ∧ Completes g goal_ ({[d]} ∪ V) d newNext q.
Proof.
  intros ([Hstep Hsteps] & Hnd & Hfresh & Hsize & Hlast & Hok & Hnums) num newNext.
  apply NoDup_cons in Hnd as [Hdq Hnd].
  assert (HdV : d ∉ V) by (apply Hfresh; by left).
  change (numbersAlong g (d :: q))
    with (match num with
          | Some n => n :: numbersAlong g q
          | None => numbersAlong g q
          end) in Hnums.
  assert (Hcases :
    (num = None ∧ newNext = next ∧ numbersAlong g q = remainingNumbers g next)
    ∨ (∃ n, num = Some n ∧ next = Some n ∧ n ≤ K g
          ∧ newNext = (if bool_decide (n = K g) then None else Some (n + 1))
          ∧ numbersAlong g q = seqZ (n + 1) (K g - n))).
  { subst newNext. destruct num as [n|] eqn:En.
    - right. exists n. destruct next as [r|]; simpl in Hnums; [|done].
      destruct (decide (0 < K g - r + 1)) as [Hpos|Hneg].
      + rewrite seqZ_cons in Hnums by done. injection Hnums as -> Hrest.
        rewrite !bool_decide_eq_true_2 by done. simpl.
        split_and!; [done|done|lia| |].
        * repeat case_bool_decide; try done; congruence.
        * rewrite Hrest. f_equal; lia.
      + rewrite seqZ_nil in Hnums by lia. done.
    - left. rewrite bool_decide_eq_false_2 by (by intros ?). done. }
  split_and!; [|done|done|].
  { destruct Hcases as [(-> & _)|(n & -> & -> & _)].
    - by rewrite bool_decide_eq_false_2 by (by intros ?).
    - rewrite (bool_decide_eq_false_2 (Some n ≠ Some n)) by (by intros ?).
      apply andb_false_r. }
  split_and!.
  - done.
  - done.
  - intros e He HeV. apply elem_of_union in HeV as [HeV|HeV].
    + apply elem_of_singleton in HeV as ->. done.
    + apply (Hfresh e); [by right | done].
  - rewrite size_union by (by apply disjoint_singleton_l).
    rewrite size_singleton. simpl in Hsize. lia.
  - done.
  - destruct Hcases as [(_ & -> & _)|(n & _ & _ & Hle & -> & _)]; [done|].
    case_bool_decide; simpl; [done | lia].
  - destruct Hcases as [(_ & -> & ->)|(n & _ & _ & Hle & -> & ->)]; [done|].
    case_bool_decide as E; simpl.
    + subst n. by rewrite Z.sub_diag.
    + f_equal. lia.
Qed.

Section complete.
Variables (now : Clock) (sortBy : Sorter) (deadline : Q).
Variables (g : Game) (goalX goalY : Z).
Hypothesis sortBy_perm : ∀ cmp l, sortBy cmp l ≡ₚ l.
Hypothesis in_time : inTime now deadline.

Lemma notLate (s : Search) : negb (Qle_bool (now (clockReads s)) deadline) = false.
Proof. apply negb_false_iff, Qle_bool_iff, in_time. Qed.

Lemma dfsLoop_complete (rec : Z → Z → option Z → Search → option Search)
    (c : Cell) (V : gset Cell) (next : option Z) (d : Cell) (q : list Cell)
    (neigh : list Cell) :
  (∀ nb nx s1, nb ∈ neigh → found s1 = false → visitedSet s1 = {[nb]} ∪ V →
      ∃ s', rec nb.1 nb.2 nx s1 = Some s'
            ∧ Outcome g (goalX, goalY) ({[nb]} ∪ V) nb nx s') →
  (∀ nx s1, found s1 = false → visitedSet s1 = {[d]} ∪ V →
      Completes g (goalX, goalY) ({[d]} ∪ V) d nx q →
      ∃ s', rec d.1 d.2 nx s1 = Some s' ∧ found s' = true) →
  (∀ nb, nb ∈ neigh → nb ∉ V) →
  d ∈ neigh →
  Completes g (goalX, goalY) V c next (d :: q) →
  ∀ s, found s = false → visitedSet s = V →
  ∃ s', dfsLoop now deadline g rec neigh next s = Some s' ∧ found s' = true.
Proof.
  intros Hrec Hd Hfresh Hin Hcomp.
  destruct (Completes_uncons g _ V c d next q Hcomp) as (Hskip & _ & HdV & Hcomp').
  induction neigh as [|nb rest IH]; intros s Hfound HV;
    [by apply elem_of_nil in Hin|].
  simpl. rewrite Hfound.
  assert (IH' : d ∈ rest → ∀ s, found s = false → visitedSet s = V →
    ∃ s', dfsLoop now deadline g rec rest next s = Some s' ∧ found s' = true).
  { intros Hin'. apply IH; [|by intros; apply Hfresh; right|done].
    intros nb' nx s1 Hnb'. apply Hrec. by right. }
  destruct (decide (nb = d)) as [->|Hne].
  - rewrite Hskip.
    destruct (Hd (if bool_decide (getCellNumber (anchorsMap g) d.1 d.2 ≠ None)
                     && bool_decide (getCellNumber (anchorsMap g) d.1 d.2 = next)
                  then if bool_decide (next = Some (K g)) then None
                       else (λ n, n + 1) <$> next
                  else next)
                (set_visitedSet ({[keyOf d.1 d.2]} ∪ visitedSet s) s))
      as (s2 & Hs2 & Hf2); [done| |done|].
    { simpl. rewrite HV. unfold keyOf. by destruct d. }
    rewrite Hs2, Hf2. by exists s2.
  - assert (Hin' : d ∈ rest).
    { apply elem_of_cons in Hin as [->|]; done. }
    destruct (bool_decide (getCellNumber (anchorsMap g) nb.1 nb.2 ≠ None)
              && bool_decide (getCellNumber (anchorsMap g) nb.1 nb.2 ≠ next));
      [by apply IH'|].
    match goal with
    | |- context [rec nb.1 nb.2 ?nx ?s1] =>
        destruct (Hrec nb nx s1) as (s2 & Hs2 & Hout)
    end; [by left | done | |].
    { simpl. rewrite HV. unfold keyOf. by destruct nb. }
    rewrite Hs2. destruct (found s2) eqn:Hf2; [by exists s2|].
    unfold Outcome in Hout. rewrite Hf2 in Hout. simpl.
    rewrite notLate. apply IH'; [done|done|]. simpl. rewrite Hout.
    unfold keyOf. destruct nb. apply add_then_delete. apply Hfresh. by left.
Qed.

Lemma dfs_complete (fuel : nat) : ∀ (x y : Z) (next : option Z) (s : Search)
    (q : list Cell),
  found s = false → (size (gridSet g ∖ visitedSet s) < fuel)%nat →
  (x, y) ∈ visitedSet s →
  Completes g (goalX, goalY) (visitedSet s) (x, y) next q →
  ∃ s', dfs fuel now sortBy deadline g goalX goalY x y next s = Some s'
        ∧ found s' = true.
Proof.
  induction fuel as [|fuel IH]; intros x y next s q Hfound Hfuel Hc Hcomp; [lia|].
  simpl. rewrite Hfound, notLate.
  rewrite (canReachAllFrom_complete g _ _ x y next q Hc Hcomp). simpl.
  destruct q as [|d q].
  - destruct Hcomp as (_ & _ & _ & Hsize & Hlast & Hok & Hnums).
    simpl in Hsize, Hlast. injection Hlast as -> ->.
    rewrite Nat.add_0_r in Hsize. rewrite Hsize, Z.eqb_refl, !Z.eqb_refl.
    assert (next = None) as ->.
    { destruct next as [n|]; [|done]. simpl in Hnums, Hok.
      symmetry in Hnums. apply (f_equal length) in Hnums.
      rewrite length_seqZ in Hnums. simpl in Hnums. lia. }
    simpl. by eexists.
  - pose proof Hcomp as (_ & _ & _ & Hsize & _).
    destruct (Z.eqb_spec (Z.of_nat (size (visitedSet s))) (COLS g * ROWS g)) as [E|_].
    { simpl in Hsize. lia. }
    destruct (Completes_uncons g _ _ _ d next q Hcomp) as (_ & Hstep & HdV & _).
    assert (Hgrid : ∀ nb, nb ∈ neighbours g x y (visitedSet s) →
                          nb ∈ gridSet g ∧ nb ∉ visitedSet s).
    { intros nb Hnb. apply neighbours_spec in Hnb as [[Hg _] Hv].
      split; [by apply elem_of_gridSet | done]. }
    assert (Hless : ∀ nb s1, nb ∈ neighbours g x y (visitedSet s) →
      visitedSet s1 = {[nb]} ∪ visitedSet s →
      (size (gridSet g ∖ visitedSet s1) < fuel)%nat).
    { intros nb s1 Hnb ->. destruct (Hgrid nb Hnb) as [Hg Hv].
      pose proof (size_grid_remove g (visitedSet s) nb Hg Hv). lia. }
    apply (dfsLoop_complete _ (x, y) (visitedSet s) next d q); try done.
    + intros nb nx s1 Hnb Hf1 Hv1. rewrite sortBy_perm in Hnb.
      destruct (dfs_spec now sortBy deadline g goalX goalY sortBy_perm fuel
                  nb.1 nb.2 nx s1 Hf1 (Hless nb s1 Hnb Hv1)) as (s' & Hs' & Hout).
      exists s'. split; [done|]. rewrite Hv1 in Hout. by destruct nb.
    + intros nx s1 Hf1 Hv1 Hcomp1.
      destruct d as [dx dy]. apply (IH dx dy nx s1 q); [done| | |by rewrite Hv1].
      * apply (Hless (dx, dy)); [|done]. by apply neighbours_complete.
      * rewrite Hv1. apply elem_of_union. left. by apply elem_of_singleton.
    + intros nb Hnb. rewrite sortBy_perm in Hnb. by apply Hgrid.
    + rewrite sortBy_perm. by apply neighbours_complete.
Qed.

End complete.

(** With a clock that does not pass the deadline and a sorter that
    rearranges its input, [isLayoutSolvable] finds every layout that has a
    solution, provided it has a checkpoint at all: every [Solution] from the
    start to the goal makes it return [true]. *)
Theorem isLayoutSolvable_complete (now : Clock) (sortBy : Sorter) (g : Game)
    (startX startY goalX goalY timeBudgetMs : Z) (reads : nat) (p : list Cell) :
  (∀ cmp l, sortBy cmp l ≡ₚ l) →
  inTime now (now reads + inject_Z timeBudgetMs)%Q →
  anchors g ≠ [] →
  Solution g (startX, startY) (goalX, goalY) p →
  (isLayoutSolvable now sortBy g startX startY goalX goalY timeBudgetMs reads).1
  = true.
Proof.
  intros Hperm Htime Hanch (Hhead & Hlast & Hsteps & Hham & Hnums).
  destruct p as [|c q]; [done|]. injection Hhead as ->.
  assert (HK : 1 ≤ K g).
  { unfold K. destruct (anchors g); [done|]. simpl. lia. }
  rewrite mustOrder_eq in Hnums. fold (K g) in Hnums.
  unfold isLayoutSolvable.
  set (startNum := getCellNumber (anchorsMap g) startX startY) in *.
  change (numbersAlong g ((startX, startY) :: q))
    with (match startNum with
          | Some n => n :: numbersAlong g q
          | None => numbersAlong g q
          end) in Hnums.
  rewrite seqZ_cons in Hnums by lia.
  set (initialNext := if bool_decide (startNum = Some 1)
                      then if K g =? 1 then None else Some 2 else Some 1).
  assert (Hstart : bool_decide (startNum ≠ None) && bool_decide (startNum ≠ Some 1)
                   = false
                   ∧ nextOK g initialNext
                   ∧ numbersAlong g q = remainingNumbers g initialNext).
  { subst initialNext. destruct startNum as [n|].
    - injection Hnums as -> Hrest.
      rewrite (bool_decide_eq_false_2 (Some 1 ≠ Some 1)) by (by intros ?).
      rewrite andb_false_r, bool_decide_eq_true_2 by done.
      split; [done|]. destruct (Z.eqb_spec (K g) 1) as [E|E]; simpl.
      + split; [done|]. rewrite Hrest, E. done.
      + split; [lia|]. rewrite Hrest. f_equal; lia.
    - rewrite (bool_decide_eq_false_2 (None ≠ None)) by (by intros ?).
      rewrite (bool_decide_eq_false_2 (None = Some 1)) by done. simpl.
      split; [done|]. split; [lia|]. rewrite Hnums.
      replace (K g - 1 + 1) with (K g) by lia.
      by rewrite (seqZ_cons 1 (K g)) by lia. }
  destruct Hstart as (-> & Hok & Hrest).
  destruct Hham as [Hnd Hcells]. apply NoDup_cons in Hnd as [Hcq Hnd].
  destruct (dfs_complete now sortBy (now reads + inject_Z timeBudgetMs)%Q g
              goalX goalY Hperm Htime (searchFuel g) startX startY initialNext
              (mkSearch {[keyOf startX startY]} false (S reads)) q)
    as (s' & -> & Hf); simpl; [done| | | |done].
  - unfold searchFuel. rewrite <- size_gridSet.
    pose proof (size_grid_difference g {[keyOf startX startY]}). lia.
  - by apply elem_of_singleton.
  - split_and!; [|done| | |done|done|done].
    + by apply validSteps_of_lookup.
    + intros d Hd Hv. apply elem_of_singleton in Hv as ->. done.
    + rewrite size_singleton.
      pose proof (Hamiltonian_length _ _ ((startX, startY) :: q)
                    (conj (proj2 (NoDup_cons _ _) (conj Hcq Hnd)) Hcells)) as Hlen.
      assert (Hin : inGrid (COLS g) (ROWS g) (startX, startY)).
      { apply Hcells. by left. }
      unfold inGrid in Hin. simpl in Hin, Hlen.
      replace (1 + length q)%nat with (S (length q)) by lia.
      rewrite Hlen, Nat2Z.inj_mul, !Z2Nat.id by lia. done.
Qed.

Lemma layout_2x2_route :
  Solution layout_2x2 (0, 0) (0, 1) [(0, 0); (1, 0); (1, 1); (0, 1)].
Proof.
  split_and!; [done | done | | | done].
  - intros [|[|[|i]]] a b Ha Hb; simpl in *; try discriminate;
      injection Ha as <-; injection Hb as <-; split_and!; by vm_compute.
  - apply Hamiltonian_of_length; [by apply (bool_decide_unpack _) | |simpl; lia].
    intros c Hc. repeat (apply elem_of_cons in Hc as [->|Hc]; [by vm_compute|]).
    by apply elem_of_nil in Hc.
Qed.

Lemma isLayoutSolvable_complete_witness :
  (isLayoutSolvable clock0 insertionSort layout_2x2 0 0 0 1 400 0).1 = true.
Proof.
  apply (isLayoutSolvable_complete clock0 insertionSort layout_2x2 0 0 0 1 400 0
           [(0, 0); (1, 0); (1, 1); (0, 1)]).
  - apply insertionSort_Permutation.
  - intros i. by vm_compute.
  - done.
  - apply layout_2x2_route.
Defined.

(** ** Restart *)

Lemma moveWith_layout (wa : Game → bool) (dir : Dir) (g g' : Game) :
  moveWith wa dir g = Some g' → sameLayout g g'.
Proof.
  intros Hm. apply moveWith_cases in Hm as [[m ->]|[Hback|Hfwd]].
  - done.
  - by destruct Hback as (_ & _ & _ & pre & cur & _ & ->).
  - destruct Hfwd as (_ & _ & _ & _ & finalA & _ & ->).
    destruct (forwardStep_fields g (stepTarget dir g).1 (stepTarget dir g).2)
      as (_ & _ & _ & _ & Hlay).
    by destruct (_ && _).
Qed.

Lemma play_layout (wa : Game → bool) (ds : list Dir) (g g' : Game) :
  play (moveWith wa) ds g = Some g' → sameLayout g g'.
Proof.
  revert g. induction ds as [|d ds IH]; intros g; simpl.
  { by intros [= <-]. }
  destruct (moveWith wa d g) as [g1|] eqn:Hm; [|done]. intros Hplay.
  eapply sameLayout_trans; [by eapply moveWith_layout | by apply IH].
Qed.

(** Restart undoes play: whatever keys were pressed since the layout was
    saved, in either build, the Restart button brings back the game as it
    was saved, the status line apart. *)
Theorem restart_restores (mv : Dir → Game → option Game) (ds : list Dir)
    (g g1 : Game) :
  mv = move ∨ mv = Public.move →
  freshlySaved g → play mv ds g = Some g1 →
  restart g1 = (tell (status g1) g, MsgRestarted).
Proof.
  intros Hmv (Hsv & Htr & Hvis & Hover & Hst & Hmap) Hplay.
  assert (Hlay : sameLayout g g1).
  { destruct Hmv as [-> | ->]; by eapply play_layout. }
  destruct Hlay as (_ & _ & _ & _ & _ & _ & Hs).
  unfold restart. rewrite Hs. clear Hplay Hs.
  destruct g as [cols rows [px py] gl tr vis anch am ws st ov sv msg].
  unfold snapshot in Hsv. simpl in *. subst. done.
Qed.

Lemma restart_restores_witness :
  ∃ g1, play move [Right; Down] (set_savedLayout game_2x2_start) = Some g1
        ∧ trail g1 = [(0, 0); (1, 0); (1, 1)]
        ∧ restart g1 = (tell (status g1) (set_savedLayout game_2x2_start),
                        MsgRestarted).
Proof.
  eexists. split; [vm_compute; reflexivity|]. split; [reflexivity|].
  apply (restart_restores move [Right; Down] (set_savedLayout game_2x2_start) _
           (or_introl eq_refl)).
  - by split_and!.
  - vm_compute. reflexivity.
Defined.

(** ** Generated layouts *)

(** A positive answer of the verifier comes with a route. *)
Lemma isLayoutSolvable_route (now : Clock) (sortBy : Sorter) (g : Game)
    (startX startY goalX goalY timeBudgetMs : Z) (reads : nat) :
  (∀ cmp l, sortBy cmp l ≡ₚ l) →
  inGrid (COLS g) (ROWS g) (startX, startY) →
  (isLayoutSolvable now sortBy g startX startY goalX goalY timeBudgetMs reads).1 = true →
  ∃ p, Solution g (startX, startY) (goalX, goalY) p.
Proof.
  intros Hperm Hstart. unfold isLayoutSolvable.
  set (startNum := getCellNumber (anchorsMap g) startX startY).
  destruct (bool_decide (startNum ≠ None) && bool_decide (startNum ≠ Some 1)) eqn:Hguard;
    [done|].
  set (deadline := (now reads + inject_Z timeBudgetMs)%Q).
  set (initialNext := if bool_decide (startNum = Some 1)
                      then if K g =? 1 then None else Some 2 else Some 1).
  destruct (dfs_spec now sortBy deadline g goalX goalY Hperm (searchFuel g)
              startX startY initialNext
              (mkSearch {[keyOf startX startY]} false (S reads)))
    as (s' & Hs' & Hout); [done | |].
  { simpl. unfold searchFuel. rewrite <- size_gridSet.
    pose proof (size_grid_difference g {[keyOf startX startY]}). lia. }
  rewrite Hs'. simpl. intros Hfound. unfold Outcome in Hout. rewrite Hfound in Hout.
  destruct Hout as (q & Hsteps & Hnd & Hfresh & Hsize & Hlast & Hok & Hnums).
  cbn [visitedSet] in Hfresh, Hsize. rewrite size_singleton in Hsize.
  exists ((startX, startY) :: q). split_and!.
  - done.
  - done.
  - by apply validSteps_lookup.
  - apply Hamiltonian_of_length.
    + apply NoDup_cons. split; [|done]. intros Hin. apply (Hfresh _ Hin).
      unfold keyOf. by apply elem_of_singleton.
    + intros d [->|Hd]%elem_of_cons; [done | by eapply validSteps_inGrid].
    + simpl. unfold inGrid in Hstart. simpl in Hstart. nia.
  - rewrite mustOrder_eq. fold (K g).
    change (numbersAlong g ((startX, startY) :: q))
      with (match startNum with
            | Some n => n :: numbersAlong g q
            | None => numbersAlong g q
            end).
    rewrite Hnums. unfold initialNext in *. apply andb_false_iff in Hguard.
    destruct startNum as [n|].
    + assert (n = 1) as ->.
      { destruct Hguard as [Hg|Hg]; apply bool_decide_eq_false in Hg.
        - exfalso. by apply Hg.
        - destruct (decide (n = 1)); [done|]. exfalso. apply Hg. congruence. }
      rewrite bool_decide_eq_true_2 in * by done.
      destruct (Z.eqb_spec (K g) 1) as [->|HK]; simpl in *; [done|].
      rewrite (seqZ_cons 1) by lia. f_equal. f_equal; lia.
    + rewrite bool_decide_eq_false_2 in * by done. simpl. f_equal. lia.
Qed.

(** The placement loop on a path long enough: it does not throw, and the
    anchors are on distinct cells of the path, numbered [1..K]. *)
Lemma placement_valid (rnd : Tape) (snake : list Cell) (n : nat)
    (minGap : Z) (k : nat) :
  tapeInRange rnd → NoDup snake → (1 ≤ n ≤ length snake)%nat →
  let Knum := Z.of_nat n in
  let picked := pickIndicesWithMinGap rnd (length snake) Knum minGap k in
  let shift := randomInt rnd picked.2 Knum in
  ∃ anchors,
    placeAnchors snake picked.1 shift Knum (seqZ 0 Knum) ([], ∅)
      = (anchors, anchorsMapOf anchors, true)
    ∧ an <$> anchors ≡ₚ mustOrder n
    ∧ NoDup ((λ a, (ax a, ay a)) <$> anchors)
    ∧ ∀ a, a ∈ anchors → (ax a, ay a) ∈ snake.
Proof.
  intros Hrnd Hnd Hn Knum picked shift. set (idxs := picked.1).
  destruct (pickIndicesWithMinGap_spec rnd (length snake) Knum minGap k)
    as (Hlen & Hndi & Hsorted & Hrange); [unfold Knum; lia|].
  fold picked in Hlen, Hndi, Hsorted, Hrange. fold idxs in Hlen, Hndi, Hsorted, Hrange.
  assert (Hshift : 0 ≤ shift < Knum).
  { apply randomInt_range; [done | unfold Knum; lia]. }
  assert (Hat : ∀ j : nat, (j < n)%nat →
    ∃ idx c, idxs !! j = Some idx ∧ snake !! idx = Some c
      ∧ anchorAt snake idxs shift Knum (Z.of_nat j)
        = Some (mkAnchor c.1 c.2 (anchorNumber (Z.of_nat j) shift Knum))).
  { intros j Hj. destruct (lookup_lt_is_Some_2 idxs j) as [idx Hidx];
      [unfold Knum in Hlen; lia|].
    destruct (lookup_lt_is_Some_2 snake idx) as [c Hc].
    { apply Hrange. by eapply list_elem_of_lookup_2. }
    exists idx, c. split_and!; [done..|].
    unfold anchorAt. rewrite Nat2Z.id, Hidx. simpl. by rewrite Hc. }
  assert (Hmap : ∃ l, mapM (anchorAt snake idxs shift Knum) (seqZ 0 Knum) = Some l).
  { apply mapM_is_Some, Forall_forall. intros j Hj%elem_of_seqZ.
    destruct (Hat (Z.to_nat j)) as (idx & c & _ & _ & Ha); [unfold Knum in Hj; lia|].
    rewrite Z2Nat.id in Ha by lia. simpl. by rewrite Ha. }
  destruct Hmap as [l Hl]. exists l.
  rewrite (placeAnchors_ok _ _ _ _ _ _ l Hl). simpl.
  pose proof (length_mapM _ _ _ Hl) as Hll. rewrite length_seqZ in Hll.
  assert (Hlk : ∀ (j : nat) a, l !! j = Some a →
    ∃ idx, idxs !! j = Some idx ∧ snake !! idx = Some (ax a, ay a)
           ∧ an a = anchorNumber (Z.of_nat j) shift Knum).
  { intros j a Hja. pose proof (lookup_lt_Some _ _ _ Hja) as Hjl.
    apply mapM_Some_1 in Hl.
    destruct (Forall2_lookup_r _ _ _ _ _ Hl Hja) as (z & Hz & Haz).
    apply lookup_seqZ in Hz as [-> _]. rewrite Z.add_0_l in Haz.
    destruct (Hat j) as (idx & c & Hidx & Hc & Ha); [unfold Knum in *; lia|].
    rewrite Ha in Haz. injection Haz as <-. exists idx. simpl.
    split_and!; [done | by destruct c | done]. }
  split_and!; [done | | |].
  - rewrite <- (anchorNumbers_Permutation shift n) by done.
    fold Knum. apply mapM_Some_1 in Hl.
    assert (Heq : an <$> l = (λ j, anchorNumber j shift Knum) <$> seqZ 0 Knum).
    { clear -Hl. induction Hl as [|j a js l Hja _ IH]; [done|]. csimpl.
      rewrite IH. f_equal. unfold anchorAt in Hja.
      destruct (idxs !! Z.to_nat j ≫= (snake !!.)); simplify_eq/=. done. }
    by rewrite Heq.
  - apply NoDup_alt. intros j1 j2 c. rewrite !list_lookup_fmap.
    destruct (l !! j1) as [a1|] eqn:H1; [|done].
    destruct (l !! j2) as [a2|] eqn:H2; [|done]. simpl. intros [= <-] [= Hx Hy].
    destruct (Hlk j1 a1 H1) as (i1 & Hi1 & Hs1 & _).
    destruct (Hlk j2 a2 H2) as (i2 & Hi2 & Hs2 & _).
    rewrite Hx, Hy in Hs2.
    assert (i1 = i2) as -> by (by eapply (NoDup_lookup snake)).
    by eapply (NoDup_lookup idxs).
  - intros a Ha. apply list_elem_of_lookup in Ha as [j Hj].
    destruct (Hlk j a Hj) as (idx & _ & Hs & _). by eapply list_elem_of_lookup_2.
Qed.

Lemma find_number (l : list Anchor) (n : nat) (m : Z) :
  an <$> l ≡ₚ mustOrder n → 1 ≤ m ≤ Z.of_nat n →
  ∃ a, find (λ a, an a =? m) l = Some a ∧ a ∈ l ∧ an a = m.
Proof.
  intros Hperm Hm.
  assert (Hin : m ∈ an <$> l).
  { rewrite Hperm, mustOrder_eq. apply elem_of_seqZ. lia. }
  apply list_elem_of_fmap in Hin as (a & -> & Ha). clear Hperm Hm.
  induction l as [|b l IH]; [by apply elem_of_nil in Ha|]. simpl.
  destruct (Z.eqb_spec (an b) (an a)) as [E|E].
  - exists b. split_and!; [done | by left | done].
  - apply elem_of_cons in Ha as [->|Ha]; [done|].
    destruct (IH Ha) as (a' & Hf & Hin & Hn). exists a'.
    split_and!; [done | by right | done].
Qed.

Lemma attemptOnce_fresh rnd now sortBy env gen withWalls def attempt w snake i c :
  tapeInRange rnd →
  gen (d_cols def) (d_rows def) (rndReads w) (nowReads w) = Some (snake, i, c) →
  Hamiltonian (d_cols def) (d_rows def) snake →
  1 ≤ d_K def ≤ Z.of_nat (length snake) →
  ∃ g i' c0,
    FreshLayout (d_cols def) (d_rows def) (d_K def) snake g
    ∧ savedLayout g = savedLayout (game w)
    ∧ (withWalls = false → walls g = ∅)
    ∧ status g = MsgSearching attempt
    ∧ attemptOnce rnd now sortBy env gen withWalls def attempt w
      = let w1 := env (BeforeCheck attempt) (mkWorld g i' c0) in
        checkCandidate now sortBy env attempt
                       (game w1) (rndReads w1) (nowReads w1).
Proof.
  intros Hrnd Hgen Hham HK.
  pose proof (placement_valid rnd snake (Z.to_nat (d_K def)) (d_minGap def) i
                Hrnd (proj1 Hham) ltac:(lia)) as Hpl.
  cbv zeta in Hpl. rewrite Z2Nat.id in Hpl by lia.
  destruct Hpl as (anch & Hplace & Hnums & Hcells & Hon).
  destruct (find_number anch (Z.to_nat (d_K def)) 1 Hnums ltac:(lia))
    as (a1 & Hf1 & Hin1 & Hn1).
  destruct (find_number anch (Z.to_nat (d_K def)) (d_K def) Hnums ltac:(lia))
    as (aK & HfK & HinK & HnK).
  unfold attemptOnce. rewrite Hgen, Hplace. cbn [negb fst snd].
  set (g2 := set_anchors anch (anchorsMapOf anch)
               (set_walls ∅ (set_anchors [] ∅
                  (buildGrid (d_cols def) (d_rows def) (game w))))).
  assert (Hwalls : ∃ ws iW,
    (if withWalls
     then buildShortcutWallsFromSnake rnd snake (d_wallPct def) g2
            (S (pickIndicesWithMinGap rnd (length snake) (d_K def)
                  (d_minGap def) i).2)
     else (g2, S (pickIndicesWithMinGap rnd (length snake) (d_K def)
                    (d_minGap def) i).2))
    = (set_walls ws g2, iW) ∧ (withWalls = false → ws = ∅)).
  { destruct withWalls.
    - eexists _, _. split; [reflexivity | done].
    - exists ∅, (S (pickIndicesWithMinGap rnd (length snake) (d_K def)
                      (d_minGap def) i).2). done. }
  destruct Hwalls as (ws & iW & -> & Hws).
  cbn [anchors set_walls set_player g2 set_anchors]. rewrite Hf1.
  cbn [anchors set_walls set_player g2 set_anchors]. rewrite HfK.
  eexists _, _, _. split_and!; [| | | |reflexivity].
  - split; try done.
    + by exists a1.
    + by exists aK.
  - done.
  - done.
  - done.
Qed.


Lemma checkCandidate_cases now sortBy env attempt g i c :
  ∃ w' v,
    checkCandidate now sortBy env attempt g i c = (w', Some v)
    ∧ (v = true →
       game w' = g
       ∧ (isLayoutSolvable now sortBy g (player g).1 (player g).2
            (goal g).1 (goal g).2 400 c).1 = true).
Proof.
  unfold checkCandidate.
  destruct (isLayoutSolvable now sortBy g _ _ _ _ 400 c) as [[] c1]; simpl.
  - destruct (isLayoutSolvable now sortBy g _ _ _ _ 2000 c1) as [[] c2].
    + by eexists _, true.
    + by eexists _, false.
  - by eexists _, false.
Qed.

Lemma FreshLayout_tell cols rows Knum snake m g :
  FreshLayout cols rows Knum snake g → FreshLayout cols rows Knum snake (tell m g).
Proof. intros []. by split. Qed.

Lemma FreshLayout_K cols rows Knum snake g :
  0 ≤ Knum → FreshLayout cols rows Knum snake g → K g = Knum.
Proof.
  intros HK Hf. pose proof (fresh_numbers _ _ _ _ _ Hf) as Hn.
  apply Permutation_length in Hn. rewrite length_fmap, length_mustOrder in Hn.
  unfold K. lia.
Qed.

Section attempts.
Variables (rnd : Tape) (now : Clock) (sortBy : Sorter) (env : Yield).
Variables (gen : SnakeGen) (withWalls : bool) (def : LevelDef).
Hypothesis rnd_range : tapeInRange rnd.
Hypothesis gen_good : goodGen gen (d_cols def) (d_rows def).
Hypothesis def_valid : ¬ invalidConfig def.

Lemma valid_bounds (snake : list Cell) :
  Hamiltonian (d_cols def) (d_rows def) snake →
  1 ≤ d_K def ≤ Z.of_nat (length snake)
  ∧ Z.of_nat (length snake) = d_cols def * d_rows def
  ∧ 0 < d_cols def ∧ 0 < d_rows def.
Proof.
  intros Hham. apply Hamiltonian_length in Hham. unfold invalidConfig in def_valid.
  assert (0 < d_cols def ∧ 0 < d_rows def ∧ 1 ≤ d_K def
          ∧ d_K def ≤ d_cols def * d_rows def) as (Hc & Hr & H1 & H2) by lia.
  rewrite Hham, Nat2Z.inj_mul, !Z2Nat.id by lia. lia.
Qed.

(** An attempt on a valid configuration runs to its verdict; when no
    handler changed the globals while it waited before its checks, a
    candidate that passes is left as the attempt built it. *)
Lemma attemptOnce_verdict (attempt : nat) (w : World) :
  ∃ snake g w' v,
    attemptOnce rnd now sortBy env gen withWalls def attempt w = (w', Some v)
    ∧ Hamiltonian (d_cols def) (d_rows def) snake
    ∧ FreshLayout (d_cols def) (d_rows def) (d_K def) snake g
    ∧ savedLayout g = savedLayout (game w)
    ∧ (withWalls = false → walls g = ∅)
    ∧ (v = true → undisturbed env (BeforeCheck attempt) →
       game w' = g
       ∧ ∃ c0, (isLayoutSolvable now sortBy g (player g).1 (player g).2
                  (goal g).1 (goal g).2 400 c0).1 = true).
Proof.
  destruct (gen_good (rndReads w) (nowReads w)) as (snake & i & c & Hgen & Hham).
  destruct (valid_bounds snake Hham) as (HK & _).
  destruct (attemptOnce_fresh rnd now sortBy env gen withWalls def attempt w snake i c
              rnd_range Hgen Hham HK) as (g & i' & c0 & Hfresh & Hsv & Hws & _ & ->).
  cbv zeta.
  set (w1 := env (BeforeCheck attempt) (mkWorld g i' c0)).
  destruct (checkCandidate_cases now sortBy env attempt
              (game w1) (rndReads w1) (nowReads w1)) as (w' & v & -> & Hv).
  exists snake, g, w', v. split_and!; try done.
  intros Hvt Hcalm. destruct (Hv Hvt) as [Hg Hq].
  assert (Hw1 : game w1 = g) by apply Hcalm.
  rewrite Hw1 in Hg, Hq. split; [done|]. by eexists.
Qed.

Lemma attemptLoop_valid (left_ : nat) : ∀ (attempt : nat)
    (log : list (option bool)) (w : World),
  let r := attemptLoop rnd now sortBy env gen withWalls def left_ attempt log w in
  ending r ≠ Threw
  ∧ (∀ v, v ∈ verdicts r → v ∈ log ∨ v ≠ None)
  ∧ (ending r = Solved → (∀ n, undisturbed env (BeforeCheck n)) →
     ∃ snake g,
       Hamiltonian (d_cols def) (d_rows def) snake
       ∧ FreshLayout (d_cols def) (d_rows def) (d_K def) snake g
       ∧ (withWalls = false → walls g = ∅)
       ∧ game (world r) = tell MsgNewLayout (set_savedLayout g)
       ∧ ∃ c0, (isLayoutSolvable now sortBy g (player g).1 (player g).2
                  (goal g).1 (goal g).2 400 c0).1 = true).
Proof.
  induction left_ as [|left' IH]; intros attempt log w; simpl.
  { split_and!; [done | by left | done]. }
  destruct (attemptOnce_verdict (S attempt) w)
    as (snake & g & w' & v & -> & Hham & Hfresh & Hsv & Hws & Hv).
  destruct v.
  - simpl. split_and!; [done| |].
    + intros v Hv'. apply elem_of_app in Hv' as [?|Hv']; [by left|right].
      by apply list_elem_of_singleton in Hv' as ->.
    + intros _ Hcalm. destruct (Hv eq_refl (Hcalm _)) as [-> Hq]. by exists snake, g.
  - destruct (IH (S attempt) (log ++ [Some false]) w') as (H1 & H2 & H3).
    split_and!; [done| |done].
    intros v Hv'. destruct (H2 v Hv') as [Hl|?]; [|by right].
    apply elem_of_app in Hl as [?|Hl]; [by left|right].
    by apply list_elem_of_singleton in Hl as ->.
Qed.

End attempts.

Lemma goodGen_serpentine (rnd : Tape) (n : Z) :
  goodGen (buildRandomSnakePath rnd Serpentine) n n.
Proof.
  intros i c. unfold buildRandomSnakePath.
  pose proof (transformSnake_square rnd n (templatePath Serpentine n n) i
                (buildSnakePathBase_Hamiltonian n n)) as Ht.
  destruct (transformSnake rnd n n (templatePath Serpentine n n) i) as [snake i'].
  by exists snake, i', c.
Qed.

(** The other side of C6: on a configuration that is not invalid, with a
    tape in [0, 1) and a path generator that returns Hamiltonian paths, no
    attempt throws; a request ends as solved or as exhausted, every attempt
    having run to its verdict.  The fixed configuration of the Zip
    generator is such a configuration. *)
Theorem generation_valid_config (rnd : Tape) (now : Clock) (sortBy : Sorter)
    (env : Yield) (gen : SnakeGen) (def : LevelDef) (w : World) :
  tapeInRange rnd →
  (¬ invalidConfig def → goodGen gen (d_cols def) (d_rows def) →
   let r := generateLevel rnd now sortBy env gen def w in
   ending r ≠ Threw ∧ ∀ v, v ∈ verdicts r → v ≠ None)
  ∧ (goodGen gen 6 6 →
     let r := generateZip6x6 rnd now sortBy env gen w in
     ending r ≠ Threw ∧ ∀ v, v ∈ verdicts r → v ≠ None).
Proof.
  intros Hrnd. split.
  - intros Hvalid Hgen.
    destruct (attemptLoop_valid rnd now sortBy env gen true def Hrnd Hgen Hvalid
                MAX_ATTEMPTS 0 [] w) as (H1 & H2 & _).
    split; [done|]. intros v Hv. destruct (H2 v Hv) as [Hn|]; [|done].
    by apply elem_of_nil in Hn.
  - intros Hgen.
    assert (Hzip : ¬ invalidConfig zipDef).
    { unfold invalidConfig, zipDef. cbn [d_K d_cols d_rows]. lia. }
    destruct (attemptLoop_valid rnd now sortBy env gen false zipDef Hrnd Hgen Hzip
                MAX_ATTEMPTS 0 [] w) as (H1 & H2 & _).
    split; [done|]. intros v Hv. destruct (H2 v Hv) as [Hn|]; [|done].
    by apply elem_of_nil in Hn.
Qed.

Lemma generation_valid_config_witness :
  ending (generateZip6x6 tape0 clock0 insertionSort noEvents
            (buildRandomSnakePath tape0 Serpentine) world0) ≠ Threw.
Proof.
  apply (generation_valid_config tape0 clock0 insertionSort noEvents
           (buildRandomSnakePath tape0 Serpentine) zipDef world0 tape0_inRange).
  apply goodGen_serpentine.
Defined.

Section saved.
Variables (rnd : Tape) (now : Clock) (sortBy : Sorter) (env : Yield).
Variables (gen : SnakeGen) (withWalls : bool) (def : LevelDef) (w : World).
Hypothesis rnd_range : tapeInRange rnd.
Hypothesis sortBy_perm : ∀ cmp l, sortBy cmp l ≡ₚ l.
Hypothesis gen_good : goodGen gen (d_cols def) (d_rows def).
Hypothesis def_valid : ¬ invalidConfig def.
Hypothesis env_calm : ∀ n, undisturbed env (BeforeCheck n).

Lemma attemptLoop_saved :
  let r := attemptLoop rnd now sortBy env gen withWalls def MAX_ATTEMPTS 0 [] w in
  ending r = Solved →
  let g := game (world r) in
  freshlySaved g
  ∧ (∃ snake, Hamiltonian (d_cols def) (d_rows def) snake
        ∧ FreshLayout (d_cols def) (d_rows def) (d_K def) snake g)
  ∧ (∃ p, Solution g (player g) (goal g) p)
  ∧ (2 ≤ d_cols def * d_rows def →
     ∃ ds g', play move ds g = Some g' ∧ gameOver g' = true).
Proof.
  intros r Hsolved g.
  destruct (attemptLoop_valid rnd now sortBy env gen withWalls def rnd_range gen_good
              def_valid MAX_ATTEMPTS 0 [] w) as (_ & _ & Hs).
  destruct (Hs Hsolved env_calm) as (snake & g0 & Hham & Hfresh & _ & Hg & c0 & Hq).
  fold r in Hg. fold g in Hg. clearbody g. subst g. clear Hs Hsolved r.
  destruct (valid_bounds def def_valid snake Hham) as (HK & Hlen & Hc & Hr).
  assert (HKg : K g0 = d_K def) by (eapply FreshLayout_K; [|done]; lia).
  pose proof Hfresh as [Hcols Hrows Hmap Hnums Hcells Hon (a1 & Hf1 & Hp1)
                         (aK & HfK & HgK) Htr Hvis Hov Hst].
  assert (Hin : inGrid (COLS g0) (ROWS g0) (player g0)).
  { rewrite Hcols, Hrows, Hp1. apply Hham, Hon.
    apply find_some in Hf1 as [Hf1 _]. by apply list_elem_of_In. }
  assert (Hsol : ∃ p, Solution g0 (player g0) (goal g0) p).
  { destruct (player g0) as [px py], (goal g0) as [gx gy].
    by apply (isLayoutSolvable_route now sortBy g0 px py gx gy 400 c0). }
  split_and!.
  - by split_and!.
  - exists snake. split; [done|]. by split; [..|exists a1|exists aK| | | |].
  - done.
  - intros Hbig. destruct Hsol as [p Hsol].
    pose proof Hsol as (Hhead & _ & _ & Hp & _).
    destruct p as [|s q]; [done|]. injection Hhead as ->.
    assert (Hq' : q ≠ []).
    { intros ->. apply Hamiltonian_length in Hp. simpl in Hp.
      rewrite Hcols, Hrows in Hp. nia. }
    rewrite HgK in Hsol.
    destruct (solution_playable move
                (tell MsgNewLayout (set_savedLayout g0)) q aK (or_introl eq_refl))
      as (g' & Hplay & Hover & _); [by split_and!| |done|done|].
    { unfold K in *. simpl. by rewrite HKg. }
    by exists (keysAlong (player g0) q), g'.
Qed.

End saved.

(** A layout that generation saves can be won, as long as no handler
    changes the globals while an attempt waits between installing its
    candidate and checking it (what happens at the other yield points is
    left open): when a request of either generator then ends as solved,
    the game it leaves is freshly saved, its anchors lie on distinct cells
    and bear the numbers [1..K], the player stands on number 1 with nothing
    walked, there is a solution from the player to the goal, and (on a grid
    of two cells or more) there are keys that lead to a finished game. *)
Theorem generated_layout_winnable (rnd : Tape) (now : Clock) (sortBy : Sorter)
    (env : Yield) (gen : SnakeGen) (def : LevelDef) (w : World)
    (r : Generated) :
  tapeInRange rnd → (∀ cmp l, sortBy cmp l ≡ₚ l) →
  goodGen gen (d_cols def) (d_rows def) → ¬ invalidConfig def →
  (∀ n, undisturbed env (BeforeCheck n)) →
  r = generateLevel rnd now sortBy env gen def w
  ∨ (def = zipDef ∧ r = generateZip6x6 rnd now sortBy env gen w) →
  ending r = Solved →
  let g := game (world r) in
  freshlySaved g
  ∧ (∃ snake, Hamiltonian (d_cols def) (d_rows def) snake
        ∧ FreshLayout (d_cols def) (d_rows def) (d_K def) snake g)
  ∧ (∃ p, Solution g (player g) (goal g) p)
  ∧ (2 ≤ d_cols def * d_rows def →
     ∃ ds g', play move ds g = Some g' ∧ gameOver g' = true).
Proof.
  intros Hrnd Hperm Hgen Hvalid Hcalm [-> | [-> ->]].
  - by apply attemptLoop_saved.
  - by apply (attemptLoop_saved rnd now sortBy env gen false zipDef).
Qed.

Lemma generated_layout_winnable_witness :
  let r := generateLevel tape0 clock0 insertionSort noEvents
             (buildRandomSnakePath tape0 Serpentine) (mkDef 2 2 2 1 0) world0 in
  ∃ ds g', play move ds (game (world r)) = Some g' ∧ gameOver g' = true.
Proof.
  intros r.
  destruct (generated_layout_winnable tape0 clock0 insertionSort noEvents
              (buildRandomSnakePath tape0 Serpentine) (mkDef 2 2 2 1 0) world0 r
              tape0_inRange insertionSort_Permutation (goodGen_serpentine tape0 2))
    as (_ & _ & _ & Hwin).
  - unfold invalidConfig. cbn [d_K d_cols d_rows]. lia.
  - by intros n w.
  - by left.
  - by vm_compute.
  - apply Hwin. cbn [d_cols d_rows]. lia.
Defined.

(** ** The backstop, both ways *)

Lemma fill_loop_idle (base acc : list Cell) :
  (∀ c, c ∈ base → c ∈ acc) →
  foldl (λ acc (p : Cell),
           if existsb (cellEq p.1 p.2) acc then acc else acc ++ [p])
        acc base = acc.
Proof.
  induction base as [|p base IH]; intros Hin; simpl; [done|].
  assert (Hex : existsb (cellEq p.1 p.2) acc = true).
  { apply existsb_exists. exists p. split.
    - apply list_elem_of_In, Hin, list_elem_of_here.
    - unfold cellEq. by rewrite !Z.eqb_refl. }
  rewrite Hex. apply IH. intros c Hc. apply Hin. by apply list_elem_of_further.
Qed.

Lemma fillMissing_Hamiltonian_iff cols rows path :
  Hamiltonian cols rows (fillMissing cols rows path)
  ↔ NoDup path ∧ ∀ c, c ∈ path → inGrid cols rows c.
Proof.
  split; [|intros [? ?]; by apply fillMissing_Hamiltonian].
  destruct (fillMissing_keeps_prefix cols rows path) as [rest ->].
  intros [Hnd Hin]. split.
  - by apply NoDup_app in Hnd as (? & _ & _).
  - intros c Hc. apply Hin, elem_of_app. by left.
Qed.

(** The backstop only appends; what it returns is Hamiltonian exactly when
    what it was given has no duplicate and no cell off the grid; and it
    leaves a Hamiltonian path alone. *)
Theorem fillMissing_backstop cols rows path :
  (∃ rest, fillMissing cols rows path = path ++ rest)
  ∧ (Hamiltonian cols rows (fillMissing cols rows path)
     ↔ NoDup path ∧ ∀ c, c ∈ path → inGrid cols rows c)
  ∧ (Hamiltonian cols rows path → fillMissing cols rows path = path).
Proof.
  split_and!.
  - apply fillMissing_keeps_prefix.
  - apply fillMissing_Hamiltonian_iff.
  - intros [Hnd Hin]. unfold fillMissing. destruct (_ =? _); [done|].
    apply fill_loop_idle. intros c Hc. apply Hin.
    by apply (buildSnakePathBase_Hamiltonian cols rows).
Qed.

(** ** Contiguous paths *)

Ltac parity z :=
  pose proof (Z.div_mod z 2 ltac:(lia));
  pose proof (Z.mod_pos_bound z 2 ltac:(lia)).

Lemma contiguous_nil : contiguous [].
Proof. intros i a b Ha. by rewrite lookup_nil in Ha. Qed.

Lemma contiguous_reverse p : contiguous p → contiguous (reverse p).
Proof.
  intros Hp i a b Ha Hb.
  assert (Hi : (S i < length p)%nat).
  { apply lookup_lt_Some in Hb. by rewrite length_reverse in Hb. }
  rewrite reverse_lookup in Ha by lia. rewrite reverse_lookup in Hb by lia.
  replace (length p - S i)%nat with (S (length p - S (S i))) in Ha by lia.
  specialize (Hp _ _ _ Hb Ha). lia.
Qed.

Lemma contiguous_app p q :
  contiguous p → contiguous q →
  (∀ a b, last p = Some a → head q = Some b →
     Z.abs (b.1 - a.1) + Z.abs (b.2 - a.2) = 1) →
  contiguous (p ++ q).
Proof.
  intros Hp Hq Hpq i a b Ha Hb.
  destruct (decide (S i < length p)%nat) as [Hlt|Hge].
  - rewrite lookup_app_l in Ha, Hb by lia. by apply (Hp i).
  - destruct (decide (S i = length p)) as [Heq|Hne].
    + rewrite lookup_app_l in Ha by lia. rewrite lookup_app_r in Hb by lia.
      apply Hpq.
      * rewrite last_lookup. by replace (pred (length p)) with i by lia.
      * rewrite head_lookup. by replace (S i - length p)%nat with 0%nat in Hb by lia.
    + rewrite lookup_app_r in Ha, Hb by lia.
      replace (S i - length p)%nat with (S (i - length p)) in Hb by lia.
      by apply (Hq (i - length p)%nat).
Qed.

Lemma contiguous_fmap (f : Cell → Cell) p :
  (∀ a b : Cell, Z.abs (b.1 - a.1) + Z.abs (b.2 - a.2) = 1 →
     Z.abs ((f b).1 - (f a).1) + Z.abs ((f b).2 - (f a).2) = 1) →
  contiguous p → contiguous (f <$> p).
Proof.
  intros Hf Hp i a b Ha Hb. rewrite list_lookup_fmap in Ha, Hb.
  destruct (p !! i) as [a'|] eqn:Ea; [|done].
  destruct (p !! S i) as [b'|] eqn:Eb; [|done].
  simpl in *. injection Ha as <-. injection Hb as <-.
  apply Hf. by apply (Hp i).
Qed.

Lemma contiguous_line_x y m n : contiguous ((λ x, (x, y)) <$> seqZ m n).
Proof.
  intros i a b Ha Hb. rewrite list_lookup_fmap in Ha, Hb.
  destruct (seqZ m n !! i) as [a'|] eqn:Ea; [|done].
  destruct (seqZ m n !! S i) as [b'|] eqn:Eb; [|done].
  apply lookup_seqZ in Ea, Eb. simpl in *. injection Ha as <-. injection Hb as <-.
  simpl. lia.
Qed.

Lemma contiguous_line_y x m n : contiguous ((λ y, (x, y)) <$> seqZ m n).
Proof.
  intros i a b Ha Hb. rewrite list_lookup_fmap in Ha, Hb.
  destruct (seqZ m n !! i) as [a'|] eqn:Ea; [|done].
  destruct (seqZ m n !! S i) as [b'|] eqn:Eb; [|done].
  apply lookup_seqZ in Ea, Eb. simpl in *. injection Ha as <-. injection Hb as <-.
  simpl. lia.
Qed.

Lemma seqZ_to_nat m n : seqZ m n = seqZ m (Z.of_nat (Z.to_nat n)).
Proof. unfold seqZ. by rewrite Nat2Z.id. Qed.

Lemma last_seqZ m (n : nat) :
  last (seqZ m (Z.of_nat (S n))) = Some (m + Z.of_nat n).
Proof. rewrite seqZ_S. apply last_snoc. Qed.

Lemma head_seqZ m (n : nat) : head (seqZ m (Z.of_nat (S n))) = Some m.
Proof. rewrite seqZ_cons by lia. done. Qed.

Lemma head_reverse {A} (l : list A) : head (reverse l) = last l.
Proof.
  induction l as [|x l _] using rev_ind; [done|].
  by rewrite reverse_snoc, last_snoc.
Qed.

Lemma last_reverse {A} (l : list A) : last (reverse l) = head l.
Proof. by rewrite <- head_reverse, reverse_involutive. Qed.

(** The serpentine row [y] of a grid with [S n] columns, its two ends. *)
Lemma serpentine_row_ends (n : nat) (y : Z) :
  let row := if y mod 2 =? 0 then (λ x, (x, y)) <$> seqZ 0 (Z.of_nat (S n))
             else (λ x, (x, y)) <$> reverse (seqZ 0 (Z.of_nat (S n))) in
  contiguous row
  ∧ head row = Some (if y mod 2 =? 0 then 0 else Z.of_nat n, y)
  ∧ last row = Some (if y mod 2 =? 0 then Z.of_nat n else 0, y).
Proof.
  destruct (y mod 2 =? 0); simpl; split_and!.
  - apply contiguous_line_x.
  - by rewrite seqZ_cons by lia.
  - by rewrite fmap_last, last_seqZ.
  - rewrite fmap_reverse. apply contiguous_reverse, contiguous_line_x.
  - by rewrite fmap_reverse, head_reverse, fmap_last, last_seqZ.
  - by rewrite fmap_reverse, last_reverse, seqZ_cons by lia.
Qed.

Lemma buildSnakePathBase_steps (n m : nat) :
  let p := buildSnakePathBase (Z.of_nat (S n)) (Z.of_nat m) in
  contiguous p
  ∧ ∀ a, last p = Some a →
      ∃ k : nat, m = S k
        ∧ a = (if Z.of_nat k mod 2 =? 0 then Z.of_nat n else 0, Z.of_nat k).
Proof.
  unfold buildSnakePathBase. cbv zeta. induction m as [|m [IHc IHl]].
  - split; [apply contiguous_nil | done].
  - rewrite (seqZ_S 0 m), bind_app, bind_singleton. simpl.
    destruct (serpentine_row_ends n (Z.of_nat m)) as (Hc & Hh & Hl).
    cbv zeta in Hc, Hh, Hl. rewrite Z.add_0_l. split.
    + apply contiguous_app; [done | done |].
      intros a b Ha Hb. destruct (IHl a Ha) as (k & -> & ->).
      rewrite Hh in Hb. injection Hb as <-.
      replace (Z.of_nat (S k)) with (Z.of_nat k + 1) by lia.
      destruct (Z.eqb_spec (Z.of_nat k mod 2) 0) as [E|E];
        destruct (Z.eqb_spec ((Z.of_nat k + 1) mod 2) 0) as [E'|E'];
        simpl; parity (Z.of_nat k); parity (Z.of_nat k + 1); lia.
    + intros a Ha. exists m. split; [done|].
      rewrite last_app, Hl in Ha. by injection Ha as <-.
Qed.

Lemma buildSnakePathBase_contiguous cols rows :
  contiguous (buildSnakePathBase cols rows).
Proof.
  destruct (decide (0 < cols)) as [Hc|Hc].
  - unfold buildSnakePathBase. rewrite (seqZ_to_nat 0 rows).
    replace cols with (Z.of_nat (S (Z.to_nat (cols - 1)))) by lia.
    apply (buildSnakePathBase_steps (Z.to_nat (cols - 1)) (Z.to_nat rows)).
  - pose proof (buildSnakePathBase_Hamiltonian cols rows) as [_ Hin].
    destruct (buildSnakePathBase cols rows) as [|c p]; [apply contiguous_nil|].
    specialize (proj1 (Hin c) (list_elem_of_here _ _)). unfold inGrid. lia.
Qed.

(** The serpentine is a snake for every size: it holds every cell of the
    grid once, each cell is 4-adjacent to the one before it, and on a grid
    that is not empty it starts in the corner [(0, 0)]. *)
Theorem buildSnakePathBase_snake cols rows :
  Hamiltonian cols rows (buildSnakePathBase cols rows)
  ∧ contiguous (buildSnakePathBase cols rows)
  ∧ (0 < cols → 0 < rows → head (buildSnakePathBase cols rows) = Some (0, 0)).
Proof.
  split_and!.
  - apply buildSnakePathBase_Hamiltonian.
  - apply buildSnakePathBase_contiguous.
  - intros Hc Hr. unfold buildSnakePathBase.
    rewrite (seqZ_cons 0 rows), bind_cons by lia. simpl.
    rewrite (seqZ_cons 0 cols) by lia. done.
Qed.

Lemma buildSnakePathBase_snake_witness :
  head (buildSnakePathBase 6 6) = Some (0, 0).
Proof. apply (buildSnakePathBase_snake 6 6); lia. Defined.

(** ** Transposed templates *)

Lemma fmap_bind_list {A B C} (f : B → C) (g : A → list B) (l : list A) :
  f <$> (l ≫= g) = l ≫= (λ x, f <$> g x).
Proof.
  induction l as [|x l IH]; [done|].
  by rewrite !bind_cons, fmap_app, IH.
Qed.

Lemma Hamiltonian_transpose cols rows p :
  Hamiltonian rows cols p → Hamiltonian cols rows (transpose <$> p).
Proof.
  apply (Hamiltonian_fmap rows cols cols rows transpose transpose).
  - by intros [x y].
  - intros [x y]. unfold inGrid, transpose. simpl. lia.
  - intros [x y]. unfold inGrid, transpose. simpl. split; [lia | done].
Qed.

Lemma contiguous_transpose p : contiguous p → contiguous (transpose <$> p).
Proof.
  apply contiguous_fmap. intros [x1 y1] [x2 y2]. unfold transpose. simpl. lia.
Qed.

Lemma buildColumnSnakePath_transpose cols rows :
  buildColumnSnakePath cols rows = transpose <$> buildSnakePathBase rows cols.
Proof.
  unfold buildColumnSnakePath, buildSnakePathBase. rewrite fmap_bind_list.
  apply list_bind_ext; [|done]. intros x.
  destruct (x mod 2 =? 0); by rewrite <- list_fmap_compose.
Qed.

(** The column snake is the serpentine of the transposed grid, read with
    the coordinates swapped; so it is a snake for every size as well. *)
Theorem buildColumnSnakePath_snake cols rows :
  buildColumnSnakePath cols rows = transpose <$> buildSnakePathBase rows cols
  ∧ Hamiltonian cols rows (buildColumnSnakePath cols rows)
  ∧ contiguous (buildColumnSnakePath cols rows).
Proof.
  rewrite buildColumnSnakePath_transpose. split_and!; [done | |].
  - apply Hamiltonian_transpose, buildSnakePathBase_Hamiltonian.
  - apply contiguous_transpose, buildSnakePathBase_contiguous.
Qed.

Lemma checkerboard_raw_transpose cols rows :
  (x ← evens cols;
   let left := x in
   let right := Z.min (x + 1) (cols - 1) in
   let stripe := x / 2 in
   y ← (if stripe mod 2 =? 0 then seqZ 0 rows else reverse (seqZ 0 rows));
   (left, y) :: (if right =? left then [] else [(right, y)]))
  = transpose <$> buildBlockSnakePath rows cols.
Proof.
  unfold buildBlockSnakePath. rewrite fmap_bind_list.
  apply list_bind_ext; [|done]. intros x. cbv zeta. rewrite fmap_bind_list.
  apply list_bind_ext; [|done]. intros y.
  by destruct (Z.min (x + 1) (cols - 1) =? x).
Qed.

(** The block serpentine and the checkerboard template hold every cell of
    the grid once, whatever the size, odd sizes included: the checkerboard
    is the block serpentine of the transposed grid, and its backstop never
    has anything to add. *)
Theorem buildCheckerboardPath_Hamiltonian cols rows :
  Hamiltonian cols rows (buildBlockSnakePath cols rows)
  ∧ buildCheckerboardPath cols rows = transpose <$> buildBlockSnakePath rows cols
  ∧ Hamiltonian cols rows (buildCheckerboardPath cols rows).
Proof.
  assert (Ht : Hamiltonian cols rows (transpose <$> buildBlockSnakePath rows cols))
    by apply Hamiltonian_transpose, buildBlockSnakePath_Hamiltonian.
  assert (He : buildCheckerboardPath cols rows
               = transpose <$> buildBlockSnakePath rows cols).
  { unfold buildCheckerboardPath. rewrite checkerboard_raw_transpose.
    unfold fillMissing. destruct (_ =? _); [done|].
    apply fill_loop_idle. intros c Hc. apply Ht.
    by apply (buildSnakePathBase_Hamiltonian cols rows). }
  split_and!; [apply buildBlockSnakePath_Hamiltonian | done | by rewrite He].
Qed.

(** ** The tiled templates *)

Lemma bind_Permutation_ext {A B} (f g : A → list B) (l : list A) :
  (∀ x, x ∈ l → f x ≡ₚ g x) → l ≫= f ≡ₚ l ≫= g.
Proof.
  induction l as [|x l IH]; intros H; [done|].
  rewrite !bind_cons. f_equiv.
  - apply H, list_elem_of_here.
  - apply IH. intros y Hy. by apply H, list_elem_of_further.
Qed.

Lemma NoDup_bind_inv {A B} (f : A → list B) (l : list A) (x : A) :
  NoDup (l ≫= f) → x ∈ l → NoDup (f x).
Proof.
  intros Hnd Hx. apply list_elem_of_split in Hx as (l1 & l2 & ->).
  rewrite bind_app, bind_cons in Hnd.
  apply NoDup_app in Hnd as (_ & _ & Hnd). by apply NoDup_app in Hnd as (? & _ & _).
Qed.

Lemma join_fmap_bind {A B} (f : A → list B) (l : list A) :
  mjoin (f <$> l) = l ≫= f.
Proof. by rewrite list_join_bind, list_fmap_bind. Qed.

Lemma join_maybe_reverse {A} (b : bool) (ls : list (list A)) :
  mjoin (if b then reverse ls else ls) ≡ₚ mjoin ls.
Proof. destruct b; [|done]. by rewrite reverse_Permutation. Qed.

Lemma tile_raw_Permutation cols rows :
  (ty ← evens rows;
   mjoin (if (ty / 2) mod 2 =? 1
          then reverse ((λ tx, tileCells cols rows tx ty) <$> evens cols)
          else (λ tx, tileCells cols rows tx ty) <$> evens cols))
  ≡ₚ (ty ← evens rows; tx ← evens cols; tileCells cols rows tx ty).
Proof.
  apply bind_Permutation_ext. intros ty _.
  by rewrite join_maybe_reverse, join_fmap_bind.
Qed.

Lemma elem_of_tileCells cols rows tx ty c :
  tx ∈ evens cols → ty ∈ evens rows →
  c ∈ tileCells cols rows tx ty
  ↔ (c.1 = tx ∨ (c.1 = tx + 1 ∧ tx + 1 < cols))
    ∧ (c.2 = ty ∨ (c.2 = ty + 1 ∧ ty + 1 < rows)).
Proof.
  intros Hx%elem_of_evens Hy%elem_of_evens. destruct c as [x y].
  unfold tileCells. cbv zeta. rewrite Z.eqb_refl. simpl negb. rewrite orb_false_r.
  destruct (Z.eqb_spec (Z.min (tx + 1) (cols - 1)) tx) as [Ex|Ex];
    destruct (Z.eqb_spec (Z.min (ty + 1) (rows - 1)) ty) as [Ey|Ey]; simpl;
    rewrite ?elem_of_cons, ?elem_of_nil; split;
    try (intros H; repeat destruct H as [H|H]; try done;
         injection H as -> ->; lia).
  all: intros [[->| [-> ?]] [->|[-> ?]]]; try lia.
  all: rewrite ?Ex, ?Ey; try (by left).
  all: try (right; left; f_equal; lia).
  all: try (right; right; left; f_equal; lia).
  all: try (right; right; right; left; f_equal; lia).
Qed.

Lemma NoDup_tileCells cols rows tx ty :
  tx < cols → ty < rows →
  NoDup (tileCells cols rows tx ty) ↔ ¬ (tx + 1 < cols ∧ rows ≤ ty + 1).
Proof.
  intros Hx Hy. unfold tileCells. cbv zeta. rewrite Z.eqb_refl. simpl negb. rewrite orb_false_r.
  destruct (Z.eqb_spec (Z.min (tx + 1) (cols - 1)) tx) as [Ex|Ex];
    destruct (Z.eqb_spec (Z.min (ty + 1) (rows - 1)) ty) as [Ey|Ey]; simpl.
  - split; [lia|]. intros _. apply NoDup_singleton.
  - split; [lia|]. intros _. rewrite Ex.
    apply NoDup_cons. split; [|apply NoDup_singleton].
    rewrite list_elem_of_singleton. intros [= ?]. lia.
  - split; [|intros ?; exfalso; lia]. intros Hnd. apply NoDup_cons in Hnd as [Hn _].
    exfalso. apply Hn. rewrite Ey. apply list_elem_of_further, list_elem_of_here.
  - split; [lia|]. intros _.
    repeat (apply NoDup_cons; split;
            [rewrite ?elem_of_cons, elem_of_nil; intros H;
             repeat destruct H as [H|H]; try done; injection H; lia|]).
    apply NoDup_nil_2.
Qed.

Lemma even_floor (z : Z) : (2 * (z / 2)) mod 2 = 0.
Proof. rewrite Z.mul_comm. apply Z.mod_mul. lia. Qed.

(** The tile template fails exactly on an odd number of rows (with at
    least two columns): there the last row of tiles is one cell high and
    each of its tiles pushes its first cell twice.  On every other size
    the path holds every cell of the grid once. *)
Theorem buildTileSnakePath_Hamiltonian_iff cols rows :
  Hamiltonian cols rows (buildTileSnakePath cols rows)
  ↔ rows mod 2 = 0 ∨ rows ≤ 0 ∨ cols ≤ 1.
Proof.
  change (buildTileSnakePath cols rows) with
    (fillMissing cols rows
       (ty ← evens rows;
        mjoin (if (ty / 2) mod 2 =? 1
               then reverse ((λ tx, tileCells cols rows tx ty) <$> evens cols)
               else (λ tx, tileCells cols rows tx ty) <$> evens cols))).
  rewrite fillMissing_Hamiltonian_iff.
  pose proof (tile_raw_Permutation cols rows) as Hp. revert Hp.
  generalize (ty ← evens rows;
        mjoin (if (ty / 2) mod 2 =? 1
               then reverse ((λ tx, tileCells cols rows tx ty) <$> evens cols)
               else (λ tx, tileCells cols rows tx ty) <$> evens cols)).
  intros raw Hp. rewrite Hp. setoid_rewrite Hp. clear raw Hp.
  assert (Hel : ∀ c tx ty, ty ∈ evens rows → tx ∈ evens cols →
            c ∈ tileCells cols rows tx ty →
            inGrid cols rows c ∧ tx = 2 * (c.1 / 2) ∧ ty = 2 * (c.2 / 2)).
  { intros [x y] tx ty Hy Hx Hc. apply elem_of_tileCells in Hc; [|done..].
    apply elem_of_evens in Hx, Hy. unfold inGrid. simpl in *.
    parity x. parity y. parity tx. parity ty. lia. }
  split.
  - intros [Hnd _].
    destruct (decide (rows mod 2 = 0)) as [|Hodd]; [by left|].
    destruct (decide (rows ≤ 0)) as [|Hr]; [by right; left|].
    destruct (decide (cols ≤ 1)) as [|Hc]; [by right; right|].
    exfalso. apply (NoDup_bind_inv _ _ (rows - 1)) in Hnd.
    + apply (NoDup_bind_inv _ _ 0) in Hnd.
      * apply NoDup_tileCells in Hnd; lia.
      * apply elem_of_evens. split; [lia | done].
    + apply elem_of_evens. parity rows. parity (rows - 1). lia.
  - intros Hsize. split.
    + apply NoDup_bind; [| |apply NoDup_evens].
      * intros ty1 ty2 c H1 H2 Hc1 Hc2.
        apply list_elem_of_bind in Hc1 as (tx1 & Hc1 & Hx1).
        apply list_elem_of_bind in Hc2 as (tx2 & Hc2 & Hx2).
        apply Hel in Hc1, Hc2; [|done..]. lia.
      * intros ty Hy. apply NoDup_bind; [| |apply NoDup_evens].
        -- intros tx1 tx2 c H1 H2 Hc1 Hc2.
           apply Hel in Hc1, Hc2; [|done..]. lia.
        -- intros tx Hx. apply elem_of_evens in Hx, Hy.
           apply NoDup_tileCells; [lia..|]. parity rows. parity ty. lia.
    + intros c Hc. apply list_elem_of_bind in Hc as (ty & Hc & Hy).
      apply list_elem_of_bind in Hc as (tx & Hc & Hx).
      apply Hel in Hc; [|done..]. by destruct Hc.
Qed.

Lemma elem_of_blockCells cols rows bx by_ c :
  c ∈ blockCells cols rows bx by_
  ↔ (c.1 = bx ∨ c.1 = Z.min (bx + 1) (cols - 1))
    ∧ by_ ≤ c.2 ≤ Z.min (by_ + 1) (rows - 1).
Proof.
  unfold blockCells. cbv zeta. rewrite list_elem_of_bind. destruct c as [x y].
  split.
  - intros (y' & Hc & Hy). simpl in Hc.
    assert (by_ ≤ y' ≤ Z.min (by_ + 1) (rows - 1)).
    { destruct (_ =? 0); rewrite ?elem_of_reverse, elem_of_seqZ in Hy; lia. }
    rewrite !elem_of_cons, elem_of_nil in Hc. simpl.
    destruct Hc as [[= -> ->]|[[= -> ->]|[]]]; split; auto.
  - simpl. intros [Hx Hy]. exists y. split.
    + simpl. rewrite !elem_of_cons. destruct Hx as [->| ->]; auto.
    + destruct (_ =? 0); rewrite ?elem_of_reverse, elem_of_seqZ; lia.
Qed.

Lemma NoDup_blockCells cols rows bx by_ :
  bx < cols → by_ < rows →
  NoDup (blockCells cols rows bx by_) ↔ bx + 1 < cols.
Proof.
  intros Hx Hy. unfold blockCells. cbv zeta. split.
  - intros Hnd. apply (NoDup_bind_inv _ _ by_) in Hnd.
    + simpl in Hnd. apply NoDup_cons in Hnd as [Hn _].
      rewrite list_elem_of_singleton in Hn.
      destruct (decide (bx + 1 < cols)); [done|]. exfalso. apply Hn.
      f_equal. lia.
    + destruct (_ =? 0); rewrite ?elem_of_reverse, elem_of_seqZ; lia.
  - intros Hlt. apply NoDup_bind.
    + intros y1 y2 c _ _. simpl. rewrite !elem_of_cons, !elem_of_nil.
      intros [->|[->|[]]] [[= ?]|[[= ?]|[]]]; lia.
    + intros y _. simpl. apply NoDup_cons. split; [|apply NoDup_singleton].
      rewrite list_elem_of_singleton. intros [= ?]. lia.
    + destruct (_ =? 0); [|rewrite reverse_Permutation]; apply NoDup_seqZ.
Qed.

(** The 2x2 checkerboard fails exactly on an odd number of columns: there
    the last column of blocks is one cell wide and every cell of it is
    pushed twice.  On every other size the path holds every cell of the
    grid once. *)
Theorem buildCheckerboard2x2Path_Hamiltonian_iff cols rows :
  Hamiltonian cols rows (buildCheckerboard2x2Path cols rows)
  ↔ cols mod 2 = 0 ∨ cols ≤ 0 ∨ rows ≤ 0.
Proof.
  change (buildCheckerboard2x2Path cols rows) with
    (fillMissing cols rows
       (by_ ← evens rows;
        bx ← (if (by_ / 2) mod 2 =? 1 then reverse (evens cols) else evens cols);
        blockCells cols rows bx by_)).
  rewrite fillMissing_Hamiltonian_iff.
  assert (Hp : (by_ ← evens rows;
        bx ← (if (by_ / 2) mod 2 =? 1 then reverse (evens cols) else evens cols);
        blockCells cols rows bx by_)
     ≡ₚ (by_ ← evens rows; bx ← evens cols; blockCells cols rows bx by_)).
  { apply bind_Permutation_ext. intros by_ _.
    destruct (_ =? 1); [|done]. by rewrite reverse_Permutation. }
  revert Hp.
  generalize (by_ ← evens rows;
        bx ← (if (by_ / 2) mod 2 =? 1 then reverse (evens cols) else evens cols);
        blockCells cols rows bx by_).
  intros raw Hp. rewrite Hp. setoid_rewrite Hp. clear raw Hp.
  assert (Hel : ∀ c bx by_, by_ ∈ evens rows → bx ∈ evens cols →
            c ∈ blockCells cols rows bx by_ →
            inGrid cols rows c ∧ bx = 2 * (c.1 / 2) ∧ by_ = 2 * (c.2 / 2)).
  { intros [x y] bx by_ Hy Hx Hc. apply elem_of_blockCells in Hc.
    apply elem_of_evens in Hx, Hy. unfold inGrid. simpl in *.
    parity x. parity y. parity bx. parity by_. lia. }
  split.
  - intros [Hnd _].
    destruct (decide (cols mod 2 = 0)) as [|Hodd]; [by left|].
    destruct (decide (cols ≤ 0)) as [|Hc]; [by right; left|].
    destruct (decide (rows ≤ 0)) as [|Hr]; [by right; right|].
    exfalso. apply (NoDup_bind_inv _ _ 0) in Hnd.
    + apply (NoDup_bind_inv _ _ (cols - 1)) in Hnd.
      * apply NoDup_blockCells in Hnd; lia.
      * apply elem_of_evens. parity cols. parity (cols - 1). lia.
    + apply elem_of_evens. split; [lia | done].
  - intros Hsize. split.
    + apply NoDup_bind; [| |apply NoDup_evens].
      * intros by1 by2 c H1 H2 Hc1 Hc2.
        apply list_elem_of_bind in Hc1 as (bx1 & Hc1 & Hx1).
        apply list_elem_of_bind in Hc2 as (bx2 & Hc2 & Hx2).
        apply Hel in Hc1, Hc2; [|done..]. lia.
      * intros by_ Hy. apply NoDup_bind; [| |apply NoDup_evens].
        -- intros bx1 bx2 c H1 H2 Hc1 Hc2.
           apply Hel in Hc1, Hc2; [|done..]. lia.
        -- intros bx Hx. apply elem_of_evens in Hx, Hy.
           apply NoDup_blockCells; [lia..|]. parity cols. parity bx. lia.
    + intros c Hc. apply list_elem_of_bind in Hc as (by_ & Hc & Hy).
      apply list_elem_of_bind in Hc as (bx & Hc & Hx).
      apply Hel in Hc; [|done..]. by destruct Hc.
Qed.

(** ** The diagonal templates *)

Lemma elem_of_diagonal cols rows s c :
  c ∈ diagonal cols rows s ↔ inGrid cols rows c ∧ c.1 + c.2 = s.
Proof.
  unfold diagonal. cbv zeta. rewrite list_elem_of_fmap. unfold inGrid.
  destruct c as [x y]. simpl. split.
  - intros (x' & [= -> ->] & Hx). apply elem_of_seqZ in Hx. lia.
  - intros [Hg Hs]. exists x. split; [f_equal; lia|]. apply elem_of_seqZ. lia.
Qed.

Lemma NoDup_diagonal cols rows s : NoDup (diagonal cols rows s).
Proof.
  unfold diagonal. cbv zeta. apply NoDup_fmap_2; [|apply NoDup_seqZ].
  by intros x1 x2 [= ->].
Qed.

Lemma elem_of_maybe_reverse {A} (b : bool) (l : list A) (x : A) :
  x ∈ (if b then reverse l else l) ↔ x ∈ l.
Proof. destruct b; [apply elem_of_reverse | done]. Qed.

Lemma NoDup_maybe_reverse {A} (b : bool) (l : list A) :
  NoDup l → NoDup (if b then reverse l else l).
Proof. destruct b; [|done]. by rewrite reverse_Permutation. Qed.

(** The diagonal snake holds every cell of the grid once, whatever the
    size: the diagonals [x + y = s] for [s = 0 .. cols + rows - 2] are
    disjoint, cut to the grid, and together they are the grid. *)
Theorem buildDiagonalSnakePath_Hamiltonian cols rows :
  Hamiltonian cols rows (buildDiagonalSnakePath cols rows).
Proof.
  unfold buildDiagonalSnakePath. cbv zeta. split.
  - apply NoDup_bind; [| |apply NoDup_seqZ].
    + intros s1 s2 c _ _ H1 H2.
      apply elem_of_maybe_reverse, elem_of_diagonal in H1, H2. lia.
    + intros s _. apply NoDup_maybe_reverse, NoDup_diagonal.
  - intros c. rewrite list_elem_of_bind. split.
    + intros (s & Hc & _). apply elem_of_maybe_reverse, elem_of_diagonal in Hc.
      by destruct Hc.
    + intros Hc. exists (c.1 + c.2). split.
      * by apply elem_of_maybe_reverse, elem_of_diagonal.
      * apply elem_of_seqZ. unfold inGrid in Hc. lia.
Qed.

(** So does the diagonal stripes template: its stripes are pairs of
    diagonals, each diagonal is taken once, and the backstop has nothing
    to add. *)
Theorem buildDiagonalStripesPath_Hamiltonian cols rows :
  Hamiltonian cols rows (buildDiagonalStripesPath cols rows).
Proof.
  assert (Hraw : Hamiltonian cols rows
    (s ← evens (cols + rows - 2 + 1);
     k ← (if s + 0 <=? cols + rows - 2
          then 0 :: (if s + 1 <=? cols + rows - 2 then [1] else [])
          else []);
     if (s / 2) mod 2 =? 0 then reverse (diagonal cols rows (s + k))
     else diagonal cols rows (s + k))).
  { assert (Hk : ∀ s k, k ∈ (if s + 0 <=? cols + rows - 2
          then 0 :: (if s + 1 <=? cols + rows - 2 then [1] else [])
          else []) ↔ (k = 0 ∨ k = 1) ∧ s + k ≤ cols + rows - 2).
    { intros s k. destruct (Z.leb_spec (s + 0) (cols + rows - 2));
        [destruct (Z.leb_spec (s + 1) (cols + rows - 2))|];
        rewrite ?elem_of_cons, ?elem_of_nil; lia. }
    assert (Hd : ∀ s k c,
      c ∈ (if (s / 2) mod 2 =? 0 then reverse (diagonal cols rows (s + k))
           else diagonal cols rows (s + k))
      ↔ inGrid cols rows c ∧ c.1 + c.2 = s + k).
    { intros s k c. destruct (_ =? 0); rewrite ?elem_of_reverse;
        apply elem_of_diagonal. }
    split.
    - apply NoDup_bind; [| |apply NoDup_evens].
      + intros s1 s2 c Hs1%elem_of_evens Hs2%elem_of_evens H1 H2.
        apply list_elem_of_bind in H1 as (k1 & H1 & Hk1).
        apply list_elem_of_bind in H2 as (k2 & H2 & Hk2).
        apply Hd in H1, H2. apply Hk in Hk1, Hk2.
        parity s1. parity s2. lia.
      + intros s _. apply NoDup_bind.
        * intros k1 k2 c Hk1 Hk2 H1 H2. apply Hd in H1, H2. lia.
        * intros k _. destruct (_ =? 0); [rewrite reverse_Permutation|];
            apply NoDup_diagonal.
        * destruct (_ <=? _); [|apply NoDup_nil_2].
          destruct (_ <=? _); [|apply NoDup_singleton].
          apply NoDup_cons. split; [|apply NoDup_singleton].
          by rewrite list_elem_of_singleton.
    - intros c. rewrite list_elem_of_bind. split.
      + intros (s & Hc & _). apply list_elem_of_bind in Hc as (k & Hc & _).
        apply Hd in Hc. by destruct Hc.
      + intros Hc. exists (2 * ((c.1 + c.2) / 2)). split.
        * apply list_elem_of_bind. exists ((c.1 + c.2) mod 2). split.
          -- apply Hd. split; [done|]. parity (c.1 + c.2). lia.
          -- apply Hk. unfold inGrid in Hc. parity (c.1 + c.2). lia.
        * apply elem_of_evens. split; [|apply even_floor].
          unfold inGrid in Hc. parity (c.1 + c.2). lia. }
  assert (He : buildDiagonalStripesPath cols rows
    = (s ← evens (cols + rows - 2 + 1);
     k ← (if s + 0 <=? cols + rows - 2
          then 0 :: (if s + 1 <=? cols + rows - 2 then [1] else [])
          else []);
     if (s / 2) mod 2 =? 0 then reverse (diagonal cols rows (s + k))
     else diagonal cols rows (s + k))).
  { unfold buildDiagonalStripesPath. cbv zeta.
    unfold fillMissing. destruct (_ =? _); [done|].
    apply fill_loop_idle. intros c Hc. apply Hraw.
    by apply (buildSnakePathBase_Hamiltonian cols rows). }
  by rewrite He.
Qed.

(** ** The spokes template *)

Lemma elem_of_join_imap {A B} (f : nat → A → list B) (l : list A) (c : B) :
  c ∈ mjoin (imap f l) → ∃ i x, x ∈ l ∧ c ∈ f i x.
Proof.
  revert f. induction l as [|x l IH]; intros f; simpl.
  - by rewrite elem_of_nil.
  - rewrite elem_of_app. intros [Hc|Hc].
    + exists 0%nat, x. split; [apply list_elem_of_here | done].
    + destruct (IH _ Hc) as (i & y & Hy & Hcy).
      exists (S i), y. split; [by apply list_elem_of_further | done].
Qed.

Lemma NoDup_join_imap {A B} (f : nat → A → list B) (l : list A) :
  NoDup l → (∀ i x, NoDup (f i x)) →
  (∀ i j x y c, c ∈ f i x → c ∈ f j y → x = y) →
  NoDup (mjoin (imap f l)).
Proof.
  revert f. induction l as [|x l IH]; intros f Hl Hf Hdisj; simpl.
  - apply NoDup_nil_2.
  - apply NoDup_cons in Hl as [Hx Hl]. apply NoDup_app. split_and!.
    + apply Hf.
    + intros c Hc Hc'. apply elem_of_join_imap in Hc' as (i & y & Hy & Hcy).
      simpl in Hcy. by rewrite (Hdisj _ _ _ _ _ Hc Hcy) in Hx.
    + apply IH; [done | intros; apply Hf |].
      intros i j a b c. apply Hdisj.
Qed.

Lemma spokesColumns_spec cols :
  NoDup (spokesColumns cols) ∧ ∀ x, x ∈ spokesColumns cols → 0 ≤ x < cols.
Proof.
  unfold spokesColumns. cbv zeta.
  match goal with |- context [foldl ?f] => set (F := f) end.
  assert (H : ∀ ds acc, (∀ d, d ∈ ds → 0 ≤ d < cols) →
            NoDup acc ∧ (∀ x, x ∈ acc → 0 ≤ x < cols) →
            NoDup (foldl F acc ds) ∧ ∀ x, x ∈ foldl F acc ds → 0 ≤ x < cols).
  { induction ds as [|d ds IH]; intros acc Hds [Hnd Hin]; [done|].
    simpl. apply IH.
    - intros d' Hd'. by apply Hds, list_elem_of_further.
    - specialize (Hds d (list_elem_of_here _ _)). unfold F. cbv beta.
      match goal with |- context [bool_decide (?p ∈ acc)] => set (pos := p) end.
      assert (Hpos : 0 ≤ pos < cols).
      { subst pos. repeat match goal with
          |- context [if ?b then _ else _] => destruct b eqn:?
        end; lia. }
      case_bool_decide as Hmem; [done|]. split.
      + apply NoDup_app. split_and!; [done | | apply NoDup_singleton].
        intros x Hx Hx'. apply list_elem_of_singleton in Hx' as ->. done.
      + intros x. rewrite elem_of_app, list_elem_of_singleton.
        intros [Hx| ->]; [by apply Hin | done]. }
  apply H.
  - intros d Hd%elem_of_seqZ. lia.
  - split; [apply NoDup_nil_2|]. intros x. by rewrite elem_of_nil.
Qed.

(** The spokes template holds every cell of the grid once, whatever the
    size: the columns it walks are distinct columns of the grid, each
    walked once from end to end. *)
Theorem buildSpokesPath_Hamiltonian cols rows :
  Hamiltonian cols rows (buildSpokesPath cols rows).
Proof.
  unfold buildSpokesPath. apply fillMissing_Hamiltonian.
  - destruct (spokesColumns_spec cols) as [Hnd _].
    apply NoDup_join_imap; [done | |].
    + intros i col. destruct (_ =? 0).
      * apply NoDup_fmap_2; [by intros y1 y2 [= ->] | apply NoDup_seqZ].
      * apply NoDup_fmap_2; [by intros y1 y2 [= ->]|].
        rewrite reverse_Permutation. apply NoDup_seqZ.
    + intros i j x y c Hx Hy.
      assert (c.1 = x).
      { destruct (Z.of_nat i mod 2 =? 0);
          apply list_elem_of_fmap in Hx as (? & -> & _); done. }
      assert (c.1 = y).
      { destruct (Z.of_nat j mod 2 =? 0);
          apply list_elem_of_fmap in Hy as (? & -> & _); done. }
      congruence.
  - intros c Hc. apply elem_of_join_imap in Hc as (i & col & Hcol & Hc).
    apply spokesColumns_spec in Hcol.
    assert (∃ y, c = (col, y) ∧ 0 ≤ y < rows) as (y & -> & Hy).
    { destruct (_ =? 0); apply list_elem_of_fmap in Hc as (y & -> & Hy);
        exists y; rewrite ?elem_of_reverse, elem_of_seqZ in Hy; split; (done || lia). }
    unfold inGrid. simpl. lia.
Qed.

(** ** Rings: the spiral, the rings and the perimeter templates *)

Lemma elem_of_ring (l t r b : Z) (c : Cell) :
  l ≤ r → t ≤ b →
  c ∈ ring l t r b
  ↔ (l ≤ c.1 ≤ r ∧ t ≤ c.2 ≤ b)
    ∧ (c.1 = l ∨ c.1 = r ∨ c.2 = t ∨ c.2 = b).
Proof.
  intros Hlr Htb. unfold ring. destruct c as [x y]. simpl.
  rewrite !elem_of_app.
  assert (H1 : (x, y) ∈ (λ x, (x, t)) <$> seqZ l (r - l + 1) ↔ y = t ∧ l ≤ x ≤ r).
  { rewrite list_elem_of_fmap. setoid_rewrite elem_of_seqZ. split.
    - intros (x' & [= -> ->] & ?). lia.
    - intros [-> ?]. exists x. split; [done | lia]. }
  assert (H2 : (x, y) ∈ (λ y, (r, y)) <$> seqZ (t + 1) (b - t) ↔ x = r ∧ t < y ≤ b).
  { rewrite list_elem_of_fmap. setoid_rewrite elem_of_seqZ. split.
    - intros (y' & [= -> ->] & ?). lia.
    - intros [-> ?]. exists y. split; [done | lia]. }
  assert (H3 : (x, y) ∈ (if t <? b
      then (λ x, (x, b)) <$> reverse (seqZ l (r - l)) else [])
      ↔ t < b ∧ y = b ∧ l ≤ x < r).
  { destruct (Z.ltb_spec t b); [|rewrite elem_of_nil; lia].
    rewrite list_elem_of_fmap. setoid_rewrite elem_of_reverse.
    setoid_rewrite elem_of_seqZ. split.
    - intros (x' & [= -> ->] & ?). lia.
    - intros (_ & -> & ?). exists x. split; [done | lia]. }
  assert (H4 : (x, y) ∈ (if l <? r
      then (λ y, (l, y)) <$> reverse (seqZ (t + 1) (b - t - 1)) else [])
      ↔ l < r ∧ x = l ∧ t < y < b).
  { destruct (Z.ltb_spec l r); [|rewrite elem_of_nil; lia].
    rewrite list_elem_of_fmap. setoid_rewrite elem_of_reverse.
    setoid_rewrite elem_of_seqZ. split.
    - intros (y' & [= -> ->] & ?). lia.
    - intros (_ & -> & ?). exists y. split; [done | lia]. }
  rewrite H1, H2, H3, H4. lia.
Qed.

Lemma NoDup_ring (l t r b : Z) : NoDup (ring l t r b).
Proof.
  unfold ring.
  assert (Hx : ∀ (y : Z) (xs : list Z), NoDup xs → NoDup ((λ x, (x, y)) <$> xs)).
  { intros y xs. apply NoDup_fmap_2. by intros x1 x2 [= ->]. }
  assert (Hy : ∀ (x : Z) (ys : list Z), NoDup ys → NoDup ((λ y, (x, y)) <$> ys)).
  { intros x ys. apply NoDup_fmap_2. by intros y1 y2 [= ->]. }
  assert (Hr : ∀ m n, NoDup (reverse (seqZ m n))).
  { intros m n. rewrite reverse_Permutation. apply NoDup_seqZ. }
  assert (E1 : ∀ c, c ∈ (λ x, (x, t)) <$> seqZ l (r - l + 1) → c.2 = t ∧ l ≤ c.1 ≤ r).
  { intros c (x & -> & Hx')%list_elem_of_fmap. apply elem_of_seqZ in Hx'.
    simpl. lia. }
  assert (E2 : ∀ c, c ∈ (λ y, (r, y)) <$> seqZ (t + 1) (b - t) → c.1 = r ∧ t < c.2 ≤ b).
  { intros c (y & -> & Hy')%list_elem_of_fmap. apply elem_of_seqZ in Hy'.
    simpl. lia. }
  assert (E3 : ∀ c, c ∈ (if t <? b
      then (λ x, (x, b)) <$> reverse (seqZ l (r - l)) else [])
      → t < b ∧ c.2 = b ∧ l ≤ c.1 < r).
  { intros c. destruct (Z.ltb_spec t b); [|by rewrite elem_of_nil].
    intros (x & -> & Hx')%list_elem_of_fmap.
    apply elem_of_reverse, elem_of_seqZ in Hx'. simpl. lia. }
  assert (E4 : ∀ c, c ∈ (if l <? r
      then (λ y, (l, y)) <$> reverse (seqZ (t + 1) (b - t - 1)) else [])
      → l < r ∧ c.1 = l ∧ t < c.2 < b).
  { intros c. destruct (Z.ltb_spec l r); [|by rewrite elem_of_nil].
    intros (y & -> & Hy')%list_elem_of_fmap.
    apply elem_of_reverse, elem_of_seqZ in Hy'. simpl. lia. }
  apply NoDup_app. split_and!; [apply Hx, NoDup_seqZ | |].
  { intros c H1%E1. rewrite !elem_of_app.
    intros [H2%E2|[H3%E3|H4%E4]]; lia. }
  apply NoDup_app. split_and!; [apply Hy, NoDup_seqZ | |].
  { intros c H2%E2. rewrite !elem_of_app. intros [H3%E3|H4%E4]; lia. }
  apply NoDup_app. split_and!.
  - destruct (t <? b); [apply Hx, Hr | apply NoDup_nil_2].
  - intros c H3%E3 H4%E4. lia.
  - destruct (l <? r); [apply Hy, Hr | apply NoDup_nil_2].
Qed.

(** A ring is walked by single steps, from its top left corner; when it
    is at least two cells wide and high it ends just below this corner. *)
Lemma ring_walk (l t r b : Z) :
  l ≤ r → t ≤ b →
  contiguous (ring l t r b)
  ∧ head (ring l t r b) = Some (l, t)
  ∧ (l < r → t < b → last (ring l t r b) = Some (l, t + 1)).
Proof.
  intros Hlr Htb. unfold ring.
  replace (r - l + 1) with (Z.of_nat (S (Z.to_nat (r - l)))) by lia.
  split_and!.
  2: { by rewrite seqZ_cons by lia. }
  - destruct (Z.ltb_spec t b) as [Ht|Ht].
    + replace (b - t) with (Z.of_nat (S (Z.to_nat (b - t - 1)))) by lia.
      apply contiguous_app; [apply contiguous_line_x | |].
      2: { intros a c. rewrite fmap_last, last_seqZ. intros [= <-].
           rewrite seqZ_cons by lia. intros [= <-]. simpl. lia. }
      destruct (Z.ltb_spec l r) as [Hl|Hl].
      * apply contiguous_app; [apply contiguous_line_y | |].
        2: { intros a c. rewrite fmap_last, last_seqZ. intros [= <-].
             replace (r - l) with (Z.of_nat (S (Z.to_nat (r - l - 1)))) by lia.
             rewrite seqZ_S, reverse_snoc. intros [= <-]. simpl. lia. }
        replace (Z.of_nat (S (Z.to_nat (b - t - 1))) - 1) with (b - t - 1) by lia.
        apply contiguous_app.
        -- rewrite fmap_reverse. apply contiguous_reverse, contiguous_line_x.
        -- rewrite fmap_reverse. apply contiguous_reverse, contiguous_line_y.
        -- intros a c. rewrite fmap_reverse, last_reverse.
           replace (r - l) with (Z.of_nat (S (Z.to_nat (r - l - 1)))) by lia.
           rewrite seqZ_cons by lia. intros [= <-].
           rewrite fmap_reverse, head_reverse, fmap_last.
           destruct (decide (b - t - 1 ≤ 0)) as [Hs|Hs].
           { rewrite seqZ_nil by lia. done. }
           replace (b - t - 1) with (Z.of_nat (S (Z.to_nat (b - t - 2)))) by lia.
           rewrite last_seqZ. intros [= <-]. cbn [fst snd].
           lia.
      * replace (r - l) with 0 by lia. rewrite (seqZ_nil l 0) by lia.
        rewrite reverse_nil, fmap_nil, !app_nil_r. apply contiguous_line_y.
    + replace (b - t) with 0 by lia. rewrite (seqZ_nil (t + 1) 0) by lia.
      rewrite (seqZ_nil (t + 1) (0 - 1)) by lia. rewrite reverse_nil. simpl.
      destruct (l <? r); simpl; rewrite !app_nil_r; apply contiguous_line_x.
  - intros Hl Ht.
    destruct (Z.ltb_spec t b) as [_|]; [|lia].
    destruct (Z.ltb_spec l r) as [_|]; [|lia].
    rewrite !app_assoc.
    destruct (decide (b - t - 1 ≤ 0)) as [Hs|Hs].
    + rewrite (seqZ_nil (t + 1) (b - t - 1)) by lia.
      rewrite reverse_nil, fmap_nil, app_nil_r.
      rewrite last_app, fmap_reverse, last_reverse.
      replace (r - l) with (Z.of_nat (S (Z.to_nat (r - l - 1)))) by lia.
      rewrite seqZ_cons by lia. simpl. do 2 f_equal. lia.
    + rewrite last_app, fmap_reverse, last_reverse.
      replace (b - t - 1) with (Z.of_nat (S (Z.to_nat (b - t - 2)))) by lia.
      rewrite seqZ_cons by lia. done.
Qed.

Lemma spiralLoop_spec (fuel : nat) (l t r b : Z) (path : list Cell) :
  (Z.to_nat (r - l + 1) ≤ fuel)%nat →
  ∃ p, spiralLoop fuel l t r b path = Some (path ++ p)
     ∧ NoDup p
     ∧ (∀ c, c ∈ p ↔ l ≤ c.1 ≤ r ∧ t ≤ c.2 ≤ b)
     ∧ contiguous p
     ∧ (∀ c, head p = Some c → c = (l, t)).
Proof.
  revert l t r b path. induction fuel as [|fuel IH]; intros l t r b path Hfuel.
  - exists []. simpl. destruct (Z.leb_spec l r) as [Hlr|Hlr]; [lia|]. simpl.
    rewrite app_nil_r. split_and!; [done | apply NoDup_nil_2 | | apply contiguous_nil | done].
    intros c. rewrite elem_of_nil. lia.
  - simpl. destruct (Z.leb_spec l r) as [Hlr|Hlr]; simpl;
      [destruct (Z.leb_spec t b) as [Htb|Htb]|].
    + destruct (IH (l + 1) (t + 1) (r - 1) (b - 1) (path ++ ring l t r b))
        as (p & -> & Hnd & Hin & Hc & Hh); [lia|].
      destruct (ring_walk l t r b Hlr Htb) as (Hrc & Hrh & Hrl).
      exists (ring l t r b ++ p). rewrite app_assoc. split_and!; [done | | | |].
      * apply NoDup_app. split_and!; [apply NoDup_ring | | done].
        intros c Hc1%elem_of_ring Hc2%Hin; lia.
      * intros c. rewrite elem_of_app, elem_of_ring, Hin by done. lia.
      * apply contiguous_app; [done..|]. intros a c Ha Hc'.
        pose proof (Hh _ Hc') as ->.
        assert (Hmem : (l + 1, t + 1) ∈ p).
        { destruct p; [done|]. injection Hc' as ->. apply list_elem_of_here. }
        apply Hin in Hmem. simpl in Hmem.
        rewrite Hrl in Ha by lia. injection Ha as <-. simpl. lia.
      * intros c. destruct (ring l t r b); [done|]. simpl in *. congruence.
    + exists []. rewrite app_nil_r.
      split_and!; [done | apply NoDup_nil_2 | | apply contiguous_nil | done].
      intros c. rewrite elem_of_nil. lia.
    + exists []. rewrite app_nil_r.
      split_and!; [done | apply NoDup_nil_2 | | apply contiguous_nil | done].
      intros c. rewrite elem_of_nil. lia.
Qed.

(** The spiral always ends and returns a snake: ring after ring from the
    border inwards, every cell of the grid once, each cell 4-adjacent to
    the one before it. *)
Theorem buildSpiralSnakePath_snake cols rows :
  ∃ p, buildSpiralSnakePath cols rows = Some p
     ∧ Hamiltonian cols rows p ∧ contiguous p.
Proof.
  unfold buildSpiralSnakePath.
  destruct (spiralLoop_spec (Z.to_nat cols) 0 0 (cols - 1) (rows - 1) [])
    as (p & -> & Hnd & Hin & Hc & _); [lia|].
  exists p. split_and!; [done | | done]. split; [done|].
  intros c. rewrite Hin. unfold inGrid. lia.
Qed.

Lemma rotate_Permutation {A} (n : nat) (l : list A) : drop n l ++ take n l ≡ₚ l.
Proof. by rewrite (comm (++)), take_drop. Qed.

Lemma stitchRing_Permutation (path ring_ : list Cell) :
  stitchRing path ring_ ≡ₚ path ++ ring_.
Proof.
  unfold stitchRing. destruct ring_ as [|c ring_]; [by rewrite app_nil_r|].
  destruct (last path) as [last_|]; [|done]. cbv zeta.
  set (r := c :: ring_).
  destruct (findIndex (adjacentTo last_) r =? -1).
  - destruct (negb _); by rewrite ?rotate_Permutation, reverse_Permutation.
  - destruct (negb _); by rewrite ?rotate_Permutation.
Qed.

Lemma foldl_stitch_Permutation (R : Z → list Cell) (ls : list Z) (acc : list Cell) :
  foldl (λ path layer, stitchRing path (R layer)) acc ls ≡ₚ acc ++ (ls ≫= R).
Proof.
  revert acc. induction ls as [|x ls IH]; intros acc.
  - simpl. by rewrite app_nil_r.
  - rewrite bind_cons. cbn [foldl]. by rewrite IH, stitchRing_Permutation, app_assoc.
Qed.

Lemma ceilHalf_gt (d z : Z) : z < ceilHalf d ↔ 2 * z < d.
Proof. unfold ceilHalf. parity (- d). lia. Qed.

(** The rings of the layers [0 .. layers - 1], one after the other in any
    order, hold no cell twice and no cell off the grid. *)
Lemma layers_spec (cols rows : Z) :
  let rings := seqZ 0 (ceilHalf (Z.min cols rows))
               ≫= λ layer, ring layer layer (cols - 1 - layer) (rows - 1 - layer) in
  NoDup rings ∧ ∀ c, c ∈ rings → inGrid cols rows c.
Proof.
  cbv zeta.
  assert (Hel : ∀ layer c, layer ∈ seqZ 0 (ceilHalf (Z.min cols rows)) →
    c ∈ ring layer layer (cols - 1 - layer) (rows - 1 - layer) →
    inGrid cols rows c
    ∧ layer = Z.min (Z.min c.1 c.2) (Z.min (cols - 1 - c.1) (rows - 1 - c.2))).
  { intros layer c Hl%elem_of_seqZ Hc. destruct Hl as [H0 Hl%ceilHalf_gt].
    apply elem_of_ring in Hc; [|lia..]. unfold inGrid. lia. }
  split.
  - apply NoDup_bind; [| |apply NoDup_seqZ].
    + intros l1 l2 c H1 H2 Hc1 Hc2.
      destruct (Hel _ _ H1 Hc1) as [_ ->]. by destruct (Hel _ _ H2 Hc2) as [_ ->].
    + intros layer _. apply NoDup_ring.
  - intros c (layer & Hc & Hl)%list_elem_of_bind. by destruct (Hel _ _ Hl Hc).
Qed.

(** The rings and the perimeter templates hold every cell of the grid
    once, whatever the size: however a ring is rotated or reversed to be
    stitched to the path, it brings its own cells once and no other. *)
Theorem buildRingsPath_Hamiltonian cols rows :
  Hamiltonian cols rows (buildRingsPath cols rows)
  ∧ Hamiltonian cols rows (buildPerimeterFirstPath cols rows).
Proof.
  destruct (layers_spec cols rows) as [Hnd Hin]. cbv zeta in Hnd, Hin.
  assert (Hp : ∀ R : Z → list Cell,
    (∀ layer, layer ∈ seqZ 0 (ceilHalf (Z.min cols rows)) →
       R layer = ring layer layer (cols - 1 - layer) (rows - 1 - layer)) →
    Hamiltonian cols rows
      (fillMissing cols rows
         (foldl (λ path layer, stitchRing path (R layer)) []
                (seqZ 0 (ceilHalf (Z.min cols rows)))))).
  { intros R HR.
    assert (HR' : seqZ 0 (ceilHalf (Z.min cols rows)) ≫= R
      = seqZ 0 (ceilHalf (Z.min cols rows))
        ≫= λ layer, ring layer layer (cols - 1 - layer) (rows - 1 - layer)).
    { apply Forall_bind_ext, Forall_forall. intros layer Hl. by apply HR. }
    apply fillMissing_Hamiltonian.
    - rewrite foldl_stitch_Permutation. simpl. by rewrite HR'.
    - intros c. rewrite foldl_stitch_Permutation. simpl. rewrite HR'. apply Hin. }
  split.
  - unfold buildRingsPath. cbv zeta.
    apply (Hp (λ layer, if (layer <=? rows - 1 - layer) && (layer <=? cols - 1 - layer)
                        then ring layer layer (cols - 1 - layer) (rows - 1 - layer)
                        else [])).
    intros layer Hl%elem_of_seqZ. destruct Hl as [H0 Hl%ceilHalf_gt].
    destruct (Z.leb_spec layer (rows - 1 - layer)); [|lia].
    destruct (Z.leb_spec layer (cols - 1 - layer)); [done | lia].
  - unfold buildPerimeterFirstPath. cbv zeta.
    by apply (Hp (λ layer, ring layer layer (cols - 1 - layer) (rows - 1 - layer))).
Qed.

(** ** The recursive split template *)

Lemma joinHalves_spec (a b : list Cell) :
  a ≠ [] → b ≠ [] →
  ∃ b', joinHalves a b = Some (a ++ b') ∧ b' ≡ₚ b.
Proof.
  intros Ha Hb. unfold joinHalves.
  destruct (last a) as [lastA|] eqn:El.
  2: { by apply last_None in El. }
  destruct b as [|firstB b]; [done|]. simpl.
  destruct (_ =? 1); [by eexists|].
  eexists. split; [done|]. apply reverse_Permutation.
Qed.

Lemma hilbertRec_rect (fuel : nat) (x0 y0 w h : Z) :
  1 ≤ w → 1 ≤ h → w + h - 1 ≤ Z.of_nat fuel →
  ∃ p, hilbertRec fuel x0 y0 w h = Some p
     ∧ NoDup p ∧ (∀ c, c ∈ p ↔ inRect x0 y0 w h c) ∧ p ≠ [].
Proof.
  revert x0 y0 w h. induction fuel as [|fuel IH]; intros x0 y0 w h Hw Hh Hfuel;
    [lia|].
  cbn [hilbertRec].
  destruct (Z.eqb_spec w 1) as [->|Hw1].
  { eexists. split_and!; [done | | |].
    - apply NoDup_fmap_2; [by intros y1 y2 [= ->] | apply NoDup_seqZ].
    - intros [x y]. rewrite list_elem_of_fmap. setoid_rewrite elem_of_seqZ.
      unfold inRect. simpl. split.
      + intros (y' & [= -> ->] & ?). lia.
      + intros [? ?]. exists y. split; [f_equal; lia | lia].
    - rewrite seqZ_cons by lia. done. }
  destruct (Z.eqb_spec h 1) as [->|Hh1].
  { eexists. split_and!; [done | | |].
    - apply NoDup_fmap_2; [by intros x1 x2 [= ->] | apply NoDup_seqZ].
    - intros [x y]. rewrite list_elem_of_fmap. setoid_rewrite elem_of_seqZ.
      unfold inRect. simpl. split.
      + intros (x' & [= -> ->] & ?). lia.
      + intros [? ?]. exists x. split; [f_equal; lia | lia].
    - rewrite seqZ_cons by lia. done. }
  assert (Hdw : 1 ≤ w / 2 < w) by (parity w; lia).
  assert (Hdh : 1 ≤ h / 2 < h) by (parity h; lia).
  destruct (w >=? h).
  - destruct (IH x0 y0 (w / 2) h) as (a & -> & Hna & Hia & Hea); [lia..|].
    destruct (IH (x0 + w / 2) y0 (w - w / 2) h) as (b & -> & Hnb & Hib & Heb);
      [lia..|].
    cbn [mbind option_bind].
    destruct (joinHalves_spec a b Hea Heb) as (b' & -> & Hb').
    exists (a ++ b'). split_and!; [done | | |].
    + apply NoDup_app. split_and!; [done | | by rewrite Hb'].
      intros c Hca%Hia. rewrite Hb'. intros Hcb%Hib. unfold inRect in *. lia.
    + intros c. rewrite elem_of_app, Hb', Hia, Hib. unfold inRect. lia.
    + destruct a; done.
  - destruct (IH x0 y0 w (h / 2)) as (a & -> & Hna & Hia & Hea); [lia..|].
    destruct (IH x0 (y0 + h / 2) w (h - h / 2)) as (b & -> & Hnb & Hib & Heb);
      [lia..|].
    cbn [mbind option_bind].
    destruct (joinHalves_spec a b Hea Heb) as (b' & -> & Hb').
    exists (a ++ b'). split_and!; [done | | |].
    + apply NoDup_app. split_and!; [done | | by rewrite Hb'].
      intros c Hca%Hia. rewrite Hb'. intros Hcb%Hib. unfold inRect in *. lia.
    + intros c. rewrite elem_of_app, Hb', Hia, Hib. unfold inRect. lia.
    + destruct a; done.
Qed.

(** On a grid with at least one cell the recursive split template
    returns: no half is ever empty, the recursion is no deeper than
    [cols + rows], and the path holds every cell of the grid once. *)
Theorem buildHilbertLikePath_Hamiltonian cols rows :
  1 ≤ cols → 1 ≤ rows →
  ∃ p, buildHilbertLikePath cols rows = Some p ∧ Hamiltonian cols rows p.
Proof.
  intros Hc Hr. unfold buildHilbertLikePath.
  destruct (hilbertRec_rect (S (Z.to_nat (cols + rows))) 0 0 cols rows)
    as (p & -> & Hnd & Hin & _); [lia..|].
  eexists. split; [done|]. apply fillMissing_Hamiltonian; [done|].
  intros c Hc'%Hin. unfold inRect in Hc'. unfold inGrid. lia.
Qed.

Lemma buildHilbertLikePath_Hamiltonian_witness :
  ∃ p, buildHilbertLikePath 6 6 = Some p ∧ Hamiltonian 6 6 p.
Proof. apply (buildHilbertLikePath_Hamiltonian 6 6); lia. Defined.

Lemma hilbertRec_slab (fuel : nat) (x0 y0 w h : Z) :
  (w = 0 ∧ 0 ≤ h) ∨ (h = 0 ∧ 0 ≤ w) →
  hilbertRec fuel x0 y0 w h = None ∨ hilbertRec fuel x0 y0 w h = Some [].
Proof.
  revert x0 y0 w h. induction fuel as [|fuel IH]; intros x0 y0 w h Hwh;
    [by left|].
  cbn [hilbertRec].
  destruct (Z.eqb_spec w 1) as [->|Hw1].
  { right. destruct Hwh as [[? ?]|[-> _]]; [lia|]. done. }
  destruct (Z.eqb_spec h 1) as [->|Hh1].
  { right. destruct Hwh as [[-> _]|[? ?]]; [done | lia]. }
  assert (Hjoin : ∀ o1 o2 : option (list Cell),
    (o1 = None ∨ o1 = Some []) →
    (a ← o1; b ← o2; joinHalves a b) = None).
  { intros o1 o2 [->| ->]; [done|]. simpl. by destruct o2. }
  left. destruct (w >=? h) eqn:E.
  - apply Hjoin, IH. parity w. lia.
  - apply Hjoin, IH. parity h. lia.
Qed.

(** On a grid with no cell the recursive split template never returns,
    unless one side is [1]: a slab that is empty in one direction and not
    [1] long in the other is split until a half is empty, and joining
    reads the last cell of an empty half (a [TypeError]), or, for [0 x 0],
    the recursion never ends. *)
Theorem buildHilbertLikePath_empty_throws (fuel : nat) cols rows :
  (cols = 0 ∧ 0 ≤ rows ∨ rows = 0 ∧ 0 ≤ cols) → cols ≠ 1 → rows ≠ 1 →
  hilbertRec fuel 0 0 cols rows = None
  ∧ buildHilbertLikePath cols rows = None.
Proof.
  intros Hwh Hc Hr.
  assert (H : ∀ fuel, hilbertRec fuel 0 0 cols rows = None).
  { intros [|f]; [done|]. cbn [hilbertRec].
    destruct (Z.eqb_spec cols 1) as [|_]; [done|].
    destruct (Z.eqb_spec rows 1) as [|_]; [done|].
    assert (Hjoin : ∀ o1 o2 : option (list Cell),
      (o1 = None ∨ o1 = Some []) →
      (a ← o1; b ← o2; joinHalves a b) = None).
    { intros o1 o2 [->| ->]; [done|]. simpl. by destruct o2. }
    destruct (cols >=? rows) eqn:E.
    - apply Hjoin, hilbertRec_slab. parity cols. lia.
    - apply Hjoin, hilbertRec_slab. parity rows. lia. }
  split; [apply H|]. unfold buildHilbertLikePath. by rewrite H.
Qed.

Lemma buildHilbertLikePath_empty_throws_witness :
  hilbertRec 10 0 0 0 3 = None ∧ buildHilbertLikePath 0 3 = None.
Proof. apply (buildHilbertLikePath_empty_throws 10 0 3); lia. Defined.

(** ** The public build: walking out and back *)

Lemma play_app (mv : Dir → Game → option Game) (ds1 ds2 : list Dir) (g g1 : Game) :
  play mv ds1 g = Some g1 → play mv (ds1 ++ ds2) g = play mv ds2 g1.
Proof.
  revert g. induction ds1 as [|d ds1 IH]; intros g; simpl.
  - by intros [= ->].
  - destruct (mv d g) as [g'|]; [apply IH | done].
Qed.

Lemma play_over (wa : Game → bool) (ds : list Dir) (g : Game) :
  gameOver g = true → play (moveWith wa) ds g = Some g.
Proof.
  intros Hover. induction ds as [|d ds IH]; [done|]. simpl.
  unfold moveWith at 1. by rewrite Hover.
Qed.

(** A forward step of the public build onto a fresh cell that does not
    win. *)
Lemma public_step_quiet (g : Game) (c d : Cell) (a : Anchor) :
  player g = c → gameOver g = false →
  find (λ a, an a =? K g) (anchors g) = Some a →
  stepOK g c d → d ∉ trail g →
  (d = (ax a, ay a) →
     Z.of_nat (size ({[d]} ∪ visitedCells g)) ≠ COLS g * ROWS g) →
  Public.move (dirBetween c d) g = Some (forwardStep d.1 d.2 g).
Proof.
  intros Hpl Hover Hfind (Hgrid & Hadj & Hwall) Hfresh Hquiet.
  pose proof (stepTarget_dirBetween g c d Hpl Hadj) as Ht.
  unfold Public.move. rewrite moveWith_fresh; rewrite ?Ht; try done.
  - destruct (forwardStep_fields g d.1 d.2) as (Htr & Hp & Hvis & Hov & Hlay).
    cbv zeta in *. destruct Hlay as (Hc & Hr & _ & Han & _).
    unfold winTest, K. rewrite Han. fold (K g). rewrite Hfind.
    replace (Public.walkedAll (forwardStep d.1 d.2 g) && _ && _) with false; [done|].
    symmetry. apply andb_false_iff.
    destruct (decide (d = (ax a, ay a))) as [Hd|Hd].
    + left. apply andb_false_iff. left. unfold Public.walkedAll.
      apply Z.eqb_neq. rewrite Hvis, Hc, Hr. destruct d. by apply Hquiet.
    + right. rewrite Hp. simpl. apply andb_false_iff.
      destruct (Z.eqb_spec d.1 (ax a)) as [E1|]; [|by left].
      destruct (Z.eqb_spec d.2 (ay a)) as [E2|]; [|by right].
      destruct d. simpl in *. congruence.
  - apply outOfBounds_false. by destruct d.
  - by rewrite Hpl.
Qed.

Lemma public_walk_quiet (q : list Cell) : ∀ (g : Game) (t : list Cell) (c : Cell)
    (a : Anchor),
  trail g = t ++ [c] → player g = c → gameOver g = false →
  find (λ a, an a =? K g) (anchors g) = Some a →
  validSteps g c q → NoDup (t ++ c :: q) →
  (∀ q1 d q2, q = q1 ++ d :: q2 → d = (ax a, ay a) →
     Z.of_nat (size (visitedCells g ∪ list_to_set (q1 ++ [d]))) ≠ COLS g * ROWS g) →
  ∃ g', play Public.move (keysAlong c q) g = Some g'
      ∧ trail g' = t ++ c :: q ∧ last (c :: q) = Some (player g')
      ∧ visitedCells g' = visitedCells g ∪ list_to_set q
      ∧ gameOver g' = false ∧ sameLayout g g'.
Proof.
  induction q as [|d q IH]; intros g t c a Htr Hpl Hover Hfind Hsteps Hnd Hquiet.
  { exists g. simpl. rewrite Hpl, Htr.
    split_and!; try done. by rewrite union_empty_r_L. }
  destruct Hsteps as [Hstep Hsteps]. cbn [keysAlong play].
  assert (Hfresh : d ∉ trail g).
  { rewrite Htr. apply NoDup_app in Hnd as (_ & Hd & Hnd).
    apply NoDup_cons in Hnd as [Hc _]. intros [Hin| ->%list_elem_of_singleton]%elem_of_app.
    - apply (Hd d Hin). apply list_elem_of_further, list_elem_of_here.
    - apply Hc, list_elem_of_here. }
  rewrite (public_step_quiet g c d a); try done.
  2: { intros Hd. specialize (Hquiet [] d q eq_refl Hd). simpl in Hquiet.
       by rewrite union_empty_r_L, (comm_L (∪)) in Hquiet. }
  destruct (forwardStep_fields g d.1 d.2) as (Htr' & Hp' & Hvis' & Hov' & Hlay').
  cbv zeta in *. replace (d.1, d.2) with d in * by by destruct d.
  destruct (IH (forwardStep d.1 d.2 g) (t ++ [c]) d a) as (g' & Hplay & Ht' & Hl' & Hv' & Ho' & Hs').
  - by rewrite Htr', Htr.
  - done.
  - by rewrite Hov'.
  - destruct Hlay' as (_ & _ & _ & Han & _). unfold K. by rewrite Han.
  - by eapply validSteps_layout.
  - by rewrite <- app_assoc.
  - intros q1 e q2 -> He. specialize (Hquiet (d :: q1) e q2 eq_refl He).
    destruct Hlay' as (Hc & Hr & _). rewrite Hc, Hr, Hvis'.
    intros Hsz. apply Hquiet. rewrite <- Hsz. f_equal. f_equal.
    simpl. by rewrite (assoc_L (∪)), (comm_L (∪) _ {[d]}).
  - exists g'. split_and!; try done.
    + by rewrite Ht', <- app_assoc.
    + rewrite Hv', Hvis'. simpl. by rewrite (assoc_L (∪)), (comm_L (∪) _ {[d]}).
    + by eapply sameLayout_trans.
Qed.

(** A step back of the public build: the trail loses its last cell, the
    coverage keeps it. *)
Lemma public_step_back (g : Game) (t : list Cell) (c d : Cell) :
  trail g = t ++ [c; d] → player g = d → gameOver g = false →
  inGrid (COLS g) (ROWS g) c → stepOK g c d →
  ∃ g', Public.move (dirBetween d c) g = Some g'
      ∧ trail g' = t ++ [c] ∧ player g' = c
      ∧ visitedCells g' = visitedCells g
      ∧ gameOver g' = false ∧ sameLayout g g'.
Proof.
  intros Htr Hpl Hover Hgrid (_ & Hadj & Hwall).
  assert (Ht : stepTarget (dirBetween d c) g = c).
  { apply stepTarget_dirBetween; [done | lia]. }
  unfold Public.move, moveWith. rewrite Hover, Ht.
  destruct c as [cx cy]. cbn [fst snd] in *.
  rewrite (proj2 (outOfBounds_false g cx cy) Hgrid).
  rewrite Hpl, blockedByWall_sym, Hwall.
  rewrite findIndex_found.
  2: { rewrite Htr. apply elem_of_app. right. apply list_elem_of_here. }
  cbn [negb].
  rewrite (proj2 (isImmediateBack_spec (trail g) cx cy)) by (by exists t, d).
  eexists. split; [done|]. simpl. rewrite Htr, removelast_snoc2. done.
Qed.

Lemma public_retreat (q : list Cell) : ∀ (g : Game) (t : list Cell) (c : Cell),
  trail g = t ++ c :: q → last (c :: q) = Some (player g) → gameOver g = false →
  inGrid (COLS g) (ROWS g) c → validSteps g c q →
  ∃ g', play Public.move (keysBack c q) g = Some g'
      ∧ trail g' = t ++ [c] ∧ player g' = c
      ∧ visitedCells g' = visitedCells g
      ∧ gameOver g' = false ∧ sameLayout g g'.
Proof.
  induction q as [|d q IH]; intros g t c Htr Hpl Hover Hgrid Hsteps.
  { exists g. simpl in *. injection Hpl as <-. done. }
  destruct Hsteps as [Hstep Hsteps]. cbn [keysBack].
  destruct (IH g (t ++ [c]) d) as (g1 & Hplay & Ht1 & Hp1 & Hv1 & Ho1 & Hs1).
  - by rewrite <- app_assoc.
  - done.
  - done.
  - by destruct Hstep.
  - done.
  - rewrite (play_app _ _ _ _ _ Hplay). cbn [play].
    destruct (public_step_back g1 t c d) as (g2 & Hm & Ht2 & Hp2 & Hv2 & Ho2 & Hs2).
    + by rewrite Ht1, <- app_assoc.
    + done.
    + done.
    + destruct Hs1 as (Hc & Hr & _). by rewrite Hc, Hr.
    + by eapply stepOK_layout.
    + rewrite Hm. exists g2. split_and!; try done.
      * congruence.
      * by eapply sameLayout_trans.
Qed.

(** The forward step of the public build that wins. *)
Lemma public_step_win (g : Game) (t : list Cell) (c d : Cell) (a : Anchor) :
  trail g = t ++ [c] → player g = c → gameOver g = false →
  find (λ a, an a =? K g) (anchors g) = Some a → d = (ax a, ay a) →
  stepOK g c d → d ∉ trail g →
  Z.of_nat (size ({[d]} ∪ visitedCells g)) = COLS g * ROWS g →
  numbersAlong g (t ++ [c; d]) = mustOrder (length (anchors g)) →
  ∃ g', Public.move (dirBetween c d) g = Some g' ∧ gameOver g' = true.
Proof.
  intros Htr Hpl Hover Hfind Hd (Hgrid & Hadj & Hwall) Hfresh Hsize Hnum.
  pose proof (stepTarget_dirBetween g c d Hpl Hadj) as Ht.
  unfold Public.move. rewrite moveWith_fresh; rewrite ?Ht; try done.
  - destruct (forwardStep_fields g d.1 d.2) as (Htr' & Hp & Hvis & Hov & Hlay).
    cbv zeta in *. pose proof Hlay as (Hc & Hr & _ & Han & Ham & _).
    replace (d.1, d.2) with d in * by by destruct d.
    unfold winTest, K. rewrite Han. fold (K g). rewrite Hfind.
    assert (H1 : Public.walkedAll (forwardStep d.1 d.2 g) = true).
    { unfold Public.walkedAll. apply Z.eqb_eq. by rewrite Hvis, Hc, Hr. }
    assert (H2 : visitedInOrder (forwardStep d.1 d.2 g) = true).
    { apply visitedInOrder_spec. rewrite Htr', Htr, Han, <- app_assoc.
      unfold numbersAlong in *. rewrite Ham. simpl in *. rewrite Hnum.
      apply firstVisits_NoDup. rewrite mustOrder_eq. apply NoDup_seqZ. }
    rewrite H1, H2, Hp, Hd. simpl. rewrite !Z.eqb_refl. simpl.
    eexists. split; done.
  - apply outOfBounds_false. by destruct d.
  - by rewrite Hpl.
Qed.

Ltac cells_set :=
  repeat first
    [ rewrite elem_of_union | rewrite elem_of_list_to_set | rewrite elem_of_app
    | rewrite elem_of_cons | rewrite elem_of_singleton | rewrite elem_of_reverse
    | rewrite elem_of_nil | rewrite elem_of_empty ];
  tauto.

Lemma lookup_middle_pair {A} (l1 m l2 : list A) (i : nat) (x y : A) :
  m !! i = Some x → m !! S i = Some y →
  (l1 ++ m ++ l2) !! (length l1 + i)%nat = Some x
  ∧ (l1 ++ m ++ l2) !! S (length l1 + i) = Some y.
Proof.
  intros Hx Hy. split.
  - rewrite lookup_app_r by lia. replace (length l1 + i - length l1)%nat with i by lia.
    by apply lookup_app_l_Some.
  - rewrite lookup_app_r by lia.
    replace (S (length l1 + i) - length l1)%nat with (S i) by lia.
    by apply lookup_app_l_Some.
Qed.

Lemma numbersAlong_layout (g g' : Game) (p : list Cell) :
  sameLayout g g' → numbersAlong g' p = numbersAlong g p.
Proof. intros (_ & _ & _ & _ & Ham & _). unfold numbersAlong. by rewrite Ham. Qed.

Lemma validSteps_app_inv (g : Game) (c : Cell) (q1 q2 : list Cell) :
  validSteps g c (q1 ++ q2) →
  validSteps g c q1 ∧ ∀ c', last (c :: q1) = Some c' → validSteps g c' q2.
Proof.
  revert c. induction q1 as [|d q1 IH]; intros c; simpl.
  - intros H. split; [done|]. by intros c' [= <-].
  - intros [Hstep Hsteps]. destruct (IH d Hsteps) as [H1 H2].
    split; [done|]. intros c' Hc'. apply H2. by destruct q1.
Qed.

Lemma snoc_of_cons {A} (x : A) (l : list A) : ∃ t c, x :: l = t ++ [c].
Proof.
  induction l as [|y l _] using rev_ind; [by exists [], x | by exists (x :: l), y].
Qed.

(** In the public build a layout laid along an open snake can be won from
    the cell of number 1, wherever this cell lies on the snake: walk to
    the head of the snake, step back to the start, walk to the tail, step
    back to just before the last number, and step onto it.  Coverage is
    kept through the steps back. *)
Lemma public_snake_win (g : Game) (A B C : list Cell) (c0 gK : Cell)
    (a : Anchor) :
  atStart g → player g = c0 →
  Hamiltonian (COLS g) (ROWS g) (A ++ (c0 :: B ++ [gK]) ++ C) →
  (∀ (i : nat) x y,
     (A ++ (c0 :: B ++ [gK]) ++ C) !! i = Some x →
     (A ++ (c0 :: B ++ [gK]) ++ C) !! S i = Some y →
     stepOK g x y ∧ stepOK g y x) →
  find (λ a, an a =? K g) (anchors g) = Some a → gK = (ax a, ay a) →
  numbersAlong g (c0 :: B ++ [gK]) = mustOrder (length (anchors g)) →
  ∃ keys g', play Public.move keys g = Some g' ∧ gameOver g' = true.
Proof.
  intros Hstart Hplayer Hham Hopen Hfind Hgoal Hnum.
  destruct Hstart as (Htr & Hvis & Hover & Hin). rewrite Hplayer in Htr, Hvis, Hin.
  pose proof Hham as [Hnd Hmem].
  assert (Htotal : Z.of_nat (length (A ++ (c0 :: B ++ [gK]) ++ C)) = COLS g * ROWS g).
  { rewrite (Hamiltonian_length _ _ _ Hham). unfold inGrid in Hin. lia. }
  (* the pieces of the snake are disjoint *)
  pose proof Hnd as HndA. apply NoDup_app in HndA as (HA & HAM & HM').
  pose proof HM' as HMC. apply NoDup_app in HMC as (HM & HMC & HC).
  assert (HfindL : ∀ g', sameLayout g g' →
    find (λ a, an a =? K g') (anchors g') = Some a).
  { intros g' (_ & _ & _ & Han & _). unfold K. by rewrite Han. }
  (* legal steps along the pieces *)
  assert (HvA : validSteps g c0 (reverse A)).
  { apply validSteps_of_lookup. intros i x y Hx Hy.
    change (c0 :: reverse A) with ([c0] ++ reverse A) in Hx, Hy.
    rewrite <- (reverse_singleton c0), <- reverse_app in Hx, Hy.
    assert (Hi : (S i < length (A ++ [c0]))%nat).
    { apply lookup_lt_Some in Hy. by rewrite length_reverse in Hy. }
    rewrite reverse_lookup in Hx by lia. rewrite reverse_lookup in Hy by lia.
    replace (length (A ++ [c0]) - S i)%nat
      with (S (length (A ++ [c0]) - S (S i))) in Hx by lia.
    set (j := (length (A ++ [c0]) - S (S i))%nat) in *.
    assert (Hs : A ++ (c0 :: B ++ [gK]) ++ C = (A ++ [c0]) ++ (B ++ [gK]) ++ C)
      by (simpl; rewrite <- !app_assoc; done).
    apply (Hopen j y x); rewrite Hs; by apply lookup_app_l_Some. }
  assert (HvM : validSteps g c0 (B ++ [gK] ++ C)).
  { apply validSteps_of_lookup. intros i x y Hx Hy.
    destruct (lookup_middle_pair A (c0 :: B ++ [gK] ++ C) [] i x y Hx Hy) as [H1 H2].
    rewrite app_nil_r in H1, H2.
    assert (Hs : A ++ (c0 :: B ++ [gK]) ++ C = A ++ c0 :: B ++ [gK] ++ C)
      by (simpl; rewrite <- !app_assoc; done).
    apply (Hopen (length A + i)%nat x y); by rewrite Hs. }
  destruct (validSteps_app_inv g c0 B ([gK] ++ C) HvM) as [HvB HvC].
  assert (HgA : gK ∉ A).
  { intros Hg. apply (HAM gK Hg). apply elem_of_app. left.
    apply list_elem_of_further, elem_of_app. right. apply list_elem_of_here. }
  assert (HgB : gK ∉ c0 :: B).
  { change (c0 :: B ++ [gK]) with ((c0 :: B) ++ [gK]) in HM.
    apply NoDup_app in HM as (_ & HM & _). intros Hg. apply (HM gK Hg).
    apply list_elem_of_here. }
  assert (HgC : gK ∉ C).
  { apply HMC. apply list_elem_of_further, elem_of_app. right. apply list_elem_of_here. }
  (* walk to the head of the snake *)
  destruct (public_walk_quiet (reverse A) g [] c0 a)
    as (g1 & Hp1 & Ht1 & Hl1 & Hv1 & Ho1 & Hs1); try done.
  { simpl. apply NoDup_cons. split; [|by rewrite reverse_Permutation].
    rewrite elem_of_reverse. intros Hc. apply (HAM c0 Hc). apply elem_of_app. left.
    apply list_elem_of_here. }
  { intros q1 d q2 Hq Hd. exfalso. apply HgA. rewrite Hgoal, <- Hd.
    apply elem_of_reverse. rewrite Hq. apply elem_of_app. right. apply list_elem_of_here. }
  (* and back to the start *)
  destruct (public_retreat (reverse A) g1 [] c0)
    as (g2 & Hp2 & Ht2 & Hpl2 & Hv2 & Ho2 & Hs2); try done.
  { destruct Hs1 as (Hc & Hr & _). by rewrite Hc, Hr. }
  { by eapply validSteps_layout. }
  pose proof (sameLayout_trans _ _ _ Hs1 Hs2) as Hs02.
  (* walk up to the last number *)
  destruct (public_walk_quiet B g2 [] c0 a)
    as (g3 & Hp3 & Ht3 & Hl3 & Hv3 & Ho3 & Hs3); try done.
  { by apply HfindL. }
  { by eapply validSteps_layout. }
  { simpl. change (c0 :: B ++ [gK]) with ((c0 :: B) ++ [gK]) in HM.
    by apply NoDup_app in HM as (? & _ & _). }
  { intros q1 d q2 Hq Hd. exfalso. apply HgB. rewrite Hgoal, <- Hd.
    apply list_elem_of_further. rewrite Hq. apply elem_of_app. right.
    apply list_elem_of_here. }
  pose proof (sameLayout_trans _ _ _ Hs02 Hs3) as Hs03.
  simpl in Ht3.
  destruct (snoc_of_cons c0 B) as (t & c & Htc).
  rewrite Htc in Ht3, Hl3. rewrite last_snoc in Hl3. injection Hl3 as Hpl3.
  assert (HvGC : validSteps g c (gK :: C)).
  { apply HvC. by rewrite Htc, last_snoc. }
  assert (Hv3' : visitedCells g3 = list_to_set (A ++ c0 :: B)).
  { rewrite Hv3, Hv2, Hv1, Hvis. apply set_eq. intros x. cells_set. }
  assert (HndAB : NoDup (A ++ c0 :: B ++ [gK])).
  { apply NoDup_app. split_and!; [done | | done].
    intros x Hx Hx'. apply (HAM x Hx). apply elem_of_app. by left. }
  assert (Hlay3 : COLS g3 = COLS g ∧ ROWS g3 = ROWS g ∧ anchors g3 = anchors g).
  { destruct Hs03 as (? & ? & _ & ? & _). done. }
  assert (Hnum' : ∀ g', sameLayout g g' →
    numbersAlong g' (t ++ [c; gK]) = mustOrder (length (anchors g'))).
  { intros g' Hs'. rewrite (numbersAlong_layout g g' _ Hs').
    destruct Hs' as (_ & _ & _ & -> & _).
    change (t ++ [c; gK]) with (t ++ [c] ++ [gK]). by rewrite app_assoc, <- Htc. }
  destruct C as [|c1 C].
  - (* the last number is at the tail: the last step wins *)
    destruct (public_step_win g3 t c gK a) as (g4 & Hm & Hw); try done.
    + by apply HfindL.
    + eapply stepOK_layout; [done|]. by destruct HvGC.
    + by rewrite Ht3, <- Htc.
    + destruct Hlay3 as (-> & -> & _). rewrite <- Htotal, Hv3'.
      replace ({[gK]} ∪ list_to_set (A ++ c0 :: B))
        with (list_to_set (C:=gset Cell) (A ++ c0 :: B ++ [gK])).
      * rewrite size_list_to_set by done. by rewrite app_nil_r.
      * apply set_eq. intros x. cells_set.
    + by apply Hnum'.
    + exists (keysAlong c0 (reverse A) ++ keysBack c0 (reverse A)
              ++ keysAlong c0 B ++ [dirBetween c gK]), g4.
      rewrite (play_app _ _ _ _ _ Hp1), (play_app _ _ _ _ _ Hp2),
        (play_app _ _ _ _ _ Hp3). cbn [play]. by rewrite Hm.
  - (* walk over the last number to the tail, step back, and step onto it *)
    destruct (public_walk_quiet (gK :: c1 :: C) g3 t c a)
      as (g4 & Hp4 & Ht4 & Hl4 & Hv4 & Ho4 & Hs4); try done.
    { by apply HfindL. }
    { by eapply validSteps_layout. }
    { change (t ++ c :: gK :: c1 :: C) with (t ++ [c] ++ gK :: c1 :: C).
      rewrite app_assoc, <- Htc.
      change ((c0 :: B) ++ gK :: c1 :: C) with (c0 :: B ++ [gK] ++ c1 :: C).
      by rewrite app_assoc. }
    { intros q1 d q2 Hq Hd. destruct q1 as [|x q1].
      - destruct Hlay3 as (-> & -> & _). rewrite <- Htotal, Hv3'. simpl.
        replace (list_to_set (A ++ c0 :: B) ∪ ({[d]} ∪ ∅))
          with (list_to_set (C:=gset Cell) (A ++ c0 :: B ++ [gK])).
        + rewrite size_list_to_set by done. rewrite !length_app. simpl.
          rewrite !length_app. simpl. lia.
        + injection Hq as <- _. apply set_eq. intros x. cells_set.
      - exfalso. injection Hq as _ Hq. apply HgC. rewrite Hgoal, <- Hd, Hq.
        apply elem_of_app. right. apply list_elem_of_here. }
    pose proof (sameLayout_trans _ _ _ Hs03 Hs4) as Hs04.
    destruct (public_retreat (gK :: c1 :: C) g4 t c)
      as (g5 & Hp5 & Ht5 & Hpl5 & Hv5 & Ho5 & Hs5); try done.
    { destruct Hs04 as (Hc & Hr & _). rewrite Hc, Hr. apply Hmem.
      apply elem_of_app. right. apply elem_of_app. left.
      change (c0 :: B ++ [gK]) with ((c0 :: B) ++ [gK]). rewrite Htc.
      apply elem_of_app. left. apply elem_of_app. right. apply list_elem_of_here. }
    { by eapply validSteps_layout. }
    pose proof (sameLayout_trans _ _ _ Hs04 Hs5) as Hs05.
    destruct (public_step_win g5 t c gK a) as (g6 & Hm & Hw); try done.
    + by apply HfindL.
    + eapply stepOK_layout; [done|]. by destruct HvGC.
    + by rewrite Ht5, <- Htc.
    + destruct Hs05 as (-> & -> & _). rewrite <- Htotal, Hv5, Hv4, Hv3'.
      replace ({[gK]} ∪ (list_to_set (A ++ c0 :: B) ∪ list_to_set (gK :: c1 :: C)))
        with (list_to_set (C:=gset Cell) (A ++ (c0 :: B ++ [gK]) ++ c1 :: C)).
      * by rewrite size_list_to_set by done.
      * apply set_eq. intros x. cells_set.
    + by apply Hnum'.
    + exists (keysAlong c0 (reverse A) ++ keysBack c0 (reverse A)
              ++ keysAlong c0 B ++ keysAlong c (gK :: c1 :: C)
              ++ keysBack c (gK :: c1 :: C) ++ [dirBetween c gK]), g6.
      rewrite (play_app _ _ _ _ _ Hp1), (play_app _ _ _ _ _ Hp2),
        (play_app _ _ _ _ _ Hp3), (play_app _ _ _ _ _ Hp4),
        (play_app _ _ _ _ _ Hp5). cbn [play]. by rewrite Hm.
Qed.

(** ** The public build: what generation lays out *)

Lemma Forall2_impl_elem {X Y} (P Q : X → Y → Prop) (l : list X) (k : list Y) :
  Forall2 P l k → (∀ x y, x ∈ l → P x y → Q x y) → Forall2 Q l k.
Proof.
  induction 1 as [|x y l k Hxy Hall IH]; intros Himp; constructor.
  - apply Himp; [apply list_elem_of_here | done].
  - apply IH. intros x' y' Hx'. apply Himp. by apply list_elem_of_further.
Qed.

(** The cells at ascending indices of a path are a sublist of it. *)
Lemma cells_sublist (idxs : list nat) : ∀ (off : nat) (s cells : list Cell),
  StronglySorted (<)%nat idxs → (∀ i, i ∈ idxs → (off ≤ i)%nat) →
  Forall2 (λ i c, s !! (i - off)%nat = Some c) idxs cells →
  cells `sublist_of` s.
Proof.
  induction idxs as [|i idxs IH]; intros off s cells Hsort Hoff Hall.
  { apply Forall2_nil_inv_l in Hall as ->. apply sublist_nil_l. }
  apply Forall2_cons_inv_l in Hall as (c & cells' & Hc & Hall & ->).
  apply StronglySorted_inv in Hsort as [Hsort Hlt].
  rewrite Forall_forall in Hlt.
  assert (Hi : (off ≤ i)%nat) by apply Hoff, list_elem_of_here.
  rewrite <- (take_drop_middle s (i - off) c Hc).
  apply sublist_inserts_l, sublist_skip.
  apply (IH (S i)); [done | |].
  - intros j Hj. apply Hlt in Hj. lia.
  - eapply Forall2_impl_elem; [exact Hall|]. cbv beta.
    intros j d Hj Hd. apply Hlt in Hj. rewrite lookup_drop.
    rewrite <- Hd. f_equal. lia.
Qed.

Lemma StronglySorted_lt (l : list nat) :
  Sorted (≤)%nat l → NoDup l → StronglySorted (<)%nat l.
Proof.
  intros Hs Hnd. apply Sorted_StronglySorted in Hs; [|intros x y z; lia].
  induction Hs as [|x l Hs IH Hall]; [constructor|].
  apply NoDup_cons in Hnd as [Hx Hnd]. constructor; [by apply IH|].
  rewrite Forall_forall in *. intros y Hy. specialize (Hall y Hy).
  assert (x ≠ y) by (by intros ->). lia.
Qed.

(** The numbers met along a path on which the anchors lie in order. *)
Lemma anchorsOn_lookup (cells : list Cell) : ∀ (n : Z) (m : gmap Cell Z) (c : Cell),
  (c ∉ cells →
     foldl (λ m a, <[keyOf (ax a) (ay a) := an a]> m) m (anchorsOn cells n) !! c
     = m !! c)
  ∧ (NoDup cells → ∀ j : nat, cells !! j = Some c →
     foldl (λ m a, <[keyOf (ax a) (ay a) := an a]> m) m (anchorsOn cells n) !! c
     = Some (n + Z.of_nat j)).
Proof.
  induction cells as [|d cells IH]; intros n m c; simpl.
  { split; [done|]. intros _ j Hj. by rewrite lookup_nil in Hj. }
  unfold keyOf. replace (d.1, d.2) with d by by destruct d. split.
  - intros [Hne Hc]%not_elem_of_cons.
    rewrite (proj1 (IH _ _ _) Hc). by apply lookup_insert_ne.
  - intros [Hd Hnd]%NoDup_cons [|j] Hj; simpl in Hj.
    + injection Hj as ->. rewrite (proj1 (IH _ _ _) Hd), lookup_insert_eq.
      f_equal. lia.
    + rewrite (proj2 (IH _ _ _) Hnd j Hj). f_equal. lia.
Qed.

Lemma omap_sublist (f : Cell → option Z) (cells s : list Cell) :
  cells `sublist_of` s → NoDup s → ∀ n : Z,
  (∀ (j : nat) c, cells !! j = Some c → f c = Some (n + Z.of_nat j)) →
  (∀ c, c ∈ s → c ∉ cells → f c = None) →
  omap f s = seqZ n (Z.of_nat (length cells)).
Proof.
  induction 1 as [|x cells s Hsub IH|x cells s Hsub IH]; intros Hnd n Hin Hout.
  - done.
  - apply NoDup_cons in Hnd as [Hx Hnd].
    cbn [omap list_omap]. rewrite (Hin 0%nat x eq_refl). cbn [length].
    rewrite seqZ_cons by lia. rewrite Z.add_0_r. f_equal.
    replace (Z.pred (Z.of_nat (S (length cells)))) with (Z.of_nat (length cells)) by lia.
    replace (Z.succ n) with (n + 1) by lia.
    apply IH; [done | |].
    + intros j c Hj. rewrite (Hin (S j) c Hj). f_equal. lia.
    + intros c Hc Hc'. apply Hout; [by apply list_elem_of_further|].
      intros [->|?]%elem_of_cons; [|done]. done.
  - apply NoDup_cons in Hnd as [Hx Hnd].
    cbn [omap list_omap]. rewrite (Hout x).
    + apply IH; [done | done |]. intros c Hc. apply Hout.
      by apply list_elem_of_further.
    + apply list_elem_of_here.
    + intros Hxc. apply Hx. by apply (sublist_subseteq _ _ Hsub).
Qed.

Lemma find_anchorsOn (cells : list Cell) : ∀ (n m : Z) (j : nat) (c : Cell),
  cells !! j = Some c → m = n + Z.of_nat j →
  find (λ a, an a =? m) (anchorsOn cells n) = Some (mkAnchor c.1 c.2 m).
Proof.
  induction cells as [|d cells IH]; intros n m j c Hj Hm;
    [by rewrite lookup_nil in Hj|].
  destruct j as [|j]; simpl in *.
  - injection Hj as ->. replace m with n by lia. by rewrite Z.eqb_refl.
  - destruct (Z.eqb_spec n m) as [|_]; [lia|].
    apply (IH (n + 1) m j c Hj). lia.
Qed.

Lemma length_anchorsOn (cells : list Cell) (n : Z) :
  length (anchorsOn cells n) = length cells.
Proof. revert n. induction cells as [|c cells IH]; intros n; simpl; by rewrite ?IH. Qed.

Lemma public_placeAnchors_spec (s : list Cell) (idxs : list nat) (cells : list Cell) :
  Forall2 (λ i c, s !! i = Some c) idxs cells →
  ∀ (n k : nat) (acc : list Anchor * gmap Cell Z),
  (k + n = length cells)%nat →
  PublicBuild.placeAnchors s idxs (seqZ (Z.of_nat k + 1) (Z.of_nat n)) acc
  = (acc.1 ++ anchorsOn (drop k cells) (Z.of_nat k + 1),
     foldl (λ m a, <[keyOf (ax a) (ay a) := an a]> m) acc.2
           (anchorsOn (drop k cells) (Z.of_nat k + 1)),
     true).
Proof.
  intros Hall. induction n as [|n IH]; intros k [l m] Hk.
  - rewrite drop_ge by lia. simpl. by rewrite app_nil_r.
  - destruct (lookup_lt_is_Some_2 cells k) as [c Hc]; [lia|].
    destruct (Forall2_lookup_r _ _ _ _ _ Hall Hc) as (i & Hi & Hs).
    rewrite seqZ_cons by lia. cbn [PublicBuild.placeAnchors].
    replace (Z.to_nat (Z.of_nat k + 1 - 1)) with k by lia.
    rewrite Hi. cbn [mbind option_bind]. rewrite Hs. destruct c as [x y].
    replace (Z.succ (Z.of_nat k + 1)) with (Z.of_nat (S k) + 1) by lia.
    replace (Z.pred (Z.of_nat (S n))) with (Z.of_nat n) by lia.
    rewrite IH by lia. cbn [fst snd].
    rewrite (drop_S cells (x, y) k Hc). cbn [anchorsOn foldl fst snd].
    replace (Z.of_nat k + 1 + 1) with (Z.of_nat (S k) + 1) by lia.
    by rewrite <- app_assoc.
Qed.

Lemma lookups_exist (s : list Cell) (idxs : list nat) :
  (∀ i, i ∈ idxs → (i < length s)%nat) →
  ∃ cells, Forall2 (λ i c, s !! i = Some c) idxs cells.
Proof.
  induction idxs as [|i idxs IH]; intros Hr; [by exists []|].
  destruct (lookup_lt_is_Some_2 s i) as [c Hc]; [apply Hr, list_elem_of_here|].
  destruct IH as [cells Hcells].
  { intros j Hj. by apply Hr, list_elem_of_further. }
  exists (c :: cells). by constructor.
Qed.

(** No step of the snake is walled. *)
Lemma snake_edge_open rnd (s : list Cell) wallPct (g : Game) (i k : nat)
    (x y : Cell) :
  NoDup s → s !! k = Some x → s !! S k = Some y →
  blockedByWall (walls (buildShortcutWallsFromSnake rnd s wallPct g i).1)
                x.1 x.2 y.1 y.2 = false.
Proof.
  intros Hnd Hx Hy.
  destruct (blockedByWall _ x.1 x.2 y.1 y.2) eqn:Hblocked; [|done].
  apply blockedByWall_edge in Hblocked as (w & He & Hw).
  apply buildShortcutWalls_allowed in Hw.
  assert (Hd : Z.abs (findIndex (cellEq x.1 x.2) s - findIndex (cellEq y.1 y.2) s) = 1).
  { rewrite (findIndex_lookup s _ x Hnd Hx), (findIndex_lookup s _ y Hnd Hy). lia. }
  destruct x as [ax ay], y as [bx by_]. unfold edgeWall in He. simpl in *.
  repeat case_decide; simplify_eq; simpl in *; lia.
Qed.

Lemma generate_winnable (rnd : Tape) (withWalls : bool) (def : LevelDef)
    (w : World) :
  0 < d_cols def → 0 < d_rows def → 2 ≤ d_K def ≤ d_cols def * d_rows def →
  publicWinnable (PublicBuild.generate rnd withWalls def w) (d_K def).
Proof.
  intros Hcols Hrows HK.
  set (s := buildSnakePathBase (d_cols def) (d_rows def)).
  pose proof (buildSnakePathBase_Hamiltonian (d_cols def) (d_rows def)) as Hham.
  pose proof (buildSnakePathBase_contiguous (d_cols def) (d_rows def)) as Hcont.
  fold s in Hham, Hcont. pose proof Hham as [Hnd Hmem].
  assert (Hlen : Z.of_nat (length s) = d_cols def * d_rows def).
  { rewrite (Hamiltonian_length _ _ _ Hham). lia. }
  destruct (pickIndicesWithMinGap_spec rnd (length s) (d_K def) (d_minGap def)
              (rndReads w)) as (Hlk & Hndi & Hsorted & Hrange); [lia|].
  cbv zeta in Hlk, Hndi, Hsorted, Hrange.
  destruct (lookups_exist s _ Hrange) as [cells Hcells].
  assert (Hlc : Z.of_nat (length cells) = d_K def).
  { by rewrite <- (Forall2_length _ _ _ Hcells). }
  assert (Hsub : cells `sublist_of` s).
  { apply (cells_sublist _ 0 s cells (StronglySorted_lt _ Hsorted Hndi)); [lia|].
    eapply Forall2_impl; [exact Hcells|]. intros i c. by rewrite Nat.sub_0_r. }
  assert (Hndc : NoDup cells) by (by eapply sublist_NoDup).
  (* the first and the last anchor cell, and where they lie on the snake *)
  destruct cells as [|c0 cells]; [simpl in Hlc; lia|].
  destruct cells as [|c1 cells _] using rev_ind; [simpl in Hlc; lia|].
  rename c1 into gK. rename cells into mid.
  pose proof Hsub as (A & s1 & Hs & Hsub1)%sublist_cons_l.
  apply sublist_app_l in Hsub1 as (k1 & k2 & -> & Hmid & Hg).
  apply sublist_cons_l in Hg as (k3 & C & -> & _).
  set (B := k1 ++ k3).
  assert (Hs' : s = A ++ (c0 :: B ++ [gK]) ++ C).
  { rewrite Hs. unfold B. simpl. by rewrite <- !app_assoc. }
  assert (HsubM : (c0 :: mid ++ [gK]) `sublist_of` (c0 :: B ++ [gK])).
  { apply sublist_skip. unfold B. rewrite <- app_assoc.
    apply sublist_app; [done|]. apply sublist_inserts_l. done. }
  assert (HndM : NoDup (c0 :: B ++ [gK])).
  { rewrite Hs' in Hnd. apply NoDup_app in Hnd as (_ & _ & Hnd).
    by apply NoDup_app in Hnd as (? & _ & _). }
  set (anch := anchorsOn (c0 :: mid ++ [gK]) 1).
  set (am := foldl (λ (m : gmap Cell Z) a, <[keyOf (ax a) (ay a) := an a]> m)
                   ∅ anch).
  assert (Hplace : PublicBuild.placeAnchors s
            (pickIndicesWithMinGap rnd (length s) (d_K def) (d_minGap def)
               (rndReads w)).1 (seqZ 1 (d_K def)) ([], ∅)
          = (anch, am, true)).
  { pose proof (public_placeAnchors_spec s _ _ Hcells
                  (length (c0 :: mid ++ [gK])) 0 ([], ∅) eq_refl) as Hp.
    rewrite Hlc in Hp. exact Hp. }
  assert (Hf1 : find (λ a, an a =? 1) anch = Some (mkAnchor c0.1 c0.2 1)).
  { by apply (find_anchorsOn _ 1 1 0 c0). }
  assert (HfK : find (λ a, an a =? d_K def) anch
                = Some (mkAnchor gK.1 gK.2 (d_K def))).
  { apply (find_anchorsOn _ 1 (d_K def) (S (length mid)) gK).
    - simpl. by rewrite lookup_app_r, Nat.sub_diag.
    - rewrite <- Hlc. simpl. rewrite length_app. simpl. lia. }
  assert (Hnum : omap (λ c : Cell, getCellNumber am c.1 c.2) (c0 :: B ++ [gK])
                 = mustOrder (length anch)).
  { rewrite mustOrder_eq.
    replace (length anch) with (length (c0 :: mid ++ [gK]))
      by (unfold anch; by rewrite length_anchorsOn).
    apply omap_sublist; [done | done | |].
    - intros j c Hj. unfold getCellNumber, keyOf, am, anch.
      replace (c.1, c.2) with c by by destruct c.
      by apply anchorsOn_lookup.
    - intros c _ Hc. unfold getCellNumber, keyOf, am, anch.
      replace (c.1, c.2) with c by by destruct c.
      rewrite (proj1 (anchorsOn_lookup _ _ _ _) Hc). apply lookup_empty. }
  assert (Hin0 : inGrid (d_cols def) (d_rows def) c0).
  { apply Hmem. rewrite Hs'. apply elem_of_app. right. apply elem_of_app. left.
    apply list_elem_of_here. }
  (* run the generator *)
  unfold publicWinnable, PublicBuild.generate. cbv zeta. fold s.
  rewrite Hplace. cbn [negb fst snd].
  set (g0 := set_anchors anch am
               (set_walls ∅ (set_anchors [] ∅
                  (buildGrid (d_cols def) (d_rows def) (game w))))).
  set (gw := if withWalls
             then buildShortcutWallsFromSnake rnd s (d_wallPct def) g0
                    (pickIndicesWithMinGap rnd (length s) (d_K def) (d_minGap def)
                       (rndReads w)).2
             else (g0, (pickIndicesWithMinGap rnd (length s) (d_K def)
                          (d_minGap def) (rndReads w)).2)).
  assert (Hgw : COLS gw.1 = d_cols def ∧ ROWS gw.1 = d_rows def
                ∧ anchors gw.1 = anch ∧ anchorsMap gw.1 = am
                ∧ ∀ (k : nat) x y, s !! k = Some x → s !! S k = Some y →
                    blockedByWall (walls gw.1) x.1 x.2 y.1 y.2 = false).
  { unfold gw. destruct withWalls.
    - split_and!; try done. intros k x y. by apply snake_edge_open.
    - split_and!; try done. intros k x y _ _. simpl. unfold blockedByWall.
      repeat case_match; try done; by apply bool_decide_eq_false_2. }
  destruct gw as [g1 i1]. cbn [fst] in Hgw.
  destruct Hgw as (Hc1 & Hr1 & Ha1 & Hm1 & Hw1).
  rewrite Ha1, Hf1. cbn [anchors set_player]. rewrite Ha1, HfK.
  cbn [fst snd game].
  set (gf := placePlayer _ _).
  assert (Hgf : COLS gf = d_cols def ∧ ROWS gf = d_rows def ∧ player gf = c0
                ∧ trail gf = [c0] ∧ visitedCells gf = {[c0]}
                ∧ gameOver gf = false ∧ anchors gf = anch ∧ anchorsMap gf = am
                ∧ walls gf = walls g1).
  { unfold gf, placePlayer, keyOf. simpl.
    replace (c0.1, c0.2) with c0 by by destruct c0. by rewrite Hc1, Hr1, Ha1, Hm1. }
  clearbody gf.
  destruct Hgf as (Hcf & Hrf & Hpf & Htf & Hvf & Hof & Haf & Hmf & Hwf).
  assert (Hstart : atStart gf).
  { unfold atStart. by rewrite Htf, Hvf, Hpf, Hof, Hcf, Hrf. }
  split_and!; [done | done | | |].
  - unfold K. rewrite Haf. unfold anch. by rewrite length_anchorsOn.
  - by rewrite Hmf, Haf.
  - apply (public_snake_win gf A B C c0 gK (mkAnchor gK.1 gK.2 (d_K def)));
      try done.
    + rewrite Hcf, Hrf, <- Hs'. done.
    + rewrite <- Hs'. intros k x y Hx Hy.
      assert (Hadj : Z.abs (y.1 - x.1) + Z.abs (y.2 - x.2) = 1) by by apply (Hcont k).
      assert (Hgx : inGrid (COLS gf) (ROWS gf) x).
      { rewrite Hcf, Hrf. apply Hmem. by eapply list_elem_of_lookup_2. }
      assert (Hgy : inGrid (COLS gf) (ROWS gf) y).
      { rewrite Hcf, Hrf. apply Hmem. by eapply list_elem_of_lookup_2. }
      assert (Hwx : blockedByWall (walls gf) x.1 x.2 y.1 y.2 = false).
      { rewrite Hwf. by apply (Hw1 k). }
      split; (split; [done|]; split; [lia|]); [done|].
      by rewrite blockedByWall_sym.
    + unfold K. rewrite Haf.
      replace (Z.of_nat (length anch)) with (d_K def); [done|].
      unfold anch. by rewrite length_anchorsOn.
    + by destruct gK.
    + unfold numbersAlong. by rewrite Hmf, Haf.
Qed.

(** The public build never checks that a layout can be solved, and it
    need not: with at least two numbers that fit on the grid, generation
    returns, and the layout it leaves can be won by walking the serpentine
    out and back, since a step back keeps the coverage. *)
Theorem public_generated_winnable (rnd : Tape) (w : World) :
  (∀ def, 0 < d_cols def → 0 < d_rows def →
     2 ≤ d_K def ≤ d_cols def * d_rows def →
     publicWinnable (PublicBuild.generateLevel rnd def w) (d_K def))
  ∧ publicWinnable (PublicBuild.generateZip6x6 rnd w) 12.
Proof.
  split.
  - intros def Hc Hr HK. by apply generate_winnable.
  - apply (generate_winnable rnd false zipDef w); simpl; lia.
Qed.

Lemma public_generated_winnable_witness :
  publicWinnable (PublicBuild.generateLevel tape0 (mkDef 6 6 10 2 0) world0) 10.
Proof.
  apply (proj1 (public_generated_winnable tape0 world0) (mkDef 6 6 10 2 0));
    simpl; lia.
Defined.

(** ** Generation with a single number *)

Lemma NoDup_head_last {A} (p : list A) (x : A) :
  NoDup p → head p = Some x → last p = Some x → (length p ≤ 1)%nat.
Proof.
  destruct p as [|y [|z q]]; simpl; [lia | lia |].
  intros [Hy _]%NoDup_cons [= ->] Hl. exfalso. apply Hy.
  change (last (x :: z :: q)) with (last (z :: q)) in Hl.
  by apply last_Some_elem_of.
Qed.

(** A layout whose start is its goal has no solution on a grid of two
    cells or more. *)
Lemma no_round_trip (g : Game) (c : Cell) (p : list Cell) :
  0 < COLS g → 0 < ROWS g → 2 ≤ COLS g * ROWS g → ¬ Solution g c c p.
Proof.
  intros Hc Hr H2 (Hh & Hl & _ & Hham & _).
  pose proof (Hamiltonian_length _ _ _ Hham) as Hlen.
  pose proof (NoDup_head_last p c (proj1 Hham) Hh Hl). nia.
Qed.

(** An attempt leaves the saved layout alone when no handler changes the
    globals while it is suspended. *)
Lemma attemptOnce_keeps_saved rnd now sortBy env gen withWalls def attempt w :
  (∀ p, undisturbed env p) →
  savedLayout (game (attemptOnce rnd now sortBy env gen withWalls def attempt w).1)
  = savedLayout (game w).
Proof.
  intros Hquiet.
  destruct (attemptOnce rnd now sortBy env gen withWalls def attempt w)
    as [w' [v|]] eqn:Hstep; simpl;
    [|by destruct (attemptOnce_throws_early _ _ _ _ _ _ _ _ _ _ Hstep) as [-> _]].
  revert Hstep. unfold attemptOnce.
  destruct (gen _ _ _ _) as [[[snake i] c]|]; [|done].
  destruct (placeAnchors _ _ _ _ _ _) as [[placed am] ok].
  destruct ok; cbn [negb fst snd]; [|done].
  destruct (if withWalls then _ else _) as [g1 i1] eqn:Hw.
  assert (Hs : savedLayout g1 = savedLayout (game w)).
  { destruct withWalls.
    - unfold buildShortcutWallsFromSnake in Hw. by injection Hw as <- _.
    - by injection Hw as <- _. }
  destruct (find _ (anchors g1)); [|done].
  destruct (find _ (anchors (set_player _ g1))); [|done].
  cbv zeta. intros Hc. apply checkCandidate_checked in Hc as [_ Hc].
  rewrite Hquiet in Hc. destruct v.
  - destruct Hc as [-> _]. done.
  - destruct Hc as (told & Ht & _ & ->). rewrite Hquiet.
    by destruct Ht as [-> | ->].
Qed.

(** So does a request that does not end as solved. *)
Lemma attemptLoop_keeps_saved rnd now sortBy env gen withWalls def
    (left_ attempt : nat) (log : list (option bool)) (w : World) :
  (∀ p, undisturbed env p) →
  let r := attemptLoop rnd now sortBy env gen withWalls def left_ attempt log w in
  ending r ≠ Solved → savedLayout (game (world r)) = savedLayout (game w).
Proof.
  intros Hquiet. revert attempt log w.
  induction left_ as [|left' IH]; intros attempt log w; simpl; [done|].
  pose proof (attemptOnce_keeps_saved rnd now sortBy env gen withWalls def
                (S attempt) w Hquiet) as Hsaved.
  destruct (attemptOnce rnd now sortBy env gen withWalls def (S attempt) w)
    as [w' [[]|]]; simpl in *; [done | | done].
  intros Hns. by rewrite (IH _ _ _ Hns).
Qed.

(** A configuration with [K = 1] on a grid of two cells or more is none of
    the invalid configurations, and its candidates cannot pass the
    verifier: the only number is both the start and the goal.  When no
    handler changes the globals while the request is suspended, all 50
    attempts are made and fail, and the saved layout is left as it was. *)
Theorem generateLevel_single_number (rnd : Tape) (now : Clock) (sortBy : Sorter)
    (env : Yield) (gen : SnakeGen) (def : LevelDef) (w : World) :
  tapeInRange rnd → (∀ cmp l, sortBy cmp l ≡ₚ l) →
  goodGen gen (d_cols def) (d_rows def) →
  (∀ p, undisturbed env p) →
  d_K def = 1 → 0 < d_cols def → 0 < d_rows def →
  2 ≤ d_cols def * d_rows def →
  let r := generateLevel rnd now sortBy env gen def w in
  ¬ invalidConfig def
  ∧ ending r = Exhausted ∧ attemptsMade r = MAX_ATTEMPTS
  ∧ (∀ v, v ∈ verdicts r → v = Some false)
  ∧ savedLayout (game (world r)) = savedLayout (game w).
Proof.
  intros Hrnd Hsort Hgen Hquiet HK Hc Hr H2 r.
  assert (Hvalid : ¬ invalidConfig def) by (unfold invalidConfig; lia).
  split; [done|].
  destruct (attemptLoop_valid rnd now sortBy env gen true def Hrnd Hgen Hvalid
              MAX_ATTEMPTS 0 [] w) as (Hthrew & _ & Hsolved).
  fold (generateLevel rnd now sortBy env gen def w) in Hthrew, Hsolved.
  fold r in Hthrew, Hsolved.
  assert (Hns : ending r ≠ Solved).
  { intros Hs.
    destruct (Hsolved Hs (λ n, Hquiet (BeforeCheck n)))
      as (snake & g & Hham & Hfresh & _ & _ & c0 & Hq).
    destruct (fresh_start _ _ _ _ _ Hfresh) as (a1 & Hf1 & Hp).
    destruct (fresh_goal _ _ _ _ _ Hfresh) as (aK & HfK & Hg).
    rewrite HK, Hf1 in HfK. injection HfK as <-.
    pose proof (fresh_cols _ _ _ _ _ Hfresh) as Hcg.
    pose proof (fresh_rows _ _ _ _ _ Hfresh) as Hrg.
    apply isLayoutSolvable_route in Hq as [p Hp']; [|done|].
    - rewrite Hg, <- Hp in Hp'.
      replace ((player g).1, (player g).2) with (player g) in Hp' by by destruct (player g).
      apply (no_round_trip g (player g) p); [lia..|done].
    - rewrite Hcg, Hrg.
      replace ((player g).1, (player g).2) with (player g) by by destruct (player g).
      rewrite Hp. apply Hham, (fresh_on_snake _ _ _ _ _ Hfresh).
      apply list_elem_of_In. by apply (find_some _ _ Hf1). }
  pose proof (attemptLoop_keeps_saved rnd now sortBy env gen true def
                MAX_ATTEMPTS 0 [] w Hquiet Hns) as Hsaved.
  destruct (attemptLoop_requestRuns rnd now sortBy env gen true def w)
    as (_ & ws & _ & _ & _ & _ & wl & _ & Hend).
  fold (generateLevel rnd now sortBy env gen def w) in Hend, Hsaved.
  fold r in Hend, Hsaved.
  destruct (ending r); [done | | done].
  destruct Hend as (Hl & Hall & _).
  split_and!; [done | done | | done].
  intros v Hv'. rewrite Forall_forall in Hall. by apply Hall.
Qed.

Lemma generateLevel_single_number_witness :
  let r := generateLevel tape0 clock0 insertionSort noEvents
             (buildRandomSnakePath tape0 Serpentine) def_K1 world0 in
  ending r = Exhausted ∧ attemptsMade r = MAX_ATTEMPTS.
Proof.
  destruct (generateLevel_single_number tape0 clock0 insertionSort noEvents
              (buildRandomSnakePath tape0 Serpentine) def_K1 world0
              tape0_inRange insertionSort_Permutation (goodGen_serpentine tape0 2))
    as (_ & He & Hn & _); simpl; try lia.
  - by intros p w.
  - by split.
Defined.

(** The premise on the yield points cannot be dropped.  When the key
    "right" is handled while the first attempt waits before its checks,
    the player has left number 1 by the time the checks run: the checks
    accept the candidate with its single number, and the request saves a
    layout whose player stands beside number 1 with two cells walked. *)
Lemma single_number_key_accepted :
  let r := generateLevel tape0 clock0 insertionSort (keyBeforeCheck move 1 Right)
             (buildRandomSnakePath tape0 Serpentine) def_K1 world0 in
  ending r = Solved ∧ verdicts r = [Some true]
  ∧ anchors (game (world r)) = [mkAnchor 0 0 1]
  ∧ player (game (world r)) = (1, 0)
  ∧ trail (game (world r)) = [(0, 0); (1, 0)]
  ∧ is_Some (savedLayout (game (world r))).
Proof.
  cbv zeta. split_and!; [by vm_compute..|]. vm_compute. by eexists.
Qed.
